(** * Beautiful Mermaid Studio: share-link codec, viewport controller, render scheduler

    A shallow embedding of [src/lib/share-link.ts] and of the state machines
    of [src/App.tsx] (the preview panel's pan/zoom transform and the
    application's render scheduling), with the properties the specification
    states about them.

    Conventions.
    - A JavaScript string is the list of its UTF-16 code units ([jsstring]).
    - A [Uint8Array] is a list of [byte]s.
    - A thrown exception is a value of [thrown]; a function that can throw
      returns [result].
    - Platform functions used by the code ([TextEncoder], [TextDecoder],
      [btoa], [atob], [URLSearchParams], the [URL] accessors) are written out
      after the algorithms of the Encoding, HTML and URL standards. *)

From Stdlib Require Import ZArith String Ascii List Bool Lia.
From Stdlib Require Import Strings.Byte.
From Stdlib Require Import QArith Qabs Qpower.
From Stdlib Require Floats Uint63.
From Stdlib Require Lqa.
Import ListNotations.

Local Open Scope Z_scope.

(* ================================================================== *)
(** * JavaScript strings and bytes                                     *)
(* ================================================================== *)

Module Js.

(** UTF-16 code units, each in [0, 0xFFFF]. *)
Definition jsstring := list Z.

Definition bytes := list byte.

Definition byte_to_Z (b : byte) : Z := Z.of_N (Byte.to_N b).

(** Storing a number into a [Uint8Array] keeps it modulo 256. *)
Definition byte_of_Z (z : Z) : byte :=
  match Byte.of_N (Z.to_N (z mod 256)) with
  | Some b => b
  | None => x00
  end.

(** A literal of the source, as code units. *)
Definition lit (s : string) : jsstring :=
  map (fun a => Z.of_N (N_of_ascii a)) (list_ascii_of_string s).

Fixpoint starts_with (prefix s : jsstring) : bool :=
  match prefix, s with
  | [], _ => true
  | p :: prefix', c :: s' => (p =? c) && starts_with prefix' s'
  | _ :: _, [] => false
  end.

Fixpoint jsstring_eqb (a b : jsstring) : bool :=
  match a, b with
  | [], [] => true
  | x :: a', y :: b' => (x =? y) && jsstring_eqb a' b'
  | _, _ => false
  end.

(** ** Surrogates and scalar values *)

Definition is_lead (c : Z) : bool := (0xD800 <=? c) && (c <=? 0xDBFF).
Definition is_trail (c : Z) : bool := (0xDC00 <=? c) && (c <=? 0xDFFF).

(** [String.prototype.isWellFormed]: every code unit is a 16-bit value and
    no surrogate is unpaired. *)
Fixpoint isWellFormed (s : jsstring) : bool :=
  match s with
  | [] => true
  | c :: s' =>
      if is_lead c then
        match s' with
        | d :: s'' => is_trail d && isWellFormed s''
        | [] => false
        end
      else if is_trail c then false
      else (0 <=? c) && (c <=? 0xFFFF) && isWellFormed s'
  end.

(** Conversion of a string to its scalar values (Web IDL [USVString]):
    a surrogate pair is one scalar value, an unpaired surrogate becomes
    U+FFFD. *)
Fixpoint to_scalars (s : jsstring) : list Z :=
  match s with
  | [] => []
  | c :: s' =>
      if is_lead c then
        match s' with
        | d :: s'' =>
            if is_trail d
            then (0x10000 + (c - 0xD800) * 0x400 + (d - 0xDC00)) :: to_scalars s''
            else 0xFFFD :: to_scalars s'
        | [] => [0xFFFD]
        end
      else if is_trail c then 0xFFFD :: to_scalars s'
      else c :: to_scalars s'
  end.

(** The code units of one scalar value. *)
Definition utf16_units (cp : Z) : list Z :=
  if cp <? 0x10000 then [cp]
  else [0xD800 + Z.shiftr (cp - 0x10000) 10; 0xDC00 + Z.land (cp - 0x10000) 0x3FF].

Definition from_scalars (cps : list Z) : jsstring := flat_map utf16_units cps.

Definition is_scalar (cp : Z) : Prop :=
  0 <= cp <= 0x10FFFF /\ ~ (0xD800 <= cp <= 0xDFFF).

(** ** UTF-8 encoder (Encoding standard) *)

Fixpoint utf8_continuation (cp : Z) (count : nat) : list Z :=
  match count with
  | O => []
  | S n =>
      Z.lor 0x80 (Z.land (Z.shiftr cp (6 * Z.of_nat n)) 0x3F)
        :: utf8_continuation cp n
  end.

Definition utf8_encode_scalar (cp : Z) : list Z :=
  if cp <=? 0x7F then [cp]
  else
    let '(count, offset) :=
      if cp <=? 0x7FF then (1%nat, 0xC0)
      else if cp <=? 0xFFFF then (2%nat, 0xE0)
      else (3%nat, 0xF0) in
    (Z.shiftr cp (6 * Z.of_nat count) + offset) :: utf8_continuation cp count.

Definition utf8_encode (cps : list Z) : bytes :=
  map byte_of_Z (flat_map utf8_encode_scalar cps).

(** [new TextEncoder().encode(s)] *)
Definition TextEncoder_encode (s : jsstring) : bytes :=
  utf8_encode (to_scalars s).

(** ** UTF-8 decoder (Encoding standard), error mode "replacement" *)

Record decoder := {
  code_point : Z;
  bytes_seen : Z;
  bytes_needed : Z;
  lower_boundary : Z;
  upper_boundary : Z
}.

Definition decoder_init : decoder :=
  {| code_point := 0; bytes_seen := 0; bytes_needed := 0;
     lower_boundary := 0x80; upper_boundary := 0xBF |}.

(** The handler when no byte is pending: the emitted code points and the
    next state. *)
Definition lead_step (b : Z) : list Z * decoder :=
  if (0x00 <=? b) && (b <=? 0x7F) then ([b], decoder_init)
  else if (0xC2 <=? b) && (b <=? 0xDF) then
    ([], {| code_point := Z.land b 0x1F; bytes_seen := 0; bytes_needed := 1;
            lower_boundary := 0x80; upper_boundary := 0xBF |})
  else if (0xE0 <=? b) && (b <=? 0xEF) then
    ([], {| code_point := Z.land b 0xF; bytes_seen := 0; bytes_needed := 2;
            lower_boundary := if b =? 0xE0 then 0xA0 else 0x80;
            upper_boundary := if b =? 0xED then 0x9F else 0xBF |})
  else if (0xF0 <=? b) && (b <=? 0xF4) then
    ([], {| code_point := Z.land b 0x7; bytes_seen := 0; bytes_needed := 3;
            lower_boundary := if b =? 0xF0 then 0x90 else 0x80;
            upper_boundary := if b =? 0xF4 then 0x8F else 0xBF |})
  else ([0xFFFD], decoder_init).

(** The handler on a byte: a byte outside the boundaries is an error and
    is handed back to the queue, so it is read again from the initial
    state. *)
Definition decoder_step (d : decoder) (b : Z) : list Z * decoder :=
  if bytes_needed d =? 0 then lead_step b
  else if negb ((lower_boundary d <=? b) && (b <=? upper_boundary d)) then
    let '(out, d') := lead_step b in (0xFFFD :: out, d')
  else
    let cp := Z.lor (Z.shiftl (code_point d) 6) (Z.land b 0x3F) in
    let seen := bytes_seen d + 1 in
    if negb (seen =? bytes_needed d) then
      ([], {| code_point := cp; bytes_seen := seen;
              bytes_needed := bytes_needed d;
              lower_boundary := 0x80; upper_boundary := 0xBF |})
    else ([cp], decoder_init).

Fixpoint decoder_run (d : decoder) (bs : list Z) : list Z :=
  match bs with
  | [] => if negb (bytes_needed d =? 0) then [0xFFFD] else []
  | b :: bs' =>
      let '(out, d') := decoder_step d b in out ++ decoder_run d' bs'
  end.

(** "UTF-8 decode without BOM": the scalar values of a byte sequence. *)
Definition utf8_decode_without_BOM (bs : bytes) : list Z :=
  decoder_run decoder_init (map byte_to_Z bs).

(** [new TextDecoder().decode(bs)]: [fatal] and [ignoreBOM] are false, so
    malformed input yields U+FFFD and a leading U+FEFF is dropped from the
    output. *)
Definition TextDecoder_decode (bs : bytes) : jsstring :=
  match utf8_decode_without_BOM bs with
  | 0xFEFF :: cps => from_scalars cps
  | cps => from_scalars cps
  end.

(** ** Characters the code names *)

Definition SPACE : Z := 0x20.
Definition HASH : Z := 0x23.       (* # *)
Definition PERCENT : Z := 0x25.    (* % *)
Definition AMPERSAND : Z := 0x26.  (* & *)
Definition PLUS : Z := 0x2B.       (* + *)
Definition MINUS : Z := 0x2D.      (* - *)
Definition SLASH : Z := 0x2F.      (* / *)
Definition EQUALS : Z := 0x3D.     (* = *)
Definition QUESTION : Z := 0x3F.   (* ? *)
Definition UNDERSCORE : Z := 0x5F. (* _ *)

(** ** Exceptions *)

(** What a function of the source or of the platform throws. *)
Inductive thrown :=
| Error (message : string)    (* [new Error(message)] *)
| InvalidCharacterError       (* the [DOMException] of [btoa] and [atob] *)
| DecompressionError.         (* raised by the inflate backend on corrupt input *)

Definition result (A : Type) := (thrown + A)%type.

Definition ret {A : Type} (a : A) : result A := inr a.
Definition throw {A : Type} (e : thrown) : result A := inl e.
Definition bind {A B : Type} (r : result A) (k : A -> result B) : result B :=
  match r with
  | inl e => inl e
  | inr a => k a
  end.

Notation "x <- r ;; k" := (bind r (fun x => k))
  (at level 61, r at next level, right associativity).

(** ** Notions the statements use *)

(** Every element is a 16-bit code unit. *)
Definition code_units (s : jsstring) : Prop :=
  Forall (fun c => 0 <= c <= 0xFFFF) s.

(** Every element is the value of a byte. *)
Definition byte_values (bs : list Z) : Prop :=
  Forall (fun b => 0 <= b < 256) bs.

Definition ascii_string (s : jsstring) : Prop :=
  Forall (fun c => 0 <= c <= 0x7F) s.

(** The string of a string's scalar values: the string itself, with
    U+FFFD for each unpaired surrogate. *)
Definition usv (s : jsstring) : jsstring := from_scalars (to_scalars s).

(** The states the decoder goes through on bytes. *)
Definition default_bounds (d : decoder) : Prop :=
  lower_boundary d = 0x80 /\ upper_boundary d = 0xBF.

Definition decoder_ok (d : decoder) : Prop :=
  d = decoder_init
  \/ (bytes_needed d = 1 /\ bytes_seen d = 0 /\ 0 <= code_point d <= 31
      /\ default_bounds d)
  \/ (bytes_needed d = 2 /\ bytes_seen d = 0 /\ 0 <= code_point d <= 15
      /\ 0x80 <= lower_boundary d /\ upper_boundary d <= 0xBF
      /\ (code_point d = 13 -> upper_boundary d = 0x9F))
  \/ (bytes_needed d = 2 /\ bytes_seen d = 1 /\ 0 <= code_point d <= 0x3FF
      /\ ~ (0x360 <= code_point d <= 0x37F) /\ default_bounds d)
  \/ (bytes_needed d = 3 /\ bytes_seen d = 0 /\ 0 <= code_point d <= 4
      /\ 0x80 <= lower_boundary d /\ upper_boundary d <= 0xBF
      /\ (code_point d = 0 -> 0x90 <= lower_boundary d)
      /\ (code_point d = 4 -> upper_boundary d = 0x8F))
  \/ (bytes_needed d = 3 /\ bytes_seen d = 1 /\ 0x10 <= code_point d <= 0x10F
      /\ default_bounds d)
  \/ (bytes_needed d = 3 /\ bytes_seen d = 2
      /\ 0x400 <= code_point d <= 0x43FF /\ default_bounds d).

End Js.

(* ================================================================== *)
(** * Base64 ([btoa], [atob]) and the URL-safe variant of the source     *)
(* ================================================================== *)

Module Base64.
Import Js.

Definition alphabet : jsstring :=
  lit "ABCDEFGHIJKLMNOPQRSTUVWXYZabcdefghijklmnopqrstuvwxyz0123456789+/".

(** The character of a sextet. *)
Definition b64_char (v : Z) : Z := nth (Z.to_nat v) alphabet 0.

Fixpoint index_from (i : Z) (c : Z) (table : list Z) : option Z :=
  match table with
  | [] => None
  | t :: table' => if t =? c then Some i else index_from (i + 1) c table'
  end.

(** The sextet of a character, when it is in the alphabet. *)
Definition b64_index (c : Z) : option Z := index_from 0 c alphabet.

(** Base64 encoding of a byte sequence (RFC 4648, with padding). *)
Fixpoint base64_encode (bs : list Z) : jsstring :=
  match bs with
  | [] => []
  | [a] =>
      [b64_char (Z.shiftr a 2); b64_char (Z.shiftl (Z.land a 3) 4);
       EQUALS; EQUALS]
  | [a; b] =>
      [b64_char (Z.shiftr a 2);
       b64_char (Z.lor (Z.shiftl (Z.land a 3) 4) (Z.shiftr b 4));
       b64_char (Z.shiftl (Z.land b 15) 2);
       EQUALS]
  | a :: b :: c :: rest =>
      b64_char (Z.shiftr a 2)
      :: b64_char (Z.lor (Z.shiftl (Z.land a 3) 4) (Z.shiftr b 4))
      :: b64_char (Z.lor (Z.shiftl (Z.land b 15) 2) (Z.shiftr c 6))
      :: b64_char (Z.land c 63)
      :: base64_encode rest
  end.

(** [btoa(data)]: a code unit above U+00FF is refused. *)
Definition btoa (data : jsstring) : result jsstring :=
  if existsb (fun c => 0xFF <? c) data then throw InvalidCharacterError
  else ret (base64_encode data).

Definition is_ascii_whitespace (c : Z) : bool :=
  (c =? 0x09) || (c =? 0x0A) || (c =? 0x0C) || (c =? 0x0D) || (c =? 0x20).

Definition remove_last {A : Type} (l : list A) : list A :=
  firstn (length l - 1) l.

Definition ends_with_char (c : Z) (s : jsstring) : bool :=
  match rev s with
  | x :: _ => x =? c
  | [] => false
  end.

(** The decoding loop of forgiving-base64 decode: [buffer] holds [n]
    sextets; a full buffer of 24 bits gives three bytes, and the bits left
    at the end give one byte (12 bits, the last four dropped) or two
    (18 bits, the last two dropped). *)
Fixpoint b64_loop (buffer : Z) (n : nat) (cs : jsstring) : option (list Z) :=
  match cs with
  | [] =>
      match n with
      | 0%nat => Some []
      | 2%nat => Some [Z.shiftr buffer 4]
      | 3%nat => Some [Z.shiftr buffer 10; Z.land (Z.shiftr buffer 2) 0xFF]
      | _ => None
      end
  | c :: cs' =>
      match b64_index c with
      | None => None
      | Some v =>
          let buffer' := Z.lor (Z.shiftl buffer 6) v in
          if Nat.eqb n 3 then
            match b64_loop 0 0 cs' with
            | Some out =>
                Some (Z.shiftr buffer' 16
                      :: Z.land (Z.shiftr buffer' 8) 0xFF
                      :: Z.land buffer' 0xFF :: out)
            | None => None
            end
          else b64_loop buffer' (S n) cs'
      end
  end.

(** Forgiving-base64 decode (Infra standard). *)
Definition forgiving_base64_decode (data : jsstring) : option (list Z) :=
  let data := filter (fun c => negb (is_ascii_whitespace c)) data in
  let data :=
    if (Z.of_nat (length data) mod 4 =? 0) then
      if ends_with_char EQUALS data then
        let data := remove_last data in
        if ends_with_char EQUALS data then remove_last data else data
      else data
    else data in
  if Z.of_nat (length data) mod 4 =? 1 then None
  else if negb (forallb (fun c => match b64_index c with
                                  | Some _ => true
                                  | None => false
                                  end) data) then None
  else b64_loop 0 0 data.

(** [atob(data)] *)
Definition atob (data : jsstring) : result jsstring :=
  match forgiving_base64_decode data with
  | Some out => ret out
  | None => throw InvalidCharacterError
  end.

(** [s.replace(/x/g, y)] for one-character [x] and [y]. *)
Definition replace_char (x y : Z) (s : jsstring) : jsstring :=
  map (fun c => if c =? x then y else c) s.

(** [s.replace(/=+$/g, "")]: the run of [=] at the end is removed. *)
Fixpoint strip_trailing_equals (s : jsstring) : jsstring :=
  match s with
  | [] => []
  | c :: s' =>
      match strip_trailing_equals s' with
      | [] => if c =? EQUALS then [] else [c]
      | t => c :: t
      end
  end.

(** The loop of [bytesToBase64Url]: [binary] grows by one chunk of at most
    [chunkSize] bytes per iteration; [fuel] bounds the iterations. *)
Definition chunkSize : nat := Z.to_nat 0x8000.

Fixpoint binary_of_chunks (fuel : nat) (bs : bytes) : jsstring :=
  match fuel, bs with
  | _, [] => []
  | O, _ => []
  | S fuel', _ =>
      map byte_to_Z (firstn chunkSize bs)
        ++ binary_of_chunks fuel' (skipn chunkSize bs)
  end.

Definition bytesToBase64Url (bs : bytes) : result jsstring :=
  let binary := binary_of_chunks (length bs) bs in
  encoded <- btoa binary ;;
  ret (strip_trailing_equals
         (replace_char SLASH UNDERSCORE (replace_char PLUS MINUS encoded))).

Definition base64UrlToBytes (encoded : jsstring) : result bytes :=
  match encoded with
  | [] => throw (Error "Share link payload is empty.")
  | _ =>
      let normalized :=
        replace_char UNDERSCORE SLASH (replace_char MINUS PLUS encoded) in
      let padded :=
        normalized
          ++ repeat EQUALS
               (Z.to_nat ((4 - Z.of_nat (length normalized) mod 4) mod 4)) in
      binary <- atob padded ;;
      ret (map byte_of_Z binary)
  end.

(** ** Notions the statements use *)

(** The sextets of a byte sequence and the number of padding characters
    of its encoding. *)
Fixpoint sextets (bs : list Z) : list Z :=
  match bs with
  | [] => []
  | [a] => [Z.shiftr a 2; Z.shiftl (Z.land a 3) 4]
  | [a; b] =>
      [Z.shiftr a 2; Z.lor (Z.shiftl (Z.land a 3) 4) (Z.shiftr b 4);
       Z.shiftl (Z.land b 15) 2]
  | a :: b :: c :: rest =>
      Z.shiftr a 2
      :: Z.lor (Z.shiftl (Z.land a 3) 4) (Z.shiftr b 4)
      :: Z.lor (Z.shiftl (Z.land b 15) 2) (Z.shiftr c 6)
      :: Z.land c 63
      :: sextets rest
  end.

Fixpoint padding (bs : list Z) : nat :=
  match bs with
  | [] => 0
  | [_] => 2
  | [_; _] => 1
  | _ :: _ :: _ :: rest => padding rest
  end.

(** The two replacements of [bytesToBase64Url] and of [base64UrlToBytes],
    on one character. *)
Definition to_url (c : Z) : Z :=
  let c := if c =? PLUS then MINUS else c in
  if c =? SLASH then UNDERSCORE else c.

Definition of_url (c : Z) : Z :=
  let c := if c =? MINUS then PLUS else c in
  if c =? UNDERSCORE then SLASH else c.

(** What holds of every character of the alphabet. *)
Definition char_ok (c : Z) : bool :=
  negb (c =? EQUALS) && negb (is_ascii_whitespace c)
  && negb (to_url c =? EQUALS) && (of_url (to_url c) =? c).

Definition body_chars (s : jsstring) : Prop :=
  Forall (fun c => char_ok c = true) s.

End Base64.

(* ================================================================== *)
(** * [URL] and [URLSearchParams] (URL standard)                       *)
(* ================================================================== *)

Module Url.
Import Js.

(** The UTF-8 bytes of a string, as numbers. *)
Definition utf8_bytes (s : jsstring) : list Z :=
  flat_map utf8_encode_scalar (to_scalars s).

(** ** Percent-encoding *)

Definition is_ascii_alphanumeric (c : Z) : bool :=
  ((0x30 <=? c) && (c <=? 0x39)) || ((0x41 <=? c) && (c <=? 0x5A))
  || ((0x61 <=? c) && (c <=? 0x7A)).

Definition hex_value (c : Z) : option Z :=
  if (0x30 <=? c) && (c <=? 0x39) then Some (c - 0x30)
  else if (0x41 <=? c) && (c <=? 0x46) then Some (c - 0x37)
  else if (0x61 <=? c) && (c <=? 0x66) then Some (c - 0x57)
  else None.

Definition hex_digit (d : Z) : Z := if d <? 10 then 0x30 + d else 0x37 + d.

(** Percent-encode a byte: [%] and two upper-case hexadecimal digits. *)
Definition percent_encode_byte (b : Z) : list Z :=
  [PERCENT; hex_digit (Z.shiftr b 4); hex_digit (Z.land b 0xF)].

(** Percent-decode a byte sequence: [%] followed by two hexadecimal digits
    is one byte; any other byte stands for itself. *)
Fixpoint percent_decode (bs : list Z) : list Z :=
  match bs with
  | [] => []
  | b :: rest =>
      if b =? PERCENT then
        match rest with
        | h :: l :: rest' =>
            match hex_value h, hex_value l with
            | Some x, Some y => (x * 16 + y) :: percent_decode rest'
            | _, _ => b :: percent_decode rest
            end
        | _ => b :: percent_decode rest
        end
      else b :: percent_decode rest
  end.

(** The application/x-www-form-urlencoded percent-encode set holds every
    code point but the ASCII alphanumerics and [*], [-], [.], [_]. *)
Definition in_urlencoded_set (c : Z) : bool :=
  negb (is_ascii_alphanumeric c
        || (c =? 0x2A) || (c =? 0x2D) || (c =? 0x2E) || (c =? 0x5F)).

(** The fragment percent-encode set: C0 controls, code points above
    U+007E, and U+0020, U+0022, U+003C, U+003E and U+0060. *)
Definition in_fragment_set (c : Z) : bool :=
  (c <=? 0x1F) || (0x7E <? c)
  || (c =? 0x20) || (c =? 0x22) || (c =? 0x3C) || (c =? 0x3E) || (c =? 0x60).

(** ** application/x-www-form-urlencoded *)

(** Serializing one byte, with spaces as [+]. *)
Definition urlencoded_byte (b : Z) : list Z :=
  if b =? SPACE then [PLUS]
  else if negb (in_urlencoded_set b) then [b]
  else percent_encode_byte b.

Definition urlencoded_component (s : jsstring) : jsstring :=
  flat_map urlencoded_byte (utf8_bytes s).

Definition tuple := (jsstring * jsstring)%type.

(** The serializer: [output] grows by [name=value], with [&] between
    tuples. *)
Fixpoint urlencoded_serialize_from (output : jsstring) (tuples : list tuple)
  : jsstring :=
  match tuples with
  | [] => output
  | (name, value) :: rest =>
      let output :=
        match output with [] => output | _ => output ++ [AMPERSAND] end in
      urlencoded_serialize_from
        (output ++ urlencoded_component name ++ [EQUALS]
                ++ urlencoded_component value)
        rest
  end.

Definition urlencoded_serialize (tuples : list tuple) : jsstring :=
  urlencoded_serialize_from [] tuples.

(** Strictly splitting a byte sequence on a separator. *)
Fixpoint split_on (sep : Z) (bs : list Z) : list (list Z) :=
  match bs with
  | [] => [[]]
  | b :: rest =>
      if b =? sep then [] :: split_on sep rest
      else
        match split_on sep rest with
        | cur :: more => (b :: cur) :: more
        | [] => [[b]]
        end
  end.

(** The bytes before the first [sep] (all of them when there is none) and
    the bytes after it. *)
Fixpoint before_first (sep : Z) (bs : list Z) : list Z :=
  match bs with
  | [] => []
  | b :: rest => if b =? sep then [] else b :: before_first sep rest
  end.

Fixpoint after_first (sep : Z) (bs : list Z) : list Z :=
  match bs with
  | [] => []
  | b :: rest => if b =? sep then rest else after_first sep rest
  end.

Definition plus_to_space (bs : list Z) : list Z :=
  map (fun b => if b =? PLUS then SPACE else b) bs.

(** A name or a value of the parser: [+] is a space, the bytes are
    percent-decoded, then UTF-8 decoded without BOM. *)
Definition urlencoded_decode (bs : list Z) : jsstring :=
  from_scalars (decoder_run decoder_init (percent_decode (plus_to_space bs))).

Definition urlencoded_parse (input : list Z) : list tuple :=
  flat_map
    (fun seq =>
       match seq with
       | [] => []
       | _ => [(urlencoded_decode (before_first EQUALS seq),
                urlencoded_decode (after_first EQUALS seq))]
       end)
    (split_on AMPERSAND input).

Definition urlencoded_string_parse (input : jsstring) : list tuple :=
  urlencoded_parse (utf8_bytes input).

(** ** [URLSearchParams] *)

(** [new URLSearchParams(init)] for a string: a leading [?] is dropped. *)
Definition URLSearchParams (init : jsstring) : list tuple :=
  urlencoded_string_parse
    (match init with
     | c :: init' => if c =? QUESTION then init' else init
     | [] => init
     end).

Definition has_name (name : jsstring) (t : tuple) : bool :=
  jsstring_eqb (fst t) name.

(** [params.get(name)]: the value of the first tuple of that name. *)
Definition params_get (name : jsstring) (tuples : list tuple) : option jsstring :=
  match find (has_name name) tuples with
  | Some t => Some (snd t)
  | None => None
  end.

(** [params.set(name, value)]: the first tuple of that name takes the
    value and the others of that name go; without one, a tuple is added. *)
Fixpoint set_first (name value : jsstring) (tuples : list tuple) : list tuple :=
  match tuples with
  | [] => []
  | t :: rest =>
      if has_name name t
      then (fst t, value) :: filter (fun t => negb (has_name name t)) rest
      else t :: set_first name value rest
  end.

Definition params_set (name value : jsstring) (tuples : list tuple) : list tuple :=
  if existsb (has_name name) tuples then set_first name value tuples
  else tuples ++ [(name, value)].

(** [params.delete(name)] *)
Definition params_delete (name : jsstring) (tuples : list tuple) : list tuple :=
  filter (fun t => negb (has_name name t)) tuples.

(** ** URL records and URL objects *)

(** A URL record: the serialized scheme, host, port and path, the query
    and the fragment ([None] is the standard's null). *)
Record url_record := {
  before_query : jsstring;
  query : option jsstring;
  fragment : option jsstring
}.

(** URL objects live in a store and are passed by reference. *)
Definition ref := nat.

Record store := {
  objects : ref -> url_record;
  next_ref : ref
}.

Definition M (A : Type) := store -> A * store.

Definition m_ret {A : Type} (a : A) : M A := fun st => (a, st).
Definition m_bind {A B : Type} (m : M A) (k : A -> M B) : M B :=
  fun st => let '(a, st') := m st in k a st'.

Notation "x <~ m ;; k" := (m_bind m (fun x => k))
  (at level 61, m at next level, right associativity).
Notation "m ;;; k" := (m_bind m (fun _ => k))
  (at level 61, right associativity).

Definition read_record (u : ref) : M url_record :=
  fun st => (objects st u, st).

Definition write_record (u : ref) (r : url_record) : M unit :=
  fun st =>
    (tt, {| objects := fun v => if Nat.eqb v u then r else objects st v;
            next_ref := next_ref st |}).

(** [url.toString()]: the serialization of the record; it stands here for
    the record it serializes, which parsing it gives back. *)
Definition toString (u : ref) : M url_record := read_record u.

(** [new URL(href)]: a new object holding the parsed record. *)
Definition new_URL (href : url_record) : M ref :=
  fun st =>
    (next_ref st,
     {| objects := fun v => if Nat.eqb v (next_ref st) then href
                            else objects st v;
        next_ref := S (next_ref st) |}).

(** The [hash] getter: empty for a null or empty fragment. *)
Definition hash_of (r : url_record) : jsstring :=
  match fragment r with
  | None => []
  | Some [] => []
  | Some f => HASH :: f
  end.

Definition get_hash (u : ref) : M jsstring :=
  r <~ read_record u ;; m_ret (hash_of r).

Definition is_tab_or_newline (c : Z) : bool :=
  (c =? 0x09) || (c =? 0x0A) || (c =? 0x0D).

(** UTF-8 percent-encoding of a code point with the fragment set. *)
Definition fragment_encode_scalar (c : Z) : list Z :=
  if in_fragment_set c then flat_map percent_encode_byte (utf8_encode_scalar c)
  else [c].

(** The parser's fragment state on an input: the input's scalar values
    without tabs and newlines, each percent-encoded. *)
Definition fragment_state (input : jsstring) : jsstring :=
  flat_map fragment_encode_scalar
    (filter (fun c => negb (is_tab_or_newline c)) (to_scalars input)).

(** The [hash] setter: the empty string clears the fragment; otherwise a
    leading [#] is dropped and the rest is parsed in the fragment state. *)
Definition fragment_of_hash (value : jsstring) : option jsstring :=
  match value with
  | [] => None
  | c :: value' =>
      Some (fragment_state (if c =? HASH then value' else value))
  end.

(** Whether the URL a record serializes has an opaque path: its scheme
    is followed by something other than [/], as in [data:text/plain,x]
    and [mailto:a@b]. *)
Fixpoint after_scheme (s : jsstring) : jsstring :=
  match s with
  | [] => []
  | c :: rest => if c =? 0x3A then rest else after_scheme rest
  end.

Definition has_opaque_path (r : url_record) : bool :=
  match after_scheme (before_query r) with
  | c :: _ => negb (c =? SLASH)
  | [] => true
  end.

Fixpoint strip_trailing_spaces (s : jsstring) : jsstring :=
  match s with
  | [] => []
  | c :: rest =>
      match strip_trailing_spaces rest with
      | [] => if c =? SPACE then [] else [c]
      | rest' => c :: rest'
      end
  end.

(** The standard's potentially strip trailing spaces from an opaque
    path: with an opaque path, a null fragment and a null query, the
    U+0020 at the end of the path go. *)
Definition strip_opaque_path (r : url_record) : url_record :=
  if has_opaque_path r then
    match fragment r, query r with
    | None, None =>
        {| before_query := strip_trailing_spaces (before_query r);
           query := None;
           fragment := None |}
    | _, _ => r
    end
  else r.

(** What the [hash] setter leaves in the record: the fragment is set;
    when the given value is empty, the path is stripped as well. *)
Definition with_hash (value : jsstring) (r : url_record) : url_record :=
  let r' := {| before_query := before_query r;
               query := query r;
               fragment := fragment_of_hash value |} in
  match value with
  | [] => strip_opaque_path r'
  | _ => r'
  end.

Definition set_hash (u : ref) (value : jsstring) : M unit :=
  r <~ read_record u ;; write_record u (with_hash value r).

(** The list of [url.searchParams]. *)
Definition searchParams_of (r : url_record) : list tuple :=
  match query r with
  | None => []
  | Some q => urlencoded_string_parse q
  end.

(** The update steps of [url.searchParams]: an empty serialization gives
    a null query. *)
Definition query_of_params (tuples : list tuple) : option jsstring :=
  match urlencoded_serialize tuples with
  | [] => None
  | s => Some s
  end.

Definition searchParams_get (u : ref) (name : jsstring) : M (option jsstring) :=
  r <~ read_record u ;; m_ret (params_get name (searchParams_of r)).

(** What [url.searchParams.delete(name)] leaves in the record: the
    update steps set the query, and strip the path when the query has
    become null. *)
Definition without_param (name : jsstring) (r : url_record) : url_record :=
  let r' := {| before_query := before_query r;
               query := query_of_params
                          (params_delete name (searchParams_of r));
               fragment := fragment r |} in
  match query r' with
  | None => strip_opaque_path r'
  | Some _ => r'
  end.

Definition searchParams_delete (u : ref) (name : jsstring) : M unit :=
  r <~ read_record u ;; write_record u (without_param name r).

(** ** Notions the statements use *)

Definition wellformed_tuple (t : tuple) : Prop :=
  isWellFormed (fst t) = true /\ isWellFormed (snd t) = true.

Definition code_units_tuple (t : tuple) : Prop :=
  code_units (fst t) /\ code_units (snd t).

Definition usv_tuple (t : tuple) : tuple := (usv (fst t), usv (snd t)).

(** The characters the serializer writes. *)
Definition plain_char (c : Z) : bool :=
  (0 <=? c) && (c <=? 0x7F) && negb (in_fragment_set c)
  && negb (is_tab_or_newline c) && negb (c =? HASH) && negb (c =? QUESTION).

Definition component_char (c : Z) : bool :=
  plain_char c && negb (c =? AMPERSAND) && negb (c =? EQUALS).

Definition all_plain (s : jsstring) : Prop :=
  Forall (fun c => plain_char c = true) s.

(** What the serializer writes for one tuple. *)
Definition tuple_string (t : tuple) : jsstring :=
  urlencoded_component (fst t) ++ [EQUALS] ++ urlencoded_component (snd t).

(** The strings of a URL record are sequences of code units. *)
Definition valid_record (r : url_record) : Prop :=
  (forall f, fragment r = Some f -> code_units f)
  /\ (forall q, query r = Some q -> code_units q).

End Url.

(* ================================================================== *)
(** * [src/lib/share-link.ts]                                          *)
(* ================================================================== *)

Module ShareLink.
Import Js Base64 Url.

Definition SHARE_VERSION : jsstring := lit "v1".
Definition SHARE_ALGORITHM : jsstring := lit "d".
Definition SHARE_PREFIX : jsstring :=
  SHARE_VERSION ++ lit "." ++ SHARE_ALGORITHM ++ lit ".".
Definition SHARE_PARAM : jsstring := lit "diagram".

(** What the module takes from its runtime: whether [CompressionStream]
    and [DecompressionStream] exist, the two streams for the format
    ["deflate"], and fflate's [deflateSync] (called with level 9) and
    [inflateSync].  Inflating fails on input that is no valid stream. *)
Record Platform := {
  supportsCompressionStream : bool;
  CompressionStream_deflate : bytes -> bytes;
  DecompressionStream_deflate : bytes -> option bytes;
  deflateSync : bytes -> bytes;
  inflateSync : bytes -> option bytes
}.

Section Codec.

Variable P : Platform.

Definition compressBytes (bs : bytes) : bytes :=
  if supportsCompressionStream P then CompressionStream_deflate P bs
  else deflateSync P bs.

Definition decompressBytes (bs : bytes) : result bytes :=
  match (if supportsCompressionStream P then DecompressionStream_deflate P bs
         else inflateSync P bs) with
  | Some out => ret out
  | None => throw DecompressionError
  end.

Definition getPayloadFromToken (token : jsstring) : result jsstring :=
  if starts_with SHARE_PREFIX token then
    ret (skipn (length SHARE_PREFIX) token)
  else if starts_with (SHARE_VERSION ++ lit ".") token then
    throw (Error "Unsupported share link format version.")
  else ret token.

Definition encodeDiagramToken (source : jsstring) : result jsstring :=
  let compressed := compressBytes (TextEncoder_encode source) in
  encoded <- bytesToBase64Url compressed ;;
  ret (SHARE_PREFIX ++ encoded).

Definition decodeDiagramToken (token : jsstring) : result jsstring :=
  payload <- getPayloadFromToken token ;;
  compressed <- base64UrlToBytes payload ;;
  decompressed <- decompressBytes compressed ;;
  ret (TextDecoder_decode decompressed).

End Codec.

(** The argument of [new URLSearchParams] in the three URL functions:
    [hash.startsWith("#") ? hash.slice(1) : hash]. *)
Definition hash_without_mark (hash : jsstring) : jsstring :=
  if starts_with [HASH] hash then skipn 1 hash else hash.

Definition readDiagramTokenFromUrl (url : ref) : M (option jsstring) :=
  hash <~ get_hash url ;;
  let hashParams := URLSearchParams (hash_without_mark hash) in
  match params_get SHARE_PARAM hashParams with
  | Some token => m_ret (Some token)
  | None => searchParams_get url SHARE_PARAM
  end.

Definition writeDiagramTokenToUrl (url : ref) (token : jsstring) : M ref :=
  href <~ toString url ;;
  nextUrl <~ new_URL href ;;
  hash <~ get_hash nextUrl ;;
  let hashParams := URLSearchParams (hash_without_mark hash) in
  let hashParams := params_set SHARE_PARAM token hashParams in
  set_hash nextUrl (urlencoded_serialize hashParams) ;;;
  searchParams_delete nextUrl SHARE_PARAM ;;;
  m_ret nextUrl.

Definition clearDiagramTokenFromUrl (url : ref) : M ref :=
  href <~ toString url ;;
  nextUrl <~ new_URL href ;;
  hash <~ get_hash nextUrl ;;
  let hashParams := URLSearchParams (hash_without_mark hash) in
  let hashParams := params_delete SHARE_PARAM hashParams in
  set_hash nextUrl (urlencoded_serialize hashParams) ;;;
  searchParams_delete nextUrl SHARE_PARAM ;;;
  m_ret nextUrl.

(** A token of the share form: the prefix, then base64url characters. *)
Definition is_base64url_char (c : Z) : bool :=
  is_ascii_alphanumeric c || (c =? 0x2D) || (c =? 0x5F).

Definition is_share_token (t : jsstring) : bool :=
  starts_with SHARE_PREFIX t
  && forallb is_base64url_char (skipn (length SHARE_PREFIX) t).

(** Two lossless codecs that do not read each other's output, for
    concrete runs: each puts its own mark before the data. *)
Definition marked_deflate (mark : byte) (bs : bytes) : bytes := mark :: bs.

Definition marked_inflate (mark : byte) (bs : bytes) : option bytes :=
  match bs with
  | b :: rest => if Byte.eqb b mark then Some rest else None
  | [] => None
  end.

Definition example_platform (supports : bool) : Platform :=
  {| supportsCompressionStream := supports;
     CompressionStream_deflate := marked_deflate x78;
     DecompressionStream_deflate := marked_inflate x78;
     deflateSync := marked_deflate x01;
     inflateSync := marked_inflate x01 |}.

(** Each backend inflates what it deflated. *)
Definition self_inverse (P : Platform) : Prop :=
  (forall bs,
     DecompressionStream_deflate P (CompressionStream_deflate P bs) = Some bs)
  /\ (forall bs, inflateSync P (deflateSync P bs) = Some bs).

(** A deflate stream is never empty. *)
Definition never_empty (P : Platform) : Prop :=
  (forall bs, CompressionStream_deflate P bs <> [])
  /\ (forall bs, deflateSync P bs <> []).

(** A store with one URL object, and a token. *)
Definition example_store : store :=
  {| objects := fun _ =>
       {| before_query := lit "https://example.org/studio/";
          query := Some (lit "diagram=old&theme=dark");
          fragment := Some (lit "diagram=stale&tab=1") |};
     next_ref := 1%nat |}.

Definition example_token : jsstring := lit "v1.d.eJxLzs8tKEotLk4FAA-_aB".

(** ** The URL functions on records *)
(** The parameters the three URL functions read in the fragment. *)
Definition hashParams_of (r : url_record) : list tuple :=
  URLSearchParams (hash_without_mark (hash_of r)).

(** The records [writeDiagramTokenToUrl] and [clearDiagramTokenFromUrl]
    leave in the object they return, from the record of their argument:
    the [hash] setter, then [searchParams.delete]. *)
Definition written (token : jsstring) (r : url_record) : url_record :=
  without_param SHARE_PARAM
    (with_hash
       (urlencoded_serialize (params_set SHARE_PARAM token (hashParams_of r)))
       r).

Definition cleared (r : url_record) : url_record :=
  without_param SHARE_PARAM
    (with_hash
       (urlencoded_serialize (params_delete SHARE_PARAM (hashParams_of r)))
       r).

(** A URL with an opaque path that ends in a space, and a token in its
    fragment. *)
Definition opaque_record : url_record :=
  {| before_query := lit "data:text/plain,hello ";
     query := None;
     fragment := Some (lit "diagram=x") |}.

(** A URL with a path, a query and a fragment that hold other parameters
    beside the token. *)
Definition example_record : url_record :=
  {| before_query := lit "https://example.org/studio/";
     query := Some (lit "diagram=old&theme=dark");
     fragment := Some (lit "diagram=stale&tab=1") |}.

End ShareLink.

(* ================================================================== *)
(** * Binary64: the numbers the panel and the colours compute with    *)
(* ================================================================== *)

Module Binary64.
Import SpecFloat.
Local Open Scope Q_scope.

(** The exponent of the last place of a binary64 number whose leading
    bit has the weight 2^(k-1): [fexp] at 53 bits of precision and
    [emax] 1024. *)
Definition fexp64 (k : Z) : Z := Z.max (k - 53) (-1074).

Definition pow2 (e : Z) : Q := (2 # 1) ^ e.

Definition sign_factor (s : bool) : Q := if s then -1 else 1.

(** The number a binary64 value stands for; 0 for NaN and the
    infinities. *)
Definition SF2Q (f : spec_float) : Q :=
  match f with
  | S754_finite s m e => sign_factor s * (inject_Z (Zpos m) * pow2 e)
  | _ => 0
  end.

Definition SF_finite (f : spec_float) : bool :=
  match f with
  | S754_zero _ | S754_finite _ _ _ => true
  | _ => false
  end.

Definition eps : Q := pow2 (-52).
Definition eta : Q := pow2 (-1074).

(** [v] is [exact] up to the rounding of one binary64 operation. *)
Definition rounds_to (v exact : Q) : Prop :=
  Qabs (v - exact) <= eps * Qabs exact + eta.

Definition SF_valid (f : spec_float) : Prop := valid_binary 53 1024 f = true.

(** The number a binary64 value stands for (0 for NaN and the
    infinities), and whether it is a number at all. *)
Definition value (v : PrimFloat.float) : Q := SF2Q (FloatOps.Prim2SF v).

Definition finite (v : PrimFloat.float) : bool :=
  SF_finite (FloatOps.Prim2SF v).

End Binary64.

(* ================================================================== *)
(** * The preview panel of [src/App.tsx]: pan and zoom                 *)
(* ================================================================== *)

Module Viewport.

(** The arithmetic of the panel: the operations of JavaScript numbers
    the code uses.  JavaScript computes in binary64, the instance
    [Float64]. *)
Class Number (num : Type) := {
  add : num -> num -> num;
  sub : num -> num -> num;
  mul : num -> num -> num;
  div : num -> num -> num;
  ltb : num -> num -> bool;
  Math_min : num -> num -> num;
  Math_max : num -> num -> num;
  (** the number a decimal literal [n/d] denotes *)
  literal : Z -> positive -> num
}.

Declare Scope num_scope.
Delimit Scope num_scope with num.
Infix "+" := add : num_scope.
Infix "-" := sub : num_scope.
Infix "*" := mul : num_scope.
Infix "/" := div : num_scope.

Definition float_of_Z (z : Z) : PrimFloat.float :=
  match z with
  | Z0 => PrimFloat.zero
  | Zpos _ => PrimFloat.of_uint63 (Uint63.of_Z z)
  | Zneg p => PrimFloat.opp (PrimFloat.of_uint63 (Uint63.of_Z (Zpos p)))
  end.

(** [Math.min] and [Math.max] on binary64: NaN if an argument is NaN, and
    -0 counts as less than +0. *)
Definition float_min (a b : PrimFloat.float) : PrimFloat.float :=
  if PrimFloat.is_nan a || PrimFloat.is_nan b then PrimFloat.nan
  else if PrimFloat.ltb a b then a
  else if PrimFloat.ltb b a then b
  else if PrimFloat.get_sign a then a else b.

Definition float_max (a b : PrimFloat.float) : PrimFloat.float :=
  if PrimFloat.is_nan a || PrimFloat.is_nan b then PrimFloat.nan
  else if PrimFloat.ltb a b then b
  else if PrimFloat.ltb b a then a
  else if PrimFloat.get_sign a then b else a.

#[export] Instance Float64 : Number PrimFloat.float := {
  add := PrimFloat.add;
  sub := PrimFloat.sub;
  mul := PrimFloat.mul;
  div := PrimFloat.div;
  ltb := PrimFloat.ltb;
  Math_min := float_min;
  Math_max := float_max;
  literal n d := PrimFloat.div (float_of_Z n) (float_of_Z (Zpos d))
}.


Section Panel.

Context {num : Type} {arith : Number num}.
Local Open Scope num_scope.

Record Transform := { x : num; y : num; scale : num }.

Record DragState := {
  pointerId : Z;
  startClientX : num;
  startClientY : num;
  startX : num;
  startY : num
}.

Record SvgSize := { width : num; height : num }.

(** [viewportRef.current]: the element's client size and the left and top
    of its bounding rectangle. *)
Record Element := {
  clientWidth : num;
  clientHeight : num;
  rect_left : num;
  rect_top : num
}.

(** The fields the handlers read of a pointer or wheel event. *)
Record Event := {
  button : Z;
  event_pointerId : Z;
  clientX : num;
  clientY : num;
  deltaY : num
}.

Record Panel := {
  transform : Transform;
  transformRef : Transform;
  dragRef : option DragState;
  svgSize : option SvgSize;
  viewportRef : option Element
}.

Definition MIN_SCALE : num := literal 2 10.
Definition MAX_SCALE : num := literal 16 1.

Definition clamp (value min max : num) : num :=
  Math_min max (Math_max min value).

(** [setTransform(f)] *)
Definition setTransform (f : Transform -> Transform) (p : Panel) : Panel :=
  {| transform := f (transform p);
     transformRef := transformRef p;
     dragRef := dragRef p;
     svgSize := svgSize p;
     viewportRef := viewportRef p |}.

Definition set_dragRef (d : option DragState) (p : Panel) : Panel :=
  {| transform := transform p;
     transformRef := transformRef p;
     dragRef := d;
     svgSize := svgSize p;
     viewportRef := viewportRef p |}.

Definition applyZoomAroundPoint (nextScale anchorX anchorY : num) : Panel -> Panel :=
  setTransform (fun cur =>
    let scale' := clamp nextScale MIN_SCALE MAX_SCALE in
    let wx := (anchorX - x cur) / scale cur in
    let wy := (anchorY - y cur) / scale cur in
    {| scale := scale'; x := anchorX - wx * scale'; y := anchorY - wy * scale' |}).

Definition fitToView (p : Panel) : Panel :=
  match svgSize p, viewportRef p with
  | Some size, Some vp =>
      let pad := literal 48 1 in
      let rawScale :=
        Math_min ((clientWidth vp - pad) / width size)
                 ((clientHeight vp - pad) / height size) in
      let scale' := clamp rawScale MIN_SCALE MAX_SCALE in
      setTransform (fun _ =>
        {| scale := scale';
           x := (clientWidth vp - width size * scale') / literal 2 1;
           y := (clientHeight vp - height size * scale') / literal 2 1 |}) p
  | _, _ => p
  end.

Definition zoomToScale (nextScale : num) (p : Panel) : Panel :=
  match viewportRef p with
  | None => p
  | Some vp =>
      let cx := clientWidth vp / literal 2 1 in
      let cy := clientHeight vp / literal 2 1 in
      applyZoomAroundPoint nextScale cx cy p
  end.

Definition zoomByFactor (factor : num) (p : Panel) : Panel :=
  zoomToScale (scale (transformRef p) * factor) p.

Definition handleWheelZoom (event : Event) (p : Panel) : Panel :=
  match viewportRef p with
  | None => p
  | Some vp =>
      applyZoomAroundPoint
        (scale (transformRef p)
         * (if ltb (deltaY event) (literal 0 1)
            then literal 108 100 else literal 92 100))
        (clientX event - rect_left vp)
        (clientY event - rect_top vp)
        p
  end.

Definition handlePointerDown (event : Event) (p : Panel) : Panel :=
  if negb (Z.eqb (button event) 0) then p
  else
    set_dragRef
      (Some {| pointerId := event_pointerId event;
               startClientX := clientX event;
               startClientY := clientY event;
               startX := x (transformRef p);
               startY := y (transformRef p) |}) p.

Definition handlePointerMove (event : Event) (p : Panel) : Panel :=
  match dragRef p with
  | None => p
  | Some drag =>
      if negb (Z.eqb (pointerId drag) (event_pointerId event)) then p
      else
        setTransform (fun cur =>
          {| x := startX drag + clientX event - startClientX drag;
             y := startY drag + clientY event - startClientY drag;
             scale := scale cur |}) p
  end.

(** Also the handler of [onPointerCancel]. *)
Definition handlePointerUp (event : Event) (p : Panel) : Panel :=
  match dragRef p with
  | None => p
  | Some drag =>
      if negb (Z.eqb (pointerId drag) (event_pointerId event)) then p
      else set_dragRef None p
  end.

(** The effect [transformRef.current = transform], run after a render. *)
Definition syncTransformRef (p : Panel) : Panel :=
  {| transform := transform p;
     transformRef := transform p;
     dragRef := dragRef p;
     svgSize := svgSize p;
     viewportRef := viewportRef p |}.

(** [setSvgSize] and the mounting or resizing of the viewport element. *)
Definition setSvgSize (size : option SvgSize) (p : Panel) : Panel :=
  {| transform := transform p;
     transformRef := transformRef p;
     dragRef := dragRef p;
     svgSize := size;
     viewportRef := viewportRef p |}.

Definition setViewport (vp : option Element) (p : Panel) : Panel :=
  {| transform := transform p;
     transformRef := transformRef p;
     dragRef := dragRef p;
     svgSize := svgSize p;
     viewportRef := vp |}.

(** What can happen to the panel, one step at a time. *)
Inductive action :=
| ApplyZoomAroundPoint (nextScale anchorX anchorY : num)
| FitToView
| ZoomToScale (nextScale : num)
| ZoomByFactor (factor : num)
| WheelZoom (event : Event)
| PointerDown (event : Event)
| PointerMove (event : Event)
| PointerUp (event : Event)
| SyncTransformRef
| SetSvgSize (size : option SvgSize)
| SetViewport (vp : option Element).

Definition step (a : action) : Panel -> Panel :=
  match a with
  | ApplyZoomAroundPoint s ax ay => applyZoomAroundPoint s ax ay
  | FitToView => fitToView
  | ZoomToScale s => zoomToScale s
  | ZoomByFactor f => zoomByFactor f
  | WheelZoom e => handleWheelZoom e
  | PointerDown e => handlePointerDown e
  | PointerMove e => handlePointerMove e
  | PointerUp e => handlePointerUp e
  | SyncTransformRef => syncTransformRef
  | SetSvgSize size => setSvgSize size
  | SetViewport vp => setViewport vp
  end.

Definition run (actions : list action) (p : Panel) : Panel :=
  fold_left (fun p a => step a p) actions p.

(** [useState({ x: 0, y: 0, scale: 1 })], the refs as first rendered. *)
Definition initial : Panel :=
  let t := {| x := literal 0 1; y := literal 0 1; scale := literal 1 1 |} in
  {| transform := t; transformRef := t; dragRef := None;
     svgSize := None; viewportRef := None |}.

(** The content-space point under a pixel. *)
Definition content_x (t : Transform) (px : num) : num := (px - x t) / scale t.
Definition content_y (t : Transform) (py : num) : num := (py - y t) / scale t.

End Panel.

Arguments Transform : clear implicits.
Arguments DragState : clear implicits.
Arguments SvgSize : clear implicits.
Arguments Element : clear implicits.
Arguments Event : clear implicits.
Arguments Panel : clear implicits.
Arguments action : clear implicits.

(** ** Notions the statements use *)

(** The range of the scale. *)
Definition float_in_range (s : PrimFloat.float) : bool :=
  PrimFloat.leb MIN_SCALE s && PrimFloat.leb s MAX_SCALE.

(** A number of at most 2^k in magnitude. *)
Definition magnitude_le (k : Z) (v : PrimFloat.float) : Prop :=
  Binary64.finite v = true
  /\ (Qabs (Binary64.value v) <= Binary64.pow2 k)%Q.

(** The sizes [extractSvgSize] returns: both above 0. *)
Definition positive_size (size : SvgSize PrimFloat.float) : Prop :=
  PrimFloat.ltb (literal 0 1) (width size) = true
  /\ PrimFloat.ltb (literal 0 1) (height size) = true.

(** The client sizes of an element are whole numbers of pixels, far
    below 2^53. *)
Definition client_sizes (vp : Element PrimFloat.float) : Prop :=
  magnitude_le 53 (clientWidth vp) /\ magnitude_le 53 (clientHeight vp).

(** The actions as the application issues them: the scale or factor
    asked for is a number, a diagram size is one [extractSvgSize]
    returns, an element has client sizes. *)
Definition issued (a : action PrimFloat.float) : Prop :=
  match a with
  | ApplyZoomAroundPoint nextScale _ _ => PrimFloat.is_nan nextScale = false
  | ZoomToScale nextScale => PrimFloat.is_nan nextScale = false
  | ZoomByFactor factor => PrimFloat.is_nan factor = false
  | SetSvgSize (Some size) => positive_size size
  | SetViewport (Some vp) => client_sizes vp
  | _ => True
  end.

(** What the actions keep: the two scales in the range, the sizes as
    they were issued. *)
Definition kept (p : Panel PrimFloat.float) : Prop :=
  float_in_range (scale (transform p)) = true
  /\ float_in_range (scale (transformRef p)) = true
  /\ (forall size, svgSize p = Some size -> positive_size size)
  /\ (forall vp, viewportRef p = Some vp -> client_sizes vp).

(** Two content points agree up to the rounding of a zoom around the
    anchor: by 2^-43 of their size and of the anchor's. *)
Definition agree (anchor before after : PrimFloat.float) : Prop :=
  Binary64.finite after = true
  /\ (Qabs (Binary64.value after - Binary64.value before)
      <= Binary64.pow2 (-43)
         * (Qabs (Binary64.value before) + Qabs (Binary64.value anchor))
         + Binary64.pow2 (-1060))%Q.

(** Two content points agree up to the rounding of a drag: by 2^-46 of
    the sizes of the offset the drag starts from and of the pointer
    coordinates at its start and now. *)
Definition follows (offset down last before after : PrimFloat.float) : Prop :=
  Binary64.finite after = true
  /\ (Qabs (Binary64.value after - Binary64.value before)
      <= Binary64.pow2 (-46)
         * (Qabs (Binary64.value offset) + Qabs (Binary64.value down)
            + Qabs (Binary64.value last))
         + Binary64.pow2 (-1060))%Q.

(** An offset is back where it was up to the rounding of two zooms
    around the anchor: by 2^-36 of its size and of the anchor's. *)
Definition returns (anchor before after : PrimFloat.float) : Prop :=
  Binary64.finite after = true
  /\ (Qabs (Binary64.value after - Binary64.value before)
      <= Binary64.pow2 (-36)
         * (Qabs (Binary64.value before) + Qabs (Binary64.value anchor))
         + Binary64.pow2 (-1050))%Q.

(** The offset puts the middle of a side of the diagram, scaled, at the
    middle of the side of the viewport, up to the rounding of
    [fitToView]: by 2^-47 of the two sides. *)
Definition centred (client size s offset : PrimFloat.float) : Prop :=
  Binary64.finite offset = true
  /\ (Qabs (Binary64.value offset
            + Binary64.value size * Binary64.value s / 2
            - Binary64.value client / 2)
      <= Binary64.pow2 (-47)
         * (Qabs (Binary64.value client) + Qabs (Binary64.value size))
         + Binary64.pow2 (-1060))%Q.

(** The session a pointer-down opens. *)
Definition session_of {num : Type} (event : Event num) (p : Panel num)
  : DragState num :=
  {| pointerId := event_pointerId event;
     startClientX := clientX event;
     startClientY := clientY event;
     startX := x (transformRef p);
     startY := y (transformRef p) |}.

Definition pointer_event (b id px py : Z) : Event PrimFloat.float :=
  {| button := b; event_pointerId := id;
     clientX := literal px 1; clientY := literal py 1;
     deltaY := literal 0 1 |}.

(** A panel dragged by pointer 1 since (10, 10). *)
Definition dragging : Panel PrimFloat.float :=
  handlePointerDown (pointer_event 0 1 10 10) initial.

(** What happens during a drag of pointer [id]: its pointer-move events,
    and the effect that copies the transform to its ref. *)
Definition drag_action {num : Type} (id : Z) (a : action num) : Prop :=
  match a with
  | PointerMove event => event_pointerId event = id
  | SyncTransformRef => True
  | _ => False
  end.

(** A panel scrolled far away: the offset 2^53 at scale 1. *)
Definition far : Panel PrimFloat.float :=
  setTransform
    (fun _ => {| x := literal 9007199254740992 1; y := literal 0 1;
                 scale := literal 1 1 |})
    initial.

(** A panel with a diagram of 400 by 200 in a viewport of 848 by 648. *)
Definition mounted : Panel PrimFloat.float :=
  setViewport
    (Some {| clientWidth := literal 848 1; clientHeight := literal 648 1;
             rect_left := literal 10 1; rect_top := literal 20 1 |})
    (setSvgSize (Some {| width := literal 400 1; height := literal 200 1 |})
       initial).

End Viewport.

(* ================================================================== *)
(** * The application of [src/App.tsx]: render requests and the         *)
(** * debounce of edits                                                *)
(* ================================================================== *)

Module Scheduler.

Inductive RenderStyle := svg | unicode | ascii.

(** What the renderer throws: an [Error] with its message, or another
    value, with the string [String(error)] makes of it. *)
Inductive thrown_value :=
| ErrorObject (message : string)
| OtherValue (stringified : string).

(** [error instanceof Error ? error.message : String(error)] *)
Definition error_message (e : thrown_value) : string :=
  match e with
  | ErrorObject message => message
  | OtherValue stringified => stringified
  end.

(** How a call of the renderer ends. *)
Inductive outcome :=
| Rendered (markup : string)
| Threw (e : thrown_value).

(** A call of [renderDiagramForSource] that has taken its stamp: the
    local [requestId], the source it was given and the [renderStyle] of
    its closure. *)
Record Request := {
  requestId : Z;
  request_source : string;
  request_style : RenderStyle
}.

(** A pending [setTimeout] of [handleSourceInput]: its id, the time it is
    due, the [nextSource] of its callback and the [renderStyle] of the
    [renderDiagramForSource] the callback closes over, which is the one
    of the render in which the handler was made. *)
Record Timer := {
  timer_id : nat;
  due : nat;
  timer_source : string;
  timer_style : RenderStyle
}.

Record App := {
  svgMarkup : string;
  asciiMarkup : string;
  renderError : string;
  renderStyle : RenderStyle;
  sourceRef : string;
  requestIdRef : Z;
  sourceCommitTimeoutRef : option nat;
  (** the event loop: the clock in milliseconds, the pending timers and
      the next timer id *)
  now : nat;
  timers : list Timer;
  next_timer_id : nat;
  (** the calls of [renderDiagramForSource] so far, oldest first *)
  issued : list Request
}.

(** [const requestId = ++requestIdRef.current], then the renderer is
    called; [style] is the [renderStyle] of the closure that runs. *)
Definition begin_render_as (style : RenderStyle) (nextSource : string)
  (a : App) : Request * App :=
  let request := {| requestId := requestIdRef a + 1;
                    request_source := nextSource;
                    request_style := style |} in
  (request,
   {| svgMarkup := svgMarkup a; asciiMarkup := asciiMarkup a;
      renderError := renderError a; renderStyle := renderStyle a;
      sourceRef := sourceRef a;
      requestIdRef := requestId request;
      sourceCommitTimeoutRef := sourceCommitTimeoutRef a;
      now := now a; timers := timers a; next_timer_id := next_timer_id a;
      issued := issued a ++ [request] |}).

(** A call of the [renderDiagramForSource] of the current render. *)
Definition begin_render (nextSource : string) (a : App) : Request * App :=
  begin_render_as (renderStyle a) nextSource a.

Definition set_result (svg asciiText error : string) (a : App) : App :=
  {| svgMarkup := svg; asciiMarkup := asciiText; renderError := error;
     renderStyle := renderStyle a; sourceRef := sourceRef a;
     requestIdRef := requestIdRef a;
     sourceCommitTimeoutRef := sourceCommitTimeoutRef a;
     now := now a; timers := timers a; next_timer_id := next_timer_id a;
     issued := issued a |}.

(** The rest of [renderDiagramForSource], once the renderer has returned
    or thrown: [if (requestId !== requestIdRef.current) return], then the
    three setters. *)
Definition finish_render (request : Request) (o : outcome) (a : App) : App :=
  if negb (Z.eqb (requestId request) (requestIdRef a)) then a
  else
    match o with
    | Rendered markup =>
        match request_style request with
        | svg => set_result markup "" "" a
        | _ => set_result "" markup "" a
        end
    | Threw e => set_result "" "" (error_message e) a
    end.

Definition displayed (a : App) : string * string * string :=
  (svgMarkup a, asciiMarkup a, renderError a).

Definition set_timers (ref : option nat) (ts : list Timer) (next : nat)
  (source : string) (a : App) : App :=
  {| svgMarkup := svgMarkup a; asciiMarkup := asciiMarkup a;
     renderError := renderError a; renderStyle := renderStyle a;
     sourceRef := source;
     requestIdRef := requestIdRef a;
     sourceCommitTimeoutRef := ref;
     now := now a; timers := ts; next_timer_id := next;
     issued := issued a |}.

(** [clearTimeout(id)] *)
Definition clearTimeout (id : nat) (ts : list Timer) : list Timer :=
  filter (fun t => negb (Nat.eqb (timer_id t) id)) ts.

(** [if (sourceCommitTimeoutRef.current) clearTimeout(...)]: a timer id
    is truthy when it is not 0. *)
Definition clear_pending (a : App) : list Timer :=
  match sourceCommitTimeoutRef a with
  | Some id => if Nat.eqb id 0 then timers a else clearTimeout id (timers a)
  | None => timers a
  end.

Definition DEBOUNCE : nat := 120.

Definition handleSourceInput (nextSource : string) (a : App) : App :=
  let id := next_timer_id a in
  set_timers (Some id)
    (clear_pending a
       ++ [{| timer_id := id; due := now a + DEBOUNCE;
              timer_source := nextSource;
              timer_style := renderStyle a |}])
    (S id) nextSource a.

Definition commitSourceNow (nextSource : string) (a : App) : Request * App :=
  let ref :=
    match sourceCommitTimeoutRef a with
    | Some id => if Nat.eqb id 0 then Some id else None
    | None => None
    end in
  begin_render nextSource
    (set_timers ref (clear_pending a) (next_timer_id a) nextSource a).

(** The callback of the timer: the render is issued, by the
    [renderDiagramForSource] the callback closed over, and the ref is
    cleared. *)
Definition fire (t : Timer) (a : App) : App :=
  let a := snd (begin_render_as (timer_style t) (timer_source t) a) in
  set_timers None (timers a) (next_timer_id a) (sourceRef a) a.

(** Time passes until [t]: the timers due by then run, in the order they
    were set, and are gone. *)
Definition advance_to (t : nat) (a : App) : App :=
  let due_now := filter (fun x => Nat.leb (due x) t) (timers a) in
  let later := filter (fun x => negb (Nat.leb (due x) t)) (timers a) in
  let a := set_timers (sourceCommitTimeoutRef a) later (next_timer_id a)
             (sourceRef a) a in
  let a := fold_left (fun a x => fire x a) due_now a in
  {| svgMarkup := svgMarkup a; asciiMarkup := asciiMarkup a;
     renderError := renderError a; renderStyle := renderStyle a;
     sourceRef := sourceRef a;
     requestIdRef := requestIdRef a;
     sourceCommitTimeoutRef := sourceCommitTimeoutRef a;
     now := Nat.max (now a) t; timers := timers a;
     next_timer_id := next_timer_id a;
     issued := issued a |}.

(** Edits with the time of each: the clock moves to the edit, then the
    handler runs. *)
Fixpoint type_edits (edits : list (nat * string)) (a : App) : App :=
  match edits with
  | [] => a
  | (t, source) :: rest =>
      type_edits rest (handleSourceInput source (advance_to t a))
  end.

(** Each edit comes less than [DEBOUNCE] after the one before. *)
Fixpoint within_debounce (previous : nat) (edits : list (nat * string)) : Prop :=
  match edits with
  | [] => True
  | (t, _) :: rest =>
      (previous <= t < previous + DEBOUNCE)%nat /\ within_debounce t rest
  end.

(** No timer is pending, and timer ids start above 0. *)
Definition quiet (a : App) : Prop :=
  timers a = [] /\ sourceCommitTimeoutRef a = None
  /\ (0 < next_timer_id a)%nat.

Definition sources (requests : list Request) : list string :=
  map request_source requests.

(** ** Notions the statements use *)

(** What a request shows when it is applied: the visual output, the text
    output and the error. *)
Definition shown (request : Request) (o : outcome) : string * string * string :=
  match o with
  | Rendered markup =>
      match request_style request with
      | svg => (markup, "", "")
      | _ => ("", markup, "")
      end
  | Threw e => ("", "", error_message e)
  end%string.

(** One timer is pending, set at [t] for [source], and nothing was
    rendered since [a0]. *)
Definition armed (a0 : App) (t : nat) (source : string) (a : App) : Prop :=
  exists id,
    (0 < id)%nat
    /\ timers a = [{| timer_id := id; due := t + DEBOUNCE;
                      timer_source := source;
                      timer_style := renderStyle a0 |}]
    /\ sourceCommitTimeoutRef a = Some id
    /\ next_timer_id a = S id
    /\ now a = t
    /\ issued a = issued a0
    /\ requestIdRef a = requestIdRef a0
    /\ renderStyle a = renderStyle a0.

Definition last_edit (first : nat * string) (rest : list (nat * string))
  : nat * string := last rest first.

(** An application at rest, showing a diagram. *)
Definition app0 : App :=
  {| svgMarkup := "<svg>old</svg>"; asciiMarkup := ""; renderError := "";
     renderStyle := svg; sourceRef := "graph TD";
     requestIdRef := 0; sourceCommitTimeoutRef := None;
     now := 0; timers := []; next_timer_id := 1; issued := [] |}.

(** Two requests issued one after the other, both in flight. *)
Definition request1 : Request := fst (begin_render "graph TD; A" app0).
Definition app1 : App := snd (begin_render "graph TD; A" app0).
Definition request2 : Request := fst (begin_render "graph TD; A-->B" app1).
Definition app2 : App := snd (begin_render "graph TD; A-->B" app1).

Local Open Scope Z_scope.

(** ** The other callers of [renderDiagramForSource] *)

Definition set_style_source (style : RenderStyle) (source : string) (a : App)
  : App :=
  {| svgMarkup := svgMarkup a; asciiMarkup := asciiMarkup a;
     renderError := renderError a; renderStyle := style;
     sourceRef := source;
     requestIdRef := requestIdRef a;
     sourceCommitTimeoutRef := sourceCommitTimeoutRef a;
     now := now a; timers := timers a; next_timer_id := next_timer_id a;
     issued := issued a |}.

(** [setRenderStyle(style)] and the effect that follows it,
    [renderDiagramForSource(sourceRef.current)] with the new style. *)
Definition setRenderStyle (style : RenderStyle) (a : App) : Request * App :=
  begin_render (sourceRef a) (set_style_source style (sourceRef a) a).

(** The effect that reads the share link, once the token is decoded:
    [sourceRef.current = decoded], then
    [renderDiagramForSource(decoded)]. *)
Definition hydrate (decoded : string) (a : App) : Request * App :=
  begin_render decoded (set_style_source (renderStyle a) decoded a).

(** [renderSvgSnapshot], once the renderer has returned:
    [setSvgMarkup(renderedSvg)], which no stamp guards. *)
Definition renderSvgSnapshot (renderedSvg : string) (a : App) : App :=
  set_result renderedSvg (asciiMarkup a) (renderError a) a.

(** What happens to the application, one event at a time. *)
Inductive event :=
| Edit (nextSource : string)       (* [onChange] of the editor *)
| Commit (nextSource : string)     (* [onBlur], or a preset applied *)
| Elapse (t : nat)                 (* time passes until [t] *)
| Complete (request : Request) (o : outcome)
                                   (* the renderer returns or throws *)
| StyleChange (style : RenderStyle)
| Hydrate (decoded : string)
| Snapshot (renderedSvg : string).

Definition handle (e : event) (a : App) : App :=
  match e with
  | Edit nextSource => handleSourceInput nextSource a
  | Commit nextSource => snd (commitSourceNow nextSource a)
  | Elapse t => advance_to t a
  | Complete request o => finish_render request o a
  | StyleChange style => snd (setRenderStyle style a)
  | Hydrate decoded => snd (hydrate decoded a)
  | Snapshot renderedSvg => renderSvgSnapshot renderedSvg a
  end.

Definition run_events (events : list event) (a : App) : App :=
  fold_left (fun a e => handle e a) events a.

(** The stamps of the requests issued so far count up from the stamp
    the application started with. *)
Definition stamps_count_up (first : Z) (a : App) : Prop :=
  requestIdRef a = first + Z.of_nat (length (issued a))
  /\ forall i request,
       nth_error (issued a) i = Some request ->
       requestId request = first + 1 + Z.of_nat i.

End Scheduler.

(* ================================================================== *)
(** * [src/App.tsx]: presets, share URLs and escaping               *)
(* ================================================================== *)

Module Studio.
Import Js Url ShareLink.
Local Open Scope Z_scope.

(** ** The presets *)

Definition Flowchart : jsstring := lit
"graph TD
  Start([Receive Request]) --> Parse{Valid Input?}
  Parse -->|Yes| Build[Build Context]
  Parse -->|No| Reject[Return Validation Error]
  Build --> Decide{Need External API?}
  Decide -->|Yes| Fetch[(Data Source)]
  Decide -->|No| Compute[Compute Locally]
  Fetch --> Merge[Merge Data]
  Compute --> Merge
  Merge --> Response([Send Response])".

Definition Sequence : jsstring := lit
"sequenceDiagram
  autonumber
  participant Browser
  participant App as Mermaid Studio
  participant Engine as beautiful-mermaid

  Browser->>App: Edit diagram text
  App->>Engine: renderMermaid(source, theme)
  Engine-->>App: SVG output
  App-->>Browser: Interactive preview".

Definition State : jsstring := lit
"stateDiagram-v2
  [*] --> Idle
  Idle --> Editing: User types
  Editing --> Rendering: Source changed
  Rendering --> Ready: Render success
  Rendering --> Failed: Parse error
  Failed --> Editing: Fix syntax
  Ready --> Exporting: Download SVG/PNG
  Exporting --> Ready
  Ready --> [*]".

Definition Class : jsstring := lit
"classDiagram
  class MermaidStudio {
    +string source
    +ThemeMode mode
    +RenderStyle style
    +render()
    +downloadSvg()
    +downloadPng(scale)
  }
  class Renderer {
    +renderMermaid(source, options)
    +renderMermaidAscii(source, options)
  }
  MermaidStudio --> Renderer : uses".

Definition ER : jsstring := lit
"erDiagram
  USER ||--o{ DIAGRAM : creates
  DIAGRAM ||--o{ RENDER : produces
  DIAGRAM {
    string id
    string title
    text source
  }
  RENDER {
    string format
    string theme
    datetime renderedAt
  }".

(** [DIAGRAM_PRESETS], in the order of its keys, and the set of its
    values. *)
Definition DIAGRAM_PRESETS : list (string * jsstring) :=
  [("Flowchart"%string, Flowchart); ("Sequence"%string, Sequence);
   ("State"%string, State); ("Class"%string, Class); ("ER"%string, ER)].

Definition PRESET_SOURCES : list jsstring := map snd DIAGRAM_PRESETS.

(** [set.has(value)] for a set of strings. *)
Definition Set_has (set : list jsstring) (value : jsstring) : bool :=
  existsb (jsstring_eqb value) set.

(** ** [String.prototype.trim] *)

(** The code units [trim] removes: ECMAScript's WhiteSpace (tab, VT, FF,
    U+FEFF and the space separators) and LineTerminator. *)
Definition is_white_space (c : Z) : bool :=
  (c =? 0x09) || (c =? 0x0A) || (c =? 0x0B) || (c =? 0x0C) || (c =? 0x0D)
  || (c =? 0x20) || (c =? 0xA0) || (c =? 0x1680)
  || ((0x2000 <=? c) && (c <=? 0x200A))
  || (c =? 0x2028) || (c =? 0x2029) || (c =? 0x202F) || (c =? 0x205F)
  || (c =? 0x3000) || (c =? 0xFEFF).

Fixpoint trim_start (s : jsstring) : jsstring :=
  match s with
  | c :: s' => if is_white_space c then trim_start s' else s
  | [] => []
  end.

Definition trim_end (s : jsstring) : jsstring := rev (trim_start (rev s)).

Definition trim (s : jsstring) : jsstring := trim_end (trim_start s).

(** ** The share URL of a source *)

(** [buildShareUrlForSource]: a blank source and a preset take the token
    off the URL; any other source is encoded and written to it.  The
    promise is rejected with what the encoder throws. *)
Definition buildShareUrlForSource (P : Platform) (source : jsstring)
  (currentUrl : ref) : M (result ref) :=
  if (Nat.eqb (length (trim source)) 0 || Set_has PRESET_SOURCES source)%bool
  then
    nextUrl <~ clearDiagramTokenFromUrl currentUrl ;;
    m_ret (ret nextUrl)
  else
    match encodeDiagramToken P source with
    | inr token =>
        nextUrl <~ writeDiagramTokenToUrl currentUrl token ;;
        m_ret (ret nextUrl)
    | inl e => m_ret (throw e)
    end.

(** ** Notions the statements use *)

Definition blank (source : jsstring) : Prop := trim source = [].

(** A source the studio starts from, which needs no link. *)
Definition is_preset (source : jsstring) : Prop := In source PRESET_SOURCES.

(** ** Escaping *)

(** [s.replaceAll(x, y)] for a pattern [x] of one character: every
    occurrence is replaced, from left to right; the replacements of the
    source hold no [$], so they are inserted as they are. *)
Definition replaceAll (x : Z) (y : jsstring) (s : jsstring) : jsstring :=
  flat_map (fun c => if c =? x then y else [c]) s.

Definition AMP : Z := 0x26.         (* & *)
Definition LESS : Z := 0x3C.        (* < *)
Definition GREATER : Z := 0x3E.     (* > *)
Definition QUOTE : Z := 0x22.       (* the double quote *)
Definition APOSTROPHE : Z := 0x27.  (* ' *)

Definition escapeHtml (value : jsstring) : jsstring :=
  replaceAll APOSTROPHE (lit "&#39;")
    (replaceAll QUOTE (lit "&quot;")
       (replaceAll GREATER (lit "&gt;")
          (replaceAll LESS (lit "&lt;")
             (replaceAll AMP (lit "&amp;") value)))).

(** ** Notions the statements use *)

(** The characters [escapeHtml] replaces. *)
Definition is_special (c : Z) : bool :=
  (c =? AMP) || (c =? LESS) || (c =? GREATER) || (c =? QUOTE)
  || (c =? APOSTROPHE).

(** What one character becomes. *)
Definition escaped (c : Z) : jsstring :=
  if c =? AMP then lit "&amp;"
  else if c =? LESS then lit "&lt;"
  else if c =? GREATER then lit "&gt;"
  else if c =? QUOTE then lit "&quot;"
  else if c =? APOSTROPHE then lit "&#39;"
  else [c].

(** The characters that open or close a tag or an attribute value. *)
Definition is_markup (c : Z) : bool :=
  (c =? LESS) || (c =? GREATER) || (c =? QUOTE) || (c =? APOSTROPHE).

(** *** [renderShikiTokenLines] *)

(** A token of the highlighter: its text, its colour and its font
    style, the last two possibly undefined. *)
Record Token := {
  content : jsstring;
  color : option jsstring;
  fontStyle : option Z
}.

(** [parts.join(separator)] for an array of strings. *)
Fixpoint join (separator : jsstring) (parts : list jsstring) : jsstring :=
  match parts with
  | [] => []
  | [part] => part
  | part :: rest => part ++ separator ++ join separator rest
  end.

(** [(token.fontStyle ?? 0) & bit], as a condition. *)
Definition has_style (token : Token) (bit : Z) : bool :=
  negb (Z.land (match fontStyle token with Some n => n | None => 0 end) bit
        =? 0).

Definition styles_of (fallbackColor : jsstring) (token : Token)
  : list jsstring :=
  [lit "color:" ++ match color token with
                   | Some c => c
                   | None => fallbackColor
                   end]
    ++ (if has_style token 1 then [lit "font-style:italic"] else [])
    ++ (if has_style token 2 then [lit "font-weight:700"] else [])
    ++ (if has_style token 4 then [lit "text-decoration:underline"] else []).

Definition render_token (fallbackColor : jsstring) (token : Token) : jsstring :=
  lit "<span style=" ++ [QUOTE]
    ++ join (lit ";") (styles_of fallbackColor token)
    ++ [QUOTE] ++ lit ">" ++ escapeHtml (content token) ++ lit "</span>".

Definition render_line (fallbackColor : jsstring) (line : list Token)
  : jsstring :=
  match line with
  | [] => lit " "
  | _ => join [] (map (render_token fallbackColor) line)
  end.

Definition renderShikiTokenLines (lines : list (list Token))
  (fallbackColor : jsstring) : jsstring :=
  join [0x0A] (map (render_line fallbackColor) lines).

(** How often a character occurs in a string. *)
Definition occurrences (c : Z) (s : jsstring) : nat :=
  length (filter (fun d => d =? c) s).

(** A colour of a theme: no markup and no line feed in it. *)
Definition plain_colour (c : jsstring) : Prop :=
  forallb (fun d => negb (is_markup d) && negb (d =? 0x0A)) c = true.

Definition plain_colours (fallbackColor : jsstring) (lines : list (list Token))
  : Prop :=
  plain_colour fallbackColor
  /\ Forall (Forall (fun token =>
                       match color token with
                       | Some c => plain_colour c
                       | None => True
                       end)) lines.

(** The tokens of a line: no line feed in their text. *)
Definition one_line (lines : list (list Token)) : Prop :=
  Forall (Forall (fun token => occurrences 0x0A (content token) = 0%nat)) lines.

End Studio.

(* ================================================================== *)
(** * [src/App.tsx]: the message of an action                           *)
(* ================================================================== *)

Module ActionMessage.

(** The message of the last action, its error flag, the ref of its
    timer, and the event loop: the clock in milliseconds, the pending
    timers (id and time due) and the next timer id. *)
Record Toast := {
  actionMessage : string;
  actionError : bool;
  actionTimeoutRef : option nat;
  clock : nat;
  pending : list (nat * nat);
  next_id : nat
}.

Definition ACTION_MESSAGE_MS : nat := 3000.

(** [if (actionTimeoutRef.current) clearTimeout(actionTimeoutRef.current)] *)
Definition without_action_timer (t : Toast) : list (nat * nat) :=
  match actionTimeoutRef t with
  | Some id =>
      if Nat.eqb id 0 then pending t
      else filter (fun x => negb (Nat.eqb (fst x) id)) (pending t)
  | None => pending t
  end.

Definition showActionMessage (message : string) (isError : bool) (t : Toast)
  : Toast :=
  let id := next_id t in
  {| actionMessage := message;
     actionError := isError;
     actionTimeoutRef := Some id;
     clock := clock t;
     pending := without_action_timer t
                  ++ [(id, (clock t + ACTION_MESSAGE_MS)%nat)];
     next_id := S id |}.

(** The callback of the timer: [setActionMessage("")] and
    [setActionError(false)]; the ref keeps the id. *)
Definition expire (t : Toast) : Toast :=
  {| actionMessage := ""; actionError := false;
     actionTimeoutRef := actionTimeoutRef t;
     clock := clock t; pending := pending t; next_id := next_id t |}.

(** Time passes until [time]: the timers due by then run and are gone. *)
Definition wait_until (time : nat) (t : Toast) : Toast :=
  let due_now := filter (fun x => Nat.leb (snd x) time) (pending t) in
  let later := filter (fun x => negb (Nat.leb (snd x) time)) (pending t) in
  let t := fold_left (fun t _ => expire t) due_now t in
  {| actionMessage := actionMessage t; actionError := actionError t;
     actionTimeoutRef := actionTimeoutRef t;
     clock := Nat.max (clock t) time; pending := later;
     next_id := next_id t |}.

(** Calls of [showActionMessage], each with its time. *)
Fixpoint show_all (calls : list (nat * (string * bool))) (t : Toast) : Toast :=
  match calls with
  | [] => t
  | (time, (message, isError)) :: rest =>
      show_all rest (showActionMessage message isError (wait_until time t))
  end.

(** ** Notions the statements use *)

(** No timer is pending and timer ids start above 0. *)
Definition idle (t : Toast) : Prop := pending t = [] /\ (0 < next_id t)%nat.

(** The calls come in the order of their times. *)
Fixpoint in_order (previous : nat) (calls : list (nat * (string * bool)))
  : Prop :=
  match calls with
  | [] => True
  | (time, _) :: rest => (previous <= time)%nat /\ in_order time rest
  end.

(** The message a call shows until [time]. *)
Definition showing (message : string) (isError : bool) (time : nat)
  (t : Toast) : Prop :=
  exists id,
    (0 < id)%nat
    /\ pending t = [(id, (time + ACTION_MESSAGE_MS)%nat)]
    /\ actionTimeoutRef t = Some id
    /\ next_id t = S id
    /\ clock t = time
    /\ actionMessage t = message
    /\ actionError t = isError.

Definition toast0 : Toast :=
  {| actionMessage := ""; actionError := false; actionTimeoutRef := None;
     clock := 0; pending := []; next_id := 1 |}.

End ActionMessage.

(* ================================================================== *)
(** * [src/App.tsx]: the colours of the text theme                      *)
(* ================================================================== *)

Module Colour.
Import Js Url Viewport Studio.
Local Open Scope Z_scope.

(** *** [Number.parseInt(string, 16)] *)

(** The values of the longest prefix of hexadecimal digits. *)
Fixpoint hex_digits (s : jsstring) : list Z :=
  match s with
  | [] => []
  | c :: s' =>
      match hex_value c with
      | Some v => v :: hex_digits s'
      | None => []
      end
  end.

(** [parseInt] with radix 16: leading white space is skipped, a sign is
    read, a prefix [0x] or [0X] is dropped, and the longest prefix of
    digits is the number; without a digit the result is NaN, here
    [None].  The zero with a minus sign is the integer 0 here. *)
Definition parseInt16 (string : jsstring) : option Z :=
  let S := trim_start string in
  let sign :=
    match S with
    | c :: _ => if c =? MINUS then -1 else 1
    | [] => 1
    end in
  let S :=
    match S with
    | c :: S' => if (c =? PLUS) || (c =? MINUS) then S' else S
    | [] => S
    end in
  let S :=
    match S with
    | c0 :: c1 :: S' =>
        if (c0 =? 0x30) && ((c1 =? 0x78) || (c1 =? 0x58)) then S' else S
    | _ => S
    end in
  match hex_digits S with
  | [] => None
  | digits => Some (sign * fold_left (fun n d => n * 16 + d) digits 0)
  end.

(** *** [parseHexColor] *)

Record Rgb := { r : Z; g : Z; b : Z }.

(** [s.replace(/^#/, "")] *)
Definition strip_hash (s : jsstring) : jsstring :=
  match s with
  | c :: s' => if c =? HASH then s' else s
  | [] => []
  end.

Definition channels (r g b : option Z) : option Rgb :=
  match r, g, b with
  | Some r, Some g, Some b => Some {| r := r; g := g; b := b |}
  | _, _, _ => None
  end.

Definition parseHexColor (value : jsstring) : option Rgb :=
  let normalized := strip_hash (trim value) in
  match normalized with
  | [c0; c1; c2] =>
      channels (parseInt16 [c0; c0]) (parseInt16 [c1; c1])
        (parseInt16 [c2; c2])
  | [c0; c1; c2; c3; c4; c5] =>
      channels (parseInt16 [c0; c1]) (parseInt16 [c2; c3])
        (parseInt16 [c4; c5])
  | _ => None
  end.

(** *** [Math.round] and [toString(16)] *)

(** What [Math.round] returns: NaN, an infinity or an integer. *)
Inductive integral :=
| NaN
| Infinity (negative : bool)
| Integer (n : Z).

(** [Math.round(x)] is the integer nearest to [x], the greater one of
    two at the same distance: the floor of [x + 1/2], taken without
    rounding. *)
Class Rounding (num : Type) := { Math_round : num -> integral }.

Definition float_round (f : PrimFloat.float) : integral :=
  match FloatOps.Prim2SF f with
  | SpecFloat.S754_nan => NaN
  | SpecFloat.S754_infinity s => Infinity s
  | SpecFloat.S754_zero _ => Integer 0
  | SpecFloat.S754_finite s m e =>
      let v := if s then Zneg m else Zpos m in
      (* the value is [v * 2 ^ e]; for [e < 0] the floor of
         [v / 2 ^ (- e) + 1 / 2] is [(2 * v + 2 ^ (- e)) / 2 ^ (1 - e)] *)
      Integer (if 0 <=? e then Z.shiftl v e
               else Z.shiftr (Z.shiftl v 1 + Z.shiftl 1 (- e)) (1 - e))
  end.

#[export] Instance Float64_round : Rounding PrimFloat.float :=
  { Math_round := float_round }.

Definition lower_hex_digit (d : Z) : Z :=
  if d <? 10 then 0x30 + d else 0x57 + d.

(** The digits of a positive integer in base 16, the last one first in
    the recursion; [fuel] bounds their number. *)
Fixpoint hex_string (fuel : nat) (n : Z) (digits : jsstring) : jsstring :=
  match fuel with
  | O => digits
  | S fuel' =>
      let digits := lower_hex_digit (n mod 16) :: digits in
      if n / 16 =? 0 then digits else hex_string fuel' (n / 16) digits
  end.

(** [value.toString(16)] for a value of [Math.round]. *)
Definition toString16 (value : integral) : jsstring :=
  match value with
  | NaN => lit "NaN"
  | Infinity negative =>
      (if negative then [MINUS] else []) ++ lit "Infinity"
  | Integer n =>
      (if n <? 0 then [MINUS] else [])
        ++ hex_string (S (Z.to_nat (Z.log2 (Z.abs n)))) (Z.abs n) []
  end.

(** [s.padStart(2, "0")] *)
Definition padStart2 (s : jsstring) : jsstring :=
  repeat 0x30 (2 - length s) ++ s.

(** *** [mixHexColors] *)

Section Mix.

Context {num : Type} {arith : Number num} {rounding : Rounding num}.
Local Open Scope num_scope.

(** [clamp(foregroundPercent, 0, 100) / 100] *)
Definition weight_of (foregroundPercent : num) : num :=
  clamp foregroundPercent (literal 0 1) (literal 100 1) / literal 100 1.

Definition mixChannel (weight : num) (a b : Z) : integral :=
  Math_round (literal a 1 * weight + literal b 1 * (literal 1 1 - weight)).

Definition mixHexColors (foreground background : jsstring)
  (foregroundPercent : num) : jsstring :=
  match parseHexColor foreground, parseHexColor background with
  | Some fg, Some bg =>
      let weight := weight_of foregroundPercent in
      let r' := mixChannel weight (r fg) (r bg) in
      let g' := mixChannel weight (g fg) (g bg) in
      let b' := mixChannel weight (b fg) (b bg) in
      [HASH] ++ padStart2 (toString16 r') ++ padStart2 (toString16 g')
             ++ padStart2 (toString16 b')
  | _, _ => foreground
  end.

End Mix.

(** ** Notions the statements use *)

(** The greatest integer that is not above a rational. *)
Definition floor (q : Q) : Z := Qnum q / Zpos (Qden q).

Definition is_hex_digit (c : Z) : bool :=
  match hex_value c with
  | Some _ => true
  | None => false
  end.

(** A channel of a colour written with two digits. *)
Definition is_channel (n : Z) : Prop := 0 <= n <= 255.

Definition between (a b m : Z) : Prop := Z.min a b <= m <= Z.max a b.

(** The integer [mixChannel] gives, or -1 for NaN and the infinities. *)
Definition mixed (value : integral) : Z :=
  match value with
  | Integer n => n
  | _ => -1
  end.

(** The percents [asciiTheme] passes to [mixHexColors]. *)
Definition theme_percents : list Z := [50; 20; 85].

End Colour.

(* ================================================================== *)
(** * Facts on strings, UTF-16 and UTF-8 *)
(* ================================================================== *)

Module JsFacts.
Import Js.

Lemma byte_to_Z_range (b : byte) : 0 <= byte_to_Z b < 256.
Proof.
  unfold byte_to_Z. pose proof (Byte.to_N_bounded b). lia.
Qed.

Lemma byte_of_to_Z (b : byte) : byte_of_Z (byte_to_Z b) = b.
Proof.
  unfold byte_of_Z. rewrite Z.mod_small by apply byte_to_Z_range.
  unfold byte_to_Z. rewrite N2Z.id, Byte.of_to_N. reflexivity.
Qed.

Lemma byte_to_of_Z (z : Z) : 0 <= z < 256 -> byte_to_Z (byte_of_Z z) = z.
Proof.
  intros Hz. unfold byte_of_Z, byte_to_Z. rewrite Z.mod_small by assumption.
  destruct (Byte.of_N (Z.to_N z)) as [b|] eqn:E.
  - apply Byte.to_of_N in E. rewrite E. lia.
  - apply Byte.of_N_None_iff in E. lia.
Qed.

Lemma lor_high_low (n a b : Z) :
  0 <= n -> 0 <= b < 2 ^ n -> Z.lor (a * 2 ^ n) b = a * 2 ^ n + b.
Proof.
  intros Hn Hb.
  assert (E : Z.land (a * 2 ^ n) b = 0).
  2:{ pose proof (Z.add_lor_land (a * 2 ^ n) b). lia. }
  apply Z.bits_inj'. intros i Hi.
  rewrite Z.land_spec, Z.bits_0.
  destruct (Z.lt_ge_cases i n) as [Hlt|Hge].
  - rewrite Z.mul_pow2_bits_low by lia. reflexivity.
  - rewrite <- (Z.mod_small b (2 ^ n)) by lia.
    rewrite Z.mod_pow2_bits_high by lia. apply andb_false_r.
Qed.

Lemma land_low (n a : Z) : 0 <= n -> Z.land a (2 ^ n - 1) = a mod 2 ^ n.
Proof.
  intros Hn. rewrite <- Z.land_ones by assumption.
  rewrite Z.ones_equiv. reflexivity.
Qed.

Ltac to_arith :=
  repeat first
    [ rewrite Z.shiftr_div_pow2 by lia
    | rewrite Z.shiftl_mul_pow2 by lia ];
  change 0x3F with (2 ^ 6 - 1); change 0x1F with (2 ^ 5 - 1);
  change 0xF with (2 ^ 4 - 1); change 0x7 with (2 ^ 3 - 1);
  change 0x3FF with (2 ^ 10 - 1);
  rewrite ?land_low by lia.

Ltac zdm := Z.to_euclidean_division_equations; lia.

Ltac decide_cmp :=
  repeat match goal with
  | |- context [ ?a <=? ?b ] =>
      first [ replace (a <=? b) with true by (symmetry; apply Z.leb_le; lia)
            | replace (a <=? b) with false by (symmetry; apply Z.leb_gt; lia) ]
  | |- context [ ?a =? ?b ] =>
      first [ replace (a =? b) with true by (symmetry; apply Z.eqb_eq; lia)
            | replace (a =? b) with false by (symmetry; apply Z.eqb_neq; lia) ]
  end.

Lemma decoder_run_cons (d : decoder) (b : Z) (bs : list Z) :
  decoder_run d (b :: bs)
  = fst (decoder_step d b) ++ decoder_run (snd (decoder_step d b)) bs.
Proof. simpl. destruct (decoder_step d b). reflexivity. Qed.

Ltac step :=
  rewrite decoder_run_cons; unfold decoder_step, lead_step;
  cbn [bytes_needed decoder_init lower_boundary upper_boundary code_point
       bytes_seen];
  decide_cmp; cbn [andb negb fst snd app].

Lemma land_lead (k q n : Z) :
  0 <= n -> 0 <= q < 2 ^ n -> Z.land (q + k * 2 ^ n) (2 ^ n - 1) = q.
Proof.
  intros Hn Hq. rewrite land_low by assumption.
  rewrite Z.mod_add by lia. apply Z.mod_small. assumption.
Qed.

Lemma land_cont (r : Z) : 0 <= r < 64 -> Z.land (128 + r) 0x3F = r.
Proof.
  intros Hr. replace (128 + r) with (r + 2 * 2 ^ 6) by lia.
  change 0x3F with (2 ^ 6 - 1). apply land_lead; lia.
Qed.

Lemma lor_shift6 (a r : Z) : 0 <= r < 64 -> Z.lor (Z.shiftl a 6) r = a * 64 + r.
Proof.
  intros Hr. rewrite Z.shiftl_mul_pow2 by lia. apply lor_high_low; lia.
Qed.

Lemma decode1 (c : Z) (rest : list Z) :
  0 <= c <= 0x7F ->
  decoder_run decoder_init (c :: rest) = c :: decoder_run decoder_init rest.
Proof. intros Hc. step. reflexivity. Qed.

Lemma decode2 (q r : Z) (rest : list Z) :
  2 <= q <= 31 -> 0 <= r < 64 ->
  decoder_run decoder_init ((q + 0xC0) :: (128 + r) :: rest)
  = (q * 64 + r) :: decoder_run decoder_init rest.
Proof.
  intros Hq Hr. step. step. rewrite land_cont by assumption.
  replace (q + 0xC0) with (q + 6 * 2 ^ 5) by lia.
  change 0x1F with (2 ^ 5 - 1). rewrite land_lead by lia.
  rewrite lor_shift6 by assumption. reflexivity.
Qed.

Lemma decode3 (a q r : Z) (rest : list Z) :
  0 <= a <= 15 -> 0 <= q < 64 -> 0 <= r < 64 ->
  (a = 0 -> 32 <= q) -> (a = 13 -> q <= 31) ->
  decoder_run decoder_init ((a + 0xE0) :: (128 + q) :: (128 + r) :: rest)
  = ((a * 64 + q) * 64 + r) :: decoder_run decoder_init rest.
Proof.
  intros Ha Hq Hr H0 H13. step.
  replace (a + 0xE0) with (a + 14 * 2 ^ 4) by lia.
  change 0xF with (2 ^ 4 - 1). rewrite land_lead by lia.
  rewrite decoder_run_cons; unfold decoder_step;
  cbn [bytes_needed decoder_init lower_boundary upper_boundary code_point
       bytes_seen].
  destruct (Z.eqb_spec (a + 14 * 2 ^ 4) 0xE0) as [E0|E0];
  destruct (Z.eqb_spec (a + 14 * 2 ^ 4) 0xED) as [E13|E13];
    try lia;
    decide_cmp; cbn [andb negb fst snd app];
    step; rewrite !land_cont by assumption;
    rewrite !lor_shift6 by assumption; reflexivity.
Qed.

Lemma decode4 (a p q r : Z) (rest : list Z) :
  0 <= a <= 4 -> 0 <= p < 64 -> 0 <= q < 64 -> 0 <= r < 64 ->
  (a = 0 -> 16 <= p) -> (a = 4 -> p <= 15) ->
  decoder_run decoder_init
    ((a + 0xF0) :: (128 + p) :: (128 + q) :: (128 + r) :: rest)
  = (((a * 64 + p) * 64 + q) * 64 + r) :: decoder_run decoder_init rest.
Proof.
  intros Ha Hp Hq Hr H0 H4. step.
  replace (a + 0xF0) with (a + 30 * 2 ^ 3) by lia.
  change 0x7 with (2 ^ 3 - 1). rewrite land_lead by lia.
  rewrite decoder_run_cons; unfold decoder_step;
  cbn [bytes_needed decoder_init lower_boundary upper_boundary code_point
       bytes_seen].
  destruct (Z.eqb_spec (a + 30 * 2 ^ 3) 0xF0) as [E0|E0];
  destruct (Z.eqb_spec (a + 30 * 2 ^ 3) 0xF4) as [E4|E4];
    try lia;
    decide_cmp; cbn [andb negb fst snd app];
    step; step; rewrite !land_cont by assumption;
    rewrite !lor_shift6 by assumption; reflexivity.
Qed.

Lemma cont_byte (cp k : Z) :
  0 <= k ->
  Z.lor 0x80 (Z.land (Z.shiftr cp k) 0x3F) = 128 + (cp / 2 ^ k) mod 64.
Proof.
  intros Hk. rewrite Z.shiftr_div_pow2 by assumption.
  change 0x3F with (2 ^ 6 - 1). rewrite land_low by lia.
  change 0x80 with (1 * 2 ^ 7). rewrite lor_high_low; [reflexivity | lia |].
  pose proof (Z.mod_pos_bound (cp / 2 ^ k) (2 ^ 6)). lia.
Qed.

Lemma utf8_encode_scalar_eq (cp : Z) :
  utf8_encode_scalar cp =
    if cp <=? 0x7F then [cp]
    else if cp <=? 0x7FF then [cp / 64 + 0xC0; 128 + cp mod 64]
    else if cp <=? 0xFFFF then
      [cp / 4096 + 0xE0; 128 + (cp / 64) mod 64; 128 + cp mod 64]
    else [cp / 262144 + 0xF0; 128 + (cp / 4096) mod 64;
          128 + (cp / 64) mod 64; 128 + cp mod 64].
Proof.
  unfold utf8_encode_scalar.
  destruct (cp <=? 0x7F); [reflexivity|].
  destruct (cp <=? 0x7FF); [|destruct (cp <=? 0xFFFF)];
    cbn [utf8_continuation]; rewrite !cont_byte by lia;
    rewrite !Z.shiftr_div_pow2 by lia;
    repeat match goal with
    | |- context [ 2 ^ (6 * Z.of_nat ?n) ] =>
        let v := eval compute in (2 ^ (6 * Z.of_nat n)) in
        change (2 ^ (6 * Z.of_nat n)) with v
    end; rewrite ?Z.div_1_r; reflexivity.
Qed.

Lemma utf8_encode_scalar_range (cp : Z) :
  0 <= cp <= 0x10FFFF ->
  Forall (fun b => 0 <= b < 256) (utf8_encode_scalar cp).
Proof.
  intros Hr. rewrite utf8_encode_scalar_eq.
  destruct (Z.leb_spec cp 0x7F); [|destruct (Z.leb_spec cp 0x7FF);
    [|destruct (Z.leb_spec cp 0xFFFF)]];
    repeat constructor; zdm.
Qed.

Lemma decoder_run_scalar (cp : Z) (rest : list Z) :
  is_scalar cp ->
  decoder_run decoder_init (utf8_encode_scalar cp ++ rest)
  = cp :: decoder_run decoder_init rest.
Proof.
  intros [Hr Hs]. rewrite utf8_encode_scalar_eq.
  destruct (Z.leb_spec cp 0x7F) as [H1|H1].
  { apply decode1. lia. }
  destruct (Z.leb_spec cp 0x7FF) as [H2|H2].
  { cbn [app]. rewrite decode2 by zdm. f_equal. zdm. }
  destruct (Z.leb_spec cp 0xFFFF) as [H3|H3].
  { cbn [app]. rewrite decode3 by zdm. f_equal. zdm. }
  cbn [app]. rewrite decode4 by zdm. f_equal. zdm.
Qed.

Lemma list_ind2 {A : Type} (P : list A -> Prop) :
  P [] -> (forall a, P [a]) ->
  (forall a b l, P l -> P (b :: l) -> P (a :: b :: l)) ->
  forall l, P l.
Proof.
  intros H0 H1 H2 l.
  assert (H : P l /\ forall a, P (a :: l)).
  { induction l as [|b l [IH1 IH2]]; split; auto. }
  apply H.
Qed.

Lemma map_byte_to_of_Z (l : list Z) :
  Forall (fun b => 0 <= b < 256) l -> map byte_to_Z (map byte_of_Z l) = l.
Proof.
  induction 1 as [|b l Hb _ IH]; [reflexivity|].
  cbn [map]. rewrite byte_to_of_Z, IH by assumption. reflexivity.
Qed.

Lemma utf8_bytes_range (cps : list Z) :
  Forall is_scalar cps ->
  Forall (fun b => 0 <= b < 256) (flat_map utf8_encode_scalar cps).
Proof.
  induction 1 as [|cp cps [Hr _] _ IH]; [constructor|].
  cbn [flat_map]. apply Forall_app. split; [|assumption].
  apply utf8_encode_scalar_range. assumption.
Qed.

Lemma decoder_run_scalars (cps : list Z) :
  Forall is_scalar cps ->
  decoder_run decoder_init (flat_map utf8_encode_scalar cps) = cps.
Proof.
  induction 1 as [|cp cps Hcp _ IH]; [reflexivity|].
  cbn [flat_map]. rewrite decoder_run_scalar, IH by assumption. reflexivity.
Qed.

Lemma utf8_decode_encode (cps : list Z) :
  Forall is_scalar cps -> utf8_decode_without_BOM (utf8_encode cps) = cps.
Proof.
  intros H. unfold utf8_decode_without_BOM, utf8_encode.
  rewrite map_byte_to_of_Z by (apply utf8_bytes_range; assumption).
  apply decoder_run_scalars. assumption.
Qed.

Lemma is_lead_spec (c : Z) : is_lead c = true <-> 0xD800 <= c <= 0xDBFF.
Proof. unfold is_lead. rewrite andb_true_iff, !Z.leb_le. tauto. Qed.

Lemma is_trail_spec (c : Z) : is_trail c = true <-> 0xDC00 <= c <= 0xDFFF.
Proof. unfold is_trail. rewrite andb_true_iff, !Z.leb_le. tauto. Qed.

Lemma is_lead_false (c : Z) : is_lead c = false <-> ~ 0xD800 <= c <= 0xDBFF.
Proof. rewrite <- is_lead_spec. destruct (is_lead c); intuition congruence. Qed.

Lemma is_trail_false (c : Z) : is_trail c = false <-> ~ 0xDC00 <= c <= 0xDFFF.
Proof. rewrite <- is_trail_spec. destruct (is_trail c); intuition congruence. Qed.

Lemma to_scalars_pair (c d : Z) (s : jsstring) :
  is_lead c = true -> is_trail d = true ->
  to_scalars (c :: d :: s)
  = (0x10000 + (c - 0xD800) * 0x400 + (d - 0xDC00)) :: to_scalars s.
Proof. intros Hc Hd. cbn [to_scalars]. rewrite Hc, Hd. reflexivity. Qed.

Lemma to_scalars_lone_lead (c d : Z) (s : jsstring) :
  is_lead c = true -> is_trail d = false ->
  to_scalars (c :: d :: s) = 0xFFFD :: to_scalars (d :: s).
Proof. intros Hc Hd. cbn [to_scalars]. rewrite Hc, Hd. reflexivity. Qed.

Lemma to_scalars_other (c : Z) (s : jsstring) :
  is_lead c = false ->
  to_scalars (c :: s) = (if is_trail c then 0xFFFD else c) :: to_scalars s.
Proof.
  intros Hc. cbn [to_scalars]. rewrite Hc. destruct (is_trail c); reflexivity.
Qed.

Lemma to_scalars_is_scalar (s : jsstring) :
  code_units s -> Forall is_scalar (to_scalars s).
Proof.
  unfold code_units, is_scalar.
  induction s as [|c|c d s IH1 IH2] using list_ind2; intros H.
  - constructor.
  - inversion_clear H as [|? ? Hc _]. cbn [to_scalars].
    destruct (is_lead c) eqn:El; [|destruct (is_trail c) eqn:Et];
      repeat constructor; try lia.
    apply is_lead_false in El. apply is_trail_false in Et. lia.
  - inversion H as [|? ? Hc Hds]; subst. inversion Hds as [|? ? Hd Hs]; subst.
    destruct (is_lead c) eqn:El.
    + destruct (is_trail d) eqn:Et.
      * rewrite to_scalars_pair by assumption.
        apply is_lead_spec in El. apply is_trail_spec in Et.
        constructor; [lia | auto].
      * rewrite to_scalars_lone_lead by assumption.
        constructor; [lia | auto].
    + rewrite to_scalars_other by assumption.
      destruct (is_trail c) eqn:Et.
      * constructor; [lia | auto].
      * apply is_lead_false in El. apply is_trail_false in Et.
        constructor; [lia | auto].
Qed.

Lemma utf16_units_pair (c d : Z) :
  0xD800 <= c <= 0xDBFF -> 0xDC00 <= d <= 0xDFFF ->
  utf16_units (0x10000 + (c - 0xD800) * 0x400 + (d - 0xDC00)) = [c; d].
Proof.
  intros Hc Hd. unfold utf16_units.
  replace (_ <? 0x10000) with false by (symmetry; apply Z.ltb_ge; lia).
  rewrite Z.shiftr_div_pow2 by lia.
  change 0x3FF with (2 ^ 10 - 1). rewrite land_low by lia.
  change (2 ^ 10) with 1024. f_equal; [zdm|]. f_equal. zdm.
Qed.

Lemma utf16_units_bmp (c : Z) : c <= 0xFFFF -> utf16_units c = [c].
Proof.
  intros Hc. unfold utf16_units.
  replace (c <? 0x10000) with true by (symmetry; apply Z.ltb_lt; lia).
  reflexivity.
Qed.

Lemma isWellFormed_pair (c d : Z) (s : jsstring) :
  is_lead c = true ->
  isWellFormed (c :: d :: s) = is_trail d && isWellFormed s.
Proof. intros Hc. cbn [isWellFormed]. rewrite Hc. reflexivity. Qed.

Lemma isWellFormed_other (c : Z) (s : jsstring) :
  is_lead c = false ->
  isWellFormed (c :: s)
  = negb (is_trail c) && ((0 <=? c) && (c <=? 0xFFFF) && isWellFormed s).
Proof.
  intros Hc. cbn [isWellFormed]. rewrite Hc. destruct (is_trail c); reflexivity.
Qed.

Lemma from_to_scalars (s : jsstring) :
  isWellFormed s = true -> from_scalars (to_scalars s) = s.
Proof.
  unfold from_scalars.
  induction s as [|c|c d s IH1 IH2] using list_ind2; intros H.
  - reflexivity.
  - cbn [isWellFormed] in H. cbn [to_scalars].
    destruct (is_lead c); [discriminate|].
    destruct (is_trail c); [discriminate|].
    rewrite !andb_true_iff, !Z.leb_le in H.
    cbn [flat_map]. rewrite utf16_units_bmp by lia. reflexivity.
  - destruct (is_lead c) eqn:El.
    + rewrite isWellFormed_pair in H by assumption.
      apply andb_true_iff in H. destruct H as [Et Hs].
      rewrite to_scalars_pair by assumption.
      cbn [flat_map]. rewrite utf16_units_pair
        by (apply is_lead_spec || apply is_trail_spec; assumption).
      rewrite IH1 by assumption. reflexivity.
    + rewrite isWellFormed_other in H by assumption.
      rewrite to_scalars_other by assumption.
      destruct (is_trail c); [discriminate|].
      rewrite !andb_true_iff, !Z.leb_le in H. destruct H as [_ [Hc Hs]].
      cbn [flat_map]. rewrite utf16_units_bmp by lia.
      cbn [app]. f_equal. apply IH2. assumption.
Qed.

Lemma isWellFormed_code_units (s : jsstring) :
  isWellFormed s = true -> code_units s.
Proof.
  unfold code_units.
  induction s as [|c|c d s IH1 IH2] using list_ind2; intros H.
  - constructor.
  - cbn [isWellFormed] in H.
    destruct (is_lead c); [discriminate|].
    destruct (is_trail c); [discriminate|].
    rewrite !andb_true_iff, !Z.leb_le in H. repeat constructor; lia.
  - destruct (is_lead c) eqn:El.
    + rewrite isWellFormed_pair in H by assumption.
      apply andb_true_iff in H. destruct H as [Et Hs].
      apply is_lead_spec in El. apply is_trail_spec in Et.
      repeat constructor; try lia. auto.
    + rewrite isWellFormed_other in H by assumption.
      destruct (is_trail c); [discriminate|].
      rewrite !andb_true_iff, !Z.leb_le in H. destruct H as [_ [Hc Hs]].
      constructor; [lia | auto].
Qed.

(** What [TextDecoder.decode] makes of [TextEncoder.encode]'s output. *)
Lemma decode_encode_scalars (s : jsstring) :
  code_units s ->
  TextDecoder_decode (TextEncoder_encode s) =
    match to_scalars s with
    | 0xFEFF :: cps => from_scalars cps
    | cps => from_scalars cps
    end.
Proof.
  intros H. unfold TextDecoder_decode, TextEncoder_encode.
  rewrite utf8_decode_encode by (apply to_scalars_is_scalar; assumption).
  reflexivity.
Qed.

Lemma to_scalars_head (c : Z) (s : jsstring) :
  c <> 0xFEFF -> hd 0 (to_scalars (c :: s)) <> 0xFEFF.
Proof.
  intros Hc. cbn [to_scalars].
  destruct (is_lead c) eqn:El.
  - apply is_lead_spec in El. destruct s as [|d s]; cbn [hd]; [lia|].
    destruct (is_trail d) eqn:Et; cbn [hd]; [|lia].
    apply is_trail_spec in Et. lia.
  - destruct (is_trail c); cbn [hd]; [lia | assumption].
Qed.

Lemma TextDecoder_TextEncoder (s : jsstring) :
  isWellFormed s = true -> hd 0 s <> 0xFEFF ->
  TextDecoder_decode (TextEncoder_encode s) = s.
Proof.
  intros Hw Hb.
  rewrite decode_encode_scalars by (apply isWellFormed_code_units; assumption).
  assert (E : match to_scalars s with
              | 0xFEFF :: cps => from_scalars cps
              | cps => from_scalars cps
              end = from_scalars (to_scalars s)).
  { destruct s as [|c s]; [reflexivity|].
    pose proof (to_scalars_head c s Hb) as Hh.
    destruct (to_scalars (c :: s)) as [|x xs]; [reflexivity|].
    cbn [hd] in Hh.
    destruct (Z.eq_dec x 0xFEFF) as [->|Hx]; [contradiction|].
    destruct x as [|p|p]; try reflexivity.
    repeat (destruct p as [p|p|]; try reflexivity). contradiction. }
  rewrite E. apply from_to_scalars. assumption.
Qed.

End JsFacts.

(* ================================================================== *)
(** * Facts on base64 *)
(* ================================================================== *)

Module Base64Facts.
Import Js Base64 JsFacts.

Lemma list_ind3 {A : Type} (P : list A -> Prop) :
  P [] -> (forall a, P [a]) -> (forall a b, P [a; b]) ->
  (forall a b c l, P l -> P (a :: b :: c :: l)) ->
  forall l, P l.
Proof.
  intros H0 H1 H2 H3 l.
  assert (H : P l /\ (forall a, P (a :: l)) /\ (forall a b, P (a :: b :: l))).
  { induction l as [|x l (IH0 & IH1 & IH2)]; repeat split; auto. }
  apply H.
Qed.

Lemma chunkSize_pos : (1 <= chunkSize)%nat.
Proof. unfold chunkSize. lia. Qed.

Lemma binary_of_chunks_map (fuel : nat) (bs : bytes) :
  (length bs <= fuel)%nat -> binary_of_chunks fuel bs = map byte_to_Z bs.
Proof.
  revert bs. induction fuel as [|fuel IH]; intros bs Hlen.
  - destruct bs; [reflexivity | cbn [length] in Hlen; lia].
  - destruct bs as [|b bs]; [reflexivity|].
    cbn [binary_of_chunks]. rewrite IH.
    + rewrite <- map_app, firstn_skipn. reflexivity.
    + rewrite length_skipn. pose proof chunkSize_pos.
      cbn [length] in *. lia.
Qed.

Lemma base64_encode_split (bs : list Z) :
  base64_encode bs = map b64_char (sextets bs) ++ repeat EQUALS (padding bs).
Proof.
  induction bs as [|a|a b|a b c bs IH] using list_ind3; try reflexivity.
  cbn [base64_encode sextets padding map app]. rewrite IH. reflexivity.
Qed.

Lemma sextet1 a : 0 <= a < 256 -> Z.shiftr a 2 = a / 4.
Proof. intros. rewrite Z.shiftr_div_pow2 by lia. reflexivity. Qed.

Lemma sextet2 a b :
  0 <= a < 256 -> 0 <= b < 256 ->
  Z.lor (Z.shiftl (Z.land a 3) 4) (Z.shiftr b 4) = (a mod 4) * 16 + b / 16.
Proof.
  intros. rewrite Z.shiftr_div_pow2, Z.shiftl_mul_pow2 by lia.
  change 3 with (2 ^ 2 - 1). rewrite land_low by lia.
  rewrite lor_high_low; [reflexivity | lia | ]. change (2 ^ 4) with 16. zdm.
Qed.

Lemma sextet2' a : 0 <= a < 256 -> Z.shiftl (Z.land a 3) 4 = (a mod 4) * 16.
Proof.
  intros. rewrite Z.shiftl_mul_pow2 by lia.
  change 3 with (2 ^ 2 - 1). rewrite land_low by lia. reflexivity.
Qed.

Lemma sextet3 b c :
  0 <= b < 256 -> 0 <= c < 256 ->
  Z.lor (Z.shiftl (Z.land b 15) 2) (Z.shiftr c 6) = (b mod 16) * 4 + c / 64.
Proof.
  intros. rewrite Z.shiftr_div_pow2, Z.shiftl_mul_pow2 by lia.
  change 15 with (2 ^ 4 - 1). rewrite land_low by lia.
  rewrite lor_high_low; [reflexivity | lia | ]. change (2 ^ 2) with 4. zdm.
Qed.

Lemma sextet3' b : 0 <= b < 256 -> Z.shiftl (Z.land b 15) 2 = (b mod 16) * 4.
Proof.
  intros. rewrite Z.shiftl_mul_pow2 by lia.
  change 15 with (2 ^ 4 - 1). rewrite land_low by lia. reflexivity.
Qed.

Lemma sextet4 c : 0 <= c < 256 -> Z.land c 63 = c mod 64.
Proof. intros. change 63 with (2 ^ 6 - 1). rewrite land_low by lia. reflexivity. Qed.

Lemma sextets_range (bs : list Z) :
  byte_values bs -> Forall (fun v => 0 <= v < 64) (sextets bs).
Proof.
  unfold byte_values.
  induction bs as [|a|a b|a b c bs IH] using list_ind3; intros H.
  - constructor.
  - inversion_clear H as [|? ? Ha _]. cbn [sextets].
    rewrite sextet1, sextet2' by assumption. repeat constructor; zdm.
  - inversion_clear H as [|? ? Ha H']. inversion_clear H' as [|? ? Hb _].
    cbn [sextets]. rewrite sextet1, sextet2, sextet3' by assumption.
    repeat constructor; zdm.
  - inversion_clear H as [|? ? Ha H']. inversion_clear H' as [|? ? Hb H''].
    inversion_clear H'' as [|? ? Hc Hbs].
    cbn [sextets]. rewrite sextet1, sextet2, sextet3, sextet4 by assumption.
    repeat (constructor; [zdm|]). auto.
Qed.

Lemma b64_index_char (v : Z) : 0 <= v < 64 -> b64_index (b64_char v) = Some v.
Proof.
  intros Hv. rewrite <- (Z2Nat.id v) by lia.
  assert (Hn : (Z.to_nat v < 64)%nat) by lia.
  generalize dependent (Z.to_nat v). intros n Hn.
  do 64 (destruct n as [|n]; [vm_compute; reflexivity|]). lia.
Qed.

Lemma b64_loop_step (buffer : Z) (n : nat) (v : Z) (cs : jsstring) :
  0 <= v < 64 -> n <> 3%nat ->
  b64_loop buffer n (b64_char v :: cs) = b64_loop (buffer * 64 + v) (S n) cs.
Proof.
  intros Hv Hn. cbn [b64_loop]. rewrite b64_index_char by assumption.
  apply Nat.eqb_neq in Hn. rewrite Hn. rewrite lor_shift6 by assumption.
  reflexivity.
Qed.

Lemma b64_loop_full (buffer : Z) (v : Z) (cs : jsstring) :
  0 <= v < 64 ->
  b64_loop buffer 3 (b64_char v :: cs) =
    match b64_loop 0 0 cs with
    | Some out =>
        Some (Z.shiftr (buffer * 64 + v) 16
              :: Z.land (Z.shiftr (buffer * 64 + v) 8) 0xFF
              :: Z.land (buffer * 64 + v) 0xFF :: out)
    | None => None
    end.
Proof.
  intros Hv. cbn [b64_loop]. rewrite b64_index_char by assumption.
  cbn [Nat.eqb]. rewrite lor_shift6 by assumption. reflexivity.
Qed.

Lemma b64_loop_sextets (bs : list Z) :
  byte_values bs -> b64_loop 0 0 (map b64_char (sextets bs)) = Some bs.
Proof.
  unfold byte_values.
  induction bs as [|a|a b|a b c bs IH] using list_ind3; intros H.
  - reflexivity.
  - inversion_clear H as [|? ? Ha _]. cbn [sextets map].
    rewrite sextet1, sextet2' by assumption.
    rewrite !b64_loop_step by (zdm || discriminate).
    cbn [b64_loop]. rewrite Z.shiftr_div_pow2 by lia.
    change (2 ^ 4) with 16. do 2 f_equal. zdm.
  - inversion_clear H as [|? ? Ha H']. inversion_clear H' as [|? ? Hb _].
    cbn [sextets map]. rewrite sextet1, sextet2, sextet3' by assumption.
    rewrite !b64_loop_step by (zdm || discriminate).
    cbn [b64_loop]. rewrite !Z.shiftr_div_pow2 by lia.
    change 0xFF with (2 ^ 8 - 1). rewrite land_low by lia.
    change (2 ^ 10) with 1024. change (2 ^ 2) with 4. change (2 ^ 8) with 256.
    f_equal. f_equal; [zdm|]. f_equal. zdm.
  - inversion_clear H as [|? ? Ha H']. inversion_clear H' as [|? ? Hb H''].
    inversion_clear H'' as [|? ? Hc Hbs].
    cbn [sextets map].
    rewrite sextet1, sextet2, sextet3, sextet4 by assumption.
    rewrite !b64_loop_step by (zdm || discriminate).
    rewrite b64_loop_full by zdm. rewrite IH by assumption.
    rewrite !Z.shiftr_div_pow2 by lia.
    change 0xFF with (2 ^ 8 - 1). rewrite !land_low by lia.
    change (2 ^ 16) with 65536. change (2 ^ 8) with 256.
    f_equal. f_equal; [zdm|]. f_equal; [zdm|]. f_equal. zdm.
Qed.

Lemma replace_to_url (s : jsstring) :
  replace_char SLASH UNDERSCORE (replace_char PLUS MINUS s) = map to_url s.
Proof. unfold replace_char. rewrite map_map. reflexivity. Qed.

Lemma replace_of_url (s : jsstring) :
  replace_char UNDERSCORE SLASH (replace_char MINUS PLUS s) = map of_url s.
Proof. unfold replace_char. rewrite map_map. reflexivity. Qed.

Lemma alphabet_ok : forallb char_ok alphabet = true.
Proof. vm_compute. reflexivity. Qed.

Lemma b64_char_ok (v : Z) : 0 <= v < 64 -> char_ok (b64_char v) = true.
Proof.
  intros Hv. pose proof alphabet_ok as H. rewrite forallb_forall in H.
  apply H. unfold b64_char. apply nth_In.
  change (length alphabet) with 64%nat. lia.
Qed.

Lemma char_ok_spec (c : Z) :
  char_ok c = true ->
  c <> EQUALS /\ is_ascii_whitespace c = false
  /\ to_url c <> EQUALS /\ of_url (to_url c) = c.
Proof.
  unfold char_ok. rewrite !andb_true_iff, !negb_true_iff, !Z.eqb_neq, Z.eqb_eq.
  tauto.
Qed.

Lemma sextets_body_chars (bs : list Z) :
  byte_values bs -> body_chars (map b64_char (sextets bs)).
Proof.
  intros H. apply sextets_range in H. unfold body_chars.
  rewrite Forall_map. eapply Forall_impl; [|exact H].
  intros v Hv. apply b64_char_ok. exact Hv.
Qed.

Lemma strip_trailing_equals_repeat (k : nat) :
  strip_trailing_equals (repeat EQUALS k) = [].
Proof.
  induction k as [|k IH]; [reflexivity|].
  cbn [repeat strip_trailing_equals]. rewrite IH. reflexivity.
Qed.

Lemma strip_trailing_equals_body (s : jsstring) (k : nat) :
  Forall (fun c => c <> EQUALS) s ->
  strip_trailing_equals (s ++ repeat EQUALS k) = s.
Proof.
  induction 1 as [|c s Hc _ IH].
  - apply strip_trailing_equals_repeat.
  - cbn [app strip_trailing_equals]. rewrite IH.
    destruct s; [|reflexivity].
    apply Z.eqb_neq in Hc. rewrite Hc. reflexivity.
Qed.

Lemma map_to_url_app (s : jsstring) (k : nat) :
  map to_url (s ++ repeat EQUALS k) = map to_url s ++ repeat EQUALS k.
Proof.
  rewrite map_app. f_equal. induction k as [|k IH]; [reflexivity|].
  cbn [repeat map]. rewrite IH. reflexivity.
Qed.

Lemma url_roundtrip (s : jsstring) (k : nat) :
  body_chars s ->
  replace_char UNDERSCORE SLASH
    (replace_char MINUS PLUS
       (strip_trailing_equals
          (replace_char SLASH UNDERSCORE
             (replace_char PLUS MINUS (s ++ repeat EQUALS k))))) = s.
Proof.
  intros H. rewrite replace_to_url, replace_of_url, map_to_url_app.
  rewrite strip_trailing_equals_body.
  - rewrite map_map. rewrite <- (map_id s) at 2. apply map_ext_Forall.
    eapply Forall_impl; [|exact H]. intros c Hc.
    apply char_ok_spec in Hc. tauto.
  - rewrite Forall_map. eapply Forall_impl; [|exact H]. intros c Hc.
    apply char_ok_spec in Hc. tauto.
Qed.

Lemma ends_with_char_snoc (c x : Z) (s : jsstring) :
  ends_with_char c (s ++ [x]) = (x =? c).
Proof. unfold ends_with_char. rewrite rev_app_distr. reflexivity. Qed.

Lemma remove_last_snoc {A : Type} (x : A) (l : list A) :
  remove_last (l ++ [x]) = l.
Proof.
  unfold remove_last. rewrite length_app. cbn [length].
  replace (length l + 1 - 1)%nat with (length l + 0)%nat by lia.
  rewrite firstn_app_2. cbn [firstn]. apply app_nil_r.
Qed.

Lemma ends_with_char_body (s : jsstring) :
  Forall (fun c => c <> EQUALS) s -> ends_with_char EQUALS s = false.
Proof.
  intros H. destruct s as [|c s] using rev_ind; [reflexivity|].
  rewrite ends_with_char_snoc. apply Z.eqb_neq.
  apply Forall_app in H. destruct H as [_ H]. inversion H. assumption.
Qed.

Lemma filter_body (s : jsstring) (k : nat) :
  body_chars s ->
  filter (fun c => negb (is_ascii_whitespace c)) (s ++ repeat EQUALS k)
  = s ++ repeat EQUALS k.
Proof.
  intros H. unfold body_chars in H. apply forallb_filter_id. rewrite forallb_app.
  apply andb_true_iff. split.
  - apply forallb_forall. intros c Hc.
    rewrite Forall_forall in H. apply H in Hc. apply char_ok_spec in Hc.
    destruct Hc as (_ & Hw & _). rewrite Hw. reflexivity.
  - apply forallb_forall. intros c Hc. apply repeat_spec in Hc. subst c.
    reflexivity.
Qed.

Lemma body_index (s : list Z) :
  Forall (fun v => 0 <= v < 64) s ->
  forallb (fun c => match b64_index c with Some _ => true | None => false end)
    (map b64_char s) = true.
Proof.
  intros H. apply forallb_forall. intros c Hc.
  apply in_map_iff in Hc. destruct Hc as (v & <- & Hv).
  rewrite Forall_forall in H. rewrite b64_index_char by auto. reflexivity.
Qed.

Lemma sextets_length (bs : list Z) :
  exists q : nat,
    (length (sextets bs) =
       4 * q + match padding bs with 1 => 3 | 2 => 2 | _ => 0 end)%nat
    /\ (padding bs <= 2)%nat.
Proof.
  induction bs as [|a|a b|a b c bs IH] using list_ind3.
  - exists 0%nat. split; [reflexivity | cbn; lia].
  - exists 0%nat. split; [reflexivity | cbn; lia].
  - exists 0%nat. split; [reflexivity | cbn; lia].
  - destruct IH as (q & Hq & Hp). exists (S q).
    cbn [sextets padding length]. rewrite Hq. split; lia.
Qed.

Lemma forgiving_decode_encode (bs : list Z) :
  byte_values bs -> forgiving_base64_decode (base64_encode bs) = Some bs.
Proof.
  intros H. rewrite base64_encode_split.
  pose proof (sextets_body_chars bs H) as Hbody.
  pose proof (sextets_range bs H) as Hrange.
  assert (Hne : Forall (fun c => c <> EQUALS) (map b64_char (sextets bs))).
  { eapply Forall_impl; [|exact Hbody]. intros c Hc.
    apply char_ok_spec in Hc. tauto. }
  destruct (sextets_length bs) as (q & Hq & Hp).
  unfold forgiving_base64_decode. rewrite filter_body by assumption.
  set (body := map b64_char (sextets bs)) in *.
  assert (Hlen : length body = length (sextets bs)) by apply length_map.
  rewrite length_app, repeat_length.
  destruct (padding bs) as [|[|[|p]]] eqn:Ep; try lia; cbn [repeat].
  - rewrite app_nil_r.
    replace (Z.of_nat (length body + 0) mod 4 =? 0) with true
      by (symmetry; apply Z.eqb_eq; zdm).
    rewrite ends_with_char_body by assumption.
    replace (Z.of_nat (length body) mod 4 =? 1) with false
      by (symmetry; apply Z.eqb_neq; zdm).
    unfold body at 1. rewrite body_index by assumption. cbn [negb].
    apply b64_loop_sextets. assumption.
  - replace (Z.of_nat (length body + 1) mod 4 =? 0) with true
      by (symmetry; apply Z.eqb_eq; zdm).
    rewrite ends_with_char_snoc, remove_last_snoc.
    change (EQUALS =? EQUALS) with true. cbn iota.
    rewrite ends_with_char_body by assumption.
    replace (Z.of_nat (length body) mod 4 =? 1) with false
      by (symmetry; apply Z.eqb_neq; zdm).
    unfold body at 1. rewrite body_index by assumption. cbn [negb].
    apply b64_loop_sextets. assumption.
  - replace (Z.of_nat (length body + 2) mod 4 =? 0) with true
      by (symmetry; apply Z.eqb_eq; zdm).
    change (body ++ [EQUALS; EQUALS]) with (body ++ [EQUALS] ++ [EQUALS]).
    rewrite app_assoc.
    rewrite ends_with_char_snoc, remove_last_snoc.
    change (EQUALS =? EQUALS) with true. cbn iota.
    rewrite ends_with_char_snoc, remove_last_snoc.
    change (EQUALS =? EQUALS) with true. cbn iota.
    replace (Z.of_nat (length body) mod 4 =? 1) with false
      by (symmetry; apply Z.eqb_neq; zdm).
    unfold body at 1. rewrite body_index by assumption. cbn [negb].
    apply b64_loop_sextets. assumption.
Qed.

Lemma bytes_values (bs : bytes) : byte_values (map byte_to_Z bs).
Proof.
  unfold byte_values. rewrite Forall_map. apply Forall_forall.
  intros b _. apply byte_to_Z_range.
Qed.

Lemma btoa_bytes (bs : bytes) :
  btoa (map byte_to_Z bs) = ret (base64_encode (map byte_to_Z bs)).
Proof.
  unfold btoa.
  replace (existsb _ _) with false; [reflexivity|].
  symmetry. apply not_true_is_false. intros E.
  apply existsb_exists in E. destruct E as (c & Hc & Hlt).
  apply in_map_iff in Hc. destruct Hc as (b & <- & _).
  pose proof (byte_to_Z_range b). apply Z.ltb_lt in Hlt. lia.
Qed.

Lemma map_byte_of_to_Z (bs : bytes) : map byte_of_Z (map byte_to_Z bs) = bs.
Proof.
  rewrite map_map. rewrite <- (map_id bs) at 2. apply map_ext.
  apply byte_of_to_Z.
Qed.

Lemma sextets_nonempty (bs : list Z) : bs <> [] -> sextets bs <> [].
Proof.
  destruct bs as [|a [|b [|c bs]]]; intros H; try contradiction;
    cbn [sextets]; discriminate.
Qed.

(** The URL-safe encoding of a non-empty byte sequence decodes to it. *)
Lemma base64Url_roundtrip (bs : bytes) :
  bs <> [] ->
  exists encoded,
    bytesToBase64Url bs = ret encoded /\ base64UrlToBytes encoded = ret bs.
Proof.
  intros Hne. unfold bytesToBase64Url.
  rewrite binary_of_chunks_map by lia. rewrite btoa_bytes.
  cbn [bind ret]. eexists. split; [reflexivity|].
  pose proof (bytes_values bs) as Hv.
  set (zs := map byte_to_Z bs) in *.
  pose proof (sextets_body_chars zs Hv) as Hbody.
  destruct (sextets_length zs) as (q & Hq & Hp).
  assert (Hz : zs <> []).
  { subst zs. destruct bs; [contradiction | discriminate]. }
  apply sextets_nonempty in Hz.
  unfold base64UrlToBytes.
  rewrite base64_encode_split, replace_to_url, map_to_url_app.
  rewrite strip_trailing_equals_body.
  2:{ rewrite Forall_map. eapply Forall_impl; [|exact Hbody]. intros c Hc.
      apply char_ok_spec in Hc. tauto. }
  destruct (map to_url (map b64_char (sextets zs))) as [|u us] eqn:Eu.
  { apply map_eq_nil in Eu. apply map_eq_nil in Eu. contradiction. }
  rewrite <- Eu. rewrite <- replace_to_url.
  pose proof (url_roundtrip (map b64_char (sextets zs)) 0 Hbody) as Hrt.
  cbn [repeat] in Hrt. rewrite app_nil_r in Hrt.
  rewrite <- (strip_trailing_equals_body
                (replace_char SLASH UNDERSCORE
                   (replace_char PLUS MINUS (map b64_char (sextets zs)))) 0).
  2:{ rewrite replace_to_url, Forall_map. eapply Forall_impl; [|exact Hbody].
      intros c Hc. apply char_ok_spec in Hc. tauto. }
  cbn [repeat]. rewrite app_nil_r. rewrite Hrt.
  rewrite length_map.
  replace (Z.to_nat ((4 - Z.of_nat (length (sextets zs)) mod 4) mod 4))
    with (padding zs).
  2:{ rewrite Hq. destruct (padding zs) as [|[|[|p]]]; try lia; zdm. }
  rewrite <- base64_encode_split. unfold atob.
  rewrite forgiving_decode_encode by assumption. cbn [bind ret].
  subst zs. rewrite map_byte_of_to_Z. reflexivity.
Qed.

Local Open Scope Z_scope.

(** ** What [bytesToBase64Url] writes and what [base64UrlToBytes] takes *)

Lemma bytesToBase64Url_eq (bs : bytes) :
  bytesToBase64Url bs
  = ret (map to_url (map b64_char (sextets (map byte_to_Z bs)))).
Proof.
  unfold bytesToBase64Url. rewrite binary_of_chunks_map by lia.
  rewrite btoa_bytes. cbn [bind ret]. f_equal.
  pose proof (sextets_body_chars _ (bytes_values bs)) as Hbody.
  rewrite base64_encode_split, replace_to_url, map_to_url_app.
  apply strip_trailing_equals_body.
  rewrite Forall_map. eapply Forall_impl; [|exact Hbody]. intros c Hc.
  apply char_ok_spec in Hc. tauto.
Qed.

Lemma sextets_count (bs : list Z) :
  Z.of_nat (length (sextets bs)) = (4 * Z.of_nat (length bs) + 2) / 3.
Proof.
  induction bs as [| a | a b | a b c l IH] using list_ind3;
    try reflexivity.
  cbn [sextets length]. rewrite !Nat2Z.inj_succ. rewrite IH.
  zdm.
Qed.

(** X1: bytes to base64url and back.  The encoding of a byte sequence is
    always produced; decoding it gives the bytes back, except for the
    empty sequence, whose encoding is the empty string, which
    [base64UrlToBytes] refuses with "Share link payload is empty.". *)
Theorem base64url_bytes_roundtrip (bs : bytes) :
  exists encoded,
    bytesToBase64Url bs = ret encoded
    /\ base64UrlToBytes encoded
       = match bs with
         | [] => throw (Error "Share link payload is empty.")
         | _ => ret bs
         end.
Proof.
  destruct bs as [|b bs].
  - exists []. split; reflexivity.
  - destruct (base64Url_roundtrip (b :: bs)) as (encoded & He & Hd).
    + discriminate.
    + exists encoded. split; assumption.
Qed.

Lemma list_ind4 {A : Type} (P : list A -> Prop) :
  P [] -> (forall a, P [a]) -> (forall a b, P [a; b]) ->
  (forall a b c, P [a; b; c]) ->
  (forall a b c d l, P l -> P (a :: b :: c :: d :: l)) ->
  forall l, P l.
Proof.
  intros H0 H1 H2 H3 H4.
  fix IH 1. intros [|a [|b [|c [|d l]]]].
  - exact H0.
  - apply H1.
  - apply H2.
  - apply H3.
  - apply H4. apply IH.
Qed.

(** The decoding loop on the characters of any sextets: it fails on one
    character left over, and gives three bytes for four characters
    otherwise. *)
Lemma b64_loop_sextet_list (vs : list Z) :
  Forall (fun v => 0 <= v < 64) vs ->
  match b64_loop 0 0 (map b64_char vs) with
  | Some out =>
      Z.of_nat (length vs) mod 4 <> 1
      /\ Z.of_nat (length out) = 3 * Z.of_nat (length vs) / 4
  | None => Z.of_nat (length vs) mod 4 = 1
  end.
Proof.
  induction vs as [| a | a b | a b c | a b c d l IH] using list_ind4;
    intros H.
  - cbn. split; [discriminate | reflexivity].
  - inversion_clear H as [|? ? Ha _]. cbn [map].
    rewrite b64_loop_step by (assumption || discriminate). reflexivity.
  - inversion_clear H as [|? ? Ha H']. inversion_clear H' as [|? ? Hb _].
    cbn [map]. rewrite !b64_loop_step by (assumption || discriminate).
    cbn. split; [discriminate | reflexivity].
  - inversion_clear H as [|? ? Ha H']. inversion_clear H' as [|? ? Hb H''].
    inversion_clear H'' as [|? ? Hc _].
    cbn [map]. rewrite !b64_loop_step by (assumption || discriminate).
    cbn. split; [discriminate | reflexivity].
  - inversion_clear H as [|? ? Ha H']. inversion_clear H' as [|? ? Hb H''].
    inversion_clear H'' as [|? ? Hc H']. inversion_clear H' as [|? ? Hd Hl].
    cbn [map]. rewrite !b64_loop_step by (assumption || discriminate).
    rewrite b64_loop_full by assumption.
    specialize (IH Hl). cbn [length]. rewrite !Nat2Z.inj_succ.
    destruct (b64_loop 0 0 (map b64_char l)) as [out|].
    + destruct IH as [IH1 IH2]. cbn [length]. rewrite !Nat2Z.inj_succ.
      split; zdm.
    + zdm.
Qed.

(** Forgiving-base64 decode of sextet characters padded to a multiple of
    four, which is how [base64UrlToBytes] calls it. *)
Lemma decode_padded (vs : list Z) :
  Forall (fun v => 0 <= v < 64) vs ->
  forgiving_base64_decode
    (map b64_char vs
       ++ repeat EQUALS (Z.to_nat ((4 - Z.of_nat (length vs) mod 4) mod 4)))
  = if Z.of_nat (length vs) mod 4 =? 1 then None
    else b64_loop 0 0 (map b64_char vs).
Proof.
  intros Hr.
  assert (Hbody : body_chars (map b64_char vs)).
  { unfold body_chars. rewrite Forall_map. eapply Forall_impl; [|exact Hr].
    intros v Hv. apply b64_char_ok. exact Hv. }
  assert (Hne : Forall (fun c => c <> EQUALS) (map b64_char vs)).
  { eapply Forall_impl; [|exact Hbody]. intros c Hc.
    apply char_ok_spec in Hc. tauto. }
  unfold forgiving_base64_decode. rewrite filter_body by assumption.
  set (body := map b64_char vs) in *.
  assert (Hlen : length body = length vs) by apply length_map.
  rewrite length_app, repeat_length, Hlen.
  assert (Hm : Z.of_nat (length vs) mod 4 = 0 \/ Z.of_nat (length vs) mod 4 = 1
               \/ Z.of_nat (length vs) mod 4 = 2
               \/ Z.of_nat (length vs) mod 4 = 3) by zdm.
  destruct Hm as [Hm|[Hm|[Hm|Hm]]]; rewrite Hm;
    [ change (Z.to_nat ((4 - 0) mod 4)) with 0%nat
    | change (Z.to_nat ((4 - 1) mod 4)) with 3%nat
    | change (Z.to_nat ((4 - 2) mod 4)) with 2%nat
    | change (Z.to_nat ((4 - 3) mod 4)) with 1%nat ];
    cbn [repeat Z.eqb].
  - rewrite app_nil_r.
    replace (Z.of_nat (length vs + 0) mod 4 =? 0) with true
      by (symmetry; apply Z.eqb_eq; zdm).
    rewrite ends_with_char_body by assumption. rewrite Hlen, Hm.
    cbn [Z.eqb]. unfold body at 1. rewrite body_index by assumption.
    reflexivity.
  - replace (Z.of_nat (length vs + 3) mod 4 =? 0) with true
      by (symmetry; apply Z.eqb_eq; zdm).
    change (body ++ [EQUALS; EQUALS; EQUALS])
      with (body ++ [EQUALS] ++ [EQUALS] ++ [EQUALS]).
    rewrite !app_assoc.
    rewrite ends_with_char_snoc, remove_last_snoc.
    change (EQUALS =? EQUALS) with true. cbn iota.
    rewrite ends_with_char_snoc, remove_last_snoc.
    change (EQUALS =? EQUALS) with true. cbn iota.
    rewrite length_app, Hlen. cbn [length].
    replace (Z.of_nat (length vs + 1) mod 4 =? 1) with false
      by (symmetry; apply Z.eqb_neq; zdm).
    rewrite forallb_app. cbn [forallb]. change (b64_index EQUALS) with (@None Z).
    rewrite andb_false_r. reflexivity.
  - replace (Z.of_nat (length vs + 2) mod 4 =? 0) with true
      by (symmetry; apply Z.eqb_eq; zdm).
    change (body ++ [EQUALS; EQUALS]) with (body ++ [EQUALS] ++ [EQUALS]).
    rewrite app_assoc.
    rewrite ends_with_char_snoc, remove_last_snoc.
    change (EQUALS =? EQUALS) with true. cbn iota.
    rewrite ends_with_char_snoc, remove_last_snoc.
    change (EQUALS =? EQUALS) with true. cbn iota.
    rewrite Hlen, Hm. cbn [Z.eqb Pos.eqb].
    unfold body at 1. rewrite body_index by assumption. reflexivity.
  - replace (Z.of_nat (length vs + 1) mod 4 =? 0) with true
      by (symmetry; apply Z.eqb_eq; zdm).
    rewrite ends_with_char_snoc, remove_last_snoc.
    change (EQUALS =? EQUALS) with true. cbn iota.
    rewrite ends_with_char_body by assumption.
    rewrite Hlen, Hm. cbn [Z.eqb Pos.eqb].
    unfold body at 1. rewrite body_index by assumption. reflexivity.
Qed.

Lemma remove_last_keeps (c : Z) (s : jsstring) :
  ends_with_char EQUALS s = true -> c <> EQUALS -> In c s ->
  In c (remove_last s).
Proof.
  intros He Hc Hin. destruct s as [|x s'] using rev_ind; [contradiction|].
  rewrite remove_last_snoc. rewrite ends_with_char_snoc in He.
  apply Z.eqb_eq in He. apply in_app_or in Hin. destruct Hin as [Hin|[E|[]]].
  - exact Hin.
  - congruence.
Qed.

(** A character that is no whitespace, no [=] and not in the alphabet
    makes forgiving-base64 decode fail, wherever it stands. *)
Lemma decode_rejects (c : Z) (data : jsstring) :
  In c data -> is_ascii_whitespace c = false -> c <> EQUALS ->
  b64_index c = None ->
  forgiving_base64_decode data = None.
Proof.
  intros Hin Hws Heq Hidx. unfold forgiving_base64_decode.
  set (data1 := filter (fun c => negb (is_ascii_whitespace c)) data).
  assert (H1 : In c data1).
  { apply filter_In. split; [exact Hin|]. rewrite Hws. reflexivity. }
  set (data2 :=
         if Z.of_nat (length data1) mod 4 =? 0
         then if ends_with_char EQUALS data1
              then if ends_with_char EQUALS (remove_last data1)
                   then remove_last (remove_last data1)
                   else remove_last data1
              else data1
         else data1).
  assert (H2 : In c data2).
  { subst data2. destruct (Z.of_nat (length data1) mod 4 =? 0); [|exact H1].
    destruct (ends_with_char EQUALS data1) eqn:E1; [|exact H1].
    pose proof (remove_last_keeps c data1 E1 Heq H1) as H1'.
    destruct (ends_with_char EQUALS (remove_last data1)) eqn:E2; [|exact H1'].
    apply remove_last_keeps; assumption. }
  destruct (Z.of_nat (length data2) mod 4 =? 1); [reflexivity|].
  replace (forallb _ data2) with false; [reflexivity|].
  symmetry. apply not_true_is_false. intros Hall.
  rewrite forallb_forall in Hall. specialize (Hall c H2).
  rewrite Hidx in Hall. discriminate.
Qed.

Lemma index_from_in (i c : Z) (table : list Z) (v : Z) :
  index_from i c table = Some v -> In c table.
Proof.
  revert i. induction table as [|t table IH]; intros i H; [discriminate|].
  cbn [index_from] in H. destruct (Z.eqb_spec t c) as [E|E].
  - left. exact E.
  - right. apply (IH _ H).
Qed.

Lemma index_from_range (i c : Z) (table : list Z) (v : Z) :
  index_from i c table = Some v ->
  i <= v < i + Z.of_nat (length table) /\ nth (Z.to_nat (v - i)) table 0 = c.
Proof.
  revert i. induction table as [|t table IH]; intros i H; [discriminate|].
  cbn [index_from] in H. cbn [length]. rewrite Nat2Z.inj_succ.
  destruct (Z.eqb_spec t c) as [E|E].
  - injection H as <-. rewrite Z.sub_diag. split; [lia | exact E].
  - apply IH in H. destruct H as [Hr Hn]. split; [lia|].
    replace (Z.to_nat (v - i)) with (S (Z.to_nat (v - (i + 1)))) by lia.
    exact Hn.
Qed.

(** A character of the alphabet is the character of its sextet. *)
Lemma b64_index_spec (c v : Z) :
  b64_index c = Some v -> 0 <= v < 64 /\ b64_char v = c.
Proof.
  intros H. apply index_from_range in H. destruct H as [Hr Hn].
  change (Z.of_nat (length alphabet)) with 64 in Hr.
  rewrite Z.sub_0_r in Hn. split; [lia | exact Hn].
Qed.

End Base64Facts.

(* ================================================================== *)
(** * Facts on the URL model *)
(* ================================================================== *)

Module UrlFacts.
Import Js Url JsFacts.

(** ** The decoder emits scalar values only *)

Lemma land_sub (b k n : Z) :
  0 <= n -> k * 2 ^ n <= b < (k + 1) * 2 ^ n ->
  Z.land b (2 ^ n - 1) = b - k * 2 ^ n.
Proof.
  intros Hn Hb. replace b with ((b - k * 2 ^ n) + k * 2 ^ n) at 1 by lia.
  apply land_lead; [assumption | lia].
Qed.

Ltac split_cmp :=
  repeat match goal with
  | |- context [ ?a <=? ?b ] => destruct (Z.leb_spec a b)
  | |- context [ ?a =? ?b ] => destruct (Z.eqb_spec a b)
  end.

Ltac scalar_out :=
  first [ apply Forall_nil
        | apply Forall_cons; [unfold is_scalar; lia | apply Forall_nil] ].

Ltac ok_case :=
  cbn [bytes_needed bytes_seen code_point lower_boundary upper_boundary];
  unfold default_bounds;
  cbn [bytes_needed bytes_seen code_point lower_boundary upper_boundary];
  repeat split; split_cmp; try zdm.

Ltac pick_ok :=
  first [ left; reflexivity
        | right; left; solve [ok_case]
        | do 2 right; left; solve [ok_case]
        | do 3 right; left; solve [ok_case]
        | do 4 right; left; solve [ok_case]
        | do 5 right; left; solve [ok_case]
        | do 6 right; solve [ok_case] ].

Lemma lead_step_ok (b : Z) :
  0 <= b < 256 ->
  Forall is_scalar (fst (lead_step b)) /\ decoder_ok (snd (lead_step b)).
Proof.
  intros Hb. unfold lead_step.
  change 0x1F with (2 ^ 5 - 1). change 0xF with (2 ^ 4 - 1).
  change 0x7 with (2 ^ 3 - 1). rewrite !land_low by lia.
  change (2 ^ 5) with 32. change (2 ^ 4) with 16. change (2 ^ 3) with 8.
  destruct (Z.leb_spec 0x00 b); [|lia].
  destruct (Z.leb_spec b 0x7F); cbn [andb fst snd].
  { split; [scalar_out | pick_ok]. }
  destruct (Z.leb_spec 0xC2 b); destruct (Z.leb_spec b 0xDF);
    destruct (Z.leb_spec 0xE0 b); destruct (Z.leb_spec b 0xEF);
    destruct (Z.leb_spec 0xF0 b); destruct (Z.leb_spec b 0xF4);
    try lia; cbn [andb fst snd]; (split; [scalar_out | pick_ok]).
Qed.

Lemma decoder_step_ok (d : decoder) (b : Z) :
  0 <= b < 256 -> decoder_ok d ->
  Forall is_scalar (fst (decoder_step d b))
  /\ decoder_ok (snd (decoder_step d b)).
Proof.
  intros Hb Hd. pose proof (lead_step_ok b Hb) as [Hl1 Hl2].
  unfold decoder_step.
  destruct (Z.eqb_spec (bytes_needed d) 0) as [E|E]; [split; assumption|].
  destruct (Z.leb_spec (lower_boundary d) b) as [Hlo|Hlo]; cbn [andb negb].
  2:{ destruct (lead_step b) as [out d']. cbn [fst snd] in *.
      split; [constructor; [unfold is_scalar; lia | assumption] | assumption]. }
  destruct (Z.leb_spec b (upper_boundary d)) as [Hhi|Hhi]; cbn [negb].
  2:{ destruct (lead_step b) as [out d']. cbn [fst snd] in *.
      split; [constructor; [unfold is_scalar; lia | assumption] | assumption]. }
  unfold decoder_ok, default_bounds in Hd.
  destruct Hd as [->|Hd]; [cbn in E; lia|].
  assert (Hc : 0x80 <= b <= 0xBF) by (repeat destruct Hd as [Hd|Hd]; lia).
  change 0x3F with (2 ^ 6 - 1). rewrite (land_sub b 2) by lia.
  rewrite lor_shift6 by lia.
  repeat destruct Hd as [Hd|Hd];
    destruct Hd as (Hn & Hs & Hd); rewrite Hn, Hs;
    cbn [Z.add Z.eqb Pos.eqb negb fst snd Pos.add];
    (split; [scalar_out | pick_ok]).
Qed.

Lemma decoder_run_ok (bs : list Z) (d : decoder) :
  byte_values bs -> decoder_ok d -> Forall is_scalar (decoder_run d bs).
Proof.
  intros Hbs. revert d. induction Hbs as [|b bs Hb _ IH]; intros d Hd.
  - cbn [decoder_run]. destruct (bytes_needed d =? 0); cbn [negb]; scalar_out.
  - rewrite decoder_run_cons.
    destruct (decoder_step_ok d b Hb Hd) as [Ho Hd'].
    apply Forall_app. split; [assumption | apply IH; assumption].
Qed.

Lemma utf16_units_lead_trail (cp : Z) :
  0x10000 <= cp <= 0x10FFFF ->
  exists l t, utf16_units cp = [l; t]
              /\ is_lead l = true /\ is_trail t = true.
Proof.
  intros Hcp. unfold utf16_units.
  replace (cp <? 0x10000) with false by (symmetry; apply Z.ltb_ge; lia).
  eexists; eexists. split; [reflexivity|].
  rewrite Z.shiftr_div_pow2 by lia.
  change 0x3FF with (2 ^ 10 - 1). rewrite land_low by lia.
  change (2 ^ 10) with 1024.
  rewrite is_lead_spec, is_trail_spec. split; zdm.
Qed.

Lemma from_scalars_wellformed (cps : list Z) :
  Forall is_scalar cps -> isWellFormed (from_scalars cps) = true.
Proof.
  unfold from_scalars.
  induction 1 as [|cp cps [Hr Hs] _ IH]; [reflexivity|].
  cbn [flat_map]. destruct (Z.ltb_spec cp 0x10000) as [Hlt|Hge].
  - rewrite utf16_units_bmp by lia. cbn [app].
    rewrite isWellFormed_other by (apply is_lead_false; lia).
    replace (is_trail cp) with false by (symmetry; apply is_trail_false; lia).
    rewrite IH. cbn [negb andb].
    apply andb_true_iff; split; [|reflexivity].
    apply andb_true_iff; split; apply Z.leb_le; lia.
  - destruct (utf16_units_lead_trail cp) as (l & t & E & Hl & Ht); [lia|].
    rewrite E. cbn [app]. rewrite isWellFormed_pair by assumption.
    rewrite Ht, IH. reflexivity.
Qed.

Lemma utf8_bytes_values (s : jsstring) :
  code_units s -> byte_values (utf8_bytes s).
Proof.
  intros H. apply utf8_bytes_range. apply to_scalars_is_scalar. assumption.
Qed.

(** Every name and value the parser gives is a well-formed string. *)
Lemma urlencoded_decode_wellformed (bs : list Z) :
  byte_values (percent_decode (plus_to_space bs)) ->
  isWellFormed (urlencoded_decode bs) = true.
Proof.
  intros H. unfold urlencoded_decode. apply from_scalars_wellformed.
  apply decoder_run_ok; [assumption | left; reflexivity].
Qed.

(** ** Percent-encoding, byte by byte *)

Lemma byte_cases (b : Z) : 0 <= b < 256 -> exists y : byte, b = byte_to_Z y.
Proof. intros H. exists (byte_of_Z b). symmetry. apply byte_to_of_Z. exact H. Qed.

Lemma hex_value_range (c x : Z) : hex_value c = Some x -> 0 <= x <= 15.
Proof.
  unfold hex_value. split_cmp; cbn [andb]; intros E; inversion E; lia.
Qed.

Lemma percent_decode_values (bs : list Z) :
  byte_values bs -> byte_values (percent_decode bs).
Proof.
  unfold byte_values. revert bs.
  assert (H : forall n bs, (length bs <= n)%nat ->
            Forall (fun b => 0 <= b < 256) bs ->
            Forall (fun b => 0 <= b < 256) (percent_decode bs)).
  { induction n as [|n IH]; intros bs Hlen Hbs.
    - destruct bs; [constructor | cbn [length] in Hlen; lia].
    - destruct bs as [|b rest]; [constructor|].
      inversion_clear Hbs as [|? ? Hb Hrest]. cbn [length] in Hlen.
      cbn [percent_decode].
      assert (Hdef : Forall (fun b => 0 <= b < 256) (b :: percent_decode rest)).
      { constructor; [assumption | apply IH; [lia | assumption]]. }
      destruct (b =? PERCENT); [|exact Hdef].
      destruct rest as [|h [|l rest']]; try exact Hdef.
      destruct (hex_value h) as [x|] eqn:Ex; [|exact Hdef].
      destruct (hex_value l) as [y|] eqn:Ey; [|exact Hdef].
      apply hex_value_range in Ex. apply hex_value_range in Ey.
      inversion_clear Hrest as [|? ? _ Hr']. inversion_clear Hr' as [|? ? _ Hr''].
      cbn [length] in Hlen.
      constructor; [lia | apply IH; [lia | assumption]]. }
  intros bs. apply (H (length bs)). lia.
Qed.

Lemma plus_to_space_values (bs : list Z) :
  byte_values bs -> byte_values (plus_to_space bs).
Proof.
  unfold byte_values, plus_to_space. intros H. rewrite Forall_map.
  eapply Forall_impl; [|exact H]. intros b Hb. cbv beta in Hb |- *.
  destruct (b =? PLUS); unfold SPACE; lia.
Qed.

Lemma before_first_values (sep : Z) (bs : list Z) :
  byte_values bs -> byte_values (before_first sep bs).
Proof.
  unfold byte_values. induction 1 as [|b bs Hb _ IH]; [constructor|].
  cbn [before_first]. destruct (b =? sep); constructor; assumption.
Qed.

Lemma after_first_values (sep : Z) (bs : list Z) :
  byte_values bs -> byte_values (after_first sep bs).
Proof.
  unfold byte_values. induction 1 as [|b bs Hb Hbs IH]; [constructor|].
  cbn [after_first]. destruct (b =? sep); assumption.
Qed.

Lemma split_on_values (sep : Z) (bs : list Z) :
  byte_values bs -> Forall byte_values (split_on sep bs).
Proof.
  unfold byte_values. induction 1 as [|b bs Hb _ IH].
  - repeat constructor.
  - cbn [split_on]. destruct (b =? sep).
    + constructor; [constructor | exact IH].
    + destruct (split_on sep bs) as [|cur more].
      * constructor; [constructor; [exact Hb | constructor] | constructor].
      * inversion_clear IH as [|? ? Hcur Hmore].
        constructor; [constructor; assumption | assumption].
Qed.

Lemma urlencoded_parse_wellformed (input : list Z) :
  byte_values input -> Forall wellformed_tuple (urlencoded_parse input).
Proof.
  intros H. unfold urlencoded_parse.
  pose proof (split_on_values AMPERSAND input H) as Hs.
  induction Hs as [|seq seqs Hseq _ IH]; [constructor|].
  cbn [flat_map]. destruct seq as [|b seq']; [exact IH|].
  cbn [app]. constructor; [|exact IH].
  split; cbn [fst snd]; apply urlencoded_decode_wellformed;
    apply percent_decode_values; apply plus_to_space_values;
    [apply before_first_values | apply after_first_values]; assumption.
Qed.

Lemma URLSearchParams_wellformed (init : jsstring) :
  code_units init -> Forall wellformed_tuple (URLSearchParams init).
Proof.
  intros H. unfold URLSearchParams, urlencoded_string_parse.
  apply urlencoded_parse_wellformed. apply utf8_bytes_values.
  destruct init as [|c init']; [assumption|].
  destruct (c =? QUESTION); [|assumption].
  inversion H. assumption.
Qed.

Lemma urlencoded_byte_chars (b : Z) :
  0 <= b < 256 -> forallb component_char (urlencoded_byte b) = true.
Proof.
  intros Hb. destruct (byte_cases b Hb) as [y ->].
  destruct y; vm_compute; reflexivity.
Qed.

Lemma urlencoded_byte_decode (b : Z) (rest : list Z) :
  0 <= b < 256 ->
  percent_decode (plus_to_space (urlencoded_byte b) ++ rest)
  = b :: percent_decode rest.
Proof.
  intros Hb. destruct (byte_cases b Hb) as [y ->].
  destruct y; reflexivity.
Qed.

Lemma percent_roundtrip (bs : list Z) :
  byte_values bs ->
  percent_decode (plus_to_space (flat_map urlencoded_byte bs)) = bs.
Proof.
  induction 1 as [|b bs Hb _ IH]; [reflexivity|].
  cbn [flat_map]. unfold plus_to_space in *. rewrite map_app.
  fold (plus_to_space (urlencoded_byte b)).
  rewrite urlencoded_byte_decode by assumption. rewrite IH. reflexivity.
Qed.

Lemma component_roundtrip (s : jsstring) :
  code_units s -> urlencoded_decode (urlencoded_component s) = usv s.
Proof.
  intros H. unfold urlencoded_decode, urlencoded_component, usv.
  rewrite percent_roundtrip by (apply utf8_bytes_values; assumption).
  unfold utf8_bytes. rewrite decoder_run_scalars
    by (apply to_scalars_is_scalar; assumption).
  reflexivity.
Qed.

Lemma component_chars (s : jsstring) :
  code_units s -> forallb component_char (urlencoded_component s) = true.
Proof.
  intros H. apply utf8_bytes_values in H. unfold urlencoded_component.
  induction H as [|b bs Hb _ IH]; [reflexivity|].
  cbn [flat_map]. rewrite forallb_app, IH, urlencoded_byte_chars by assumption.
  reflexivity.
Qed.

Lemma serialize_from_nonempty (output : jsstring) (ts : list tuple) :
  output <> [] ->
  urlencoded_serialize_from output ts
  = output ++ flat_map (fun t => AMPERSAND :: tuple_string t) ts.
Proof.
  revert output. induction ts as [|[n v] ts IH]; intros output Hne.
  - cbn. rewrite app_nil_r. reflexivity.
  - cbn [urlencoded_serialize_from flat_map].
    destruct output as [|c output']; [contradiction|].
    rewrite IH by discriminate.
    unfold tuple_string. cbn [fst snd].
    repeat (cbn [app]; rewrite <- ?app_assoc). reflexivity.
Qed.

Lemma serialize_cons (t : tuple) (ts : list tuple) :
  urlencoded_serialize (t :: ts)
  = tuple_string t ++ flat_map (fun t => AMPERSAND :: tuple_string t) ts.
Proof.
  unfold urlencoded_serialize. destruct t as [n v].
  cbn [urlencoded_serialize_from]. cbn [app].
  rewrite serialize_from_nonempty.
  - reflexivity.
  - unfold tuple_string. destruct (urlencoded_component n); discriminate.
Qed.

Lemma split_on_none (sep : Z) (bs : list Z) :
  Forall (fun b => b <> sep) bs -> split_on sep bs = [bs].
Proof.
  induction 1 as [|b bs Hb _ IH]; [reflexivity|].
  cbn [split_on]. apply Z.eqb_neq in Hb. rewrite Hb, IH. reflexivity.
Qed.

Lemma split_on_app (sep : Z) (a rest : list Z) :
  Forall (fun b => b <> sep) a ->
  split_on sep (a ++ sep :: rest) = a :: split_on sep rest.
Proof.
  induction 1 as [|b bs Hb _ IH].
  - cbn [app split_on]. rewrite Z.eqb_refl. reflexivity.
  - cbn [app split_on]. apply Z.eqb_neq in Hb. rewrite Hb, IH. reflexivity.
Qed.

Lemma before_first_app (sep : Z) (a rest : list Z) :
  Forall (fun b => b <> sep) a -> before_first sep (a ++ sep :: rest) = a.
Proof.
  induction 1 as [|b bs Hb _ IH].
  - cbn [app before_first]. rewrite Z.eqb_refl. reflexivity.
  - cbn [app before_first]. apply Z.eqb_neq in Hb. rewrite Hb, IH. reflexivity.
Qed.

Lemma after_first_app (sep : Z) (a rest : list Z) :
  Forall (fun b => b <> sep) a -> after_first sep (a ++ sep :: rest) = rest.
Proof.
  induction 1 as [|b bs Hb _ IH].
  - cbn [app after_first]. rewrite Z.eqb_refl. reflexivity.
  - cbn [app after_first]. apply Z.eqb_neq in Hb. rewrite Hb, IH. reflexivity.
Qed.

Lemma component_char_spec (c : Z) :
  component_char c = true ->
  0 <= c <= 0x7F /\ in_fragment_set c = false /\ is_tab_or_newline c = false
  /\ c <> HASH /\ c <> QUESTION /\ c <> AMPERSAND /\ c <> EQUALS.
Proof.
  unfold component_char, plain_char.
  rewrite !andb_true_iff, !negb_true_iff, !Z.eqb_neq, !Z.leb_le. tauto.
Qed.

Lemma component_no (sep : Z) (s : jsstring) :
  sep = AMPERSAND \/ sep = EQUALS -> code_units s ->
  Forall (fun b => b <> sep) (urlencoded_component s).
Proof.
  intros Hsep H. apply component_chars in H.
  rewrite forallb_forall in H. apply Forall_forall. intros c Hc.
  apply H in Hc. apply component_char_spec in Hc.
  destruct Hsep; subst sep; tauto.
Qed.

Lemma tuple_string_no_ampersand (t : tuple) :
  code_units_tuple t -> Forall (fun b => b <> AMPERSAND) (tuple_string t).
Proof.
  intros [Hn Hv]. unfold tuple_string.
  apply Forall_app. split; [apply component_no; auto|].
  apply Forall_app. split; [repeat constructor; discriminate|].
  apply component_no; auto.
Qed.

Lemma split_tuples (ts : list tuple) :
  Forall code_units_tuple ts ->
  forall t, code_units_tuple t ->
  split_on AMPERSAND
    (tuple_string t ++ flat_map (fun t => AMPERSAND :: tuple_string t) ts)
  = tuple_string t :: map tuple_string ts.
Proof.
  induction 1 as [|t' ts Ht' _ IH]; intros t Ht.
  - cbn [flat_map map]. rewrite app_nil_r.
    apply split_on_none. apply tuple_string_no_ampersand. assumption.
  - cbn [flat_map map]. cbn [app].
    rewrite split_on_app by (apply tuple_string_no_ampersand; assumption).
    rewrite IH by assumption. reflexivity.
Qed.

(** The bytes of a string of ASCII characters are its characters. *)
Lemma utf8_bytes_ascii (s : jsstring) :
  Forall (fun c => 0 <= c <= 0x7F) s -> utf8_bytes s = s.
Proof.
  unfold utf8_bytes. induction 1 as [|c s Hc _ IH]; [reflexivity|].
  rewrite to_scalars_other by (apply is_lead_false; lia).
  replace (is_trail c) with false by (symmetry; apply is_trail_false; lia).
  cbn [flat_map]. rewrite IH. unfold utf8_encode_scalar.
  replace (c <=? 0x7F) with true by (symmetry; apply Z.leb_le; lia).
  reflexivity.
Qed.

Lemma component_plain (s : jsstring) :
  code_units s -> all_plain (urlencoded_component s).
Proof.
  intros H. apply component_chars in H. rewrite forallb_forall in H.
  apply Forall_forall. intros c Hc. apply H in Hc.
  unfold component_char in Hc. rewrite !andb_true_iff in Hc. tauto.
Qed.

Lemma tuple_string_plain (t : tuple) :
  code_units_tuple t -> all_plain (tuple_string t).
Proof.
  intros [Hn Hv]. unfold tuple_string, all_plain.
  apply Forall_app. split; [apply component_plain; assumption|].
  apply Forall_app. split; [repeat constructor|].
  apply component_plain; assumption.
Qed.

Lemma serialize_plain (ts : list tuple) :
  Forall code_units_tuple ts -> all_plain (urlencoded_serialize ts).
Proof.
  intros H. destruct H as [|t ts Ht Hts]; [constructor|].
  rewrite serialize_cons. unfold all_plain. apply Forall_app.
  split; [apply tuple_string_plain; assumption|].
  induction Hts as [|t' ts' Ht' _ IH]; [constructor|].
  cbn [flat_map]. constructor; [reflexivity|].
  apply Forall_app. split; [apply tuple_string_plain; assumption | exact IH].
Qed.

Lemma plain_char_spec (c : Z) :
  plain_char c = true ->
  0 <= c <= 0x7F /\ in_fragment_set c = false /\ is_tab_or_newline c = false
  /\ c <> HASH /\ c <> QUESTION.
Proof.
  unfold plain_char.
  rewrite !andb_true_iff, !negb_true_iff, !Z.eqb_neq, !Z.leb_le. tauto.
Qed.

Lemma all_plain_ascii (s : jsstring) :
  all_plain s -> Forall (fun c => 0 <= c <= 0x7F) s.
Proof.
  intros H. eapply Forall_impl; [|exact H]. intros c Hc.
  apply plain_char_spec in Hc. tauto.
Qed.

(** Parsing what the serializer wrote gives the tuples back. *)
Lemma parse_serialize (ts : list tuple) :
  Forall code_units_tuple ts ->
  urlencoded_string_parse (urlencoded_serialize ts)
  = map (fun t => (usv (fst t), usv (snd t))) ts.
Proof.
  intros H. unfold urlencoded_string_parse.
  rewrite utf8_bytes_ascii by (apply all_plain_ascii, serialize_plain; exact H).
  destruct H as [|t ts Ht Hts]; [reflexivity|].
  rewrite serialize_cons. unfold urlencoded_parse.
  rewrite split_tuples by assumption.
  change (tuple_string t :: map tuple_string ts)
    with (map tuple_string (t :: ts)).
  assert (Hall : Forall code_units_tuple (t :: ts)) by (constructor; assumption).
  clear Ht Hts. induction Hall as [|t' ts' [Hn Hv] _ IH]; [reflexivity|].
  cbn [map flat_map]. rewrite IH.
  assert (Hne : tuple_string t' <> []).
  { unfold tuple_string. destruct (urlencoded_component (fst t')); discriminate. }
  destruct (tuple_string t') as [|c cs] eqn:E; [contradiction|].
  rewrite <- E. unfold tuple_string. cbn [app].
  rewrite before_first_app, after_first_app by (apply component_no; auto).
  rewrite !component_roundtrip by assumption. reflexivity.
Qed.

(** ** [URLSearchParams] as a list of tuples *)

Lemma jsstring_eqb_eq (a b : jsstring) : jsstring_eqb a b = true <-> a = b.
Proof.
  revert b. induction a as [|x a IH]; intros [|y b]; cbn [jsstring_eqb];
    try (split; [discriminate | discriminate]); try tauto.
  rewrite andb_true_iff, Z.eqb_eq, IH. split.
  - intros [-> ->]. reflexivity.
  - intros E. inversion E. auto.
Qed.

Lemma to_scalars_ascii (s : jsstring) : ascii_string s -> to_scalars s = s.
Proof.
  induction 1 as [|c s Hc _ IH]; [reflexivity|].
  rewrite to_scalars_other by (apply is_lead_false; lia).
  replace (is_trail c) with false by (symmetry; apply is_trail_false; lia).
  rewrite IH. reflexivity.
Qed.

Lemma from_scalars_ascii (s : jsstring) : ascii_string s -> from_scalars s = s.
Proof.
  unfold from_scalars. induction 1 as [|c s Hc _ IH]; [reflexivity|].
  cbn [flat_map]. rewrite utf16_units_bmp by lia. rewrite IH. reflexivity.
Qed.

Lemma usv_ascii (s : jsstring) : ascii_string s -> usv s = s.
Proof.
  intros H. unfold usv. rewrite to_scalars_ascii by assumption.
  apply from_scalars_ascii. assumption.
Qed.

Lemma utf16_units_high (x : Z) :
  0x10000 <= x -> exists l t, utf16_units x = [l; t] /\ 0xD800 <= l.
Proof.
  intros Hx. unfold utf16_units.
  replace (x <? 0x10000) with false by (symmetry; apply Z.ltb_ge; lia).
  eexists; eexists. split; [reflexivity|].
  rewrite Z.shiftr_div_pow2 by lia.
  pose proof (Z.div_pos (x - 0x10000) (2 ^ 10)). lia.
Qed.

Lemma utf16_units_head (x : Z) (rest m : jsstring) :
  ascii_string m -> utf16_units x ++ rest = m ->
  exists m', m = x :: m' /\ rest = m' /\ 0 <= x <= 0x7F.
Proof.
  intros Hm E.
  destruct (Z.ltb_spec x 0x10000) as [Hlt|Hge].
  - rewrite utf16_units_bmp in E by lia. subst m.
    inversion_clear Hm as [|? ? Hx _]. exists rest. auto.
  - destruct (utf16_units_high x Hge) as (l & t & El & Hl).
    rewrite El in E. subst m. inversion_clear Hm as [|? ? Hx _].
    cbv beta in Hx. lia.
Qed.

Lemma usv_ascii_inv (n m : jsstring) : ascii_string m -> usv n = m -> n = m.
Proof.
  unfold usv, from_scalars. revert m.
  induction n as [|c|c d s IH1 IH2] using list_ind2; intros m Hm E.
  - exact E.
  - cbn [to_scalars] in E.
    destruct (is_lead c) eqn:El; [|destruct (is_trail c) eqn:Et];
      cbn [flat_map] in E; rewrite app_nil_r in E;
      rewrite <- (app_nil_r (utf16_units _)) in E;
      apply utf16_units_head in E; try assumption;
      destruct E as (m' & -> & <- & Hx); try lia.
    reflexivity.
  - destruct (is_lead c) eqn:El.
    + destruct (is_trail d) eqn:Et.
      * rewrite to_scalars_pair in E by assumption. cbn [flat_map] in E.
        apply utf16_units_head in E; [|assumption].
        destruct E as (m' & _ & _ & Hx).
        apply is_lead_spec in El. apply is_trail_spec in Et. lia.
      * rewrite to_scalars_lone_lead in E by assumption. cbn [flat_map] in E.
        apply utf16_units_head in E; [|assumption].
        destruct E as (m' & _ & _ & Hx). lia.
    + rewrite to_scalars_other in E by assumption. cbn [flat_map] in E.
      apply utf16_units_head in E; [|assumption].
      destruct E as (m' & -> & E & Hx).
      destruct (is_trail c); [lia|].
      inversion_clear Hm as [|? ? _ Hm'].
      f_equal. apply IH2; assumption.
Qed.

Lemma has_name_usv (name : jsstring) (t : tuple) :
  ascii_string name -> has_name name (usv_tuple t) = has_name name t.
Proof.
  intros Hn. unfold has_name, usv_tuple. cbn [fst].
  destruct (jsstring_eqb (fst t) name) eqn:E.
  - apply jsstring_eqb_eq in E. rewrite E. apply jsstring_eqb_eq.
    apply usv_ascii. assumption.
  - destruct (jsstring_eqb (usv (fst t)) name) eqn:E'; [|reflexivity].
    apply jsstring_eqb_eq in E'. apply usv_ascii_inv in E'; [|assumption].
    apply jsstring_eqb_eq in E'. congruence.
Qed.

Lemma params_get_usv (name : jsstring) (ts : list tuple) :
  ascii_string name ->
  params_get name (map usv_tuple ts) = option_map usv (params_get name ts).
Proof.
  intros Hn. unfold params_get.
  induction ts as [|t ts IH]; [reflexivity|].
  cbn [map find]. rewrite has_name_usv by assumption.
  destruct (has_name name t); [reflexivity | exact IH].
Qed.

Lemma find_filter_none (name : jsstring) (ts : list tuple) :
  find (has_name name) (filter (fun t => negb (has_name name t)) ts) = None.
Proof.
  induction ts as [|t ts IH]; [reflexivity|].
  cbn [filter]. destruct (has_name name t) eqn:E; cbn [negb]; [exact IH|].
  cbn [find]. rewrite E. exact IH.
Qed.

Lemma params_get_delete (name : jsstring) (ts : list tuple) :
  params_get name (params_delete name ts) = None.
Proof. unfold params_get, params_delete. rewrite find_filter_none. reflexivity. Qed.

Lemma has_name_refl (name value : jsstring) : has_name name (name, value) = true.
Proof. unfold has_name. cbn [fst]. apply jsstring_eqb_eq. reflexivity. Qed.

Lemma params_get_set (name value : jsstring) (ts : list tuple) :
  params_get name (params_set name value ts) = Some value.
Proof.
  unfold params_get, params_set.
  destruct (existsb (has_name name) ts) eqn:Ex.
  - induction ts as [|t ts IH]; [discriminate|].
    cbn [existsb] in Ex. cbn [set_first].
    destruct (has_name name t) eqn:E.
    + cbn [find]. unfold has_name in *. cbn [fst]. rewrite E. reflexivity.
    + cbn [find]. rewrite E. apply IH. exact Ex.
  - induction ts as [|t ts IH].
    + cbn [app find]. rewrite has_name_refl. reflexivity.
    + cbn [existsb] in Ex. apply orb_false_iff in Ex. destruct Ex as [E Ex].
      cbn [app find]. rewrite E. apply IH. exact Ex.
Qed.

Lemma params_set_nonempty (name value : jsstring) (ts : list tuple) :
  params_set name value ts <> [].
Proof.
  unfold params_set. destruct (existsb (has_name name) ts) eqn:Ex.
  - destruct ts as [|t ts]; [discriminate|]. cbn [set_first].
    destruct (has_name name t); discriminate.
  - destruct ts; discriminate.
Qed.

Lemma params_delete_units (name : jsstring) (ts : list tuple) :
  Forall code_units_tuple ts -> Forall code_units_tuple (params_delete name ts).
Proof.
  intros H. unfold params_delete. apply Forall_forall. intros t Ht.
  apply filter_In in Ht. rewrite Forall_forall in H. apply H. tauto.
Qed.

Lemma params_set_units (name value : jsstring) (ts : list tuple) :
  code_units name -> code_units value ->
  Forall code_units_tuple ts ->
  Forall code_units_tuple (params_set name value ts).
Proof.
  intros Hn Hv H. unfold params_set.
  destruct (existsb (has_name name) ts).
  - induction H as [|t ts [Ht1 Ht2] Hts IH]; [constructor|].
    cbn [set_first]. destruct (has_name name t).
    + constructor; [split; assumption|].
      apply (params_delete_units name ts Hts).
    + constructor; [split; assumption | exact IH].
  - apply Forall_app. split; [assumption|].
    constructor; [split; assumption | constructor].
Qed.

Lemma wellformed_units (ts : list tuple) :
  Forall wellformed_tuple ts -> Forall code_units_tuple ts.
Proof.
  intros H. eapply Forall_impl; [|exact H]. intros t [H1 H2].
  split; apply isWellFormed_code_units; assumption.
Qed.

Lemma ascii_code_units (s : jsstring) : ascii_string s -> code_units s.
Proof.
  intros H. eapply Forall_impl; [|exact H]. intros c Hc. cbv beta in *. lia.
Qed.

(** ** The [hash] setter on what the serializer wrote *)

Lemma fragment_state_plain (s : jsstring) : all_plain s -> fragment_state s = s.
Proof.
  intros H. unfold fragment_state.
  rewrite to_scalars_ascii by (apply all_plain_ascii; assumption).
  induction H as [|c s Hc _ IH]; [reflexivity|].
  apply plain_char_spec in Hc. destruct Hc as (_ & Hf & Ht & _).
  cbn [filter]. rewrite Ht. cbn [negb flat_map].
  unfold fragment_encode_scalar at 1. rewrite Hf. cbn [app].
  f_equal. exact IH.
Qed.

Local Open Scope Z_scope.

(** ** Lists of parameters *)

Lemma usv_wellformed (s : jsstring) : isWellFormed s = true -> usv s = s.
Proof. intros H. unfold usv. apply from_to_scalars. exact H. Qed.

Lemma usv_tuples (ts : list tuple) :
  Forall wellformed_tuple ts -> map usv_tuple ts = ts.
Proof.
  induction 1 as [|[n v] ts [Hn Hv] _ IH]; [reflexivity|].
  cbn [map]. rewrite IH. unfold usv_tuple. cbn [fst snd] in *.
  rewrite !usv_wellformed by assumption. reflexivity.
Qed.

Lemma has_name_eq (name : jsstring) (t : tuple) :
  has_name name t = true <-> fst t = name.
Proof. unfold has_name. apply jsstring_eqb_eq. Qed.

Lemma has_name_other (name other : jsstring) (t : tuple) :
  other <> name -> has_name name t = true -> has_name other t = false.
Proof.
  intros Hne H. apply has_name_eq in H. apply not_true_is_false.
  intros H'. apply has_name_eq in H'. congruence.
Qed.

Lemma find_filter_other (name other : jsstring) (ts : list tuple) :
  other <> name ->
  find (has_name other) (filter (fun t => negb (has_name name t)) ts)
  = find (has_name other) ts.
Proof.
  intros Hne. induction ts as [|t ts IH]; [reflexivity|].
  cbn [filter find]. destruct (has_name name t) eqn:E; cbn [negb].
  - rewrite (has_name_other name other t Hne E). exact IH.
  - cbn [find]. rewrite IH. reflexivity.
Qed.

(** [delete(name)] leaves the value of every other name. *)
Lemma params_get_delete_other (name other : jsstring) (ts : list tuple) :
  other <> name ->
  params_get other (params_delete name ts) = params_get other ts.
Proof.
  intros Hne. unfold params_get, params_delete.
  rewrite find_filter_other by assumption. reflexivity.
Qed.

Lemma find_set_first_other (name other value : jsstring) (ts : list tuple) :
  other <> name ->
  find (has_name other) (set_first name value ts) = find (has_name other) ts.
Proof.
  intros Hne. induction ts as [|t ts IH]; [reflexivity|].
  cbn [set_first]. destruct (has_name name t) eqn:E.
  - cbn [find]. rewrite (has_name_other name other t Hne E).
    replace (has_name other (fst t, value)) with false.
    + apply find_filter_other. exact Hne.
    + symmetry. apply (has_name_other name other); [exact Hne|].
      apply has_name_eq. apply has_name_eq in E. exact E.
  - cbn [find]. rewrite IH. reflexivity.
Qed.

Lemma find_append {A : Type} (f : A -> bool) (l m : list A) :
  find f (l ++ m) = match find f l with Some a => Some a | None => find f m end.
Proof.
  induction l as [|a l IH]; [reflexivity|]. cbn [app find].
  destruct (f a); [reflexivity | exact IH].
Qed.

(** [set(name, value)] leaves the value of every other name. *)
Lemma params_get_set_other (name other value : jsstring) (ts : list tuple) :
  other <> name ->
  params_get other (params_set name value ts) = params_get other ts.
Proof.
  intros Hne. unfold params_get, params_set.
  destruct (existsb (has_name name) ts).
  - rewrite find_set_first_other by assumption. reflexivity.
  - rewrite find_append. destruct (find (has_name other) ts); [reflexivity|].
    cbn [find]. replace (has_name other (name, value)) with false;
      [reflexivity|].
    symmetry. apply (has_name_other name other); [exact Hne|].
    apply has_name_refl.
Qed.

Lemma filter_without (name : jsstring) (ts : list tuple) :
  existsb (has_name name) ts = false ->
  filter (fun t => negb (has_name name t)) ts = ts.
Proof.
  induction ts as [|t ts IH]; [reflexivity|]. cbn [existsb filter].
  intros H. apply orb_false_iff in H. destruct H as [E H].
  rewrite E. cbn [negb]. rewrite IH by assumption. reflexivity.
Qed.

Lemma filter_twice (name : jsstring) (ts : list tuple) :
  filter (fun t => negb (has_name name t))
    (filter (fun t => negb (has_name name t)) ts)
  = filter (fun t => negb (has_name name t)) ts.
Proof.
  induction ts as [|t ts IH]; [reflexivity|]. cbn [filter].
  destruct (has_name name t) eqn:E; cbn [negb]; [exact IH|].
  cbn [filter]. rewrite E. cbn [negb]. rewrite IH. reflexivity.
Qed.

Lemma params_delete_twice (name : jsstring) (ts : list tuple) :
  params_delete name (params_delete name ts) = params_delete name ts.
Proof. apply filter_twice. Qed.

Lemma delete_set_first (name value : jsstring) (ts : list tuple) :
  params_delete name (set_first name value ts) = params_delete name ts.
Proof.
  unfold params_delete. induction ts as [|t ts IH]; [reflexivity|].
  cbn [set_first]. destruct (has_name name t) eqn:E.
  - cbn [filter]. rewrite E.
    replace (has_name name (fst t, value)) with true
      by (symmetry; apply has_name_eq; apply has_name_eq in E; exact E).
    cbn [negb]. apply filter_twice.
  - cbn [filter]. rewrite E. cbn [negb]. rewrite IH. reflexivity.
Qed.

(** Deleting a name after setting it is deleting it. *)
Lemma params_delete_set (name value : jsstring) (ts : list tuple) :
  params_delete name (params_set name value ts) = params_delete name ts.
Proof.
  unfold params_set. destruct (existsb (has_name name) ts) eqn:E.
  - apply delete_set_first.
  - unfold params_delete. rewrite filter_app. cbn [filter].
    rewrite has_name_refl. cbn [negb]. apply app_nil_r.
Qed.

Lemma existsb_set_first (name value : jsstring) (ts : list tuple) :
  existsb (has_name name) ts = true ->
  existsb (has_name name) (set_first name value ts) = true.
Proof.
  induction ts as [|t ts IH]; [discriminate|]. cbn [existsb set_first].
  destruct (has_name name t) eqn:E.
  - intros _. cbn [existsb].
    replace (has_name name (fst t, value)) with true
      by (symmetry; apply has_name_eq; apply has_name_eq in E; exact E).
    reflexivity.
  - cbn [orb existsb]. rewrite E. exact IH.
Qed.

Lemma set_first_twice (name v1 v2 : jsstring) (ts : list tuple) :
  set_first name v2 (set_first name v1 ts) = set_first name v2 ts.
Proof.
  induction ts as [|t ts IH]; [reflexivity|]. cbn [set_first].
  destruct (has_name name t) eqn:E.
  - cbn [set_first].
    replace (has_name name (fst t, v1)) with true
      by (symmetry; apply has_name_eq; apply has_name_eq in E; exact E).
    cbn [fst]. rewrite filter_twice. reflexivity.
  - cbn [set_first]. rewrite E. rewrite IH. reflexivity.
Qed.

Lemma set_first_last (name v1 v2 : jsstring) (ts : list tuple) :
  existsb (has_name name) ts = false ->
  set_first name v2 (ts ++ [(name, v1)]) = ts ++ [(name, v2)].
Proof.
  induction ts as [|t ts IH]; cbn [existsb app set_first].
  - intros _. rewrite has_name_refl. reflexivity.
  - intros H. apply orb_false_iff in H. destruct H as [E H].
    rewrite E. rewrite IH by assumption. reflexivity.
Qed.

(** Setting a name twice is setting it to the second value. *)
Lemma params_set_twice (name v1 v2 : jsstring) (ts : list tuple) :
  params_set name v2 (params_set name v1 ts) = params_set name v2 ts.
Proof.
  unfold params_set. destruct (existsb (has_name name) ts) eqn:E.
  - rewrite existsb_set_first by assumption. apply set_first_twice.
  - rewrite existsb_app. cbn [existsb]. rewrite has_name_refl.
    rewrite orb_true_r. apply set_first_last. exact E.
Qed.

Lemma params_delete_wellformed (name : jsstring) (ts : list tuple) :
  Forall wellformed_tuple ts -> Forall wellformed_tuple (params_delete name ts).
Proof.
  intros H. unfold params_delete. apply Forall_forall. intros t Ht.
  apply filter_In in Ht. rewrite Forall_forall in H. apply H. tauto.
Qed.

Lemma set_first_wellformed (name value : jsstring) (ts : list tuple) :
  isWellFormed value = true ->
  Forall wellformed_tuple ts ->
  Forall wellformed_tuple (set_first name value ts).
Proof.
  intros Hv. induction 1 as [|t ts Ht Hts IH]; [constructor|].
  cbn [set_first]. destruct (has_name name t).
  - constructor.
    + split; [apply Ht | exact Hv].
    + apply (params_delete_wellformed name ts Hts).
  - constructor; assumption.
Qed.

Lemma params_set_wellformed (name value : jsstring) (ts : list tuple) :
  isWellFormed name = true -> isWellFormed value = true ->
  Forall wellformed_tuple ts ->
  Forall wellformed_tuple (params_set name value ts).
Proof.
  intros Hn Hv Hts. unfold params_set.
  destruct (existsb (has_name name) ts).
  - apply set_first_wellformed; assumption.
  - apply Forall_app. split; [exact Hts|]. constructor; [|constructor].
    split; assumption.
Qed.

Lemma ascii_wellformed (s : jsstring) :
  ascii_string s -> isWellFormed s = true.
Proof.
  induction 1 as [|c s Hc _ IH]; [reflexivity|].
  rewrite isWellFormed_other.
  - rewrite IH. unfold is_trail.
    replace (0xDC00 <=? c) with false by (symmetry; apply Z.leb_gt; lia).
    replace (0 <=? c) with true by (symmetry; apply Z.leb_le; lia).
    replace (c <=? 0xFFFF) with true by (symmetry; apply Z.leb_le; lia).
    reflexivity.
  - apply is_lead_false. lia.
Qed.

(** ** The setters and the opaque path *)

Lemma strip_opaque_path_parts (r : url_record) :
  query (strip_opaque_path r) = query r
  /\ fragment (strip_opaque_path r) = fragment r.
Proof.
  unfold strip_opaque_path. destruct (has_opaque_path r); [|split; reflexivity].
  destruct (fragment r) eqn:Ef; [rewrite Ef; split; reflexivity|].
  destruct (query r) eqn:Eq; [rewrite Ef, Eq; split; reflexivity|].
  split; reflexivity.
Qed.

(** With a query or a fragment the path is left alone. *)
Lemma strip_opaque_path_kept (r : url_record) :
  fragment r <> None \/ query r <> None -> strip_opaque_path r = r.
Proof.
  intros H. unfold strip_opaque_path. destruct (has_opaque_path r);
    [|reflexivity].
  destruct (fragment r); [reflexivity|]. destruct (query r); [reflexivity|].
  destruct H as [H|H]; contradiction.
Qed.

Lemma with_hash_parts (value : jsstring) (r : url_record) :
  query (with_hash value r) = query r
  /\ fragment (with_hash value r) = fragment_of_hash value.
Proof.
  unfold with_hash. destruct value as [|c value]; [|split; reflexivity].
  destruct (strip_opaque_path_parts
              {| before_query := before_query r; query := query r;
                 fragment := fragment_of_hash [] |}) as [Hq Hf].
  rewrite Hq, Hf. split; reflexivity.
Qed.

Lemma with_hash_nonempty (value : jsstring) (r : url_record) :
  value <> [] ->
  with_hash value r
  = {| before_query := before_query r;
       query := query r;
       fragment := fragment_of_hash value |}.
Proof. destruct value; [contradiction | reflexivity]. Qed.

Lemma without_param_parts (name : jsstring) (r : url_record) :
  query (without_param name r)
  = query_of_params (params_delete name (searchParams_of r))
  /\ fragment (without_param name r) = fragment r.
Proof.
  unfold without_param. cbn [query].
  destruct (query_of_params (params_delete name (searchParams_of r))) eqn:E.
  - cbn [query fragment]. split; reflexivity.
  - destruct (strip_opaque_path_parts
                {| before_query := before_query r; query := None;
                   fragment := fragment r |}) as [Hq Hf].
    rewrite Hq, Hf. split; reflexivity.
Qed.

Lemma without_param_kept (name : jsstring) (r : url_record) :
  fragment r <> None ->
  without_param name r
  = {| before_query := before_query r;
       query := query_of_params (params_delete name (searchParams_of r));
       fragment := fragment r |}.
Proof.
  intros H. unfold without_param. cbn [query].
  destruct (query_of_params (params_delete name (searchParams_of r)));
    [reflexivity|].
  apply strip_opaque_path_kept. left. exact H.
Qed.

Lemma searchParams_of_query (r r' : url_record) :
  query r = query r' -> searchParams_of r = searchParams_of r'.
Proof. unfold searchParams_of. intros ->. reflexivity. Qed.

Lemma strip_trailing_spaces_twice (s : jsstring) :
  strip_trailing_spaces (strip_trailing_spaces s) = strip_trailing_spaces s.
Proof.
  induction s as [|c s IH]; [reflexivity|]. cbn [strip_trailing_spaces].
  destruct (strip_trailing_spaces s) as [|d t] eqn:E.
  - destruct (c =? SPACE) eqn:Ec; [reflexivity|].
    cbn [strip_trailing_spaces]. rewrite Ec. reflexivity.
  - change (strip_trailing_spaces (c :: d :: t))
      with (match strip_trailing_spaces (d :: t) with
            | [] => if c =? SPACE then [] else [c]
            | rest' => c :: rest'
            end).
    rewrite IH. reflexivity.
Qed.

(** Stripping the path once more changes nothing. *)
Lemma strip_opaque_path_stripped (b : jsstring) :
  strip_opaque_path
    {| before_query := strip_trailing_spaces b; query := None;
       fragment := None |}
  = {| before_query := strip_trailing_spaces b; query := None;
       fragment := None |}.
Proof.
  unfold strip_opaque_path. destruct (has_opaque_path _); [|reflexivity].
  cbn [fragment query before_query]. rewrite strip_trailing_spaces_twice.
  reflexivity.
Qed.

End UrlFacts.

(* ================================================================== *)
(** * The share-link codec and its URL functions *)
(* ================================================================== *)

Module ShareLinkFacts.
Import Js Base64 Url ShareLink JsFacts Base64Facts UrlFacts.

Lemma decompress_compress (P : Platform) (bs : bytes) :
  self_inverse P -> decompressBytes P (compressBytes P bs) = ret bs.
Proof.
  intros [Hs Hf]. unfold decompressBytes, compressBytes.
  destruct (supportsCompressionStream P); [rewrite Hs | rewrite Hf]; reflexivity.
Qed.

Lemma compress_nonempty (P : Platform) (bs : bytes) :
  never_empty P -> compressBytes P bs <> [].
Proof.
  intros [Hs Hf]. unfold compressBytes.
  destruct (supportsCompressionStream P); [apply Hs | apply Hf].
Qed.

Lemma getPayload_prefixed (encoded : jsstring) :
  getPayloadFromToken (SHARE_PREFIX ++ encoded) = ret encoded.
Proof. reflexivity. Qed.

(** What decoding makes of an encoded source, for any string. *)
Lemma decode_encode (P : Platform) (s : jsstring) :
  self_inverse P -> never_empty P ->
  exists token,
    encodeDiagramToken P s = ret token
    /\ decodeDiagramToken P token
       = ret (TextDecoder_decode (TextEncoder_encode s)).
Proof.
  intros Hinv Hne. unfold encodeDiagramToken.
  destruct (base64Url_roundtrip (compressBytes P (TextEncoder_encode s)))
    as (encoded & Henc & Hdec).
  { apply compress_nonempty. assumption. }
  rewrite Henc. cbn [bind ret]. eexists. split; [reflexivity|].
  unfold decodeDiagramToken. rewrite getPayload_prefixed. cbn [bind ret].
  rewrite Hdec. cbn [bind ret]. rewrite decompress_compress by assumption.
  reflexivity.
Qed.

(** C1 (as amended).  For every well-formed string [s] (no unpaired
    surrogate) that does not begin with U+FEFF, and under either
    compression backend (the one [supportsCompressionStream] selects,
    each backend inflating what it deflated and never deflating to
    nothing), [encodeDiagramToken] returns a token and
    [decodeDiagramToken] of that token returns [s] exactly.  The empty
    string and the strings with multi-byte code points are among them. *)
Theorem codec_roundtrip (P : Platform) (s : jsstring) :
  self_inverse P -> never_empty P ->
  isWellFormed s = true -> hd 0 s <> 0xFEFF ->
  exists token,
    encodeDiagramToken P s = ret token /\ decodeDiagramToken P token = ret s.
Proof.
  intros Hinv Hne Hw Hb.
  destruct (decode_encode P s Hinv Hne) as (token & He & Hd).
  exists token. split; [assumption|].
  rewrite Hd, TextDecoder_TextEncoder by assumption. reflexivity.
Qed.

Lemma example_self_inverse (b : bool) : self_inverse (example_platform b).
Proof. split; intros bs; reflexivity. Qed.

Lemma example_never_empty (b : bool) : never_empty (example_platform b).
Proof. split; intros bs; discriminate. Qed.

(** The theorem at a diagram source, with the platform's streams. *)
Lemma codec_roundtrip_witness :
  exists token,
    encodeDiagramToken (example_platform true) (lit "graph TD; A-->B") = ret token
    /\ decodeDiagramToken (example_platform true) token
       = ret (lit "graph TD; A-->B").
Proof.
  apply (codec_roundtrip (example_platform true) (lit "graph TD; A-->B")).
  - apply example_self_inverse.
  - apply example_never_empty.
  - reflexivity.
  - vm_compute. discriminate.
Defined.

(** C1 as stated fails.  The string made of U+FEFF alone is well formed
    and is encoded to a token that decodes to the empty string:
    [TextDecoder] drops a leading U+FEFF. *)
Lemma codec_drops_leading_bom :
  ~ (forall (P : Platform) (s : jsstring),
       self_inverse P -> never_empty P -> isWellFormed s = true ->
       exists token,
         encodeDiagramToken P s = ret token
         /\ decodeDiagramToken P token = ret s).
Proof.
  intros H.
  destruct (H (example_platform false) [0xFEFF]
              (example_self_inverse false) (example_never_empty false)
              eq_refl) as (token & He & Hd).
  vm_compute in He. injection He as <-. vm_compute in Hd. discriminate.
Qed.

(** An unpaired surrogate does not come back either: [TextEncoder] writes
    U+FFFD in its place. *)
Remark codec_replaces_lone_surrogate :
  exists token,
    encodeDiagramToken (example_platform true) [0xD800] = ret token
    /\ decodeDiagramToken (example_platform true) token = ret [0xFFFD].
Proof.
  destruct (decode_encode (example_platform true) [0xD800]
              (example_self_inverse true) (example_never_empty true))
    as (token & He & Hd).
  exists token. split; [exact He|]. rewrite Hd. reflexivity.
Qed.

Lemma starts_with_prefix_version (token : jsstring) :
  starts_with SHARE_PREFIX token = true ->
  starts_with (SHARE_VERSION ++ lit ".") token = true.
Proof.
  unfold SHARE_PREFIX, SHARE_VERSION, SHARE_ALGORITHM.
  destruct token as [|c1 [|c2 [|c3 token]]]; cbn; intros H;
    try discriminate H.
  - apply andb_true_iff in H. destruct H as [_ H]. discriminate H.
  - apply andb_true_iff in H. destruct H as [_ H].
    apply andb_true_iff in H. destruct H as [_ H]. discriminate H.
  - rewrite !andb_true_iff in H. rewrite !andb_true_iff. tauto.
Qed.

(** The two backends inverting themselves says nothing on one reading the
    other's output. *)
Remark self_inverse_not_cross_compatible :
  self_inverse (example_platform true)
  /\ forall bs,
       inflateSync (example_platform true)
         (CompressionStream_deflate (example_platform true) bs) = None
       /\ DecompressionStream_deflate (example_platform true)
            (deflateSync (example_platform true) bs) = None.
Proof.
  split; [apply example_self_inverse|]. intros bs. split; reflexivity.
Qed.

Lemma starts_with_app (p s : jsstring) :
  starts_with p s = true -> s = p ++ skipn (length p) s.
Proof.
  revert s. induction p as [|x p IH]; intros s H; [reflexivity|].
  destruct s as [|c s]; [discriminate|]. cbn [starts_with] in H.
  apply andb_true_iff in H. destruct H as [E H]. apply Z.eqb_eq in E. subst c.
  cbn [app length skipn]. f_equal. apply IH. exact H.
Qed.

Lemma share_token_ascii (t : jsstring) :
  is_share_token t = true -> ascii_string t.
Proof.
  unfold is_share_token. rewrite andb_true_iff. intros [Hp Hc].
  rewrite (starts_with_app _ _ Hp). apply Forall_app. split.
  - repeat constructor; vm_compute; discriminate.
  - apply Forall_forall. intros c Hin. rewrite forallb_forall in Hc.
    apply Hc in Hin. unfold is_base64url_char, is_ascii_alphanumeric in Hin.
    rewrite !orb_true_iff, !andb_true_iff, !Z.leb_le, !Z.eqb_eq in Hin. lia.
Qed.

Lemma hash_params_units (r : url_record) :
  valid_record r ->
  Forall code_units_tuple (URLSearchParams (hash_without_mark (hash_of r))).
Proof.
  intros [Hf _]. apply wellformed_units. apply URLSearchParams_wellformed.
  unfold hash_of. destruct (fragment r) as [[|c f]|] eqn:E.
  - constructor.
  - change (hash_without_mark (HASH :: c :: f)) with (c :: f).
    apply (Hf _ eq_refl).
  - constructor.
Qed.

Lemma searchParams_units (r : url_record) :
  valid_record r -> Forall code_units_tuple (searchParams_of r).
Proof.
  intros [_ Hq]. unfold searchParams_of.
  destruct (query r) as [q|] eqn:E; [|constructor].
  apply wellformed_units. apply urlencoded_parse_wellformed.
  apply utf8_bytes_values. apply (Hq _ eq_refl).
Qed.

Lemma serialize_nonempty (ts : list tuple) :
  ts <> [] -> urlencoded_serialize ts <> [].
Proof.
  destruct ts as [|t ts]; [contradiction|]. intros _.
  rewrite serialize_cons. unfold tuple_string.
  destruct (urlencoded_component (fst t)); discriminate.
Qed.

(** Setting [hash] to a serialized list and reading the list back. *)
Lemma hash_params_roundtrip (ts : list tuple) :
  ts <> [] -> Forall code_units_tuple ts ->
  exists c s,
    fragment_of_hash (urlencoded_serialize ts) = Some (c :: s)
    /\ URLSearchParams (hash_without_mark (HASH :: c :: s)) = map usv_tuple ts.
Proof.
  intros Hne Hts. pose proof (serialize_plain ts Hts) as Hp.
  pose proof (serialize_nonempty ts Hne) as Hs.
  pose proof (parse_serialize ts Hts) as Hparse.
  destruct (urlencoded_serialize ts) as [|c s]; [contradiction|].
  exists c, s.
  assert (Hc : c <> HASH /\ c <> QUESTION).
  { inversion_clear Hp as [|? ? Hc _]. apply plain_char_spec in Hc. tauto. }
  destruct Hc as [Hh Hq]. cbn [fragment_of_hash].
  apply Z.eqb_neq in Hh. rewrite Hh. rewrite fragment_state_plain by assumption.
  split; [reflexivity|].
  change (hash_without_mark (HASH :: c :: s)) with (c :: s).
  unfold URLSearchParams. apply Z.eqb_neq in Hq. rewrite Hq. exact Hparse.
Qed.

(** The query after [searchParams.delete(name)] has no tuple of that name. *)
Lemma query_without (name : jsstring) (r : url_record) :
  ascii_string name -> valid_record r ->
  params_get name
    (searchParams_of
       {| before_query := before_query r;
          query := query_of_params (params_delete name (searchParams_of r));
          fragment := fragment r |}) = None.
Proof.
  intros Hn Hr. unfold searchParams_of at 1. cbn [query]. unfold query_of_params.
  pose proof (params_delete_units name _ (searchParams_units r Hr)) as Hu.
  pose proof (parse_serialize _ Hu) as Hparse.
  destruct (urlencoded_serialize (params_delete name (searchParams_of r)));
    [reflexivity|].
  rewrite Hparse. fold usv_tuple.
  change (fun t : tuple => (usv (fst t), usv (snd t))) with usv_tuple.
  rewrite params_get_usv by assumption.
  rewrite params_get_delete. reflexivity.
Qed.

(** C10.  For every URL object of the store and every token of the share
    form, reading the token from the URL [writeDiagramTokenToUrl] returns
    gives the token back; the returned URL's query has no [diagram]
    parameter; the URL object passed in is as it was, and the returned
    object is another one. *)
Theorem url_token_roundtrip (st : store) (url : ref) (token : jsstring) :
  (url < next_ref st)%nat ->
  valid_record (objects st url) ->
  is_share_token token = true ->
  let '(nextUrl, st') := writeDiagramTokenToUrl url token st in
  fst (readDiagramTokenFromUrl nextUrl st') = Some token
  /\ params_get SHARE_PARAM (searchParams_of (objects st' nextUrl)) = None
  /\ objects st' url = objects st url
  /\ nextUrl <> url.
Proof.
  intros Hlive Hvalid Htoken.
  pose proof (share_token_ascii token Htoken) as Hascii.
  assert (Hparam : ascii_string SHARE_PARAM)
    by (repeat constructor; vm_compute; discriminate).
  set (r := objects st url) in *.
  set (ts := params_set SHARE_PARAM token
               (URLSearchParams (hash_without_mark (hash_of r)))).
  assert (Hts : Forall code_units_tuple ts).
  { apply params_set_units; try (apply ascii_code_units; assumption).
    apply hash_params_units. assumption. }
  destruct (hash_params_roundtrip ts (params_set_nonempty _ _ _) Hts)
    as (c & s & Hfrag & Hread).
  unfold writeDiagramTokenToUrl, readDiagramTokenFromUrl, toString, new_URL,
    get_hash, set_hash, searchParams_delete, searchParams_get, read_record,
    write_record, m_bind, m_ret.
  cbn [objects next_ref fst snd]. rewrite !Nat.eqb_refl.
  fold r. fold ts.
  rewrite (with_hash_nonempty _ r
             (serialize_nonempty ts (params_set_nonempty _ _ _))).
  rewrite without_param_kept by (cbn [fragment]; rewrite Hfrag; discriminate).
  cbn [before_query query fragment]. rewrite Hfrag.
  replace (Nat.eqb url (next_ref st)) with false
    by (symmetry; apply Nat.eqb_neq; lia).
  repeat split.
  - unfold hash_of at 1. cbn [fragment]. rewrite Hread.
    rewrite params_get_usv by assumption. unfold ts.
    rewrite params_get_set. cbn [option_map fst].
    rewrite usv_ascii by assumption. reflexivity.
  - apply (query_without SHARE_PARAM r Hparam Hvalid).
  - lia.
Qed.

Lemma code_units_check (s : jsstring) :
  forallb (fun c => (0 <=? c) && (c <=? 0xFFFF)) s = true -> code_units s.
Proof.
  intros H. rewrite forallb_forall in H. apply Forall_forall. intros c Hc.
  apply H in Hc. apply andb_true_iff in Hc. rewrite !Z.leb_le in Hc. exact Hc.
Qed.

(** The theorem at a URL with a [diagram] parameter in its query and in
    its fragment. *)
Lemma url_token_roundtrip_witness :
  let '(nextUrl, st') := writeDiagramTokenToUrl 0%nat example_token example_store in
  fst (readDiagramTokenFromUrl nextUrl st') = Some example_token
  /\ params_get SHARE_PARAM (searchParams_of (objects st' nextUrl)) = None
  /\ objects st' 0%nat = objects example_store 0%nat
  /\ nextUrl <> 0%nat.
Proof.
  apply (url_token_roundtrip example_store 0%nat example_token).
  - cbn. lia.
  - split; intros s E; injection E as <-; apply code_units_check; reflexivity.
  - reflexivity.
Defined.

Local Open Scope Z_scope.

(** ** The token [encodeDiagramToken] makes *)

Lemma to_url_alphabet :
  forallb (fun c => is_base64url_char (to_url c)) alphabet = true.
Proof. reflexivity. Qed.

Lemma b64_char_in (v : Z) : 0 <= v < 64 -> In (b64_char v) alphabet.
Proof.
  intros H. unfold b64_char. apply nth_In.
  change (length alphabet) with 64%nat. lia.
Qed.

Lemma base64url_chars (bs : list Z) :
  byte_values bs ->
  forallb is_base64url_char (map to_url (map b64_char (sextets bs))) = true.
Proof.
  intros H. apply forallb_forall. intros c Hc.
  apply in_map_iff in Hc. destruct Hc as (b & <- & Hb).
  apply in_map_iff in Hb. destruct Hb as (v & <- & Hv).
  pose proof (sextets_range bs H) as Hr. rewrite Forall_forall in Hr.
  pose proof to_url_alphabet as Ha. rewrite forallb_forall in Ha.
  apply Ha. apply b64_char_in. apply Hr. exact Hv.
Qed.

Lemma encode_token_eq (P : Platform) (source : jsstring) :
  encodeDiagramToken P source
  = ret (SHARE_PREFIX
           ++ map to_url
                (map b64_char
                   (sextets
                      (map byte_to_Z
                         (compressBytes P (TextEncoder_encode source)))))).
Proof.
  unfold encodeDiagramToken. rewrite bytesToBase64Url_eq. reflexivity.
Qed.

Lemma prefixed_share_token (bs : list Z) :
  byte_values bs ->
  is_share_token (SHARE_PREFIX ++ map to_url (map b64_char (sextets bs)))
  = true.
Proof.
  intros H. unfold is_share_token.
  change (starts_with SHARE_PREFIX (SHARE_PREFIX ++ ?s)) with true.
  change (skipn (length SHARE_PREFIX) (SHARE_PREFIX ++ ?s)) with s.
  apply base64url_chars. exact H.
Qed.

(** X2: the token of a source.  Whatever the source and the compression
    backend, [encodeDiagramToken] returns a token: the prefix [v1.d.]
    and then base64url characters only (no [+], [/] or [=]), four for
    three bytes of the compressed source, the last group cut short. *)
Theorem encode_gives_share_token (P : Platform) (source : jsstring) :
  exists token,
    encodeDiagramToken P source = ret token
    /\ is_share_token token = true
    /\ Z.of_nat (length token)
       = 5 + (4 * Z.of_nat (length (compressBytes P (TextEncoder_encode source)))
              + 2) / 3.
Proof.
  rewrite encode_token_eq. eexists. split; [reflexivity|]. split.
  - apply prefixed_share_token. apply bytes_values.
  - rewrite length_app, !length_map. rewrite Nat2Z.inj_add.
    rewrite sextets_count, length_map. reflexivity.
Qed.

(** ** Payloads *)

Lemma base64url_char_indexed (c : Z) :
  is_base64url_char c = true ->
  exists v, b64_index (of_url c) = Some v.
Proof.
  intros H.
  assert (Hr : 0 <= c < 128).
  { unfold is_base64url_char, is_ascii_alphanumeric in H.
    rewrite !orb_true_iff, !andb_true_iff, !Z.leb_le, !Z.eqb_eq in H. lia. }
  assert (Hall :
    forallb (fun n => implb (is_base64url_char (Z.of_nat n))
                        match b64_index (of_url (Z.of_nat n)) with
                        | Some _ => true
                        | None => false
                        end) (seq 0 128) = true) by (vm_compute; reflexivity).
  rewrite forallb_forall in Hall. specialize (Hall (Z.to_nat c)).
  rewrite Z2Nat.id in Hall by lia. rewrite H in Hall. cbn [implb] in Hall.
  destruct (b64_index (of_url c)) as [v|].
  - exists v. reflexivity.
  - assert (false = true); [|discriminate]. apply Hall. apply in_seq. lia.
Qed.

Lemma base64url_sextets (s : jsstring) :
  forallb is_base64url_char s = true ->
  exists vs, Forall (fun v => 0 <= v < 64) vs
             /\ map of_url s = map b64_char vs.
Proof.
  induction s as [|c s IH]; intros H.
  - exists []. split; [constructor | reflexivity].
  - cbn [forallb] in H. apply andb_true_iff in H. destruct H as [Hc Hs].
    destruct (IH Hs) as (vs & Hr & Hm).
    destruct (base64url_char_indexed c Hc) as (v & Hv).
    apply b64_index_spec in Hv. destruct Hv as [Hv Hcv].
    exists (v :: vs). split; [constructor; assumption|].
    cbn [map]. rewrite Hm, Hcv. reflexivity.
Qed.

Lemma base64url_not_dot (c : Z) : is_base64url_char c = true -> c <> 0x2E.
Proof.
  intros H E. subst c. discriminate H.
Qed.

Lemma alphabet_chars :
  forallb (fun a => is_base64url_char a || (a =? PLUS) || (a =? SLASH))
    alphabet = true.
Proof. reflexivity. Qed.

(** X3: what [base64UrlToBytes] takes.  A payload holding a character
    that is none of A-Z, a-z, 0-9, [-], [_], [+], [/], [=] and no ASCII
    whitespace is refused with the InvalidCharacterError of [atob].  A
    payload of base64url characters is refused in the same way when its
    length is one more than a multiple of four, and decodes otherwise, to
    three bytes for four characters (rounded down). *)
Theorem base64url_payload_checked (encoded : jsstring) :
  (forall c,
     In c encoded ->
     is_base64url_char c = false -> c <> PLUS -> c <> SLASH -> c <> EQUALS ->
     is_ascii_whitespace c = false ->
     base64UrlToBytes encoded = throw InvalidCharacterError)
  /\ (encoded <> [] -> forallb is_base64url_char encoded = true ->
      if Z.of_nat (length encoded) mod 4 =? 1
      then base64UrlToBytes encoded = throw InvalidCharacterError
      else exists bs,
             base64UrlToBytes encoded = ret bs
             /\ Z.of_nat (length bs) = 3 * Z.of_nat (length encoded) / 4).
Proof.
  split.
  - intros c Hin Hc Hplus Hslash Heq Hws.
    destruct encoded as [|e encoded']; [contradiction|].
    set (encoded := e :: encoded') in *.
    unfold base64UrlToBytes. fold encoded. rewrite replace_of_url.
    assert (Hidx : b64_index (of_url c) = None).
    { destruct (b64_index (of_url c)) as [v|] eqn:E; [|reflexivity].
      apply index_from_in in E. pose proof alphabet_chars as Ha.
      rewrite forallb_forall in Ha. apply Ha in E.
      unfold of_url in E.
      destruct (Z.eqb_spec c MINUS) as [E1|E1];
        [subst c; discriminate Hc|].
      destruct (Z.eqb_spec c UNDERSCORE) as [E2|E2];
        [subst c; discriminate Hc|].
      rewrite Hc in E. cbn [orb] in E. apply orb_true_iff in E.
      destruct E as [E|E]; apply Z.eqb_eq in E; contradiction. }
    assert (Hof : of_url c = c).
    { unfold of_url.
      destruct (Z.eqb_spec c MINUS) as [E1|E1];
        [subst c; discriminate Hc|].
      destruct (Z.eqb_spec c UNDERSCORE) as [E2|E2];
        [subst c; discriminate Hc|]. reflexivity. }
    unfold atob. rewrite (decode_rejects (of_url c)).
    + reflexivity.
    + apply in_or_app. left. apply in_map. exact Hin.
    + rewrite Hof. exact Hws.
    + rewrite Hof. exact Heq.
    + exact Hidx.
  - intros Hne Hall. destruct (base64url_sextets encoded Hall) as (vs & Hr & Hm).
    assert (Hlen : length vs = length encoded).
    { rewrite <- (length_map b64_char vs), <- Hm. apply length_map. }
    destruct encoded as [|e encoded']; [contradiction|].
    set (encoded := e :: encoded') in *.
    unfold base64UrlToBytes. fold encoded. rewrite replace_of_url, Hm.
    rewrite length_map.
    unfold atob. rewrite decode_padded by assumption. rewrite Hlen.
    pose proof (b64_loop_sextet_list vs Hr) as Hloop. rewrite Hlen in Hloop.
    destruct (Z.eqb_spec (Z.of_nat (length encoded) mod 4) 1) as [E|E].
    + reflexivity.
    + destruct (b64_loop 0 0 (map b64_char vs)) as [out|].
      * cbn [bind ret]. eexists. split; [reflexivity|].
        rewrite length_map. apply Hloop.
      * contradiction.
Qed.

(** The theorem at three payloads: one with a [.], one of five
    characters, one of six. *)
Lemma base64url_payload_checked_witness :
  base64UrlToBytes (lit "AAA.") = throw InvalidCharacterError
  /\ base64UrlToBytes (lit "AAAAA") = throw InvalidCharacterError
  /\ exists bs, base64UrlToBytes (lit "eJxLzs") = ret bs
                /\ Z.of_nat (length bs) = 3 * 6 / 4.
Proof.
  split; [|split].
  - apply (proj1 (base64url_payload_checked (lit "AAA.")) 0x2E).
    + cbn. tauto.
    + reflexivity.
    + discriminate.
    + discriminate.
    + discriminate.
    + reflexivity.
  - apply (proj2 (base64url_payload_checked (lit "AAAAA"))).
    + discriminate.
    + reflexivity.
  - apply (proj2 (base64url_payload_checked (lit "eJxLzs"))).
    + discriminate.
    + reflexivity.
Defined.

Lemma base64url_no_version (payload : jsstring) :
  forallb is_base64url_char payload = true ->
  starts_with (SHARE_VERSION ++ lit ".") payload = false.
Proof.
  intros H. destruct payload as [|c1 [|c2 [|c3 payload]]]; try reflexivity.
  - cbn. apply andb_false_r.
  - cbn. rewrite !andb_false_r. reflexivity.
  - cbn [forallb] in H. rewrite !andb_true_iff in H.
    destruct H as (_ & _ & H3 & _). apply base64url_not_dot in H3.
    change (starts_with (SHARE_VERSION ++ lit ".") (c1 :: c2 :: c3 :: payload))
      with ((0x76 =? c1) && ((0x31 =? c2) && ((0x2E =? c3) && true))).
    apply Z.eqb_neq in H3. rewrite Z.eqb_sym in H3. rewrite H3.
    rewrite !andb_false_r. reflexivity.
Qed.

(** The raw token of any bytes: what the backend deflates the bytes
    to, in base64url, without the prefix.  It decodes to the text
    [TextDecoder] makes of the bytes. *)
Lemma raw_token_decodes (P : Platform) (bs : bytes) :
  self_inverse P -> never_empty P ->
  exists token,
    bytesToBase64Url (compressBytes P bs) = ret token
    /\ starts_with (lit "v1.") token = false
    /\ decodeDiagramToken P token = ret (TextDecoder_decode bs).
Proof.
  intros Hinv Hne.
  destruct (base64Url_roundtrip (compressBytes P bs))
    as (token & Henc & Hdec).
  { apply compress_nonempty. assumption. }
  exists token. split; [exact Henc|].
  assert (Hchars : forallb is_base64url_char token = true).
  { rewrite bytesToBase64Url_eq in Henc. injection Henc as <-.
    apply base64url_chars. apply bytes_values. }
  pose proof (base64url_no_version token Hchars) as Hv.
  change (SHARE_VERSION ++ lit ".") with (lit "v1.") in Hv.
  split; [exact Hv|].
  unfold decodeDiagramToken, getPayloadFromToken.
  assert (Hp : starts_with SHARE_PREFIX token = false).
  { destruct (starts_with SHARE_PREFIX token) eqn:E; [|reflexivity].
    apply starts_with_prefix_version in E.
    change (SHARE_VERSION ++ lit ".") with (lit "v1.") in E. congruence. }
  rewrite Hp. change (SHARE_VERSION ++ lit ".") with (lit "v1.").
  rewrite Hv. cbn [bind ret]. rewrite Hdec. cbn [bind ret].
  rewrite decompress_compress by assumption. reflexivity.
Qed.

(** C6 (as amended).  [decodeDiagramToken] of a token that begins with
    [v1.] and does not go on with [d.] throws the error "Unsupported
    share link format version.".  A token that does not begin with [v1.]
    is taken as a raw payload: the result is that of base64url-decoding,
    inflating and UTF-8 decoding the whole token, the errors being those
    of the first two steps.  The third step never throws: bytes that are
    no UTF-8 come back as text, with U+FFFD in their place.  So under a
    backend that inflates what it deflated, every byte sequence has a
    raw token that decodes without error to what [TextDecoder] makes of
    the bytes, and the raw token of the byte 0xFF decodes to the string
    of U+FFFD alone. *)
Theorem unknown_format_rejected (P : Platform) :
  (forall rest,
     starts_with (lit "d.") rest = false ->
     decodeDiagramToken P (lit "v1." ++ rest)
     = throw (Error "Unsupported share link format version."))
  /\ (forall token,
        starts_with (lit "v1.") token = false ->
        decodeDiagramToken P token
        = (compressed <- base64UrlToBytes token ;;
           decompressed <- decompressBytes P compressed ;;
           ret (TextDecoder_decode decompressed)))
  /\ (self_inverse P -> never_empty P ->
      (forall bs, exists token,
         starts_with (lit "v1.") token = false
         /\ decodeDiagramToken P token = ret (TextDecoder_decode bs))
      /\ exists token,
           starts_with (lit "v1.") token = false
           /\ decodeDiagramToken P token = ret [0xFFFD]).
Proof.
  split; [|split].
  - intros rest Hrest. unfold decodeDiagramToken, getPayloadFromToken.
    assert (E1 : starts_with SHARE_PREFIX (lit "v1." ++ rest) = false).
    { destruct rest as [|c1 [|c2 rest]].
      - reflexivity.
      - cbn -[Z.eqb]. apply andb_false_r.
      - cbn -[Z.eqb] in Hrest |- *. exact Hrest. }
    rewrite E1. reflexivity.
  - intros token Htoken.
    assert (E : getPayloadFromToken token = ret token).
    { unfold getPayloadFromToken.
      destruct (starts_with SHARE_PREFIX token) eqn:E1.
      - apply starts_with_prefix_version in E1.
        change (SHARE_VERSION ++ lit ".") with (lit "v1.") in E1. congruence.
      - change (SHARE_VERSION ++ lit ".") with (lit "v1."). rewrite Htoken.
        reflexivity. }
    unfold decodeDiagramToken. rewrite E. reflexivity.
  - intros Hinv Hne. split.
    + intros bs.
      destruct (raw_token_decodes P bs Hinv Hne) as (token & _ & Hv & Hd).
      exists token. split; assumption.
    + destruct (raw_token_decodes P [xff] Hinv Hne) as (token & _ & Hv & Hd).
      exists token. split; [exact Hv | exact Hd].
Qed.

(** The theorem at the tokens [v1.z.AAAA] and [not-a-token], and under
    the example backend, where [eP8] is the raw token of the byte
    0xFF. *)
Lemma unknown_format_rejected_witness :
  decodeDiagramToken (example_platform true) (lit "v1.z.AAAA")
  = throw (Error "Unsupported share link format version.")
  /\ decodeDiagramToken (example_platform true) (lit "not-a-token")
     = (compressed <- base64UrlToBytes (lit "not-a-token") ;;
        decompressed <- decompressBytes (example_platform true) compressed ;;
        ret (TextDecoder_decode decompressed))
  /\ exists token,
       starts_with (lit "v1.") token = false
       /\ decodeDiagramToken (example_platform true) token = ret [0xFFFD].
Proof.
  split; [|split].
  - apply (proj1 (unknown_format_rejected (example_platform true))
             (lit "z.AAAA")). reflexivity.
  - apply (proj1 (proj2 (unknown_format_rejected (example_platform true)))
             (lit "not-a-token")). reflexivity.
  - apply (proj2 (proj2 (unknown_format_rejected (example_platform true)))
             (example_self_inverse true) (example_never_empty true)).
Defined.

(** C6 as stated fails: a raw payload can come back as text that is not
    the text of its bytes, with no error.  Under the example backend the
    token [eP8] holds the byte 0xFF, which is no UTF-8; it decodes to
    U+FFFD, whose UTF-8 bytes are EF BF BD. *)
Lemma raw_payload_replaced_silently :
  ~ (forall (P : Platform) (token text : jsstring),
       self_inverse P -> never_empty P ->
       starts_with (lit "v1.") token = false ->
       decodeDiagramToken P token = ret text ->
       exists compressed decompressed,
         base64UrlToBytes token = ret compressed
         /\ decompressBytes P compressed = ret decompressed
         /\ TextEncoder_encode text = decompressed).
Proof.
  intros H.
  destruct (H (example_platform true) (lit "eP8") [0xFFFD]
              (example_self_inverse true) (example_never_empty true)
              eq_refl eq_refl)
    as (compressed & decompressed & Hb & Hd & He).
  vm_compute in Hb. injection Hb as <-.
  vm_compute in Hd. injection Hd as <-.
  vm_compute in He. discriminate He.
Qed.

(** X4: the prefix is optional.  A payload of base64url characters alone,
    as the links without a version had it, decodes to what the token
    [v1.d.] followed by the payload decodes to: the same text or the same
    error. *)
Theorem bare_payload_decodes (P : Platform) (payload : jsstring) :
  forallb is_base64url_char payload = true ->
  decodeDiagramToken P payload = decodeDiagramToken P (SHARE_PREFIX ++ payload).
Proof.
  intros H. unfold decodeDiagramToken. rewrite getPayload_prefixed.
  unfold getPayloadFromToken.
  pose proof (base64url_no_version payload H) as Hv.
  assert (Hp : starts_with SHARE_PREFIX payload = false).
  { destruct (starts_with SHARE_PREFIX payload) eqn:E; [|reflexivity].
    apply starts_with_prefix_version in E. congruence. }
  rewrite Hp, Hv. reflexivity.
Qed.

Lemma bare_payload_decodes_witness :
  decodeDiagramToken (example_platform true) (lit "eAECAw")
  = decodeDiagramToken (example_platform true) (lit "v1.d.eAECAw").
Proof.
  apply (bare_payload_decodes (example_platform true) (lit "eAECAw")).
  reflexivity.
Defined.

(** X5: the empty payload.  [decodeDiagramToken] throws "Share link
    payload is empty." for the empty token and for the bare prefix
    [v1.d.], and for no other token. *)
Theorem empty_payload_error (P : Platform) (token : jsstring) :
  decodeDiagramToken P token = throw (Error "Share link payload is empty.")
  <-> token = [] \/ token = SHARE_PREFIX.
Proof.
  split.
  - unfold decodeDiagramToken, getPayloadFromToken.
    destruct (starts_with SHARE_PREFIX token) eqn:Ep.
    + cbn [bind ret]. apply starts_with_app in Ep.
      destruct (skipn (length SHARE_PREFIX) token) as [|c payload] eqn:Es.
      * intros _. right. rewrite Ep. apply app_nil_r.
      * unfold base64UrlToBytes, atob.
        destruct (forgiving_base64_decode _); cbn [bind ret throw];
          [|discriminate].
        unfold decompressBytes.
        destruct (if supportsCompressionStream P then _ else _);
          cbn [bind ret throw]; discriminate.
    + destruct (starts_with (SHARE_VERSION ++ lit ".") token);
        cbn [bind ret throw]; [discriminate|].
      destruct token as [|c payload]; [intros _; left; reflexivity|].
      unfold base64UrlToBytes, atob.
      destruct (forgiving_base64_decode _); cbn [bind ret throw];
        [|discriminate].
      unfold decompressBytes.
      destruct (if supportsCompressionStream P then _ else _);
        cbn [bind ret throw]; discriminate.
  - intros [-> | ->]; reflexivity.
Qed.

(** ** The URL functions on records *)

Lemma write_spec (st : store) (url : ref) (token : jsstring) :
  let '(nextUrl, st') := writeDiagramTokenToUrl url token st in
  nextUrl = next_ref st
  /\ next_ref st' = S (next_ref st)
  /\ objects st' nextUrl = written token (objects st url)
  /\ forall v, v <> nextUrl -> objects st' v = objects st v.
Proof.
  unfold writeDiagramTokenToUrl, toString, new_URL, get_hash, set_hash,
    searchParams_delete, read_record, write_record, m_bind, m_ret.
  cbn [objects next_ref fst snd]. rewrite !Nat.eqb_refl.
  cbn [before_query query fragment]. repeat split.
  intros v Hv. apply Nat.eqb_neq in Hv. rewrite Hv. reflexivity.
Qed.

Lemma clear_spec (st : store) (url : ref) :
  let '(nextUrl, st') := clearDiagramTokenFromUrl url st in
  nextUrl = next_ref st
  /\ next_ref st' = S (next_ref st)
  /\ objects st' nextUrl = cleared (objects st url)
  /\ forall v, v <> nextUrl -> objects st' v = objects st v.
Proof.
  unfold clearDiagramTokenFromUrl, toString, new_URL, get_hash, set_hash,
    searchParams_delete, read_record, write_record, m_bind, m_ret.
  cbn [objects next_ref fst snd]. rewrite !Nat.eqb_refl.
  cbn [before_query query fragment]. repeat split.
  intros v Hv. apply Nat.eqb_neq in Hv. rewrite Hv. reflexivity.
Qed.

Lemma read_spec (st : store) (url : ref) :
  fst (readDiagramTokenFromUrl url st)
  = match params_get SHARE_PARAM (hashParams_of (objects st url)) with
    | Some token => Some token
    | None => params_get SHARE_PARAM (searchParams_of (objects st url))
    end.
Proof.
  unfold readDiagramTokenFromUrl, get_hash, searchParams_get, read_record,
    m_bind, m_ret, hashParams_of.
  destruct (params_get SHARE_PARAM _); reflexivity.
Qed.

Lemma hashParams_wellformed (r : url_record) :
  valid_record r -> Forall wellformed_tuple (hashParams_of r).
Proof.
  intros [Hf _]. apply URLSearchParams_wellformed.
  unfold hash_of. destruct (fragment r) as [[|c f]|] eqn:E.
  - constructor.
  - change (hash_without_mark (HASH :: c :: f)) with (c :: f).
    apply (Hf _ eq_refl).
  - constructor.
Qed.

Lemma searchParams_wellformed (r : url_record) :
  valid_record r -> Forall wellformed_tuple (searchParams_of r).
Proof.
  intros [_ Hq]. unfold searchParams_of.
  destruct (query r) as [q|] eqn:E; [|constructor].
  apply urlencoded_parse_wellformed.
  apply utf8_bytes_values. apply (Hq _ eq_refl).
Qed.

(** The fragment set from a list of parameters reads as that list. *)
Lemma hashParams_set (b : jsstring) (q : option jsstring) (ts : list tuple) :
  Forall wellformed_tuple ts ->
  hashParams_of {| before_query := b; query := q;
                   fragment := fragment_of_hash (urlencoded_serialize ts) |}
  = ts.
Proof.
  intros Hts. destruct ts as [|t ts']; [reflexivity|].
  set (ts := t :: ts') in *.
  destruct (hash_params_roundtrip ts) as (c & s & Hfrag & Hread).
  - discriminate.
  - apply wellformed_units. exact Hts.
  - unfold hashParams_of, hash_of. cbn [fragment]. rewrite Hfrag, Hread.
    apply usv_tuples. exact Hts.
Qed.

(** The query set from a list of parameters reads as that list. *)
Lemma searchParams_set (b : jsstring) (f : option jsstring) (ts : list tuple) :
  Forall wellformed_tuple ts ->
  searchParams_of {| before_query := b; query := query_of_params ts;
                     fragment := f |} = ts.
Proof.
  intros Hts. unfold searchParams_of, query_of_params. cbn [query].
  pose proof (parse_serialize ts (wellformed_units ts Hts)) as Hp.
  destruct (urlencoded_serialize ts) as [|c s] eqn:E.
  - destruct ts as [|t ts']; [reflexivity|].
    exfalso. apply (serialize_nonempty (t :: ts')); [discriminate | exact E].
  - rewrite Hp. apply usv_tuples. exact Hts.
Qed.

Lemma param_wellformed : isWellFormed SHARE_PARAM = true.
Proof. reflexivity. Qed.

Lemma hashParams_of_fragment (r r' : url_record) :
  fragment r = fragment r' -> hashParams_of r = hashParams_of r'.
Proof. unfold hashParams_of, hash_of. intros ->. reflexivity. Qed.

(** The record written: the path as it was, the query without the
    parameter, the fragment with it. *)
Lemma written_eq (token : jsstring) (r : url_record) :
  written token r
  = {| before_query := before_query r;
       query := query_of_params
                  (params_delete SHARE_PARAM (searchParams_of r));
       fragment := fragment_of_hash
                     (urlencoded_serialize
                        (params_set SHARE_PARAM token (hashParams_of r))) |}.
Proof.
  unfold written.
  pose proof (serialize_nonempty _ (params_set_nonempty SHARE_PARAM token
                                      (hashParams_of r))) as Hne.
  rewrite (with_hash_nonempty _ r Hne).
  rewrite without_param_kept; [reflexivity|].
  cbn [fragment].
  destruct (urlencoded_serialize
              (params_set SHARE_PARAM token (hashParams_of r)));
    [contradiction | discriminate].
Qed.

(** The record cleared: the query and the fragment without the
    parameter, and the path stripped when both have become null. *)
Lemma cleared_eq (r : url_record) :
  cleared r
  = strip_opaque_path
      {| before_query := before_query r;
         query := query_of_params
                    (params_delete SHARE_PARAM (searchParams_of r));
         fragment := fragment_of_hash
                       (urlencoded_serialize
                          (params_delete SHARE_PARAM (hashParams_of r))) |}.
Proof.
  unfold cleared.
  destruct (urlencoded_serialize
              (params_delete SHARE_PARAM (hashParams_of r))) as [|c v] eqn:Ev.
  - unfold with_hash. cbn [fragment_of_hash].
    destruct r as [b [q|] f].
    + rewrite strip_opaque_path_kept by (right; discriminate).
      unfold without_param. cbn [before_query query fragment].
      change (searchParams_of {| before_query := b; query := Some q;
                                 fragment := None |})
        with (searchParams_of {| before_query := b; query := Some q;
                                 fragment := f |}).
      destruct (query_of_params _) eqn:E; [|reflexivity].
      symmetry. apply strip_opaque_path_kept. right. discriminate.
    + cbn [before_query query fragment].
      change (searchParams_of {| before_query := b; query := None;
                                 fragment := f |}) with (@nil tuple).
      change (query_of_params (params_delete SHARE_PARAM []))
        with (@None jsstring).
      set (r0 := {| before_query := b; query := None; fragment := None |}).
      assert (Hstrip : strip_opaque_path (strip_opaque_path r0)
                       = strip_opaque_path r0).
      { unfold strip_opaque_path at 2 3.
        destruct (has_opaque_path r0) eqn:Eo.
        - cbn [fragment query before_query r0].
          apply strip_opaque_path_stripped.
        - unfold strip_opaque_path. rewrite Eo. reflexivity. }
      assert (Hw : forall r1, query r1 = None -> fragment r1 = None ->
                     without_param SHARE_PARAM r1 = strip_opaque_path r1).
      { intros [b1 q1 f1]. cbn [query fragment]. intros -> ->. reflexivity. }
      rewrite Hw; [exact Hstrip | |];
        [rewrite (proj1 (strip_opaque_path_parts r0))
        | rewrite (proj2 (strip_opaque_path_parts r0))]; reflexivity.
  - rewrite with_hash_nonempty by discriminate.
    rewrite without_param_kept
      by (cbn [fragment fragment_of_hash]; discriminate).
    cbn [before_query query fragment].
    symmetry. apply strip_opaque_path_kept. left.
    cbn [fragment fragment_of_hash]. discriminate.
Qed.

Lemma written_parts (token : jsstring) (r : url_record) :
  query (written token r)
  = query_of_params (params_delete SHARE_PARAM (searchParams_of r))
  /\ fragment (written token r)
     = fragment_of_hash
         (urlencoded_serialize
            (params_set SHARE_PARAM token (hashParams_of r))).
Proof. rewrite written_eq. split; reflexivity. Qed.

Lemma cleared_parts (r : url_record) :
  query (cleared r)
  = query_of_params (params_delete SHARE_PARAM (searchParams_of r))
  /\ fragment (cleared r)
     = fragment_of_hash
         (urlencoded_serialize (params_delete SHARE_PARAM (hashParams_of r))).
Proof. rewrite cleared_eq. apply strip_opaque_path_parts. Qed.

Lemma written_params (token : jsstring) (r : url_record) :
  valid_record r -> isWellFormed token = true ->
  hashParams_of (written token r)
  = params_set SHARE_PARAM token (hashParams_of r)
  /\ searchParams_of (written token r)
     = params_delete SHARE_PARAM (searchParams_of r).
Proof.
  intros Hr Ht. destruct (written_parts token r) as [Hq Hf].
  set (w := {| before_query := before_query r;
               query := query_of_params
                          (params_delete SHARE_PARAM (searchParams_of r));
               fragment := fragment_of_hash
                             (urlencoded_serialize
                                (params_set SHARE_PARAM token
                                   (hashParams_of r))) |}).
  rewrite (hashParams_of_fragment (written token r) w Hf).
  rewrite (searchParams_of_query (written token r) w Hq).
  split.
  - apply hashParams_set. apply params_set_wellformed.
    + apply param_wellformed.
    + exact Ht.
    + apply hashParams_wellformed. exact Hr.
  - apply searchParams_set. apply params_delete_wellformed.
    apply searchParams_wellformed. exact Hr.
Qed.

Lemma cleared_params (r : url_record) :
  valid_record r ->
  hashParams_of (cleared r) = params_delete SHARE_PARAM (hashParams_of r)
  /\ searchParams_of (cleared r)
     = params_delete SHARE_PARAM (searchParams_of r).
Proof.
  intros Hr. destruct (cleared_parts r) as [Hq Hf].
  set (c := {| before_query := before_query r;
               query := query_of_params
                          (params_delete SHARE_PARAM (searchParams_of r));
               fragment := fragment_of_hash
                             (urlencoded_serialize
                                (params_delete SHARE_PARAM
                                   (hashParams_of r))) |}).
  rewrite (hashParams_of_fragment (cleared r) c Hf).
  rewrite (searchParams_of_query (cleared r) c Hq).
  split.
  - apply hashParams_set. apply params_delete_wellformed.
    apply hashParams_wellformed. exact Hr.
  - apply searchParams_set. apply params_delete_wellformed.
    apply searchParams_wellformed. exact Hr.
Qed.

Lemma fragment_of_serialized (ts : list tuple) :
  Forall wellformed_tuple ts ->
  forall f, fragment_of_hash (urlencoded_serialize ts) = Some f ->
            code_units f.
Proof.
  intros Hts f Hf. destruct ts as [|t ts']; [discriminate Hf|].
  destruct (hash_params_roundtrip (t :: ts')) as (c & s & Hfrag & _).
  - discriminate.
  - apply wellformed_units. exact Hts.
  - pose proof (serialize_plain (t :: ts') (wellformed_units _ Hts)) as Hp.
    destruct (urlencoded_serialize (t :: ts')) as [|c' s'] eqn:E;
      [discriminate Hf|].
    cbn [fragment_of_hash] in Hf.
    assert (Hc : c' <> HASH).
    { inversion_clear Hp as [|? ? Hc _]. apply plain_char_spec in Hc. tauto. }
    apply Z.eqb_neq in Hc. rewrite Hc in Hf.
    rewrite fragment_state_plain in Hf by assumption.
    injection Hf as <-. apply ascii_code_units. apply all_plain_ascii.
    exact Hp.
Qed.

Lemma query_of_serialized (ts : list tuple) :
  Forall wellformed_tuple ts ->
  forall q, query_of_params ts = Some q -> code_units q.
Proof.
  intros Hts q Hq. unfold query_of_params in Hq.
  pose proof (serialize_plain ts (wellformed_units _ Hts)) as Hp.
  destruct (urlencoded_serialize ts) as [|c s]; [discriminate|].
  injection Hq as <-. apply ascii_code_units. apply all_plain_ascii. exact Hp.
Qed.

Lemma written_valid (token : jsstring) (r : url_record) :
  valid_record r -> isWellFormed token = true ->
  valid_record (written token r).
Proof.
  intros Hr Ht. destruct (written_parts token r) as [Hq Hf].
  split; [rewrite Hf | rewrite Hq].
  - apply fragment_of_serialized. apply params_set_wellformed.
    + apply param_wellformed.
    + exact Ht.
    + apply hashParams_wellformed. exact Hr.
  - apply query_of_serialized. apply params_delete_wellformed.
    apply searchParams_wellformed. exact Hr.
Qed.

Lemma cleared_valid (r : url_record) :
  valid_record r -> valid_record (cleared r).
Proof.
  intros Hr. destruct (cleared_parts r) as [Hq Hf].
  split; [rewrite Hf | rewrite Hq].
  - apply fragment_of_serialized. apply params_delete_wellformed.
    apply hashParams_wellformed. exact Hr.
  - apply query_of_serialized. apply params_delete_wellformed.
    apply searchParams_wellformed. exact Hr.
Qed.

Lemma cleared_before (r : url_record) :
  before_query (cleared r)
  = if has_opaque_path r then
      match fragment (cleared r), query (cleared r) with
      | None, None => strip_trailing_spaces (before_query r)
      | _, _ => before_query r
      end
    else before_query r.
Proof.
  destruct (cleared_parts r) as [Hq Hf]. rewrite Hq, Hf.
  rewrite cleared_eq. unfold strip_opaque_path, has_opaque_path.
  cbn [before_query query fragment].
  destruct (after_scheme (before_query r)) as [|c rest].
  - destruct (fragment_of_hash _), (query_of_params _); reflexivity.
  - destruct (negb (c =? SLASH));
      [destruct (fragment_of_hash _), (query_of_params _)|]; reflexivity.
Qed.

Lemma written_before (token : jsstring) (r : url_record) :
  before_query (written token r) = before_query r.
Proof. rewrite written_eq. reflexivity. Qed.

Lemma example_record_valid : valid_record example_record.
Proof.
  split; intros s E; injection E as <-; apply code_units_check; reflexivity.
Qed.

(** X6: clearing.  The URL [clearDiagramTokenFromUrl] returns has no
    token: [readDiagramTokenFromUrl] gives null on it, whether the token
    was in the fragment, in the query or in both.  The URL object passed
    in is as it was and the returned object is another one. *)
Theorem clear_removes_token (st : store) (url : ref) :
  (url < next_ref st)%nat ->
  valid_record (objects st url) ->
  let '(nextUrl, st') := clearDiagramTokenFromUrl url st in
  fst (readDiagramTokenFromUrl nextUrl st') = None
  /\ objects st' url = objects st url
  /\ nextUrl <> url.
Proof.
  intros Hlive Hvalid. pose proof (clear_spec st url) as Hs.
  destruct (clearDiagramTokenFromUrl url st) as [nextUrl st'].
  destruct Hs as (Hn & _ & Hobj & Hother). split; [|split].
  - rewrite read_spec, Hobj.
    destruct (cleared_params _ Hvalid) as [Hh Hq]. rewrite Hh, Hq.
    rewrite !params_get_delete. reflexivity.
  - apply Hother. lia.
  - lia.
Qed.

Lemma clear_removes_token_witness :
  let '(nextUrl, st') := clearDiagramTokenFromUrl 0%nat example_store in
  fst (readDiagramTokenFromUrl nextUrl st') = None
  /\ objects st' 0%nat = objects example_store 0%nat
  /\ nextUrl <> 0%nat.
Proof.
  apply (clear_removes_token example_store 0%nat).
  - cbn. lia.
  - apply example_record_valid.
Defined.

(** X7: the other parameters.  [writeDiagramTokenToUrl] and
    [clearDiagramTokenFromUrl] touch the [diagram] parameter only: in the
    URL they return, every other name has, in the fragment and in the
    query, the value it had in the URL they were given.  What comes
    before the query (scheme, host, path) is the same after a write.
    After a clear it is the same too, but for one case: a URL with an
    opaque path that is left with neither query nor fragment loses the
    U+0020 at the end of its path. *)
Theorem other_parameters_kept (st : store) (url : ref) (token name : jsstring) :
  valid_record (objects st url) ->
  isWellFormed token = true ->
  name <> SHARE_PARAM ->
  let r := objects st url in
  let '(written_url, st1) := writeDiagramTokenToUrl url token st in
  let '(cleared_url, st2) := clearDiagramTokenFromUrl url st in
  let w := objects st1 written_url in
  let c := objects st2 cleared_url in
  params_get name (hashParams_of w) = params_get name (hashParams_of r)
  /\ params_get name (searchParams_of w) = params_get name (searchParams_of r)
  /\ before_query w = before_query r
  /\ params_get name (hashParams_of c) = params_get name (hashParams_of r)
  /\ params_get name (searchParams_of c) = params_get name (searchParams_of r)
  /\ before_query c
     = if has_opaque_path r then
         match fragment c, query c with
         | None, None => strip_trailing_spaces (before_query r)
         | _, _ => before_query r
         end
       else before_query r.
Proof.
  intros Hvalid Ht Hname r.
  pose proof (write_spec st url token) as Hw.
  pose proof (clear_spec st url) as Hc.
  destruct (writeDiagramTokenToUrl url token st) as [written_url st1].
  destruct (clearDiagramTokenFromUrl url st) as [cleared_url st2].
  destruct Hw as (_ & _ & Hw & _). destruct Hc as (_ & _ & Hc & _).
  cbv zeta. rewrite Hw, Hc. fold r.
  destruct (written_params token r Hvalid Ht) as [Hwh Hwq].
  destruct (cleared_params r Hvalid) as [Hch Hcq].
  rewrite Hwh, Hwq, Hch, Hcq.
  rewrite params_get_set_other by assumption.
  rewrite !params_get_delete_other by assumption.
  rewrite written_before.
  split; [|split; [|split; [|split; [|split]]]]; try reflexivity.
  apply cleared_before.
Qed.

(** The theorem at the parameter [tab] of the fragment. *)
Lemma other_parameters_kept_witness :
  let r := objects example_store 0%nat in
  let '(written_url, st1) :=
    writeDiagramTokenToUrl 0%nat example_token example_store in
  let '(cleared_url, st2) := clearDiagramTokenFromUrl 0%nat example_store in
  let w := objects st1 written_url in
  let c := objects st2 cleared_url in
  params_get (lit "tab") (hashParams_of w)
  = params_get (lit "tab") (hashParams_of r)
  /\ params_get (lit "tab") (searchParams_of w)
     = params_get (lit "tab") (searchParams_of r)
  /\ before_query w = before_query r
  /\ params_get (lit "tab") (hashParams_of c)
     = params_get (lit "tab") (hashParams_of r)
  /\ params_get (lit "tab") (searchParams_of c)
     = params_get (lit "tab") (searchParams_of r)
  /\ before_query c
     = if has_opaque_path r then
         match fragment c, query c with
         | None, None => strip_trailing_spaces (before_query r)
         | _, _ => before_query r
         end
       else before_query r.
Proof.
  apply (other_parameters_kept example_store 0%nat example_token (lit "tab")).
  - apply example_record_valid.
  - reflexivity.
  - discriminate.
Defined.

(** The one case: clearing [data:text/plain,hello #diagram=x], whose path
    is opaque and ends in a space, gives [data:text/plain,hello]. *)
Remark cleared_opaque_path :
  cleared opaque_record
  = {| before_query := lit "data:text/plain,hello";
       query := None;
       fragment := None |}.
Proof. reflexivity. Qed.

(** X8: writing and clearing again.  Writing a token to a URL that
    [writeDiagramTokenToUrl] returned gives the URL that writing it to
    the first URL gives, so the last token written is the one that
    stays and writing the same token twice changes nothing; clearing a
    written URL gives the URL that clearing the first URL gives. *)
Theorem write_then_write_or_clear (st : store) (url : ref)
  (token1 token2 : jsstring) :
  valid_record (objects st url) ->
  isWellFormed token1 = true -> isWellFormed token2 = true ->
  let '(url1, st1) := writeDiagramTokenToUrl url token1 st in
  let '(url2, st2) := writeDiagramTokenToUrl url1 token2 st1 in
  let '(url3, st3) := clearDiagramTokenFromUrl url1 st1 in
  let '(url4, st4) := writeDiagramTokenToUrl url token2 st in
  let '(url5, st5) := clearDiagramTokenFromUrl url st in
  objects st2 url2 = objects st4 url4
  /\ objects st3 url3 = objects st5 url5.
Proof.
  intros Hvalid H1 H2.
  pose proof (write_spec st url token1) as Hw1.
  destruct (writeDiagramTokenToUrl url token1 st) as [url1 st1].
  destruct Hw1 as (_ & _ & Hobj1 & _).
  pose proof (write_spec st1 url1 token2) as Hw2.
  destruct (writeDiagramTokenToUrl url1 token2 st1) as [url2 st2].
  destruct Hw2 as (_ & _ & Hobj2 & _).
  pose proof (clear_spec st1 url1) as Hc.
  destruct (clearDiagramTokenFromUrl url1 st1) as [url3 st3].
  destruct Hc as (_ & _ & Hobj3 & _).
  pose proof (write_spec st url token2) as Hw4.
  destruct (writeDiagramTokenToUrl url token2 st) as [url4 st4].
  destruct Hw4 as (_ & _ & Hobj4 & _).
  pose proof (clear_spec st url) as Hc5.
  destruct (clearDiagramTokenFromUrl url st) as [url5 st5].
  destruct Hc5 as (_ & _ & Hobj5 & _).
  rewrite Hobj2, Hobj3, Hobj4, Hobj5, Hobj1. set (r := objects st url) in *.
  destruct (written_params token1 r Hvalid H1) as [Hh Hq].
  split.
  - rewrite (written_eq token2 (written token1 r)), Hh, Hq.
    rewrite written_before, (written_eq token2 r).
    rewrite params_set_twice, params_delete_twice. reflexivity.
  - rewrite (cleared_eq (written token1 r)), Hh, Hq.
    rewrite written_before, (cleared_eq r).
    rewrite params_delete_set, params_delete_twice. reflexivity.
Qed.

Lemma write_then_write_or_clear_witness :
  let '(url1, st1) :=
    writeDiagramTokenToUrl 0%nat (lit "v1.d.eAECAw") example_store in
  let '(url2, st2) := writeDiagramTokenToUrl url1 example_token st1 in
  let '(url3, st3) := clearDiagramTokenFromUrl url1 st1 in
  let '(url4, st4) := writeDiagramTokenToUrl 0%nat example_token example_store in
  let '(url5, st5) := clearDiagramTokenFromUrl 0%nat example_store in
  objects st2 url2 = objects st4 url4
  /\ objects st3 url3 = objects st5 url5.
Proof.
  apply (write_then_write_or_clear example_store 0%nat
           (lit "v1.d.eAECAw") example_token).
  - apply example_record_valid.
  - reflexivity.
  - reflexivity.
Defined.

End ShareLinkFacts.

(* ================================================================== *)
(** * Facts on binary64: the rounding of the four operations            *)
(* ================================================================== *)

Module Binary64Facts.
Import SpecFloat Binary64.
Import Lqa.
Local Open Scope Z_scope.

(** ** The rounding of a mantissa *)

Lemma fexp_eq (k : Z) : fexp 53 1024 k = fexp64 k.
Proof. reflexivity. Qed.

Lemma digits2_size (p : positive) : digits2_pos p = Pos.size p.
Proof. induction p as [p IH|p IH|]; cbn; rewrite ?IH; reflexivity. Qed.

Lemma digits_pos (p : positive) :
  2 ^ (Zpos (digits2_pos p) - 1) <= Zpos p < 2 ^ Zpos (digits2_pos p).
Proof.
  rewrite digits2_size. split.
  - pose proof (Pos.size_le p) as H.
    assert (H' : 2 ^ Zpos (Pos.size p) <= 2 * Zpos p).
    { change (2 * Zpos p) with (Zpos p~0). rewrite <- Pos2Z.inj_pow.
      apply Pos2Z.pos_le_pos. exact H. }
    replace (Zpos (Pos.size p)) with (1 + (Zpos (Pos.size p) - 1)) in H' by lia.
    rewrite Z.pow_add_r in H' by lia. change (2 ^ 1) with 2 in H'. lia.
  - pose proof (Pos.size_gt p) as H. rewrite <- Pos2Z.inj_pow.
    apply Pos2Z.pos_lt_pos. exact H.
Qed.

Lemma Zdigits2_nonneg (m : Z) : 0 <= Zdigits2 m.
Proof. destruct m; cbn; lia. Qed.

Lemma Zdigits2_spec (m : Z) :
  0 < m -> 2 ^ (Zdigits2 m - 1) <= m < 2 ^ Zdigits2 m.
Proof. destruct m as [|p|p]; try lia. intros _. apply digits_pos. Qed.

Lemma Zdigits2_le (m k : Z) : 0 <= k -> 0 <= m < 2 ^ k -> Zdigits2 m <= k.
Proof.
  intros Hk [H0 Hm]. destruct (Z.eq_dec m 0) as [->|Hne]; [cbn; lia|].
  pose proof (Zdigits2_spec m ltac:(lia)) as [Hlo _].
  destruct (Z_le_gt_dec (Zdigits2 m) k) as [|Hgt]; [assumption|].
  assert (2 ^ k <= 2 ^ (Zdigits2 m - 1)) by (apply Z.pow_le_mono_r; lia).
  lia.
Qed.

Lemma shr_1_m (mrs : shr_record) :
  0 <= shr_m mrs -> shr_m (shr_1 mrs) = shr_m mrs / 2.
Proof.
  destruct mrs as [m r s]. cbn [shr_m]. intros Hm.
  destruct m as [|[p|p|]|p]; cbn [shr_1 shr_m]; try lia.
  - reflexivity.
  - assert (H : Zpos p~1 = 2 * Zpos p + 1) by lia.
    Z.to_euclidean_division_equations. lia.
  - assert (H : Zpos p~0 = 2 * Zpos p) by lia.
    Z.to_euclidean_division_equations. lia.
  - reflexivity.
Qed.

Lemma pow2_xO (p : positive) : 2 ^ Zpos p~0 = 2 ^ Zpos p * 2 ^ Zpos p.
Proof.
  replace (Zpos p~0) with (Zpos p + Zpos p) by lia.
  apply Z.pow_add_r; lia.
Qed.

Lemma pow2_xI (p : positive) : 2 ^ Zpos p~1 = 2 * (2 ^ Zpos p * 2 ^ Zpos p).
Proof.
  replace (Zpos p~1) with (Z.succ (Zpos p + Zpos p)) by lia.
  rewrite Z.pow_succ_r by lia. rewrite Z.pow_add_r by lia. reflexivity.
Qed.

Lemma iter_shr_1_m (p : positive) (mrs : shr_record) :
  0 <= shr_m mrs ->
  shr_m (iter_pos shr_1 p mrs) = shr_m mrs / 2 ^ Zpos p.
Proof.
  revert mrs. induction p as [p IH|p IH|]; intros mrs Hm; cbn [iter_pos].
  - assert (Hp : 0 < 2 ^ Zpos p) by (apply Z.pow_pos_nonneg; lia).
    assert (H1 : 0 <= shr_m (shr_1 mrs)).
    { rewrite shr_1_m by assumption. apply Z.div_pos; lia. }
    assert (H2 : 0 <= shr_m (iter_pos shr_1 p (shr_1 mrs))).
    { rewrite IH by assumption. apply Z.div_pos; lia. }
    rewrite IH by assumption. rewrite IH by assumption.
    rewrite shr_1_m by assumption.
    rewrite !Z.div_div by lia. rewrite pow2_xI. f_equal; ring.
  - assert (Hp : 0 < 2 ^ Zpos p) by (apply Z.pow_pos_nonneg; lia).
    assert (H2 : 0 <= shr_m (iter_pos shr_1 p mrs)).
    { rewrite IH by assumption. apply Z.div_pos; lia. }
    rewrite IH by assumption. rewrite IH by assumption.
    rewrite !Z.div_div by lia. rewrite pow2_xO. reflexivity.
  - rewrite shr_1_m by assumption. reflexivity.
Qed.

Lemma shr_record_of_loc_m (m : Z) (l : location) :
  shr_m (shr_record_of_loc m l) = m.
Proof. destruct l as [|[| |]]; reflexivity. Qed.

(** [shr] on a non-negative mantissa divides it by the power of two. *)
Lemma shr_spec (mrs : shr_record) (e n : Z) :
  0 <= shr_m mrs ->
  shr_m (fst (shr mrs e n)) = shr_m mrs / 2 ^ Z.max 0 n
  /\ snd (shr mrs e n) = e + Z.max 0 n.
Proof.
  intros Hm. destruct n as [|p|p]; cbn [shr fst snd].
  - change (Z.max 0 0) with 0. rewrite Z.div_1_r. split; [reflexivity | lia].
  - replace (Z.max 0 (Zpos p)) with (Zpos p) by lia.
    split; [apply iter_shr_1_m; assumption | reflexivity].
  - replace (Z.max 0 (Zneg p)) with 0 by lia.
    rewrite Z.div_1_r. split; [reflexivity | lia].
Qed.

Lemma round_nearest_even_cases (m : Z) (l : location) :
  round_nearest_even m l = m \/ round_nearest_even m l = m + 1.
Proof.
  destruct l as [|[| |]]; cbn [round_nearest_even]; auto.
  destruct (Z.even m); auto.
Qed.

(** The mantissa and the exponent [binary_round_aux] ends with. *)
Lemma binary_round_aux_spec (s : bool) (m e : Z) (l : location) :
  0 <= m ->
  e <= fexp64 (Zdigits2 m + e) ->
  fexp64 (Zdigits2 m + e) <= 970 ->
  exists k,
    (k = m / 2 ^ (fexp64 (Zdigits2 m + e) - e)
     \/ k = m / 2 ^ (fexp64 (Zdigits2 m + e) - e) + 1)
    /\ ((k = 0 /\ binary_round_aux 53 1024 s m e l = S754_zero s)
        \/ exists m' e',
             binary_round_aux 53 1024 s m e l = S754_finite s m' e'
             /\ fexp64 (Zdigits2 m + e) <= e'
             /\ Zpos m' * 2 ^ (e' - fexp64 (Zdigits2 m + e)) = k).
Proof.
  intros Hm He Hmax.
  set (E := fexp64 (Zdigits2 m + e)) in *.
  set (q := m / 2 ^ (E - e)).
  assert (Hpow : 0 < 2 ^ (E - e)) by (apply Z.pow_pos_nonneg; lia).
  assert (Hq0 : 0 <= q) by (apply Z.div_pos; lia).
  assert (Hq : q < 2 ^ 53).
  { destruct (Z.eq_dec m 0) as [->|Hne].
    - unfold q. rewrite Z.div_0_l by lia. reflexivity.
    - pose proof (Zdigits2_spec m ltac:(lia)) as [_ Hhi].
      assert (Hd : Zdigits2 m <= 53 + (E - e)) by (unfold E, fexp64; lia).
      assert (H2 : 2 ^ Zdigits2 m <= 2 ^ (53 + (E - e)))
        by (apply Z.pow_le_mono_r; lia).
      rewrite Z.pow_add_r in H2 by lia.
      unfold q. apply Z.div_lt_upper_bound; lia. }
  assert (HE : -1074 <= E) by (unfold E, fexp64; lia).
  unfold binary_round_aux, shr_fexp.
  change (fexp 53 1024) with fexp64. fold E.
  pose proof (shr_spec (shr_record_of_loc m l) e (E - e)) as Hs1.
  rewrite shr_record_of_loc_m in Hs1. specialize (Hs1 Hm).
  replace (Z.max 0 (E - e)) with (E - e) in Hs1 by lia.
  destruct (shr (shr_record_of_loc m l) e (E - e)) as [mrs' e'].
  cbn [fst snd] in Hs1. destruct Hs1 as [Hm' He']. fold q in Hm'.
  replace e' with E by lia. clear e' He'.
  set (k := round_nearest_even (shr_m mrs') (loc_of_shr_record mrs')).
  assert (Hk : k = q \/ k = q + 1).
  { unfold k. rewrite <- Hm'. apply round_nearest_even_cases. }
  exists k. split; [exact Hk|].
  assert (Hk0 : 0 <= k <= 2 ^ 53) by lia.
  destruct (Z.eq_dec k (2 ^ 53)) as [E53|Hne].
  - right. rewrite E53.
    assert (Hn : fexp64 (Zdigits2 (2 ^ 53) + E) - E = 1)
      by (change (Zdigits2 (2 ^ 53)) with 54; unfold fexp64; lia).
    rewrite Hn. cbn [shr_record_of_loc shr iter_pos shr_1 shr_m].
    change (2 ^ 53) with (Zpos (2 ^ 53)%positive).
    cbn [Pos.pow Pos.iter Pos.mul shr_1 shr_m].
    replace (E + 1 <=? 1024 - 53) with true by (symmetry; apply Z.leb_le; lia).
    eexists _, _. split; [reflexivity|]. split; [lia|].
    replace (E + 1 - E) with 1 by lia. reflexivity.
  - assert (Hn : fexp64 (Zdigits2 k + E) - E <= 0).
    { assert (Zdigits2 k <= 53) by (apply Zdigits2_le; lia).
      unfold fexp64. lia. }
    assert (Hshr : shr (shr_record_of_loc k loc_Exact) E
                     (fexp64 (Zdigits2 k + E) - E)
                   = (shr_record_of_loc k loc_Exact, E)).
    { destruct (fexp64 (Zdigits2 k + E) - E) as [|p|p]; try reflexivity. lia. }
    rewrite Hshr. cbn [shr_record_of_loc shr_m].
    destruct k as [|p|p]; [left; split; reflexivity | | lia].
    right. replace (E <=? 1024 - 53) with true by (symmetry; apply Z.leb_le; lia).
    eexists _, _. split; [reflexivity|]. split; [lia|].
    rewrite Z.sub_diag. apply Z.mul_1_r.
Qed.

Local Open Scope Q_scope.

(** ** Rounding as an error bound *)

Lemma pow2_pos (e : Z) : 0 < pow2 e.
Proof. apply Qpower_0_lt. reflexivity. Qed.

Lemma pow2_add (a b : Z) : pow2 (a + b) == pow2 a * pow2 b.
Proof. apply Qpower_plus. discriminate. Qed.

Lemma pow2_le (a b : Z) : (a <= b)%Z -> pow2 a <= pow2 b.
Proof. intros H. apply Qpower_le_compat_l; [exact H | discriminate]. Qed.

Lemma pow2_lt_inv (a b : Z) : pow2 a < pow2 b -> (a < b)%Z.
Proof. intros H. eapply Qpower_lt_compat_l_inv; [exact H | reflexivity]. Qed.

Lemma pow2_Z (n : Z) : (0 <= n)%Z -> pow2 n == inject_Z (2 ^ n).
Proof. intros H. unfold pow2. rewrite Zpower_Qpower by exact H. reflexivity. Qed.

Lemma inject_Z_le (a b : Z) : (a <= b)%Z -> inject_Z a <= inject_Z b.
Proof. intros H. rewrite <- Zle_Qle. exact H. Qed.

(** A mantissa cut by [n] bits, scaled back, brackets the mantissa. *)
Lemma scaled_floor (m e E : Z) :
  (0 <= m)%Z -> (e <= E)%Z ->
  inject_Z (m / 2 ^ (E - e)) * pow2 E <= inject_Z m * pow2 e
  /\ inject_Z (m + 1) * pow2 e <= inject_Z (m / 2 ^ (E - e) + 1) * pow2 E.
Proof.
  intros Hm He.
  assert (Hp : (0 < 2 ^ (E - e))%Z) by (apply Z.pow_pos_nonneg; lia).
  set (q := (m / 2 ^ (E - e))%Z).
  assert (H1 : (q * 2 ^ (E - e) <= m)%Z).
  { unfold q. rewrite Z.mul_comm. apply Z.mul_div_le. exact Hp. }
  assert (H2 : (m + 1 <= (q + 1) * 2 ^ (E - e))%Z).
  { unfold q. pose proof (Z.mod_pos_bound m _ Hp).
    pose proof (Z.div_mod m (2 ^ (E - e)) ltac:(lia)). nia. }
  assert (HE : pow2 E == pow2 e * inject_Z (2 ^ (E - e))).
  { rewrite <- pow2_Z by lia. rewrite <- pow2_add. 
    replace (e + (E - e))%Z with E by lia. reflexivity. }
  pose proof (pow2_pos e) as Hpe.
  apply inject_Z_le in H1, H2. rewrite inject_Z_mult in H1, H2.
  rewrite HE. split.
  - setoid_replace (inject_Z q * (pow2 e * inject_Z (2 ^ (E - e))))
      with (inject_Z q * inject_Z (2 ^ (E - e)) * pow2 e) by ring.
    apply Qmult_le_compat_r; [exact H1 | apply Qlt_le_weak, Hpe].
  - setoid_replace (inject_Z (q + 1) * (pow2 e * inject_Z (2 ^ (E - e))))
      with (inject_Z (q + 1) * inject_Z (2 ^ (E - e)) * pow2 e) by ring.
    apply Qmult_le_compat_r; [exact H2 | apply Qlt_le_weak, Hpe].
Qed.

(** One unit in the last place is at most the relative bound or the
    least subnormal. *)
Lemma ulp_bound (m e : Z) (V : Q) :
  (0 <= m)%Z -> (e <= fexp64 (Zdigits2 m + e))%Z ->
  inject_Z m * pow2 e <= V ->
  pow2 (fexp64 (Zdigits2 m + e)) <= eps * V + eta.
Proof.
  intros Hm He HV.
  pose proof (pow2_pos (-1074)) as Heta. fold eta in Heta.
  pose proof (pow2_pos (-52)) as Heps. fold eps in Heps.
  pose proof (pow2_pos e) as Hpe.
  assert (HV0 : 0 <= V).
  { eapply Qle_trans; [|exact HV]. apply Qmult_le_0_compat.
    - change 0 with (inject_Z 0). apply inject_Z_le. exact Hm.
    - apply Qlt_le_weak. exact Hpe. }
  assert (HepsV : 0 <= eps * V).
  { apply Qmult_le_0_compat; [apply Qlt_le_weak; exact Heps | exact HV0]. }
  unfold fexp64 in *.
  destruct (Z.max_spec (Zdigits2 m + e - 53) (-1074)) as [[Hlt ->]|[Hle ->]].
  - fold eta. lra.
  - destruct (Z.eq_dec m 0) as [->|Hne].
    { cbn [Zdigits2] in *. lia. }
    pose proof (Zdigits2_spec m ltac:(lia)) as [Hlo _].
    assert (Hd : (1 <= Zdigits2 m)%Z) by (destruct m; cbn in *; lia).
    apply inject_Z_le in Hlo.
    assert (Hlo' : pow2 (Zdigits2 m - 1) <= inject_Z m)
      by (rewrite pow2_Z by lia; exact Hlo).
    clear Hlo. rename Hlo' into Hlo.
    replace (Zdigits2 m + e - 53)%Z with (-52 + ((Zdigits2 m - 1) + e))%Z by lia.
    rewrite !pow2_add. fold eps.
    assert (H : pow2 (Zdigits2 m - 1) * pow2 e <= V).
    { eapply Qle_trans; [|exact HV].
      apply Qmult_le_compat_r; [exact Hlo | apply Qlt_le_weak, Hpe]. }
    assert (H' : eps * (pow2 (Zdigits2 m - 1) * pow2 e) <= eps * V).
    { apply Qmult_le_l; assumption. }
    lra.
Qed.

(** No overflow below 2^1023. *)
Lemma no_overflow (m e : Z) (V : Q) :
  (0 <= m)%Z -> (e <= fexp64 (Zdigits2 m + e))%Z ->
  inject_Z m * pow2 e <= V -> V < pow2 1023 ->
  (fexp64 (Zdigits2 m + e) <= 970)%Z.
Proof.
  intros Hm He HV Hlt. unfold fexp64 in *.
  destruct (Z.eq_dec m 0) as [->|Hne]; [cbn [Zdigits2] in *; lia|].
  pose proof (Zdigits2_spec m ltac:(lia)) as [Hlo _].
  pose proof (pow2_pos e) as Hpe.
  assert (Hd : (1 <= Zdigits2 m)%Z) by (destruct m; cbn in *; lia).
  apply inject_Z_le in Hlo.
  assert (Hlo' : pow2 (Zdigits2 m - 1) <= inject_Z m)
    by (rewrite pow2_Z by lia; exact Hlo).
  clear Hlo. rename Hlo' into Hlo.
  assert (H : pow2 (Zdigits2 m - 1 + e) < pow2 1023).
  { rewrite pow2_add. eapply Qle_lt_trans; [|exact Hlt].
    eapply Qle_trans; [|exact HV].
    apply Qmult_le_compat_r; [exact Hlo | apply Qlt_le_weak, Hpe]. }
  apply pow2_lt_inv in H. lia.
Qed.

(** The rounding of [binary_round_aux], as an error bound: the result
    is finite and within one unit in the last place of any number the
    mantissa and its successor enclose. *)
Lemma round_model (s : bool) (m e : Z) (l : location) (V : Q) :
  (0 <= m)%Z -> (e <= fexp64 (Zdigits2 m + e))%Z ->
  inject_Z m * pow2 e <= V <= inject_Z (m + 1) * pow2 e ->
  V < pow2 1023 ->
  exists W,
    SF_finite (binary_round_aux 53 1024 s m e l) = true
    /\ SF2Q (binary_round_aux 53 1024 s m e l) == sign_factor s * W
    /\ V - (eps * V + eta) <= W <= V + (eps * V + eta).
Proof.
  intros Hm He [HV1 HV2] Hlt.
  pose proof (no_overflow m e V Hm He HV1 Hlt) as Hmax.
  pose proof (ulp_bound m e V Hm He HV1) as Hulp.
  pose proof (scaled_floor m e _ Hm He) as [Hq1 Hq2].
  destruct (binary_round_aux_spec s m e l Hm He Hmax) as (k & Hk & Hr).
  set (E := fexp64 (Zdigits2 m + e)) in *.
  set (q := (m / 2 ^ (E - e))%Z) in *.
  exists (inject_Z k * pow2 E).
  assert (Hbracket : inject_Z q * pow2 E <= inject_Z k * pow2 E
                     <= inject_Z (q + 1) * pow2 E).
  { pose proof (pow2_pos E) as HpE.
    split; apply Qmult_le_compat_r; try (apply Qlt_le_weak; exact HpE);
      apply inject_Z_le; lia. }
  assert (Hstep : inject_Z (q + 1) * pow2 E == inject_Z q * pow2 E + pow2 E).
  { rewrite inject_Z_plus. ring. }
  split; [|split].
  - destruct Hr as [[_ ->]|(m' & e' & -> & _)]; reflexivity.
  - destruct Hr as [[-> ->]|(m' & e' & -> & He' & Hm')].
    + cbn [SF2Q]. change (inject_Z 0) with 0. ring.
    + cbn [SF2Q]. rewrite <- Hm'. rewrite inject_Z_mult.
      rewrite <- pow2_Z by lia.
      replace e' with (e' - E + E)%Z at 1 by lia. rewrite pow2_add. ring.
  - lra.
Qed.

Lemma valid_finite (s : bool) (m : positive) (e : Z) :
  SF_valid (S754_finite s m e) ->
  (fexp64 (Zpos (digits2_pos m) + e) = e /\ e <= 971)%Z.
Proof.
  unfold SF_valid. cbn [valid_binary]. unfold bounded, canonical_mantissa.
  change (fexp 53 1024) with fexp64. intros H.
  apply andb_true_iff in H. destruct H as [H1 H2].
  apply Z.eqb_eq in H1. apply Z.leb_le in H2. split; [exact H1 | lia].
Qed.

Lemma Zdigits2_ge (m k : Z) : (0 <= k)%Z -> (2 ^ k <= m)%Z -> (k + 1 <= Zdigits2 m)%Z.
Proof.
  intros Hk Hm.
  assert (H0 : (0 < m)%Z).
  { pose proof (Z.pow_pos_nonneg 2 k ltac:(lia) Hk). lia. }
  pose proof (Zdigits2_spec m H0) as [_ Hhi].
  destruct (Z_lt_le_dec k (Zdigits2 m)) as [|Hge]; [lia|].
  assert (2 ^ Zdigits2 m <= 2 ^ k)%Z
    by (apply Z.pow_le_mono_r; [lia | exact Hge]).
  lia.
Qed.

Lemma sign_factor_xorb (a b : bool) :
  sign_factor (xorb a b) == sign_factor a * sign_factor b.
Proof. destruct a, b; reflexivity. Qed.

Lemma sign_factor_abs (s : bool) (W : Q) : 0 <= W -> Qabs (sign_factor s * W) == W.
Proof.
  intros H. destruct s; unfold sign_factor.
  - setoid_replace (-1 * W) with (- W) by ring. rewrite Qabs_opp.
    apply Qabs_pos. exact H.
  - rewrite Qmult_1_l. apply Qabs_pos. exact H.
Qed.

(** From the rounding of a magnitude to the rounding of the signed
    number. *)
Lemma rounds_to_signed (s : bool) (v V W : Q) :
  0 <= V -> v == sign_factor s * W ->
  V - (eps * V + eta) <= W <= V + (eps * V + eta) ->
  rounds_to v (sign_factor s * V).
Proof.
  intros HV Hv HW. unfold rounds_to.
  rewrite sign_factor_abs by exact HV. rewrite Hv.
  setoid_replace (sign_factor s * W - sign_factor s * V)
    with (sign_factor s * (W - V)) by ring.
  rewrite Qabs_Qmult.
  assert (Hs : Qabs (sign_factor s) == 1) by (destruct s; reflexivity).
  rewrite Hs, Qmult_1_l. apply Qabs_Qle_condition. split; lra.
Qed.

Lemma rounds_to_exact (v exact : Q) : v == exact -> rounds_to v exact.
Proof.
  intros H. unfold rounds_to. rewrite H.
  setoid_replace (exact - exact) with 0 by ring. cbn [Qabs Z.abs].
  pose proof (pow2_pos (-52)). pose proof (pow2_pos (-1074)).
  pose proof (Qabs_nonneg exact).
  assert (0 <= eps * Qabs exact)
    by (apply Qmult_le_0_compat; [apply Qlt_le_weak|]; assumption).
  unfold eta. change (Qabs 0) with 0. lra.
Qed.

Lemma rounds_to_eq (v v' exact exact' : Q) :
  v == v' -> exact == exact' -> rounds_to v exact -> rounds_to v' exact'.
Proof. unfold rounds_to. intros -> ->. tauto. Qed.

Lemma SF2Q_abs (s : bool) (m : positive) (e : Z) :
  SF2Q (S754_finite s m e) == sign_factor s * (inject_Z (Zpos m) * pow2 e)
  /\ 0 < inject_Z (Zpos m) * pow2 e.
Proof.
  split; [reflexivity|]. apply Qmult_lt_0_compat; [reflexivity | apply pow2_pos].
Qed.

(** ** Multiplication *)

Lemma SFmul_model (x y : spec_float) :
  SF_valid x -> SF_valid y -> SF_finite x = true -> SF_finite y = true ->
  Qabs (SF2Q x * SF2Q y) < pow2 1023 ->
  SF_finite (SFmul 53 1024 x y) = true
  /\ rounds_to (SF2Q (SFmul 53 1024 x y)) (SF2Q x * SF2Q y).
Proof.
  intros Vx Vy Fx Fy Hlt.
  destruct x as [sx|sx| |sx mx ex]; try discriminate Fx;
    destruct y as [sy|sy| |sy my ey]; try discriminate Fy;
    cbn [SFmul].
  1-3: split; [reflexivity | apply rounds_to_exact; cbn [SF2Q]; ring].
  destruct (valid_finite _ _ _ Vx) as [Hex Hex'].
  destruct (valid_finite _ _ _ Vy) as [Hey Hey'].
  set (V := inject_Z (Zpos mx) * pow2 ex * (inject_Z (Zpos my) * pow2 ey)).
  assert (HP : SF2Q (S754_finite sx mx ex) * SF2Q (S754_finite sy my ey)
               == sign_factor (xorb sx sy) * V).
  { cbn [SF2Q]. rewrite sign_factor_xorb. unfold V. ring. }
  assert (HV0 : 0 < V).
  { unfold V. apply Qmult_lt_0_compat; apply SF2Q_abs; exact true. }
  assert (HVeq : V == inject_Z (Zpos (mx * my)) * pow2 (ex + ey)).
  { unfold V. rewrite Pos2Z.inj_mul, inject_Z_mult, pow2_add. ring. }
  rewrite HP in Hlt. rewrite sign_factor_abs in Hlt by lra.
  assert (Hdig : (ex + ey <= fexp64 (Zdigits2 (Zpos (mx * my)) + (ex + ey)))%Z).
  { pose proof (digits_pos mx) as [Hx _]. pose proof (digits_pos my) as [Hy _].
    assert (Hd : (Zpos (digits2_pos mx) - 1 + (Zpos (digits2_pos my) - 1) + 1
                  <= Zdigits2 (Zpos (mx * my)))%Z).
    { apply Zdigits2_ge; [lia|]. rewrite Z.pow_add_r by lia.
      rewrite Pos2Z.inj_mul. apply Z.mul_le_mono_nonneg; try lia;
        apply Z.pow_nonneg; lia. }
    unfold fexp64 in *. lia. }
  destruct (round_model (xorb sx sy) (Zpos (mx * my)) (ex + ey) loc_Exact V)
    as (W & HF & HW & Hb); try lia; try exact Hlt; try exact Hdig.
  - rewrite HVeq. split; [apply Qle_refl|].
    apply Qmult_le_compat_r; [apply inject_Z_le; lia|].
    apply Qlt_le_weak, pow2_pos.
  - split; [exact HF|].
    eapply rounds_to_eq; [reflexivity | symmetry; exact HP |].
    eapply rounds_to_signed; [lra | exact HW | exact Hb].
Qed.

(** ** Addition and subtraction *)

Lemma iter_xO (m d : positive) :
  Zpos (Pos.iter xO m d) = (Zpos m * 2 ^ Zpos d)%Z
  /\ Zpos (digits2_pos (Pos.iter xO m d))
     = (Zpos (digits2_pos m) + Zpos d)%Z.
Proof.
  induction d as [|d [IH1 IH2]] using Pos.peano_ind.
  - cbn [Pos.iter digits2_pos]. split; lia.
  - rewrite Pos.iter_succ. cbn [digits2_pos].
    rewrite Pos2Z.inj_succ. rewrite Z.pow_succ_r by lia. split; lia.
Qed.

Lemma shl_align_spec (mx : positive) (ex ez : Z) :
  exists m' n,
    shl_align mx ex ez = (m', (ex - n)%Z)
    /\ n = Z.max 0 (ex - ez)
    /\ Zpos m' = (Zpos mx * 2 ^ n)%Z
    /\ Zpos (digits2_pos m') = (Zpos (digits2_pos mx) + n)%Z.
Proof.
  unfold shl_align. destruct (ez - ex)%Z as [|d|d] eqn:E.
  - exists mx, 0%Z. rewrite Z.sub_0_r. repeat split; lia.
  - exists mx, 0%Z. rewrite Z.sub_0_r. repeat split; lia.
  - destruct (iter_xO mx d) as [H1 H2].
    exists (Pos.iter xO mx d), (Zpos d).
    replace (ex - Zpos d)%Z with ez by lia.
    replace (Z.max 0 (ex - ez)) with (Zpos d) by lia.
    repeat split; assumption.
Qed.

Lemma binary_round_model (s : bool) (m : positive) (e : Z) :
  inject_Z (Zpos m) * pow2 e < pow2 1023 ->
  SF_finite (binary_round 53 1024 s m e) = true
  /\ rounds_to (SF2Q (binary_round 53 1024 s m e))
       (sign_factor s * (inject_Z (Zpos m) * pow2 e)).
Proof.
  intros Hlt. unfold binary_round. change (fexp 53 1024) with fexp64.
  destruct (shl_align_spec m e (fexp64 (Zpos (digits2_pos m) + e)))
    as (m' & n & -> & Hn & Hm' & Hd').
  assert (Hn0 : (0 <= n)%Z) by lia.
  assert (HV : inject_Z (Zpos m') * pow2 (e - n)
               == inject_Z (Zpos m) * pow2 e).
  { rewrite Hm', inject_Z_mult, <- pow2_Z by exact Hn0.
    replace e with (n + (e - n))%Z at 2 by lia. rewrite pow2_add. ring. }
  assert (HV0 : 0 < inject_Z (Zpos m) * pow2 e)
    by (apply Qmult_lt_0_compat; [reflexivity | apply pow2_pos]).
  destruct (round_model s (Zpos m') (e - n) loc_Exact
              (inject_Z (Zpos m) * pow2 e))
    as (W & HF & HW & Hb); try lia; try exact Hlt.
  - cbn [Zdigits2]. rewrite Hd'.
    replace (Zpos (digits2_pos m) + n + (e - n))%Z
      with (Zpos (digits2_pos m) + e)%Z by lia.
    lia.
  - rewrite <- HV. split; [apply Qle_refl|].
    apply Qmult_le_compat_r; [apply inject_Z_le; lia|].
    apply Qlt_le_weak, pow2_pos.
  - split; [exact HF|].
    eapply rounds_to_signed; [lra | exact HW | exact Hb].
Qed.

Lemma binary_normalize_model (mz e : Z) (szero : bool) :
  Qabs (inject_Z mz * pow2 e) < pow2 1023 ->
  SF_finite (binary_normalize 53 1024 mz e szero) = true
  /\ rounds_to (SF2Q (binary_normalize 53 1024 mz e szero))
       (inject_Z mz * pow2 e).
Proof.
  intros Hlt. pose proof (pow2_pos e) as Hpe.
  destruct mz as [|m|m]; cbn [binary_normalize].
  - split; [reflexivity|]. apply rounds_to_exact. cbn [SF2Q].
    change (inject_Z 0) with 0. ring.
  - rewrite Qabs_pos in Hlt
      by (apply Qmult_le_0_compat; [discriminate | lra]).
    destruct (binary_round_model false m e Hlt) as [HF HR].
    split; [exact HF|].
    eapply rounds_to_eq; [reflexivity | | exact HR].
    unfold sign_factor. ring.
  - assert (Heq : inject_Z (Zneg m) * pow2 e
                  == - (inject_Z (Zpos m) * pow2 e)).
    { change (Zneg m) with (- Zpos m)%Z. rewrite inject_Z_opp. ring. }
    rewrite Heq, Qabs_opp, Qabs_pos in Hlt
      by (apply Qmult_le_0_compat; [discriminate | lra]).
    destruct (binary_round_model true m e Hlt) as [HF HR].
    split; [exact HF|].
    eapply rounds_to_eq; [reflexivity | | exact HR].
    rewrite Heq. unfold sign_factor. ring.
Qed.

(** The mantissa of a number at a lower exponent. *)
Lemma aligned_value (s : bool) (m : positive) (e ez : Z) :
  (ez <= e)%Z ->
  inject_Z (cond_Zopp s (Zpos (fst (shl_align m e ez)))) * pow2 ez
  == SF2Q (S754_finite s m e).
Proof.
  intros He.
  destruct (shl_align_spec m e ez) as (m' & n & -> & Hn & Hm' & _).
  cbn [fst SF2Q]. rewrite Hm'.
  assert (Hn' : n = (e - ez)%Z) by lia.
  assert (Hp : inject_Z (Zpos m * 2 ^ n) * pow2 ez
               == inject_Z (Zpos m) * pow2 e).
  { assert (Hpe : pow2 e == pow2 n * pow2 ez).
    { rewrite <- pow2_add. replace (n + ez)%Z with e by lia. reflexivity. }
    rewrite inject_Z_mult, <- pow2_Z by lia. rewrite Hpe. ring. }
  destruct s; cbn [cond_Zopp sign_factor].
  - rewrite inject_Z_opp. rewrite <- Hp. ring.
  - rewrite Hp. ring.
Qed.

Lemma SFadd_model (x y : spec_float) :
  SF_finite x = true -> SF_finite y = true ->
  Qabs (SF2Q x + SF2Q y) < pow2 1023 ->
  SF_finite (SFadd 53 1024 x y) = true
  /\ rounds_to (SF2Q (SFadd 53 1024 x y)) (SF2Q x + SF2Q y).
Proof.
  intros Fx Fy Hlt.
  destruct x as [sx|sx| |sx mx ex]; try discriminate Fx;
    destruct y as [sy|sy| |sy my ey]; try discriminate Fy;
    cbn [SFadd].
  - split; [destruct sx, sy; reflexivity|]. apply rounds_to_exact.
    destruct sx, sy; cbn [SF2Q]; ring.
  - split; [reflexivity|]. apply rounds_to_exact. cbn [SF2Q]. ring.
  - split; [reflexivity|]. apply rounds_to_exact. cbn [SF2Q]. ring.
  - set (ez := Z.min ex ey).
    assert (Hsum : inject_Z (cond_Zopp sx (Zpos (fst (shl_align mx ex ez)))
                             + cond_Zopp sy (Zpos (fst (shl_align my ey ez))))
                   * pow2 ez
                   == SF2Q (S754_finite sx mx ex) + SF2Q (S754_finite sy my ey)).
    { rewrite inject_Z_plus, Qmult_plus_distr_l.
      rewrite !aligned_value by (unfold ez; lia). reflexivity. }
    rewrite <- Hsum in Hlt.
    destruct (binary_normalize_model _ ez false Hlt) as [HF HR].
    split; [exact HF|].
    eapply rounds_to_eq; [reflexivity | exact Hsum | exact HR].
Qed.

Lemma SFsub_model (x y : spec_float) :
  SF_finite x = true -> SF_finite y = true ->
  Qabs (SF2Q x - SF2Q y) < pow2 1023 ->
  SF_finite (SFsub 53 1024 x y) = true
  /\ rounds_to (SF2Q (SFsub 53 1024 x y)) (SF2Q x - SF2Q y).
Proof.
  intros Fx Fy Hlt.
  destruct x as [sx|sx| |sx mx ex]; try discriminate Fx;
    destruct y as [sy|sy| |sy my ey]; try discriminate Fy;
    cbn [SFsub].
  - split; [destruct sx, sy; reflexivity|]. apply rounds_to_exact.
    destruct sx, sy; cbn [SF2Q]; ring.
  - split; [reflexivity|]. apply rounds_to_exact. cbn [SF2Q].
    destruct sy; cbn [negb sign_factor]; ring.
  - split; [reflexivity|]. apply rounds_to_exact. cbn [SF2Q]. ring.
  - set (ez := Z.min ex ey).
    assert (Hsum : inject_Z (cond_Zopp sx (Zpos (fst (shl_align mx ex ez)))
                             - cond_Zopp sy (Zpos (fst (shl_align my ey ez))))
                   * pow2 ez
                   == SF2Q (S754_finite sx mx ex) - SF2Q (S754_finite sy my ey)).
    { unfold Z.sub. rewrite inject_Z_plus, inject_Z_opp.
      setoid_replace ((inject_Z (cond_Zopp sx (Zpos (fst (shl_align mx ex ez))))
                       + - inject_Z (cond_Zopp sy (Zpos (fst (shl_align my ey ez)))))
                      * pow2 ez)
        with (inject_Z (cond_Zopp sx (Zpos (fst (shl_align mx ex ez)))) * pow2 ez
              - inject_Z (cond_Zopp sy (Zpos (fst (shl_align my ey ez)))) * pow2 ez)
        by ring.
      rewrite !aligned_value by (unfold ez; lia). reflexivity. }
    rewrite <- Hsum in Hlt.
    destruct (binary_normalize_model _ ez false Hlt) as [HF HR].
    split; [exact HF|].
    eapply rounds_to_eq; [reflexivity | exact Hsum | exact HR].
Qed.

(** ** Division *)

Lemma SFdiv_core_spec (mx my : positive) (ex ey : Z) (V : Q) :
  V * (inject_Z (Zpos my) * pow2 ey) == inject_Z (Zpos mx) * pow2 ex ->
  exists q e' l,
    SFdiv_core_binary 53 1024 (Zpos mx) ex (Zpos my) ey = (q, e', l)
    /\ (0 <= q)%Z
    /\ (e' <= fexp64 (Zdigits2 q + e'))%Z
    /\ inject_Z q * pow2 e' <= V <= inject_Z (q + 1) * pow2 e'.
Proof.
  intros HV. unfold SFdiv_core_binary. change (fexp 53 1024) with fexp64.
  cbn [Zdigits2].
  set (d1 := Zpos (digits2_pos mx)). set (d2 := Zpos (digits2_pos my)).
  set (e' := Z.min (fexp64 (d1 + ex - (d2 + ey))) (ex - ey)).
  set (s := (ex - ey - e')%Z).
  assert (Hs : (0 <= s)%Z) by (unfold s, e'; lia).
  set (m' := match s with
             | 0%Z => Zpos mx
             | Zpos _ => Z.shiftl (Zpos mx) s
             | Zneg _ => 0%Z
             end).
  assert (Hm' : m' = (Zpos mx * 2 ^ s)%Z).
  { unfold m'. destruct s as [|p|p] eqn:E; [lia | | lia].
    apply Z.shiftl_mul_pow2. lia. }
  pose proof (Z.div_eucl_eq m' (Zpos my) ltac:(lia)) as Heucl.
  pose proof (Z.mod_pos_bound m' (Zpos my) ltac:(lia)) as Hmod.
  unfold Z.modulo in Hmod.
  destruct (Z.div_eucl m' (Zpos my)) as [q r].
  exists q, e', (new_location (Zpos my) r). split; [reflexivity|].
  assert (Hp : (0 < 2 ^ s)%Z) by (apply Z.pow_pos_nonneg; lia).
  assert (Hq0 : (0 <= q)%Z) by nia.
  split; [exact Hq0|].
  pose proof (digits_pos mx) as [Hx1 Hx2]. pose proof (digits_pos my) as [Hy1 Hy2].
  fold d1 in Hx1, Hx2. fold d2 in Hy1, Hy2.
  assert (Hd1 : (1 <= d1)%Z) by (unfold d1; lia).
  assert (Hd2 : (1 <= d2)%Z) by (unfold d2; lia).
  split.
  - (* the quotient has the digits the exponent was chosen for *)
    assert (Hdig : (d1 - d2 + s <= Zdigits2 q)%Z).
    { destruct (Z_le_gt_dec (d1 - d2 + s) 0) as [Hk|Hk].
      - pose proof (Zdigits2_nonneg q). lia.
      - replace (d1 - d2 + s)%Z with ((d1 - d2 + s - 1) + 1)%Z by lia.
        apply Zdigits2_ge; [lia|].
        assert (H1 : (2 ^ (d1 - 1) * 2 ^ s <= m')%Z).
        { rewrite Hm'. apply Z.mul_le_mono_nonneg_r; lia. }
        rewrite <- Z.pow_add_r in H1 by lia.
        assert (H2 : (Zpos my * 2 ^ (d1 - d2 + s - 1)
                      < 2 ^ d2 * 2 ^ (d1 - d2 + s - 1))%Z).
        { apply Z.mul_lt_mono_pos_r; [apply Z.pow_pos_nonneg; lia | exact Hy2]. }
        rewrite <- Z.pow_add_r in H2 by lia.
        replace (d2 + (d1 - d2 + s - 1))%Z with (d1 - 1 + s)%Z in H2 by lia.
        assert (H3 : (Zpos my * 2 ^ (d1 - d2 + s - 1) < Zpos my * (q + 1))%Z) by nia.
        apply Z.mul_lt_mono_pos_l in H3; [|lia].
        apply Z.lt_succ_r. exact H3. }
    clear - Hdig. revert Hdig. unfold s, e', fexp64.
    generalize (Zdigits2 q). clearbody d1 d2. intros z Hz. lia.
  - assert (Hms : inject_Z m' * pow2 e' == inject_Z (Zpos mx) * pow2 (ex - ey)).
    { rewrite Hm', inject_Z_mult, <- pow2_Z by exact Hs.
      assert (Hpe : pow2 (ex - ey) == pow2 s * pow2 e').
      { rewrite <- pow2_add. replace (s + e')%Z with (ex - ey)%Z by (unfold s; lia).
        reflexivity. }
      rewrite Hpe. ring. }
    assert (Hexy : pow2 ex == pow2 (ex - ey) * pow2 ey).
    { rewrite <- pow2_add. replace (ex - ey + ey)%Z with ex by lia. reflexivity. }
    pose proof (pow2_pos ey) as Hpey. pose proof (pow2_pos e') as Hpe'.
    pose proof (pow2_pos (ex - ey)) as Hpd.
    assert (Hmy : 0 < inject_Z (Zpos my)) by reflexivity.
    assert (HVm : V * inject_Z (Zpos my) == inject_Z m' * pow2 e').
    { rewrite Hms. rewrite Hexy in HV.
      apply (Qmult_inj_r _ _ (pow2 ey)); [lra|].
      setoid_replace (V * inject_Z (Zpos my) * pow2 ey)
        with (V * (inject_Z (Zpos my) * pow2 ey)) by ring.
      rewrite HV. ring. }
    assert (Hlo : inject_Z q * inject_Z (Zpos my) <= inject_Z m').
    { rewrite <- inject_Z_mult. apply inject_Z_le. nia. }
    assert (Hhi : inject_Z m' <= inject_Z (q + 1) * inject_Z (Zpos my)).
    { rewrite <- inject_Z_mult. apply inject_Z_le. nia. }
    split.
    + apply (Qmult_le_r _ _ (inject_Z (Zpos my))); [exact Hmy|].
      rewrite HVm.
      setoid_replace (inject_Z q * pow2 e' * inject_Z (Zpos my))
        with (inject_Z q * inject_Z (Zpos my) * pow2 e') by ring.
      apply Qmult_le_compat_r; [exact Hlo | lra].
    + apply (Qmult_le_r _ _ (inject_Z (Zpos my))); [exact Hmy|].
      rewrite HVm.
      setoid_replace (inject_Z (q + 1) * pow2 e' * inject_Z (Zpos my))
        with (inject_Z (q + 1) * inject_Z (Zpos my) * pow2 e') by ring.
      apply Qmult_le_compat_r; [exact Hhi | lra].
Qed.

Lemma SFdiv_model (x y : spec_float) :
  SF_finite x = true -> SF_finite y = true -> ~ SF2Q y == 0 ->
  Qabs (SF2Q x / SF2Q y) < pow2 1023 ->
  SF_finite (SFdiv 53 1024 x y) = true
  /\ rounds_to (SF2Q (SFdiv 53 1024 x y)) (SF2Q x / SF2Q y).
Proof.
  intros Fx Fy Hy Hlt.
  destruct x as [sx|sx| |sx mx ex]; try discriminate Fx;
    destruct y as [sy|sy| |sy my ey]; try discriminate Fy;
    cbn [SFdiv]; try (exfalso; apply Hy; reflexivity).
  - split; [reflexivity|]. apply rounds_to_exact. cbn [SF2Q].
    unfold Qdiv. ring.
  - destruct (SF2Q_abs sx mx ex) as [Hx Hx0].
    destruct (SF2Q_abs sy my ey) as [Hy' Hy0].
    set (X := inject_Z (Zpos mx) * pow2 ex) in *.
    set (Y := inject_Z (Zpos my) * pow2 ey) in *.
    assert (Hq : SF2Q (S754_finite sx mx ex) / SF2Q (S754_finite sy my ey)
                 == sign_factor (xorb sx sy) * (X / Y)).
    { rewrite Hx, Hy', sign_factor_xorb.
      destruct sx, sy; unfold sign_factor; field; lra. }
    assert (HXY : 0 < X / Y).
    { apply Qlt_shift_div_l; [exact Hy0 | lra]. }
    rewrite Hq in Hlt. rewrite sign_factor_abs in Hlt by lra.
    destruct (SFdiv_core_spec mx my ex ey (X / Y))
      as (q & e' & l & -> & Hq0 & He' & Hb).
    { fold Y. fold X. field. lra. }
    destruct (round_model (xorb sx sy) q e' l (X / Y) Hq0 He' Hb Hlt)
      as (W & HF & HW & HWb).
    split; [exact HF|].
    eapply rounds_to_eq; [reflexivity | symmetry; exact Hq |].
    eapply rounds_to_signed; [lra | exact HW | exact HWb].
Qed.

(** ** Never a NaN from finite operands *)

Lemma binary_round_aux_not_nan (s : bool) (m e : Z) (l : location) :
  (0 <= m)%Z -> binary_round_aux 53 1024 s m e l <> S754_nan.
Proof.
  intros Hm. unfold binary_round_aux, shr_fexp.
  pose proof (shr_spec (shr_record_of_loc m l) e
                (fexp 53 1024 (Zdigits2 m + e) - e)) as Hs1.
  rewrite shr_record_of_loc_m in Hs1. specialize (Hs1 Hm).
  destruct (shr (shr_record_of_loc m l) e _) as [mrs' e'].
  cbn [fst snd] in Hs1. destruct Hs1 as [Hm' _].
  set (k := round_nearest_even (shr_m mrs') (loc_of_shr_record mrs')).
  assert (Hk : (0 <= k)%Z).
  { assert (H0 : (0 <= shr_m mrs')%Z).
    { rewrite Hm'. apply Z.div_pos; [exact Hm|].
      apply Z.pow_pos_nonneg; lia. }
    destruct (round_nearest_even_cases (shr_m mrs') (loc_of_shr_record mrs'))
      as [H|H]; unfold k; rewrite H; lia. }
  pose proof (shr_spec (shr_record_of_loc k loc_Exact) e'
                (fexp 53 1024 (Zdigits2 k + e') - e')) as Hs2.
  rewrite shr_record_of_loc_m in Hs2. specialize (Hs2 Hk).
  destruct (shr (shr_record_of_loc k loc_Exact) e' _) as [mrs'' e''].
  cbn [fst snd] in Hs2. destruct Hs2 as [Hm'' _].
  assert (H0 : (0 <= shr_m mrs'')%Z).
  { rewrite Hm''. apply Z.div_pos; [exact Hk|]. apply Z.pow_pos_nonneg; lia. }
  destruct (shr_m mrs'') as [|p|p]; [discriminate | | lia].
  destruct (e'' <=? 1024 - 53)%Z; discriminate.
Qed.

Lemma binary_normalize_not_nan (m e : Z) (szero : bool) :
  binary_normalize 53 1024 m e szero <> S754_nan.
Proof.
  destruct m as [|p|p]; cbn [binary_normalize]; [discriminate | |];
    unfold binary_round;
    destruct (shl_align p e _) as [mz ez];
    apply binary_round_aux_not_nan; lia.
Qed.

(** A finite number that is not zero, times a number: never NaN. *)
Lemma SFmul_not_nan (x y : spec_float) :
  (exists s m e, x = S754_finite s m e) -> y <> S754_nan ->
  SFmul 53 1024 x y <> S754_nan.
Proof.
  intros (s & m & e & ->) Hy.
  destruct y as [sy|sy| |sy my ey]; cbn [SFmul]; try discriminate;
    [contradiction|].
  apply binary_round_aux_not_nan. lia.
Qed.

Lemma SFsub_not_nan (x y : spec_float) :
  SF_finite x = true -> SF_finite y = true -> SFsub 53 1024 x y <> S754_nan.
Proof.
  intros Fx Fy.
  destruct x as [sx|sx| |sx mx ex]; try discriminate Fx;
    destruct y as [sy|sy| |sy my ey]; try discriminate Fy;
    cbn [SFsub]; try discriminate.
  - destruct sx, sy; discriminate.
  - apply binary_normalize_not_nan.
Qed.

(** A finite number over a number that is neither zero nor NaN. *)
Lemma SFdiv_not_nan (x y : spec_float) :
  SF_finite x = true ->
  (exists s, y = S754_infinity s) \/ (exists s m e, y = S754_finite s m e) ->
  SFdiv 53 1024 x y <> S754_nan.
Proof.
  intros Fx Hy.
  destruct x as [sx|sx| |sx mx ex]; try discriminate Fx;
    destruct Hy as [(s & ->)|(s & m & e & ->)]; cbn [SFdiv];
    try discriminate.
  unfold SFdiv_core_binary.
  match goal with
  | |- context [Z.div_eucl ?a ?b] =>
      pose proof (Z.div_eucl_eq a b ltac:(lia)) as Heucl;
      pose proof (Z.mod_pos_bound a b ltac:(lia)) as Hmod;
      assert (Ha : (0 <= a)%Z);
      [|unfold Z.modulo in Hmod; destruct (Z.div_eucl a b) as [q r]]
  end.
  - match goal with
    | |- (0 <= match ?s with _ => _ end)%Z => destruct s as [|p|p]
    end; try lia. apply Z.shiftl_nonneg. lia.
  - apply binary_round_aux_not_nan. nia.
Qed.

(** ** The order of binary64 numbers *)

Lemma magnitude_lt (m1 m2 : positive) (e1 e2 : Z) (s1 s2 : bool) :
  SF_valid (S754_finite s1 m1 e1) -> SF_valid (S754_finite s2 m2 e2) ->
  match (e1 ?= e2)%Z with
  | Lt => Lt
  | Gt => Gt
  | Eq => Pos.compare_cont Eq m1 m2
  end = Lt ->
  inject_Z (Zpos m1) * pow2 e1 < inject_Z (Zpos m2) * pow2 e2.
Proof.
  intros V1 V2 H.
  destruct (valid_finite _ _ _ V1) as [H1 _].
  destruct (valid_finite _ _ _ V2) as [H2 _].
  destruct (Z.compare_spec e1 e2) as [->|Hlt|Hgt]; try discriminate H.
  - change (Pos.compare_cont Eq m1 m2) with (Pos.compare m1 m2) in H.
    apply Pos.compare_lt_iff in H.
    apply Qmult_lt_compat_r; [apply pow2_pos|].
    rewrite <- Zlt_Qlt. apply Pos2Z.pos_lt_pos. exact H.
  - pose proof (digits_pos m1) as [_ Hm1]. pose proof (digits_pos m2) as [Hm2 _].
    unfold fexp64 in H1, H2.
    assert (Hd1 : (Zpos (digits2_pos m1) <= 53)%Z) by lia.
    assert (Hd2 : (Zpos (digits2_pos m2) = 53)%Z) by lia.
    rewrite Hd2 in Hm2.
    assert (Hm1' : (Zpos m1 < 2 ^ 53)%Z).
    { eapply Z.lt_le_trans; [exact Hm1|]. apply Z.pow_le_mono_r; lia. }
    apply (Qlt_le_trans _ (pow2 53 * pow2 e1)).
    + apply Qmult_lt_compat_r; [apply pow2_pos|].
      rewrite pow2_Z by lia. rewrite <- Zlt_Qlt. exact Hm1'.
    + apply (Qle_trans _ (pow2 52 * pow2 e2)).
      * rewrite <- !pow2_add. apply pow2_le. lia.
      * apply Qmult_le_compat_r; [|apply Qlt_le_weak, pow2_pos].
        rewrite pow2_Z by lia. apply inject_Z_le. exact Hm2.
Qed.

Lemma magnitude_eq (m1 m2 : positive) (e1 e2 : Z) :
  match (e1 ?= e2)%Z with
  | Lt => Lt
  | Gt => Gt
  | Eq => Pos.compare_cont Eq m1 m2
  end = Eq ->
  e1 = e2 /\ m1 = m2.
Proof.
  destruct (Z.compare_spec e1 e2) as [->|Hlt|Hgt]; try discriminate.
  change (Pos.compare_cont Eq m1 m2) with (Pos.compare m1 m2).
  intros H. apply Pos.compare_eq in H. split; [reflexivity | exact H].
Qed.

Lemma magnitude_gt (m1 m2 : positive) (e1 e2 : Z) (s1 s2 : bool) :
  SF_valid (S754_finite s1 m1 e1) -> SF_valid (S754_finite s2 m2 e2) ->
  match (e1 ?= e2)%Z with
  | Lt => Lt
  | Gt => Gt
  | Eq => Pos.compare_cont Eq m1 m2
  end = Gt ->
  inject_Z (Zpos m2) * pow2 e2 < inject_Z (Zpos m1) * pow2 e1.
Proof.
  intros V1 V2 H. apply (magnitude_lt m2 m1 e2 e1 s2 s1 V2 V1).
  rewrite (Z.compare_antisym e1 e2).
  destruct (e1 ?= e2)%Z; cbn [CompOpp]; try discriminate H; try reflexivity.
  change (Pos.compare_cont Eq m2 m1) with (Pos.compare m2 m1).
  change (Pos.compare_cont Eq m1 m2) with (Pos.compare m1 m2) in H.
  rewrite Pos.compare_antisym, H. reflexivity.
Qed.

(** The comparison of two finite binary64 numbers is that of the
    numbers they stand for. *)
Lemma SFcompare_value (x y : spec_float) (c : comparison) :
  SF_valid x -> SF_valid y -> SF_finite x = true -> SF_finite y = true ->
  SFcompare x y = Some c ->
  match c with
  | Lt => SF2Q x < SF2Q y
  | Eq => SF2Q x == SF2Q y
  | Gt => SF2Q y < SF2Q x
  end.
Proof.
  intros Vx Vy Fx Fy H.
  destruct x as [sx|sx| |sx mx ex]; try discriminate Fx;
    destruct y as [sy|sy| |sy my ey]; try discriminate Fy;
    cbn [SFcompare] in H; injection H as <-.
  - reflexivity.
  - destruct (SF2Q_abs sy my ey) as [Hy Hy0].
    destruct sy; rewrite Hy; cbn [SF2Q sign_factor]; lra.
  - destruct (SF2Q_abs sx mx ex) as [Hx Hx0].
    destruct sx; rewrite Hx; cbn [SF2Q sign_factor]; lra.
  - destruct (SF2Q_abs sx mx ex) as [Hx Hx0].
    destruct (SF2Q_abs sy my ey) as [Hy Hy0].
    cbn [SF2Q].
    destruct sx, sy; cbn [sign_factor]; try lra.
    + assert (Hc : match (ex ?= ey)%Z with
                   | Eq => CompOpp (Pos.compare_cont Eq mx my)
                   | Lt => Gt
                   | Gt => Lt
                   end
                   = CompOpp match (ex ?= ey)%Z with
                             | Lt => Lt
                             | Gt => Gt
                             | Eq => Pos.compare_cont Eq mx my
                             end)
        by (destruct (ex ?= ey)%Z; reflexivity).
      rewrite Hc. clear Hc.
      destruct (match (ex ?= ey)%Z with
                | Lt => Lt | Gt => Gt | Eq => Pos.compare_cont Eq mx my
                end) eqn:E; cbn [CompOpp].
      * apply magnitude_eq in E. destruct E as [-> ->]. apply Qeq_refl.
      * pose proof (magnitude_lt _ _ _ _ _ _ Vx Vy E). lra.
      * pose proof (magnitude_gt _ _ _ _ _ _ Vx Vy E). lra.
    + destruct (match (ex ?= ey)%Z with
                | Lt => Lt | Gt => Gt | Eq => Pos.compare_cont Eq mx my
                end) eqn:E.
      * apply magnitude_eq in E. destruct E as [-> ->]. cbv iota.
        apply Qeq_refl.
      * pose proof (magnitude_lt _ _ _ _ _ _ Vx Vy E). cbv iota. lra.
      * pose proof (magnitude_gt _ _ _ _ _ _ Vx Vy E). cbv iota. lra.
Qed.

Lemma Prim2SF_is_valid (v : PrimFloat.float) : SF_valid (FloatOps.Prim2SF v).
Proof. apply FloatAxioms.Prim2SF_valid. Qed.

Theorem add_model (a b : PrimFloat.float) :
  finite a = true -> finite b = true ->
  Qabs (value a + value b) < pow2 1023 ->
  finite (PrimFloat.add a b) = true
  /\ rounds_to (value (PrimFloat.add a b)) (value a + value b).
Proof.
  unfold finite, value. rewrite FloatAxioms.add_spec. apply SFadd_model.
Qed.

Theorem sub_model (a b : PrimFloat.float) :
  finite a = true -> finite b = true ->
  Qabs (value a - value b) < pow2 1023 ->
  finite (PrimFloat.sub a b) = true
  /\ rounds_to (value (PrimFloat.sub a b)) (value a - value b).
Proof.
  unfold finite, value. rewrite FloatAxioms.sub_spec. apply SFsub_model.
Qed.

Theorem mul_model (a b : PrimFloat.float) :
  finite a = true -> finite b = true ->
  Qabs (value a * value b) < pow2 1023 ->
  finite (PrimFloat.mul a b) = true
  /\ rounds_to (value (PrimFloat.mul a b)) (value a * value b).
Proof.
  unfold finite, value. rewrite FloatAxioms.mul_spec.
  apply SFmul_model; apply Prim2SF_is_valid.
Qed.

Theorem div_model (a b : PrimFloat.float) :
  finite a = true -> finite b = true -> ~ value b == 0 ->
  Qabs (value a / value b) < pow2 1023 ->
  finite (PrimFloat.div a b) = true
  /\ rounds_to (value (PrimFloat.div a b)) (value a / value b).
Proof.
  unfold finite, value. rewrite FloatAxioms.div_spec. apply SFdiv_model.
Qed.

Lemma leb_value (a b : PrimFloat.float) :
  finite a = true -> finite b = true ->
  PrimFloat.leb a b = true -> value a <= value b.
Proof.
  unfold finite, value. rewrite FloatAxioms.leb_spec. unfold SFleb.
  intros Fa Fb H.
  destruct (SFcompare (FloatOps.Prim2SF a) (FloatOps.Prim2SF b))
    as [c|] eqn:E; [|discriminate H].
  pose proof (SFcompare_value _ _ c (Prim2SF_is_valid a) (Prim2SF_is_valid b)
                Fa Fb E) as Hc.
  destruct c; try discriminate H; lra.
Qed.

Lemma ltb_value (a b : PrimFloat.float) :
  finite a = true -> finite b = true ->
  PrimFloat.ltb a b = true -> value a < value b.
Proof.
  unfold finite, value. rewrite FloatAxioms.ltb_spec. unfold SFltb.
  intros Fa Fb H.
  destruct (SFcompare (FloatOps.Prim2SF a) (FloatOps.Prim2SF b))
    as [c|] eqn:E; [|discriminate H].
  pose proof (SFcompare_value _ _ c (Prim2SF_is_valid a) (Prim2SF_is_valid b)
                Fa Fb E) as Hc.
  destruct c; try discriminate H; lra.
Qed.

Lemma SFcompare_refl (x : spec_float) :
  x <> S754_nan -> SFcompare x x = Some Eq.
Proof.
  destruct x as [s|s| |s m e]; intros H; cbn [SFcompare];
    try (destruct s; reflexivity); [contradiction|].
  rewrite Z.compare_refl.
  change (Pos.compare_cont Eq m m) with (Pos.compare m m).
  rewrite Pos.compare_refl. destruct s; reflexivity.
Qed.

Lemma is_nan_spec (v : PrimFloat.float) :
  PrimFloat.is_nan v = false <-> FloatOps.Prim2SF v <> S754_nan.
Proof.
  unfold PrimFloat.is_nan. rewrite FloatAxioms.eqb_spec. unfold SFeqb. split.
  - intros H E. rewrite E in H. discriminate H.
  - intros H. rewrite SFcompare_refl by exact H. reflexivity.
Qed.

Lemma finite_not_nan (v : PrimFloat.float) :
  finite v = true -> PrimFloat.is_nan v = false.
Proof.
  unfold finite. intros H. apply is_nan_spec. intros E. rewrite E in H.
  discriminate H.
Qed.

(** Between two finite numbers there are only finite numbers. *)
Lemma finite_between (lo v hi : PrimFloat.float) :
  finite lo = true -> finite hi = true ->
  PrimFloat.leb lo v = true -> PrimFloat.leb v hi = true ->
  finite v = true.
Proof.
  unfold finite. rewrite !FloatAxioms.leb_spec. unfold SFleb.
  destruct (FloatOps.Prim2SF lo) as [sl|sl| |sl ml el]; try discriminate;
    destruct (FloatOps.Prim2SF hi) as [sh|sh| |sh mh eh]; try discriminate;
    destruct (FloatOps.Prim2SF v) as [sv|sv| |sv mv ev];
    cbn [SFcompare SF_finite]; intros _ _ H1 H2; try reflexivity;
    try discriminate H1; try discriminate H2;
    destruct sv; try destruct sl; try destruct sh;
    try discriminate H1; try discriminate H2.
Qed.

(** ** Arithmetic of bounds *)

Lemma eps_bounds : 0 < eps /\ eps <= 1 # 1024.
Proof. split; [apply pow2_pos|]. vm_compute. discriminate. Qed.

Lemma eta_pos : 0 < eta.
Proof. apply pow2_pos. Qed.

(** What one rounding adds to a bound. *)
Lemma rounds_to_bound (v exact bound : Q) :
  rounds_to v exact -> Qabs exact <= bound ->
  Qabs (v - exact) <= eps * bound + eta
  /\ Qabs v <= (1 + eps) * bound + eta.
Proof.
  unfold rounds_to. intros H Hb.
  destruct eps_bounds as [He _].
  assert (H1 : eps * Qabs exact <= eps * bound)
    by (apply Qmult_le_l; assumption).
  split; [lra|].
  setoid_replace v with ((v - exact) + exact) at 1 by ring.
  eapply Qle_trans; [apply Qabs_triangle|]. lra.
Qed.

(** Below 2^k, a rounding stays below 2^(k+1). *)
Lemma rounds_to_pow2 (v exact : Q) (k : Z) :
  (-1000 <= k)%Z -> rounds_to v exact -> Qabs exact <= pow2 k ->
  Qabs v <= pow2 (k + 1).
Proof.
  intros Hk H Hb. destruct (rounds_to_bound v exact _ H Hb) as [_ Hv].
  destruct eps_bounds as [He0 He].
  pose proof (pow2_pos k) as Hp.
  assert (Heta : eta <= pow2 (k - 1)) by (apply pow2_le; lia).
  assert (Hk1 : pow2 k == 2 * pow2 (k - 1)).
  { replace k with (1 + (k - 1))%Z at 1 by lia. rewrite pow2_add.
    reflexivity. }
  assert (Hk2 : pow2 (k + 1) == 2 * pow2 k).
  { rewrite Z.add_comm, pow2_add. reflexivity. }
  assert (Hprod : eps * pow2 k <= (1 # 1024) * pow2 k)
    by (apply Qmult_le_compat_r; lra).
  lra.
Qed.

End Binary64Facts.

(* ================================================================== *)
(** * Facts on the viewport                                           *)
(* ================================================================== *)

Module ViewportFacts.
Import Viewport Binary64 Binary64Facts.
Import Lqa.

Local Open Scope Q_scope.

(** ** Comparisons and [clamp] in binary64 *)

Lemma SFcompare_antisym (x y : SpecFloat.spec_float) (c : comparison) :
  SpecFloat.SFcompare x y = Some c ->
  SpecFloat.SFcompare y x = Some (CompOpp c).
Proof.
  destruct x as [sx|sx| |sx mx ex], y as [sy|sy| |sy my ey];
    cbn [SpecFloat.SFcompare]; intros H; try discriminate H;
    injection H as <-;
    try (destruct sx; reflexivity); try (destruct sy; reflexivity);
    try (destruct sx, sy; reflexivity).
  destruct sx, sy; try reflexivity.
  - rewrite (Z.compare_antisym ex ey).
    destruct (ex ?= ey)%Z; cbn [CompOpp]; try reflexivity.
    rewrite (Pos.compare_cont_antisym mx my Eq). reflexivity.
  - rewrite (Z.compare_antisym ex ey).
    destruct (ex ?= ey)%Z; cbn [CompOpp]; try reflexivity.
    rewrite (Pos.compare_cont_antisym mx my Eq). reflexivity.
Qed.

Lemma SFcompare_some (x y : SpecFloat.spec_float) :
  x <> SpecFloat.S754_nan -> y <> SpecFloat.S754_nan ->
  exists c, SpecFloat.SFcompare x y = Some c.
Proof.
  destruct x as [sx|sx| |sx mx ex], y as [sy|sy| |sy my ey];
    cbn [SpecFloat.SFcompare]; intros Hx Hy; try contradiction;
    eexists; reflexivity.
Qed.

Lemma is_nan_false (v : PrimFloat.float) :
  PrimFloat.is_nan v = false -> FloatOps.Prim2SF v <> SpecFloat.S754_nan.
Proof.
  unfold PrimFloat.is_nan. rewrite FloatAxioms.eqb_spec. intros H E.
  rewrite E in H. discriminate H.
Qed.

Lemma ltb_leb (a b : PrimFloat.float) :
  PrimFloat.ltb a b = true -> PrimFloat.leb a b = true.
Proof.
  rewrite FloatAxioms.ltb_spec, FloatAxioms.leb_spec.
  unfold SpecFloat.SFltb, SpecFloat.SFleb.
  destruct (SpecFloat.SFcompare _ _) as [[| |]|]; intros H;
    try discriminate H; reflexivity.
Qed.

Lemma not_ltb_leb (a b : PrimFloat.float) :
  PrimFloat.is_nan a = false -> PrimFloat.is_nan b = false ->
  PrimFloat.ltb a b = false -> PrimFloat.leb b a = true.
Proof.
  intros Ha Hb. apply is_nan_false in Ha. apply is_nan_false in Hb.
  rewrite FloatAxioms.ltb_spec, FloatAxioms.leb_spec.
  unfold SpecFloat.SFltb, SpecFloat.SFleb.
  destruct (SFcompare_some _ _ Ha Hb) as [c Hc]. rewrite Hc.
  rewrite (SFcompare_antisym _ _ _ Hc).
  destruct c; intros H; try discriminate H; reflexivity.
Qed.

(** [clamp] of a number between two bounds that are numbers, the lower
    one not above the upper one, neither a negative zero. *)
Lemma float_clamp_between (lo hi v : PrimFloat.float) :
  PrimFloat.is_nan lo = false -> PrimFloat.is_nan hi = false ->
  PrimFloat.get_sign lo = false -> PrimFloat.get_sign hi = false ->
  PrimFloat.leb lo lo = true -> PrimFloat.leb lo hi = true ->
  PrimFloat.leb hi hi = true ->
  PrimFloat.is_nan v = false ->
  PrimFloat.leb lo (clamp v lo hi) && PrimFloat.leb (clamp v lo hi) hi = true.
Proof.
  intros Hlo Hhi Hslo Hshi Hll Hlh Hhh Hv. unfold clamp.
  cbn [Math_min Math_max Float64]. unfold float_max.
  rewrite Hlo, Hv, Hslo. cbn [orb].
  assert (Em : exists m, (if PrimFloat.ltb lo v then v
                          else if PrimFloat.ltb v lo then lo else lo) = m
                         /\ PrimFloat.is_nan m = false
                         /\ PrimFloat.leb lo m = true).
  { destruct (PrimFloat.ltb lo v) eqn:E1.
    - exists v. repeat split; [assumption | apply ltb_leb; assumption].
    - exists lo. destruct (PrimFloat.ltb v lo); repeat split; assumption. }
  destruct Em as (m & -> & Hm & Hlm).
  unfold float_min. rewrite Hhi, Hm, Hshi. cbn [orb].
  destruct (PrimFloat.ltb hi m) eqn:E2.
  - rewrite Hlh, Hhh. reflexivity.
  - assert (Hmh : PrimFloat.leb m hi = true) by (apply not_ltb_leb; assumption).
    destruct (PrimFloat.ltb m hi); rewrite Hlm, Hmh; reflexivity.
Qed.

Lemma float_clamp_range (v : PrimFloat.float) :
  PrimFloat.is_nan v = false ->
  float_in_range (clamp v MIN_SCALE MAX_SCALE) = true.
Proof.
  intros Hv. unfold float_in_range.
  apply float_clamp_between; try exact Hv; vm_compute; reflexivity.
Qed.

Lemma float_clamp_nan (v : PrimFloat.float) :
  PrimFloat.is_nan v = true ->
  PrimFloat.is_nan (clamp v MIN_SCALE MAX_SCALE) = true.
Proof.
  intros Hv. unfold clamp. cbn [Math_min Math_max Float64].
  unfold float_max. rewrite Hv, orb_true_r.
  unfold float_min. rewrite orb_true_r. reflexivity.
Qed.

(** A scale in the range is a number between 1/5 and 16. *)
Lemma in_range_value (s : PrimFloat.float) :
  float_in_range s = true ->
  finite s = true /\ 1 # 5 <= value s /\ value s <= 16.
Proof.
  unfold float_in_range. intros H. apply andb_true_iff in H.
  destruct H as [H1 H2].
  assert (Flo : finite (MIN_SCALE : PrimFloat.float) = true) by reflexivity.
  assert (Fhi : finite (MAX_SCALE : PrimFloat.float) = true) by reflexivity.
  pose proof (finite_between _ _ _ Flo Fhi H1 H2) as Fs.
  pose proof (leb_value _ _ Flo Fs H1) as V1.
  pose proof (leb_value _ _ Fs Fhi H2) as V2.
  assert (Vlo : 1 # 5 <= value (MIN_SCALE : PrimFloat.float))
    by (vm_compute; discriminate).
  assert (Vhi : value (MAX_SCALE : PrimFloat.float) <= 16)
    by (vm_compute; discriminate).
  split; [exact Fs|]. split; lra.
Qed.

Lemma in_range_finite_nonzero (s : PrimFloat.float) :
  float_in_range s = true ->
  exists sg m e, FloatOps.Prim2SF s = SpecFloat.S754_finite sg m e.
Proof.
  intros H. destruct (in_range_value s H) as (F & V & _).
  unfold finite, value in *.
  destruct (FloatOps.Prim2SF s) as [sg|sg| |sg m e]; try discriminate F.
  - cbn [SF2Q] in V. lra.
  - exists sg, m, e. reflexivity.
Qed.

(** ** The scale stays in the range *)

Lemma float_min_not_nan (a b : PrimFloat.float) :
  PrimFloat.is_nan a = false -> PrimFloat.is_nan b = false ->
  PrimFloat.is_nan (float_min a b) = false.
Proof.
  intros Ha Hb. unfold float_min. rewrite Ha, Hb. cbn [orb].
  destruct (PrimFloat.ltb a b); [exact Ha|].
  destruct (PrimFloat.ltb b a); [exact Hb|].
  destruct (PrimFloat.get_sign a); assumption.
Qed.

Lemma positive_cases (w : PrimFloat.float) :
  PrimFloat.ltb (literal 0 1) w = true ->
  (exists s, FloatOps.Prim2SF w = SpecFloat.S754_infinity s)
  \/ (exists s m e, FloatOps.Prim2SF w = SpecFloat.S754_finite s m e).
Proof.
  rewrite FloatAxioms.ltb_spec.
  change (FloatOps.Prim2SF (literal 0 1)) with (SpecFloat.S754_zero false).
  unfold SpecFloat.SFltb.
  destruct (FloatOps.Prim2SF w) as [s|s| |s m e];
    cbn [SpecFloat.SFcompare]; intros H; try discriminate H.
  - left. exists s. reflexivity.
  - right. exists s, m, e. reflexivity.
Qed.

Lemma magnitude_53 (c : PrimFloat.float) (b : Q) :
  magnitude_le 53 c -> Qabs b <= 64 -> Qabs (value c - b) < pow2 1023.
Proof.
  intros [_ Hc] Hb. apply Qabs_Qle_condition in Hc, Hb.
  assert (H53 : pow2 53 + 64 < pow2 1023) by (vm_compute; reflexivity).
  apply Qle_lt_trans with (pow2 53 + 64); [|exact H53].
  apply Qabs_Qle_condition. split; lra.
Qed.

(** The ratio [fitToView] takes for one side is a number. *)
Lemma fit_ratio_not_nan (c w : PrimFloat.float) :
  magnitude_le 53 c -> PrimFloat.ltb (literal 0 1) w = true ->
  PrimFloat.is_nan (PrimFloat.div (PrimFloat.sub c (literal 48 1)) w) = false.
Proof.
  intros Hc Hw. apply is_nan_spec. rewrite FloatAxioms.div_spec.
  apply SFdiv_not_nan; [|apply positive_cases; exact Hw].
  assert (F48 : finite (literal 48 1) = true) by reflexivity.
  destruct (sub_model c (literal 48 1)) as [F _]; try assumption.
  - apply Hc.
  - apply magnitude_53; [exact Hc|]. vm_compute. discriminate.
Qed.

(** A scale in the range times a number is a number. *)
Lemma scaled_not_nan (s f : PrimFloat.float) :
  float_in_range s = true -> PrimFloat.is_nan f = false ->
  PrimFloat.is_nan (PrimFloat.mul s f) = false.
Proof.
  intros Hs Hf. apply is_nan_spec. rewrite FloatAxioms.mul_spec.
  apply SFmul_not_nan; [apply in_range_finite_nonzero; exact Hs|].
  apply is_nan_spec. exact Hf.
Qed.


Lemma step_kept (a : action PrimFloat.float) (p : Panel PrimFloat.float) :
  issued a -> kept p -> kept (step a p).
Proof.
  intros Ha (Ht & Hr & Hsize & Hvp).
  assert (Hp : kept p) by (split; [|split; [|split]]; assumption).
  destruct a; cbn [step issued] in *.
  - (* applyZoomAroundPoint *)
    split; [|split; [|split]]; try assumption.
    apply float_clamp_range. exact Ha.
  - (* fitToView *)
    unfold fitToView. destruct (svgSize p) as [size|] eqn:Es; [|exact Hp].
    destruct (viewportRef p) as [vp|] eqn:Ev; [|exact Hp].
    destruct (Hsize size eq_refl) as [Hw Hh].
    destruct (Hvp vp eq_refl) as [Hcw Hch].
    split; [|split; [|split]];
      cbn [setTransform transform transformRef svgSize viewportRef scale];
      try assumption; [|rewrite Es; exact Hsize | rewrite Ev; exact Hvp].
    apply float_clamp_range. apply float_min_not_nan;
      apply fit_ratio_not_nan; assumption.
  - (* zoomToScale *)
    unfold zoomToScale. destruct (viewportRef p) as [vp|] eqn:Ev; [|exact Hp].
    split; [|split; [|split]];
      cbn [applyZoomAroundPoint setTransform transform transformRef svgSize
             viewportRef scale];
      try assumption; [|rewrite Ev; exact Hvp].
    apply float_clamp_range. exact Ha.
  - (* zoomByFactor *)
    unfold zoomByFactor, zoomToScale.
    destruct (viewportRef p) as [vp|] eqn:Ev; [|exact Hp].
    split; [|split; [|split]];
      cbn [applyZoomAroundPoint setTransform transform transformRef svgSize
             viewportRef scale];
      try assumption; [|rewrite Ev; exact Hvp].
    apply float_clamp_range. apply scaled_not_nan; assumption.
  - (* the wheel *)
    unfold handleWheelZoom.
    destruct (viewportRef p) as [vp|] eqn:Ev; [|exact Hp].
    split; [|split; [|split]];
      cbn [applyZoomAroundPoint setTransform transform transformRef svgSize
             viewportRef scale];
      try assumption; [|rewrite Ev; exact Hvp].
    apply float_clamp_range. apply scaled_not_nan; [exact Hr|].
    destruct (ltb (deltaY event) (literal 0 1)); reflexivity.
  - unfold handlePointerDown. destruct (negb _); exact Hp.
  - unfold handlePointerMove. destruct (dragRef p); [|exact Hp].
    destruct (negb _); exact Hp.
  - unfold handlePointerUp. destruct (dragRef p); [|exact Hp].
    destruct (negb _); exact Hp.
  - split; [|split; [|split]]; assumption.
  - split; [|split; [|split]]; try assumption. cbn [setSvgSize svgSize].
    intros size' E. subst size. exact Ha.
  - split; [|split; [|split]]; try assumption. cbn [setViewport viewportRef].
    intros vp' E. subst vp. exact Ha.
Qed.

Lemma run_kept (actions : list (action PrimFloat.float))
  (p : Panel PrimFloat.float) :
  Forall issued actions -> kept p -> kept (run actions p).
Proof.
  intros Ha. revert p. induction Ha as [|a actions H _ IH]; intros p Hp;
    [exact Hp|].
  cbn [run fold_left]. apply IH. apply step_kept; assumption.
Qed.

Lemma initial_kept : kept initial.
Proof.
  split; [reflexivity|]. split; [reflexivity|].
  split; intros ? E; discriminate E.
Qed.

(** C4.  In binary64, the arithmetic of the code: starting from the
    initial transform (scale 1), after any sequence of actions
    ([applyZoomAroundPoint], [fitToView], [zoomToScale], [zoomByFactor],
    the wheel zoom, the pointer handlers of drag-pan, and the changes
    of the refs and sizes around them) issued as the application issues
    them (the scale or factor asked for is not NaN, a diagram size is
    above 0 as [extractSvgSize] returns it, the client sizes of the
    viewport element are numbers of at most 2^53), the scale is in
    [0.2, 16]; and [applyZoomAroundPoint(1000, x, y)] gives the scale 16
    from any panel. *)
Theorem scale_stays_in_range (actions : list (action PrimFloat.float)) :
  Forall issued actions ->
  float_in_range (scale (transform (run actions initial))) = true
  /\ (forall (p : Panel PrimFloat.float) (px py : PrimFloat.float),
        scale (transform (applyZoomAroundPoint (literal 1000 1) px py p))
        = literal 16 1).
Proof.
  intros Ha. split.
  - apply (run_kept actions initial Ha initial_kept).
  - intros p px py. cbn [applyZoomAroundPoint setTransform transform scale].
    vm_compute. reflexivity.
Qed.

(** The theorem at a session of the application: the element mounts, a
    diagram of 400 by 200 is fitted, the zoom-in button is pressed
    thirty times, the wheel is turned, the panel is dragged, and 1000 is
    asked for. *)
Lemma scale_stays_in_range_witness :
  float_in_range
    (scale (transform
       (run ([SetViewport (viewportRef mounted); SetSvgSize (svgSize mounted);
              FitToView; SyncTransformRef]
             ++ repeat (ZoomByFactor (literal 12 10)) 30
             ++ [SyncTransformRef; WheelZoom (pointer_event 0 1 100 100);
                 PointerDown (pointer_event 0 1 10 10);
                 PointerMove (pointer_event 0 1 50 60);
                 ApplyZoomAroundPoint (literal 1000 1) (literal 5 1)
                   (literal 5 1)])
          initial))) = true.
Proof.
  apply scale_stays_in_range.
  apply Forall_app. split; [|apply Forall_app; split].
  - repeat constructor; vm_compute; intuition discriminate.
  - apply Forall_forall. intros a Ha. apply repeat_spec in Ha. subst a.
    reflexivity.
  - repeat constructor.
Defined.

(** Without the condition on what is asked for the scale leaves the
    range: a NaN asked for is the scale. *)
Remark scale_nan_asked (p : Panel PrimFloat.float)
  (nextScale px py : PrimFloat.float) :
  PrimFloat.is_nan nextScale = true ->
  PrimFloat.is_nan
    (scale (transform (applyZoomAroundPoint nextScale px py p))) = true.
Proof. apply float_clamp_nan. Qed.

(** ** Zooming around an anchor *)

Lemma magnitude_le_mono (k k' : Z) (v : PrimFloat.float) :
  (k <= k')%Z -> magnitude_le k v -> magnitude_le k' v.
Proof.
  intros Hk [F H]. split; [exact F|].
  eapply Qle_trans; [exact H | apply pow2_le; exact Hk].
Qed.

Lemma pow2_double (k : Z) : pow2 (k + 1) == 2 * pow2 k.
Proof. rewrite Z.add_comm, pow2_add. reflexivity. Qed.

Lemma pow2_lt_1023 (k : Z) : (k < 1023)%Z -> pow2 k < pow2 1023.
Proof. intros H. apply Qpower_lt_compat_l; [exact H | reflexivity]. Qed.

Lemma Qabs_le_split (x b : Q) : Qabs x <= b -> - b <= x /\ x <= b.
Proof. apply Qabs_Qle_condition. Qed.

Lemma Qabs_le_join (x b : Q) : - b <= x -> x <= b -> Qabs x <= b.
Proof. intros H1 H2. apply Qabs_Qle_condition. split; assumption. Qed.

(** Scaling by a factor between 1/5 and 16. *)
Lemma Qabs_scaled (c s : Q) :
  1 # 5 <= s -> s <= 16 -> Qabs (c * s) <= 16 * Qabs c.
Proof.
  intros H1 H2. rewrite Qabs_Qmult. rewrite (Qabs_pos s) by lra.
  pose proof (Qabs_nonneg c). nra.
Qed.

Lemma Qabs_unscaled (d c s : Q) :
  1 # 5 <= s -> Qabs (d / s - c) <= 5 * Qabs (d - c * s).
Proof.
  intros H1.
  assert (Hs : ~ s == 0) by (intros E; lra).
  setoid_replace (d / s - c) with ((d - c * s) * / s) by (field; exact Hs).
  rewrite Qabs_Qmult. rewrite (Qabs_pos (/ s))
    by (apply Qlt_le_weak, Qinv_lt_0_compat; lra).
  assert (Hinv : / s <= 5).
  { apply Qle_shift_inv_r; lra. }
  pose proof (Qabs_nonneg (d - c * s)).
  assert (0 < / s) by (apply Qinv_lt_0_compat; lra).
  nra.
Qed.

(** The error of a zoom around an anchor: [C] is the content point under
    the anchor before, [M], [X'], [D2] and [C'] are the product, the two
    differences and the quotient the code computes after it. *)
Lemma anchor_error (A C S M X' D2 C' : Q) :
  1 # 5 <= S -> S <= 16 ->
  rounds_to M (C * S) -> rounds_to X' (A - M) ->
  rounds_to D2 (A - X') -> rounds_to C' (D2 / S) ->
  Qabs (C' - C) <= pow2 (-43) * (Qabs C + Qabs A) + pow2 (-1060).
Proof.
  intros HS1 HS2 HM HX HD HC.
  pose proof (Qabs_nonneg C) as Hc0. pose proof (Qabs_nonneg A) as Ha0.
  set (c := Qabs C) in *. set (a := Qabs A) in *.
  pose proof (Qabs_le_split _ _ (Qle_refl (Qabs A))) as [HA1 HA2]. fold a in HA1, HA2.
  pose proof (Qabs_scaled C S HS1 HS2) as HCS. fold c in HCS.
  destruct (rounds_to_bound _ _ _ HM HCS) as [HM1 HM2].
  apply Qabs_le_split in HCS, HM1, HM2.
  assert (HAM : Qabs (A - M) <= a + ((1 + eps) * (16 * c) + eta))
    by (apply Qabs_le_join; lra).
  destruct (rounds_to_bound _ _ _ HX HAM) as [HX1 _].
  apply Qabs_le_split in HX1.
  set (b3 := eps * (16 * c) + eta) in *.
  set (m := (1 + eps) * (16 * c) + eta) in *.
  set (b4 := eps * (a + m) + eta) in *.
  assert (HAX : Qabs (A - X') <= m + b4) by (apply Qabs_le_join; lra).
  destruct (rounds_to_bound _ _ _ HD HAX) as [HD1 _].
  apply Qabs_le_split in HD1.
  set (b5 := eps * (m + b4) + eta) in *.
  assert (Hdiff : Qabs (D2 - C * S) <= b3 + b4 + b5)
    by (apply Qabs_le_join; lra).
  pose proof (Qabs_unscaled D2 C S HS1) as Hq.
  assert (Hq' : Qabs (D2 / S - C) <= 5 * (b3 + b4 + b5)) by lra.
  assert (HDS : Qabs (D2 / S) <= c + 5 * (b3 + b4 + b5)).
  { setoid_replace (D2 / S) with ((D2 / S - C) + C) by ring.
    eapply Qle_trans; [apply Qabs_triangle|]. fold c. lra. }
  destruct (rounds_to_bound _ _ _ HC HDS) as [HC1 _].
  apply Qabs_le_split in HC1, Hq'.
  apply Qabs_le_join.
  all: unfold b5, b4, m, b3 in *;
    assert (He : eps == 1 # 4503599627370496) by reflexivity;
    assert (Hp43 : pow2 (-43) == 1 # 8796093022208) by reflexivity;
    assert (Hp : pow2 (-1060) == 16384 * eta)
      by (unfold eta; change (-1060)%Z with (14 + -1074)%Z;
          rewrite pow2_add; reflexivity);
    pose proof eta_pos as Heta;
    rewrite He in *; rewrite Hp43, Hp; lra.
Qed.

(** A difference of two numbers of at most 2^k. *)
Lemma sub_bounded (a b : PrimFloat.float) (k : Z) :
  (-1000 <= k <= 1020)%Z -> magnitude_le k a -> magnitude_le k b ->
  magnitude_le (k + 2) (PrimFloat.sub a b)
  /\ rounds_to (value (PrimFloat.sub a b)) (value a - value b).
Proof.
  intros Hk [Fa Ha] [Fb Hb].
  assert (Hd : Qabs (value a - value b) <= pow2 (k + 1)).
  { rewrite pow2_double. apply Qabs_Qle_condition in Ha, Hb.
    apply Qabs_Qle_condition. split; lra. }
  destruct (sub_model a b Fa Fb) as [F R].
  { eapply Qle_lt_trans; [exact Hd | apply pow2_lt_1023; lia]. }
  split; [|exact R]. split; [exact F|].
  replace (k + 2)%Z with (k + 1 + 1)%Z by lia.
  apply (rounds_to_pow2 _ _ (k + 1) ltac:(lia) R Hd).
Qed.

(** A number of at most 2^k times a scale in the range. *)
Lemma mul_scaled (a s : PrimFloat.float) (k : Z) :
  (-1000 <= k <= 1015)%Z -> magnitude_le k a -> float_in_range s = true ->
  magnitude_le (k + 5) (PrimFloat.mul a s)
  /\ rounds_to (value (PrimFloat.mul a s)) (value a * value s).
Proof.
  intros Hk [Fa Ha] Hs. destruct (in_range_value s Hs) as (Fs & S1 & S2).
  assert (Hd : Qabs (value a * value s) <= pow2 (k + 4)).
  { eapply Qle_trans; [apply Qabs_scaled; assumption|].
    replace (k + 4)%Z with (4 + k)%Z by lia. rewrite pow2_add.
    change (pow2 4) with 16. apply Qmult_le_l; [reflexivity | exact Ha]. }
  destruct (mul_model a s Fa Fs) as [F R].
  { eapply Qle_lt_trans; [exact Hd | apply pow2_lt_1023; lia]. }
  split; [|exact R]. split; [exact F|].
  replace (k + 5)%Z with (k + 4 + 1)%Z by lia.
  apply (rounds_to_pow2 _ _ (k + 4) ltac:(lia) R Hd).
Qed.

(** A number of at most 2^k over a scale in the range. *)
Lemma div_scaled (a s : PrimFloat.float) (k : Z) :
  (-1000 <= k <= 1015)%Z -> magnitude_le k a -> float_in_range s = true ->
  magnitude_le (k + 4) (PrimFloat.div a s)
  /\ rounds_to (value (PrimFloat.div a s)) (value a / value s).
Proof.
  intros Hk [Fa Ha] Hs. destruct (in_range_value s Hs) as (Fs & S1 & S2).
  assert (Hnz : ~ value s == 0) by (intros E; lra).
  assert (Hd : Qabs (value a / value s) <= pow2 (k + 3)).
  { pose proof (Qabs_unscaled (value a) 0 (value s) S1) as H.
    setoid_replace (value a / value s - 0) with (value a / value s) in H by ring.
    setoid_replace (value a - 0 * value s) with (value a) in H by ring.
    eapply Qle_trans; [exact H|].
    replace (k + 3)%Z with (3 + k)%Z by lia. rewrite pow2_add.
    change (pow2 3) with 8.
    pose proof (Qabs_nonneg (value a)). lra. }
  destruct (div_model a s Fa Fs Hnz) as [F R].
  { eapply Qle_lt_trans; [exact Hd | apply pow2_lt_1023; lia]. }
  split; [|exact R]. split; [exact F|].
  replace (k + 4)%Z with (k + 3 + 1)%Z by lia.
  apply (rounds_to_pow2 _ _ (k + 3) ltac:(lia) R Hd).
Qed.

(** One axis of a zoom around an anchor: the content point the new
    offset puts under the anchor agrees with the one that was there. *)
Lemma zoom_axis (anchor offset s s' : PrimFloat.float) :
  float_in_range s = true -> float_in_range s' = true ->
  magnitude_le 1000 anchor -> magnitude_le 1000 offset ->
  let before := PrimFloat.div (PrimFloat.sub anchor offset) s in
  let offset' := PrimFloat.sub anchor (PrimFloat.mul before s') in
  magnitude_le 1013 offset'
  /\ agree anchor before (PrimFloat.div (PrimFloat.sub anchor offset') s').
Proof.
  intros Hs Hs' Ha Ho before offset'.
  destruct (in_range_value s' Hs') as (Fs' & S1 & S2).
  destruct (sub_bounded anchor offset 1000 ltac:(lia) Ha Ho) as [B1 _].
  destruct (div_scaled _ s 1002 ltac:(lia) B1 Hs) as [B2 _]. fold before in B2.
  destruct (mul_scaled before s' 1006 ltac:(lia) B2 Hs') as [B3 R3].
  destruct (sub_bounded anchor (PrimFloat.mul before s') 1011 ltac:(lia))
    as [B4 R4];
    [apply (magnitude_le_mono 1000); [lia | exact Ha] | exact B3 |].
  fold offset' in B4, R4.
  destruct (sub_bounded anchor offset' 1013 ltac:(lia)) as [B5 R5];
    [apply (magnitude_le_mono 1000); [lia | exact Ha] | exact B4 |].
  destruct (div_scaled _ s' 1015 ltac:(lia) B5 Hs') as [B6 R6].
  split; [exact B4|]. split; [apply B6|].
  exact (anchor_error _ _ _ _ _ _ _ S1 S2 R3 R4 R5 R6).
Qed.

(** C3.  In binary64, the arithmetic of the code, the two content
    points agree within floating-point tolerance: for every transform
    with a scale in [0.2, 16], every target scale that is a number and
    every anchor pixel, the offsets and the anchor being numbers of at
    most 2^1000, the content-space point under the anchor pixel after
    [applyZoomAroundPoint] is a number and differs from the one before
    it by at most 2^-43 times the sum of the magnitudes of that point
    and of the anchor coordinate, plus 2^-1060, on both axes. *)
Theorem zoom_keeps_anchor (p : Panel PrimFloat.float)
  (targetScale ax ay : PrimFloat.float) :
  float_in_range (scale (transform p)) = true ->
  PrimFloat.is_nan targetScale = false ->
  magnitude_le 1000 ax -> magnitude_le 1000 ay ->
  magnitude_le 1000 (x (transform p)) ->
  magnitude_le 1000 (y (transform p)) ->
  let p' := applyZoomAroundPoint targetScale ax ay p in
  agree ax (content_x (transform p) ax) (content_x (transform p') ax)
  /\ agree ay (content_y (transform p) ay) (content_y (transform p') ay).
Proof.
  intros Hs Ht Hax Hay Hx Hy p'. subst p'.
  pose proof (float_clamp_range targetScale Ht) as Hs'.
  split.
  - apply (zoom_axis ax (x (transform p)) _ _ Hs Hs' Hax Hx).
  - apply (zoom_axis ay (y (transform p)) _ _ Hs Hs' Hay Hy).
Qed.

(** The theorem at the initial transform, the target 1.1 and the anchor
    (15, 30). *)
Lemma zoom_keeps_anchor_witness :
  let p := initial (num := PrimFloat.float) in
  let p' :=
    applyZoomAroundPoint (literal 11 10) (literal 15 1) (literal 30 1) p in
  agree (literal 15 1) (content_x (transform p) (literal 15 1))
    (content_x (transform p') (literal 15 1))
  /\ agree (literal 30 1) (content_y (transform p) (literal 30 1))
       (content_y (transform p') (literal 30 1)).
Proof.
  apply (zoom_keeps_anchor initial (literal 11 10) (literal 15 1)
           (literal 30 1)).
  - reflexivity.
  - reflexivity.
  - split; [reflexivity | vm_compute; discriminate].
  - split; [reflexivity | vm_compute; discriminate].
  - split; [reflexivity | vm_compute; discriminate].
  - split; [reflexivity | vm_compute; discriminate].
Defined.

(** The two content points are not always the same binary64 number:
    from the initial transform, zooming to 1.1 around the pixel (15, 30)
    gives a transform under which pixel 15 shows the content point
    14.999999999999998, and it showed 15 before. *)
Remark zoom_anchor_rounds :
  let p := initial (num := PrimFloat.float) in
  let p' := applyZoomAroundPoint (literal 11 10) (literal 15 1) (literal 30 1) p in
  PrimFloat.eqb (content_x (transform p') (literal 15 1))
                (content_x (transform p) (literal 15 1)) = false.
Proof. vm_compute. reflexivity. Qed.

(** The tolerance is by the size of the anchor coordinate, not only of
    the content point: with the offset 2^53 at scale 1, zooming to 1.1
    around the pixel 2^53 + 2 moves the content point under it from 2 to
    1.8181818181818181, the new offset 2^53 - 0.2 being rounded to 2^53;
    the two agree in the sense above. *)
Remark zoom_anchor_far :
  let a : PrimFloat.float := literal 9007199254740994 1 in
  let p' := applyZoomAroundPoint (literal 11 10) a (literal 0 1) far in
  content_x (transform far) a = literal 2 1
  /\ PrimFloat.ltb (content_x (transform p') a) (literal 182 100) = true
  /\ agree a (content_x (transform far) a) (content_x (transform p') a).
Proof.
  cbv zeta. split; [vm_compute; reflexivity|].
  split; [vm_compute; reflexivity|].
  split; [vm_compute; reflexivity | vm_compute; discriminate].
Qed.

(** ** Scales and [clamp] as numbers *)

Lemma Qabs_over_scale (d s : Q) : 1 # 5 <= s -> Qabs (d / s) <= 5 * Qabs d.
Proof.
  intros Hs. pose proof (Qabs_unscaled d 0 s Hs) as H.
  setoid_replace (d / s - 0) with (d / s) in H by ring.
  setoid_replace (d - 0 * s) with d in H by ring. exact H.
Qed.

Lemma Qabs_over_same_scale (d1 d2 s : Q) :
  1 # 5 <= s -> Qabs (d1 / s - d2 / s) <= 5 * Qabs (d1 - d2).
Proof.
  intros Hs. assert (Hnz : ~ s == 0) by (intros E; lra).
  setoid_replace (d1 / s - d2 / s) with ((d1 - d2) / s) by (field; exact Hnz).
  apply Qabs_over_scale. exact Hs.
Qed.

(** What [clamp] gives for a finite number: the lower bound, the upper
    bound or the number, by its place. *)
Lemma float_clamp_value (lo hi v : PrimFloat.float) :
  finite lo = true -> finite hi = true -> finite v = true ->
  PrimFloat.get_sign lo = false -> PrimFloat.get_sign hi = false ->
  value lo < value hi ->
  (value (clamp v lo hi) == value lo /\ value v <= value lo)
  \/ (value (clamp v lo hi) == value hi /\ value hi <= value v)
  \/ (value (clamp v lo hi) == value v
      /\ value lo <= value v /\ value v <= value hi).
Proof.
  intros Flo Fhi Fv Hslo Hshi Hlt.
  pose proof (finite_not_nan _ Flo) as Hlo.
  pose proof (finite_not_nan _ Fhi) as Hhi.
  pose proof (finite_not_nan _ Fv) as Hv.
  unfold clamp. cbn [Math_min Math_max Float64]. unfold float_max.
  rewrite Hlo, Hv, Hslo. cbn [orb].
  destruct (PrimFloat.ltb lo v) eqn:E1.
  - pose proof (ltb_value _ _ Flo Fv E1) as V1.
    unfold float_min. rewrite Hhi, Hv, Hshi. cbn [orb].
    destruct (PrimFloat.ltb hi v) eqn:E2.
    + pose proof (ltb_value _ _ Fhi Fv E2) as V2.
      right. left. split; [reflexivity | lra].
    + pose proof (leb_value _ _ Fv Fhi (not_ltb_leb _ _ Hhi Hv E2)) as V2.
      right. right. destruct (PrimFloat.ltb v hi);
        (split; [reflexivity | lra]).
  - pose proof (leb_value _ _ Fv Flo (not_ltb_leb _ _ Hlo Hv E1)) as V1.
    assert (Em : (if PrimFloat.ltb v lo then lo else lo) = lo)
      by (destruct (PrimFloat.ltb v lo); reflexivity).
    rewrite Em. unfold float_min. rewrite Hhi, Hlo, Hshi. cbn [orb].
    destruct (PrimFloat.ltb hi lo) eqn:E2.
    + pose proof (ltb_value _ _ Fhi Flo E2). lra.
    + left. destruct (PrimFloat.ltb lo hi); (split; [reflexivity | lra]).
Qed.

Lemma scale_clamp_value (v : PrimFloat.float) :
  finite v = true ->
  let c := clamp v MIN_SCALE MAX_SCALE in
  let lo := value (MIN_SCALE : PrimFloat.float) in
  (value c == lo /\ value v <= lo)
  \/ (value c == 16 /\ 16 <= value v)
  \/ (value c == value v /\ lo <= value v /\ value v <= 16).
Proof.
  intros Fv c lo. subst c lo.
  assert (Vhi : value (MAX_SCALE : PrimFloat.float) == 16) by reflexivity.
  assert (Hlt : value (MIN_SCALE : PrimFloat.float)
                < value (MAX_SCALE : PrimFloat.float))
    by (vm_compute; reflexivity).
  assert (Flo : finite (MIN_SCALE : PrimFloat.float) = true)
    by reflexivity.
  assert (Fhi : finite (MAX_SCALE : PrimFloat.float) = true)
    by reflexivity.
  assert (Slo : PrimFloat.get_sign MIN_SCALE = false) by reflexivity.
  assert (Shi : PrimFloat.get_sign MAX_SCALE = false) by reflexivity.
  destruct (float_clamp_value MIN_SCALE MAX_SCALE v Flo Fhi Fv Slo Shi Hlt)
    as [H|[H|H]].
  - left. exact H.
  - right. left. rewrite <- Vhi. exact H.
  - right. right. rewrite <- Vhi. exact H.
Qed.

Lemma in_range_min (s : PrimFloat.float) :
  float_in_range s = true -> value (MIN_SCALE : PrimFloat.float) <= value s.
Proof.
  intros H. destruct (in_range_value s H) as (Fs & _).
  unfold float_in_range in H. apply andb_true_iff in H. destruct H as [H _].
  apply leb_value; [reflexivity | exact Fs | exact H].
Qed.

(** ** Fitting and zooming back *)

(** The error of [fitToView] on one side: [CW] and [W] are the sides of
    the viewport and of the diagram, [P], [Q1] and [X] the product, the
    difference and the half the code computes. *)
Lemma fit_error (CW W S P Q1 X : Q) :
  1 # 5 <= S -> S <= 16 ->
  rounds_to P (W * S) -> rounds_to Q1 (CW - P) -> rounds_to X (Q1 / 2) ->
  Qabs (X + W * S / 2 - CW / 2)
  <= pow2 (-47) * (Qabs CW + Qabs W) + pow2 (-1060).
Proof.
  intros HS1 HS2 HP HQ HX.
  apply (rounds_to_eq X X (Q1 / 2) (Q1 * (1 # 2))) in HX;
    [|reflexivity | field].
  setoid_replace (X + W * S / 2 - CW / 2)
    with (X + W * S * (1 # 2) - CW * (1 # 2)) by field.
  pose proof (Qabs_nonneg CW) as Hc0. pose proof (Qabs_nonneg W) as Hw0.
  pose proof (Qabs_le_split _ _ (Qle_refl (Qabs CW))) as [HC1 HC2].
  pose proof (Qabs_scaled W S HS1 HS2) as HWS.
  set (c := Qabs CW) in *. set (w := Qabs W) in *.
  destruct (rounds_to_bound _ _ _ HP HWS) as [E1 K1].
  apply Qabs_le_split in E1, K1.
  set (e1 := eps * (16 * w) + eta) in *.
  set (k1 := (1 + eps) * (16 * w) + eta) in *.
  assert (B2 : Qabs (CW - P) <= c + k1) by (apply Qabs_le_join; lra).
  destruct (rounds_to_bound _ _ _ HQ B2) as [E2 K2].
  apply Qabs_le_split in E2, K2.
  set (e2 := eps * (c + k1) + eta) in *.
  set (k2 := (1 + eps) * (c + k1) + eta) in *.
  assert (B3 : Qabs (Q1 * (1 # 2)) <= k2 * (1 # 2))
    by (apply Qabs_le_join; lra).
  destruct (rounds_to_bound _ _ _ HX B3) as [E3 _].
  apply Qabs_le_split in E3.
  apply Qabs_le_join.
  all: unfold k2, e2, k1, e1 in *;
    assert (He : eps == 1 # 4503599627370496) by reflexivity;
    assert (Hp47 : pow2 (-47) == 1 # 140737488355328) by reflexivity;
    assert (Hp : pow2 (-1060) == 16384 * eta)
      by (unfold eta; change (-1060)%Z with (14 + -1074)%Z;
          rewrite pow2_add; reflexivity);
    pose proof eta_pos as Heta;
    rewrite He in *; rewrite Hp47, Hp; lra.
Qed.

(** One side of [fitToView]. *)
Lemma fit_axis (client size s : PrimFloat.float) :
  float_in_range s = true ->
  magnitude_le 53 client -> magnitude_le 1000 size ->
  centred client size s
    (PrimFloat.div (PrimFloat.sub client (PrimFloat.mul size s))
       (literal 2 1)).
Proof.
  intros Hs Hc Hw.
  destruct (in_range_value s Hs) as (Fs & S1 & S2).
  assert (H2 : float_in_range (literal 2 1) = true)
    by (vm_compute; reflexivity).
  assert (V2 : value (literal 2 1) == 2) by reflexivity.
  destruct (mul_scaled size s 1000 ltac:(lia) Hw Hs) as [B1 R1].
  destruct (sub_bounded client (PrimFloat.mul size s) 1005 ltac:(lia))
    as [B2 R2];
    [apply (magnitude_le_mono 53); [lia | exact Hc] | exact B1 |].
  destruct (div_scaled _ (literal 2 1) 1007 ltac:(lia) B2 H2) as [B3 R3].
  split; [apply B3|].
  apply (fit_error _ _ _ _ _ _ S1 S2 R1 R2).
  eapply rounds_to_eq; [reflexivity | | exact R3].
  rewrite V2. reflexivity.
Qed.

(** X9: fit to view.  In binary64, with a diagram size [extractSvgSize]
    returns whose sides are numbers of at most 2^1000 and a viewport
    whose client sizes are numbers of at most 2^53, [fitToView] sets a
    scale in [0.2, 16] and offsets that put the centre of the diagram
    at the centre of the viewport, whatever the transform was, up to
    2^-47 times the sum of the two sides, plus 2^-1060, on both axes.
    Without a diagram size or without a viewport the panel is left as
    it is. *)
Theorem fit_centres_diagram (p : Panel PrimFloat.float) :
  match svgSize p, viewportRef p with
  | Some size, Some vp =>
      positive_size size -> client_sizes vp ->
      magnitude_le 1000 (width size) -> magnitude_le 1000 (height size) ->
      let t := transform (fitToView p) in
      float_in_range (scale t) = true
      /\ centred (clientWidth vp) (width size) (scale t) (x t)
      /\ centred (clientHeight vp) (height size) (scale t) (y t)
  | _, _ => fitToView p = p
  end.
Proof.
  unfold fitToView.
  destruct (svgSize p) as [size|]; [|reflexivity].
  destruct (viewportRef p) as [vp|]; [|reflexivity].
  intros [Hw Hh] [Hcw Hch] Mw Mh. cbv zeta.
  cbn [setTransform transform scale x y].
  assert (Hs : float_in_range
                 (clamp
                    (Math_min
                       (PrimFloat.div
                          (PrimFloat.sub (clientWidth vp) (literal 48 1))
                          (width size))
                       (PrimFloat.div
                          (PrimFloat.sub (clientHeight vp) (literal 48 1))
                          (height size)))
                    MIN_SCALE MAX_SCALE) = true).
  { apply float_clamp_range. apply float_min_not_nan;
      apply fit_ratio_not_nan; assumption. }
  split; [exact Hs|]. split.
  - apply (fit_axis _ _ _ Hs Hcw Mw).
  - apply (fit_axis _ _ _ Hs Hch Mh).
Qed.

(** The theorem at a diagram of 400 by 200 in a viewport of 848 by 648:
    the scale is 2 and the offsets are 24 and 124. *)
Lemma fit_centres_diagram_witness :
  let t := transform (fitToView mounted) in
  (float_in_range (scale t) = true
   /\ centred (literal 848 1) (literal 400 1) (scale t) (x t)
   /\ centred (literal 648 1) (literal 200 1) (scale t) (y t))
  /\ scale t = literal 2 1 /\ x t = literal 24 1 /\ y t = literal 124 1.
Proof.
  assert (Hm : forall (k : Z) (v : PrimFloat.float),
             finite v = true ->
             Qle_bool (Qabs (value v)) (pow2 k) = true ->
             magnitude_le k v).
  { intros k v F H. split; [exact F | apply Qle_bool_iff; exact H]. }
  split.
  - apply (fit_centres_diagram mounted).
    + split; vm_compute; reflexivity.
    + split; apply Hm; vm_compute; reflexivity.
    + apply Hm; vm_compute; reflexivity.
    + apply Hm; vm_compute; reflexivity.
  - vm_compute. repeat split.
Defined.

Lemma Qabs_rescaled (c d s : Q) :
  1 # 5 <= s -> s <= 16 -> Qabs (c * s - d) <= 16 * Qabs (c - d / s).
Proof.
  intros H1 H2. assert (Hs : ~ s == 0) by (intros E; lra).
  setoid_replace (c * s - d) with ((c - d / s) * s) by (field; exact Hs).
  apply Qabs_scaled; assumption.
Qed.

(** The error of a zoom and a zoom back around an anchor: [D], [C0],
    [M1], [X1], [D1], [C1], [Mb] and [Xb] are the differences, quotients
    and products the two calls compute, from the offset [X] and the
    scale [S] through the scale [S1] and back. *)
Lemma return_error (A X S S1 D C0 M1 X1 D1 C1 Mb Xb : Q) :
  1 # 5 <= S -> S <= 16 -> 1 # 5 <= S1 -> S1 <= 16 ->
  rounds_to D (A - X) -> rounds_to C0 (D / S) ->
  rounds_to M1 (C0 * S1) -> rounds_to X1 (A - M1) ->
  rounds_to D1 (A - X1) -> rounds_to C1 (D1 / S1) ->
  rounds_to Mb (C1 * S) -> rounds_to Xb (A - Mb) ->
  Qabs (Xb - X) <= pow2 (-36) * (Qabs X + Qabs A) + pow2 (-1050).
Proof.
  intros HS1 HS2 HT1 HT2 HD HC0 HM1 HX1 HD1 HC1 HMb HXb.
  pose proof (anchor_error _ _ _ _ _ _ _ HT1 HT2 HM1 HX1 HD1 HC1) as Htau.
  pose proof (Qabs_nonneg X) as Hx0. pose proof (Qabs_nonneg A) as Ha0.
  pose proof (Qabs_le_split _ _ (Qle_refl (Qabs A))) as [HA1 HA2].
  pose proof (Qabs_le_split _ _ (Qle_refl (Qabs X))) as [HX1' HX2'].
  set (a := Qabs A) in *. set (x := Qabs X) in *.
  assert (B1 : Qabs (A - X) <= a + x) by (apply Qabs_le_join; lra).
  destruct (rounds_to_bound _ _ _ HD B1) as [E1 K1].
  set (e1 := eps * (a + x) + eta) in *.
  set (d := (1 + eps) * (a + x) + eta) in *.
  pose proof (Qabs_over_scale D S HS1) as HDS.
  assert (B2 : Qabs (D / S) <= 5 * d) by lra.
  destruct (rounds_to_bound _ _ _ HC0 B2) as [E2 K2].
  set (e2 := eps * (5 * d) + eta) in *.
  set (c := (1 + eps) * (5 * d) + eta) in *.
  pose proof (Qabs_rescaled C0 D S HS1 HS2) as HR.
  assert (HR' : Qabs (C0 * S - D) <= 16 * e2) by lra.
  set (tau := pow2 (-43) * (c + a) + pow2 (-1060)).
  assert (Hp43 : 0 <= pow2 (-43)) by (apply Qlt_le_weak, pow2_pos).
  assert (Htau' : Qabs (C1 - C0) <= tau).
  { eapply Qle_trans; [exact Htau|]. unfold tau.
    assert (pow2 (-43) * Qabs C0 <= pow2 (-43) * c)
      by nra.
    fold a. lra. }
  pose proof (Qabs_scaled (C1 - C0) S HS1 HS2) as HCS.
  assert (HCS' : Qabs (C1 * S - C0 * S) <= 16 * tau).
  { setoid_replace (C1 * S - C0 * S) with ((C1 - C0) * S) by ring. lra. }
  assert (K3 : Qabs C1 <= c + tau).
  { apply Qabs_le_split in Htau', K2. apply Qabs_le_join; lra. }
  pose proof (Qabs_scaled C1 S HS1 HS2) as HC1S.
  assert (B4 : Qabs (C1 * S) <= 16 * (c + tau)) by lra.
  destruct (rounds_to_bound _ _ _ HMb B4) as [E4 _].
  set (e4 := eps * (16 * (c + tau)) + eta) in *.
  apply Qabs_le_split in E1, HR', HCS', E4.
  assert (B5 : Qabs (A - Mb) <= x + (e1 + 16 * e2 + 16 * tau + e4))
    by (apply Qabs_le_join; lra).
  destruct (rounds_to_bound _ _ _ HXb B5) as [E5 _].
  apply Qabs_le_split in E5.
  apply Qabs_le_join.
  all: unfold e4, tau, c, e2, d, e1 in *;
    assert (He : eps == 1 # 4503599627370496) by reflexivity;
    assert (Hq43 : pow2 (-43) == 1 # 8796093022208) by reflexivity;
    assert (Hq36 : pow2 (-36) == 1 # 68719476736) by reflexivity;
    assert (Hp : pow2 (-1060) == 16384 * eta)
      by (unfold eta; change (-1060)%Z with (14 + -1074)%Z;
          rewrite pow2_add; reflexivity);
    assert (Hp' : pow2 (-1050) == 16777216 * eta)
      by (unfold eta; change (-1050)%Z with (24 + -1074)%Z;
          rewrite pow2_add; reflexivity);
    pose proof eta_pos as Heta;
    rewrite He, Hq43, Hp in *; rewrite Hq36, Hp'; lra.
Qed.

(** A scale in the range is its own clamp, as a number. *)
Lemma clamp_in_range (s : PrimFloat.float) :
  float_in_range s = true ->
  value (clamp s MIN_SCALE MAX_SCALE) == value s.
Proof.
  intros Hs. destruct (in_range_value s Hs) as (Fs & S1 & S2).
  pose proof (in_range_min s Hs) as S0.
  pose proof (scale_clamp_value s Fs) as Hc. cbv zeta in Hc.
  destruct Hc as [[E H]|[[E H]|[E H]]]; rewrite E; lra.
Qed.

(** One axis of a zoom and a zoom back. *)
Lemma return_axis (anchor offset s s1 sb : PrimFloat.float) :
  float_in_range s = true -> float_in_range s1 = true ->
  float_in_range sb = true -> value sb == value s ->
  magnitude_le 990 anchor -> magnitude_le 990 offset ->
  let c0 := PrimFloat.div (PrimFloat.sub anchor offset) s in
  let x1 := PrimFloat.sub anchor (PrimFloat.mul c0 s1) in
  let c1 := PrimFloat.div (PrimFloat.sub anchor x1) s1 in
  returns anchor offset (PrimFloat.sub anchor (PrimFloat.mul c1 sb)).
Proof.
  intros Hs Hs1 Hsb Vsb Ha Ho c0 x1 c1.
  destruct (in_range_value s Hs) as (_ & S1 & S2).
  destruct (in_range_value s1 Hs1) as (_ & T1 & T2).
  assert (Ha' : forall k, (990 <= k)%Z -> magnitude_le k anchor)
    by (intros k Hk; apply (magnitude_le_mono 990); assumption).
  destruct (sub_bounded anchor offset 990 ltac:(lia) Ha Ho) as [B1 R1].
  destruct (div_scaled _ s 992 ltac:(lia) B1 Hs) as [B2 R2].
  fold c0 in B2, R2.
  destruct (mul_scaled c0 s1 996 ltac:(lia) B2 Hs1) as [B3 R3].
  destruct (sub_bounded anchor (PrimFloat.mul c0 s1) 1001 ltac:(lia))
    as [B4 R4]; [apply Ha'; lia | exact B3 |].
  fold x1 in B4, R4.
  destruct (sub_bounded anchor x1 1003 ltac:(lia)) as [B5 R5];
    [apply Ha'; lia | exact B4 |].
  destruct (div_scaled _ s1 1005 ltac:(lia) B5 Hs1) as [B6 R6].
  fold c1 in B6, R6.
  destruct (mul_scaled c1 sb 1009 ltac:(lia) B6 Hsb) as [B7 R7].
  destruct (sub_bounded anchor (PrimFloat.mul c1 sb) 1014 ltac:(lia))
    as [B8 R8]; [apply Ha'; lia | exact B7 |].
  split; [apply B8|].
  apply (return_error _ _ _ _ _ _ _ _ _ _
           (value (PrimFloat.mul c1 sb)) _ S1 S2 T1 T2
           R1 R2 R3 R4 R5 R6); [|exact R8].
  eapply rounds_to_eq; [reflexivity | | exact R7].
  rewrite Vsb. reflexivity.
Qed.

(** X10: zooming there and back.  In binary64, for a scale in [0.2, 16],
    a target scale that is a number and offsets and an anchor that are
    numbers of at most 2^990: [applyZoomAroundPoint] to the target
    scale and then back to the scale one started from, around the same
    anchor, gives back the scale, and each offset is a number that
    differs from the one one started from by at most 2^-36 times the sum
    of the magnitudes of that offset and of the anchor coordinate, plus
    2^-1050. *)
Theorem zoom_there_and_back (p : Panel PrimFloat.float)
  (s1 ax ay : PrimFloat.float) :
  float_in_range (scale (transform p)) = true ->
  PrimFloat.is_nan s1 = false ->
  magnitude_le 990 ax -> magnitude_le 990 ay ->
  magnitude_le 990 (x (transform p)) ->
  magnitude_le 990 (y (transform p)) ->
  let back :=
    transform (applyZoomAroundPoint (scale (transform p)) ax ay
                 (applyZoomAroundPoint s1 ax ay p)) in
  value (scale back) == value (scale (transform p))
  /\ returns ax (x (transform p)) (x back)
  /\ returns ay (y (transform p)) (y back).
Proof.
  intros Hs H1 Hax Hay Hx Hy back. subst back.
  pose proof (float_clamp_range s1 H1) as Hs1.
  pose proof (float_clamp_range _ (finite_not_nan _
                (proj1 (in_range_value _ Hs)))) as Hsb.
  pose proof (clamp_in_range _ Hs) as Vsb.
  unfold applyZoomAroundPoint, setTransform.
  cbn [transform scale x y sub mul div Float64].
  split; [exact Vsb|]. split.
  - apply (return_axis ax (x (transform p)) _ _ _ Hs Hs1 Hsb Vsb Hax Hx).
  - apply (return_axis ay (y (transform p)) _ _ _ Hs Hs1 Hsb Vsb Hay Hy).
Qed.

(** The theorem at the initial transform: to 3 and back to 1, around the
    pixel (15, 30). *)
Lemma zoom_there_and_back_witness :
  let p := initial (num := PrimFloat.float) in
  let back :=
    transform (applyZoomAroundPoint (scale (transform p)) (literal 15 1)
                 (literal 30 1)
                 (applyZoomAroundPoint (literal 3 1) (literal 15 1)
                    (literal 30 1) p)) in
  value (scale back) == value (scale (transform p))
  /\ returns (literal 15 1) (x (transform p)) (x back)
  /\ returns (literal 30 1) (y (transform p)) (y back).
Proof.
  assert (Hm : forall (v : PrimFloat.float),
             finite v = true ->
             Qle_bool (Qabs (value v)) (pow2 990) = true ->
             magnitude_le 990 v).
  { intros v F H. split; [exact F | apply Qle_bool_iff; exact H]. }
  apply (zoom_there_and_back (initial (num := PrimFloat.float))
           (literal 3 1) (literal 15 1) (literal 30 1));
    try reflexivity; apply Hm; vm_compute; reflexivity.
Defined.

(** ** Drag sessions *)

(** C9 (as amended).  The panel has one slot for a drag session, so at
    most one is open.  A pointer-down of a button other than the primary
    one changes nothing.  A primary-button pointer-down opens a session
    for its pointer, in the place of the session that was open if there
    was one, and leaves the transform alone.  While a session is open,
    the pointer-move and the pointer-up or cancel of another pointer
    change nothing; the pointer-up or cancel of the session's pointer
    ends the session, and its pointer-move keeps it.  With no session
    open, pointer-move and pointer-up change nothing. *)
Theorem drag_session_slot {num : Type} {arith : Number num}
  (p : Panel num) (event : Event num) :
  (button event <> 0%Z -> handlePointerDown event p = p)
  /\ (button event = 0%Z ->
      dragRef (handlePointerDown event p) = Some (session_of event p)
      /\ transform (handlePointerDown event p) = transform p)
  /\ (forall d, dragRef p = Some d -> pointerId d <> event_pointerId event ->
      handlePointerMove event p = p /\ handlePointerUp event p = p)
  /\ (forall d, dragRef p = Some d -> pointerId d = event_pointerId event ->
      dragRef (handlePointerUp event p) = None
      /\ dragRef (handlePointerMove event p) = Some d)
  /\ (dragRef p = None ->
      handlePointerMove event p = p /\ handlePointerUp event p = p).
Proof.
  split; [|split; [|split; [|split]]].
  - intros Hb. unfold handlePointerDown. apply Z.eqb_neq in Hb. rewrite Hb.
    reflexivity.
  - intros Hb. unfold handlePointerDown. rewrite Hb, Z.eqb_refl.
    split; reflexivity.
  - intros d Hd Hid. unfold handlePointerMove, handlePointerUp. rewrite Hd.
    apply Z.eqb_neq in Hid. rewrite Hid. split; reflexivity.
  - intros d Hd Hid. unfold handlePointerMove, handlePointerUp.
    rewrite Hd, Hid, Z.eqb_refl. split; [reflexivity | exact Hd].
  - intros Hd. unfold handlePointerMove, handlePointerUp. rewrite Hd.
    split; reflexivity.
Qed.

(** C9 as stated fails: while pointer 1 drags, the primary-button
    pointer-down of pointer 2 is not ignored; the session becomes that of
    pointer 2, with its start coordinates. *)
Lemma pointer_down_replaces_session :
  ~ (forall (p : Panel PrimFloat.float) (d : DragState PrimFloat.float)
       (event : Event PrimFloat.float),
       dragRef p = Some d -> dragRef (handlePointerDown event p) = Some d).
Proof.
  intros H.
  specialize (H dragging (session_of (pointer_event 0 1 10 10) initial)
                (pointer_event 0 2 50 60) eq_refl).
  vm_compute in H. discriminate H.
Qed.

(** The theorem while pointer 1 drags: pointer 2 takes the session over,
    the pointer-up of pointer 1 then changes nothing; a pointer-down of
    another button is ignored, and the pointer-up of pointer 1 ends its
    own session. *)
Lemma drag_session_slot_witness :
  dragRef (handlePointerDown (pointer_event 0 2 50 60) dragging)
  = Some (session_of (pointer_event 0 2 50 60) dragging)
  /\ handlePointerUp (pointer_event 0 1 70 80)
       (handlePointerDown (pointer_event 0 2 50 60) dragging)
     = handlePointerDown (pointer_event 0 2 50 60) dragging
  /\ handlePointerDown (pointer_event 2 3 0 0) dragging = dragging
  /\ dragRef (handlePointerUp (pointer_event 0 1 70 80) dragging) = None.
Proof.
  pose proof (drag_session_slot dragging (pointer_event 0 2 50 60))
    as (_ & Hdown & _).
  pose proof (drag_session_slot
                (handlePointerDown (pointer_event 0 2 50 60) dragging)
                (pointer_event 0 1 70 80)) as (_ & _ & Hother & _).
  pose proof (drag_session_slot dragging (pointer_event 2 3 0 0))
    as (Hbutton & _).
  pose proof (drag_session_slot dragging (pointer_event 0 1 70 80))
    as (_ & _ & _ & Hup & _).
  split; [|split; [|split]].
  - apply Hdown. reflexivity.
  - eapply Hother; [apply Hdown; reflexivity | vm_compute; discriminate].
  - apply Hbutton. vm_compute. discriminate.
  - eapply Hup; reflexivity.
Defined.

(** ** Dragging *)

Lemma drag_action_keeps {num : Type} {arith : Number num}
  (d : DragState num) (a : action num) (p : Panel num) :
  drag_action (pointerId d) a -> dragRef p = Some d ->
  dragRef (step a p) = Some d
  /\ scale (transform (step a p)) = scale (transform p)
  /\ svgSize (step a p) = svgSize p
  /\ viewportRef (step a p) = viewportRef p.
Proof.
  intros Ha Hd. destruct a; try contradiction; cbn [step].
  - cbn [drag_action] in Ha. unfold handlePointerMove. rewrite Hd.
    rewrite Ha, Z.eqb_refl. cbn [negb]. repeat split. exact Hd.
  - repeat split. exact Hd.
Qed.

(** During a drag the session stays and the scale does not change. *)
Lemma drag_session_kept {num : Type} {arith : Number num}
  (p : Panel num) (down : Event num) (moves : list (action num)) :
  button down = 0%Z ->
  Forall (drag_action (event_pointerId down)) moves ->
  dragRef (run (PointerDown down :: moves) p) = Some (session_of down p)
  /\ scale (transform (run (PointerDown down :: moves) p))
     = scale (transform p).
Proof.
  intros Hb Hmoves. cbn [run fold_left step].
  fold (run moves (handlePointerDown down p)).
  set (d := session_of down p).
  assert (H0 : dragRef (handlePointerDown down p) = Some d
               /\ scale (transform (handlePointerDown down p))
                  = scale (transform p)).
  { unfold handlePointerDown. rewrite Hb. split; reflexivity. }
  destruct H0 as [Hd0 Hs0]. rewrite <- Hs0. revert Hd0.
  generalize (handlePointerDown down p).
  induction Hmoves as [|a moves Ha _ IH]; intros q Hq.
  - split; [exact Hq | reflexivity].
  - cbn [run fold_left]. fold (run moves (step a q)).
    destruct (drag_action_keeps d a q Ha Hq) as (Hd & Hs & _).
    destruct (IH _ Hd) as [IH1 IH2]. split; [exact IH1|]. congruence.
Qed.

Lemma run_snoc {num : Type} {arith : Number num}
  (actions : list (action num)) (a : action num) (p : Panel num) :
  run (actions ++ [a]) p = step a (run actions p).
Proof. unfold run. rewrite fold_left_app. reflexivity. Qed.

(** X11: a drag follows the last move.  After a primary-button
    pointer-down and any pointer-moves of that pointer (the transform
    ref copied or not in between), ending with a move, the transform is
    the one of the ref at the pointer-down shifted by the way from the
    pointer-down to the last move: [startX + clientX - startClientX],
    computed once, so the moves in between leave no trace and no rounding
    adds up.  The scale is the one before the drag and the session is
    still open. *)
Theorem drag_follows_last_move {num : Type} {arith : Number num}
  (p : Panel num) (down : Event num) (moves : list (action num))
  (last : Event num) :
  button down = 0%Z ->
  Forall (drag_action (event_pointerId down)) moves ->
  event_pointerId last = event_pointerId down ->
  let p' := run (PointerDown down :: moves ++ [PointerMove last]) p in
  x (transform p')
  = ((x (transformRef p) + clientX last)%num - clientX down)%num
  /\ y (transform p')
     = ((y (transformRef p) + clientY last)%num - clientY down)%num
  /\ scale (transform p') = scale (transform p)
  /\ dragRef p' = Some (session_of down p).
Proof.
  intros Hb Hmoves Hlast p'. subst p'.
  rewrite app_comm_cons, run_snoc. cbn [step].
  destruct (drag_session_kept p down moves Hb Hmoves) as [Hd Hs].
  unfold handlePointerMove. rewrite Hd.
  change (pointerId (session_of down p)) with (event_pointerId down).
  rewrite Hlast, Z.eqb_refl.
  cbn [negb setTransform transform x y scale dragRef].
  repeat split; [exact Hs | exact Hd].
Qed.

(** The theorem at a drag from (100, 100) through (105, 140) to
    (130, 90). *)
Lemma drag_follows_last_move_witness :
  let p' :=
    run [PointerDown (pointer_event 0 1 100 100);
         PointerMove (pointer_event 0 1 105 140); SyncTransformRef;
         PointerMove (pointer_event 0 1 130 90)]
      (initial (num := PrimFloat.float)) in
  x (transform p') = literal 30 1
  /\ y (transform p') = PrimFloat.opp (literal 10 1)
  /\ scale (transform p') = literal 1 1
  /\ dragRef p' = Some (session_of (pointer_event 0 1 100 100) initial).
Proof.
  assert (Hmoves : Forall (drag_action 1)
                     [PointerMove (pointer_event 0 1 105 140);
                      SyncTransformRef])
    by (repeat constructor).
  exact (drag_follows_last_move (initial (num := PrimFloat.float))
           (pointer_event 0 1 100 100)
           [PointerMove (pointer_event 0 1 105 140); SyncTransformRef]
           (pointer_event 0 1 130 90) eq_refl Hmoves eq_refl).
Defined.

(** ** The grabbed point *)

(** A sum of two numbers of at most 2^k. *)
Lemma add_bounded (a b : PrimFloat.float) (k : Z) :
  (-1000 <= k <= 1020)%Z -> magnitude_le k a -> magnitude_le k b ->
  magnitude_le (k + 2) (PrimFloat.add a b)
  /\ rounds_to (value (PrimFloat.add a b)) (value a + value b).
Proof.
  intros Hk [Fa Ha] [Fb Hb].
  assert (Hd : Qabs (value a + value b) <= pow2 (k + 1)).
  { rewrite pow2_double. apply Qabs_Qle_condition in Ha, Hb.
    apply Qabs_Qle_condition. split; lra. }
  destruct (add_model a b Fa Fb) as [F R].
  { eapply Qle_lt_trans; [exact Hd | apply pow2_lt_1023; lia]. }
  split; [|exact R]. split; [exact F|].
  replace (k + 2)%Z with (k + 1 + 1)%Z by lia.
  apply (rounds_to_pow2 _ _ (k + 1) ltac:(lia) R Hd).
Qed.

(** The error of a drag: [X] is the offset the drag starts from, [D] and
    [L] the pointer coordinates at its start and now, [N] and [C] the
    difference and the quotient of the content point that was grabbed,
    [A1], [X'], [N'] and [C'] the sum, the two differences and the
    quotient the code computes for the content point under the pointer
    now. *)
Lemma drag_error (X L D S A1 X' N' C' N C : Q) :
  1 # 5 <= S -> S <= 16 ->
  rounds_to A1 (X + L) -> rounds_to X' (A1 - D) ->
  rounds_to N' (L - X') -> rounds_to C' (N' / S) ->
  rounds_to N (D - X) -> rounds_to C (N / S) ->
  Qabs (C' - C)
  <= pow2 (-46) * (Qabs X + Qabs D + Qabs L) + pow2 (-1060).
Proof.
  intros HS1 HS2 HA1 HX' HN' HC' HN HC.
  pose proof (Qabs_nonneg X) as Hx0. pose proof (Qabs_nonneg L) as Hl0.
  pose proof (Qabs_nonneg D) as Hd0.
  pose proof (Qabs_le_split _ _ (Qle_refl (Qabs X))) as [HX1 HX2].
  pose proof (Qabs_le_split _ _ (Qle_refl (Qabs L))) as [HL1 HL2].
  pose proof (Qabs_le_split _ _ (Qle_refl (Qabs D))) as [HD1 HD2].
  set (M := Qabs X + Qabs D + Qabs L) in *.
  set (x := Qabs X) in *. set (l := Qabs L) in *. set (d := Qabs D) in *.
  assert (B1 : Qabs (X + L) <= M) by (apply Qabs_le_join; unfold M; lra).
  destruct (rounds_to_bound _ _ _ HA1 B1) as [E1 _].
  set (e1 := eps * M + eta) in *. apply Qabs_le_split in E1.
  assert (B2 : Qabs (A1 - D) <= M + e1) by (apply Qabs_le_join; unfold M; lra).
  destruct (rounds_to_bound _ _ _ HX' B2) as [E2 _].
  set (e2 := eps * (M + e1) + eta) in *. apply Qabs_le_split in E2.
  assert (B3 : Qabs (L - X') <= M + e1 + e2)
    by (apply Qabs_le_join; unfold M; lra).
  destruct (rounds_to_bound _ _ _ HN' B3) as [E3 _].
  set (e3 := eps * (M + e1 + e2) + eta) in *. apply Qabs_le_split in E3.
  assert (B4 : Qabs (D - X) <= M) by (apply Qabs_le_join; unfold M; lra).
  destruct (rounds_to_bound _ _ _ HN B4) as [E4 _].
  fold e1 in E4. apply Qabs_le_split in E4.
  assert (Hdiff : Qabs (N' - N) <= e1 + e2 + e3 + e1)
    by (apply Qabs_le_join; lra).
  pose proof (Qabs_over_same_scale N' N S HS1) as Hq.
  assert (BN : Qabs N <= M + e1) by (apply Qabs_le_join; unfold M; lra).
  assert (BN' : Qabs N' <= M + e1 + e2 + e3)
    by (apply Qabs_le_join; unfold M; lra).
  pose proof (Qabs_over_scale N S HS1) as HNS.
  pose proof (Qabs_over_scale N' S HS1) as HNS'.
  assert (BNS : Qabs (N / S) <= 5 * (M + e1)) by lra.
  assert (BNS' : Qabs (N' / S) <= 5 * (M + e1 + e2 + e3)) by lra.
  destruct (rounds_to_bound _ _ _ HC BNS) as [E5 _].
  destruct (rounds_to_bound _ _ _ HC' BNS') as [E6 _].
  assert (Hq' : Qabs (N' / S - N / S) <= 5 * (e1 + e2 + e3 + e1)) by lra.
  apply Qabs_le_split in E5, E6, Hq'.
  assert (HM : 0 <= M) by (unfold M; lra).
  apply Qabs_le_join.
  all: unfold e3, e2, e1 in *;
    assert (He : eps == 1 # 4503599627370496) by reflexivity;
    assert (Hp46 : pow2 (-46) == 1 # 70368744177664) by reflexivity;
    assert (Hp : pow2 (-1060) == 16384 * eta)
      by (unfold eta; change (-1060)%Z with (14 + -1074)%Z;
          rewrite pow2_add; reflexivity);
    pose proof eta_pos as Heta;
    rewrite He in *; rewrite Hp46, Hp; lra.
Qed.

(** One axis of a drag. *)
Lemma drag_axis (offset down last s : PrimFloat.float) :
  float_in_range s = true ->
  magnitude_le 1000 offset -> magnitude_le 1000 down ->
  magnitude_le 1000 last ->
  let offset' := PrimFloat.sub (PrimFloat.add offset last) down in
  follows offset down last
    (PrimFloat.div (PrimFloat.sub down offset) s)
    (PrimFloat.div (PrimFloat.sub last offset') s).
Proof.
  intros Hs Ho Hd Hl offset'.
  destruct (in_range_value s Hs) as (Fs & S1 & S2).
  destruct (add_bounded offset last 1000 ltac:(lia) Ho Hl) as [B1 R1].
  destruct (sub_bounded (PrimFloat.add offset last) down 1002 ltac:(lia))
    as [B2 R2];
    [exact B1 | apply (magnitude_le_mono 1000); [lia | exact Hd] |].
  fold offset' in B2, R2.
  destruct (sub_bounded last offset' 1004 ltac:(lia)) as [B3 R3];
    [apply (magnitude_le_mono 1000); [lia | exact Hl] | exact B2 |].
  destruct (div_scaled _ s 1006 ltac:(lia) B3 Hs) as [B4 R4].
  destruct (sub_bounded down offset 1000 ltac:(lia) Hd Ho) as [B5 R5].
  destruct (div_scaled _ s 1002 ltac:(lia) B5 Hs) as [B6 R6].
  split; [apply B4|].
  exact (drag_error _ _ _ _ _ _ _ _ _ _ S1 S2 R1 R2 R3 R4 R5 R6).
Qed.

(** X12: the grabbed point stays under the pointer.  In binary64, when
    the transform ref holds the transform at the pointer-down, the scale
    is in [0.2, 16] and the offsets and the pointer coordinates are
    numbers of at most 2^1000: the content-space point under the
    pointer at a move of the drag, whatever moves came before, is a
    number and differs from the one that was under the pointer at the
    pointer-down by at most 2^-46 times the sum of the magnitudes of the
    offset and of the two pointer coordinates, plus 2^-1060, on both
    axes. *)
Theorem grabbed_point_follows_pointer
  (p : Panel PrimFloat.float) (down : Event PrimFloat.float)
  (moves : list (action PrimFloat.float)) (last : Event PrimFloat.float) :
  button down = 0%Z ->
  Forall (drag_action (event_pointerId down)) moves ->
  event_pointerId last = event_pointerId down ->
  transformRef p = transform p ->
  float_in_range (scale (transform p)) = true ->
  magnitude_le 1000 (x (transform p)) ->
  magnitude_le 1000 (y (transform p)) ->
  magnitude_le 1000 (clientX down) -> magnitude_le 1000 (clientY down) ->
  magnitude_le 1000 (clientX last) -> magnitude_le 1000 (clientY last) ->
  let p' := run (PointerDown down :: moves ++ [PointerMove last]) p in
  follows (x (transform p)) (clientX down) (clientX last)
    (content_x (transform p) (clientX down))
    (content_x (transform p') (clientX last))
  /\ follows (y (transform p)) (clientY down) (clientY last)
       (content_y (transform p) (clientY down))
       (content_y (transform p') (clientY last)).
Proof.
  intros Hb Hmoves Hlast Hsync Hs Hx Hy Hdx Hdy Hlx Hly p'. subst p'.
  rewrite app_comm_cons, run_snoc. cbn [step].
  destruct (drag_session_kept p down moves Hb Hmoves) as [Hd Hsc].
  unfold handlePointerMove. rewrite Hd.
  change (pointerId (session_of down p)) with (event_pointerId down).
  rewrite Hlast, Z.eqb_refl. unfold content_x, content_y.
  cbn [negb setTransform transform x y scale session_of startX startY
       startClientX startClientY].
  rewrite Hsc, Hsync. split.
  - apply (drag_axis _ _ _ _ Hs Hx Hdx Hlx).
  - apply (drag_axis _ _ _ _ Hs Hy Hdy Hly).
Qed.

(** The theorem at a drag from (100, 100) through (105, 140) to
    (130, 90). *)
Lemma grabbed_point_follows_pointer_witness :
  let p := initial (num := PrimFloat.float) in
  let p' :=
    run [PointerDown (pointer_event 0 1 100 100);
         PointerMove (pointer_event 0 1 105 140); SyncTransformRef;
         PointerMove (pointer_event 0 1 130 90)] p in
  follows (literal 0 1) (literal 100 1) (literal 130 1)
    (content_x (transform p) (literal 100 1))
    (content_x (transform p') (literal 130 1))
  /\ follows (literal 0 1) (literal 100 1) (literal 90 1)
       (content_y (transform p) (literal 100 1))
       (content_y (transform p') (literal 90 1)).
Proof.
  assert (Hmoves : Forall (drag_action 1)
                     [PointerMove (pointer_event 0 1 105 140);
                      SyncTransformRef])
    by (repeat constructor).
  assert (Hm : forall n : Z,
             finite (literal n 1) = true ->
             Qle_bool (Qabs (value (literal n 1))) (pow2 1000) = true ->
             magnitude_le 1000 (literal n 1)).
  { intros n F H. split; [exact F | apply Qle_bool_iff; exact H]. }
  apply (grabbed_point_follows_pointer (initial (num := PrimFloat.float))
           (pointer_event 0 1 100 100)
           [PointerMove (pointer_event 0 1 105 140); SyncTransformRef]
           (pointer_event 0 1 130 90) eq_refl Hmoves eq_refl eq_refl);
    try reflexivity; apply Hm; vm_compute; reflexivity.
Defined.

(** ** The zoom buttons and the wheel *)

(** The factors of the wheel, 1.08 and 0.92 as binary64 numbers, raise
    and lower a scale in the range in spite of the rounding. *)
Lemma wheel_factor (s : PrimFloat.float) (up : bool) :
  float_in_range s = true ->
  let f : PrimFloat.float := if up then literal 108 100 else literal 92 100 in
  let v := PrimFloat.mul s f in
  finite v = true
  /\ (if up then (107 # 100) * value s <= value v
      else value v <= (93 # 100) * value s).
Proof.
  intros Hs f v. destruct (in_range_value s Hs) as (Fs & S1 & S2).
  assert (Ff : finite f = true) by (subst f; destruct up; reflexivity).
  assert (Vf : if up then 1079 # 1000 <= value f /\ value f <= 1081 # 1000
               else 919 # 1000 <= value f /\ value f <= 921 # 1000).
  { subst f. destruct up; split; vm_compute; discriminate. }
  assert (Vf' : 0 <= value f /\ value f <= 2) by (destruct up; lra).
  assert (HB : Qabs (value s * value f) <= 32).
  { rewrite Qabs_Qmult. rewrite (Qabs_pos (value s)), (Qabs_pos (value f))
      by lra. nra. }
  destruct (mul_model s f Fs Ff) as [Fv Rv].
  { apply Qle_lt_trans with 32; [exact HB | reflexivity]. }
  fold v in Fv, Rv. split; [exact Fv|].
  destruct (rounds_to_bound _ _ _ Rv HB) as [E _].
  apply Qabs_le_split in E.
  assert (He : eps == 1 # 4503599627370496) by reflexivity.
  assert (Heta : eta <= 1 # 4503599627370496)
    by (rewrite <- He; apply pow2_le; lia).
  rewrite He in E. destruct up; destruct Vf as [F1 F2]; nra.
Qed.

(** X13: the wheel.  In binary64, with the transform ref up to date, the
    scale in [0.2, 16] and the offsets, the pointer coordinates and the
    corner of the viewport numbers of at most 2^990: after a wheel event
    the scale is in [0.2, 16]; a wheel event with a negative [deltaY]
    never lowers the scale and any other never raises it; the
    content-space point under the pointer stays under it within the
    tolerance of a zoom; and at the bound of the range (16 when zooming
    in, 0.2 when zooming out) the scale stays what it is. *)
Theorem wheel_zooms_at_pointer (p : Panel PrimFloat.float)
  (event : Event PrimFloat.float) (vp : Element PrimFloat.float) :
  viewportRef p = Some vp ->
  transformRef p = transform p ->
  float_in_range (scale (transform p)) = true ->
  magnitude_le 990 (x (transform p)) -> magnitude_le 990 (y (transform p)) ->
  magnitude_le 990 (clientX event) -> magnitude_le 990 (clientY event) ->
  magnitude_le 990 (rect_left vp) -> magnitude_le 990 (rect_top vp) ->
  let t := transform p in
  let t' := transform (handleWheelZoom event p) in
  let px := PrimFloat.sub (clientX event) (rect_left vp) in
  let py := PrimFloat.sub (clientY event) (rect_top vp) in
  let up := PrimFloat.ltb (deltaY event) (literal 0 1) in
  float_in_range (scale t') = true
  /\ (if up then value (scale t) <= value (scale t')
      else value (scale t') <= value (scale t))
  /\ agree px (content_x t px) (content_x t' px)
  /\ agree py (content_y t py) (content_y t' py)
  /\ (value (scale t)
      == value (if up then MAX_SCALE else MIN_SCALE : PrimFloat.float) ->
      value (scale t') == value (scale t)).
Proof.
  intros Hvp Hsync Hs Hx Hy Hcx Hcy Hrl Hrt t t' px py up.
  subst t t' px py up.
  unfold handleWheelZoom. rewrite Hvp, Hsync.
  cbn [ltb mul sub Float64].
  set (up := PrimFloat.ltb (deltaY event) (literal 0 1)).
  set (f := if up then literal 108 100 else literal 92 100).
  destruct (wheel_factor (scale (transform p)) up Hs) as [Fv Vv].
  cbv zeta in Vv. fold f in Fv, Vv.
  set (v := PrimFloat.mul (scale (transform p)) f) in *.
  pose proof (float_clamp_range v (finite_not_nan _ Fv)) as Hs'.
  destruct (in_range_value _ Hs) as (Fs & S1 & S2).
  pose proof (in_range_min _ Hs) as S0.
  pose proof (scale_clamp_value v Fv) as Hc. cbv zeta in Hc.
  assert (Vlo : 1 # 5 <= value (MIN_SCALE : PrimFloat.float)
                /\ value (MIN_SCALE : PrimFloat.float) <= 201 # 1000)
    by (split; vm_compute; discriminate).
  assert (Vhi : value (MAX_SCALE : PrimFloat.float) == 16) by reflexivity.
  destruct (sub_bounded (clientX event) (rect_left vp) 990 ltac:(lia) Hcx Hrl)
    as [Hpx _].
  destruct (sub_bounded (clientY event) (rect_top vp) 990 ltac:(lia) Hcy Hrt)
    as [Hpy _].
  apply (magnitude_le_mono 992 1000) in Hpx, Hpy; try lia.
  apply (magnitude_le_mono 990 1000) in Hx, Hy; try lia.
  unfold applyZoomAroundPoint, setTransform.
  cbn [transform scale x y].
  split; [exact Hs'|]. split; [|split; [|split]].
  - destruct up; destruct Hc as [[E H]|[[E H]|[E H]]]; rewrite E; lra.
  - apply (zoom_axis _ (x (transform p)) _ _ Hs Hs' Hpx Hx).
  - apply (zoom_axis _ (y (transform p)) _ _ Hs Hs' Hpy Hy).
  - intros Hb.
    destruct up; destruct Hc as [[E H]|[[E H]|[E H]]]; rewrite E; lra.
Qed.

(** The theorem at the panel fitted to its viewport, the wheel turned up
    over the pixel (110, 220) of the page. *)
Lemma wheel_zooms_at_pointer_witness :
  let p := syncTransformRef (fitToView mounted) in
  let event : Event PrimFloat.float :=
    {| button := 0%Z; event_pointerId := 1%Z; clientX := literal 110 1;
       clientY := literal 220 1; deltaY := literal (-100) 1 |} in
  let t := transform p in
  let t' := transform (handleWheelZoom event p) in
  let px := PrimFloat.sub (literal 110 1) (literal 10 1) in
  let py := PrimFloat.sub (literal 220 1) (literal 20 1) in
  value (scale t) <= value (scale t')
  /\ agree px (content_x t px) (content_x t' px)
  /\ agree py (content_y t py) (content_y t' py).
Proof.
  set (event := {| button := 0%Z; event_pointerId := 1%Z;
                   clientX := literal 110 1; clientY := literal 220 1;
                   deltaY := literal (-100) 1 |} : Event PrimFloat.float).
  assert (Hm : forall v : PrimFloat.float,
             finite v = true ->
             Qle_bool (Qabs (value v)) (pow2 990) = true ->
             magnitude_le 990 v).
  { intros v F H. split; [exact F | apply Qle_bool_iff; exact H]. }
  destruct (wheel_zooms_at_pointer (syncTransformRef (fitToView mounted))
              event _ eq_refl eq_refl) as (_ & Hs & Hx & Hy & _);
    try reflexivity; try (apply Hm; vm_compute; reflexivity).
  split; [exact Hs|]. split; [exact Hx | exact Hy].
Defined.

(** Half a client size. *)
Lemma half_client (c : PrimFloat.float) :
  magnitude_le 53 c -> magnitude_le 1000 (PrimFloat.div c (literal 2 1)).
Proof.
  intros Hc.
  assert (H2 : float_in_range (literal 2 1) = true)
    by (vm_compute; reflexivity).
  destruct (div_scaled c (literal 2 1) 53 ltac:(lia) Hc H2) as [H _].
  apply (magnitude_le_mono 57); [lia | exact H].
Qed.

(** X14: the zoom buttons.  In binary64, with a viewport whose client
    sizes are numbers of at most 2^53, the transform ref up to date, the
    scale in [0.2, 16], the offsets numbers of at most 2^1000 and a
    factor that is a number: [zoomByFactor] sets the scale to the product
    of the scale and the factor, clamped, which is in [0.2, 16], and
    [zoomToScale(1)], the reset button, sets it to 1; both keep the
    content-space point at the centre of the viewport where it is,
    within the tolerance of a zoom.  Without a viewport element neither
    changes the panel. *)
Theorem zoom_buttons_keep_centre (p : Panel PrimFloat.float)
  (factor : PrimFloat.float) :
  match viewportRef p with
  | Some vp =>
      client_sizes vp ->
      transformRef p = transform p ->
      float_in_range (scale (transform p)) = true ->
      magnitude_le 1000 (x (transform p)) ->
      magnitude_le 1000 (y (transform p)) ->
      PrimFloat.is_nan factor = false ->
      let t := transform p in
      let cx := PrimFloat.div (clientWidth vp) (literal 2 1) in
      let cy := PrimFloat.div (clientHeight vp) (literal 2 1) in
      let zoomed := transform (zoomByFactor factor p) in
      let reset := transform (zoomToScale (literal 1 1) p) in
      scale zoomed
      = clamp (PrimFloat.mul (scale t) factor) MIN_SCALE MAX_SCALE
      /\ float_in_range (scale zoomed) = true
      /\ agree cx (content_x t cx) (content_x zoomed cx)
      /\ agree cy (content_y t cy) (content_y zoomed cy)
      /\ scale reset = literal 1 1
      /\ agree cx (content_x t cx) (content_x reset cx)
      /\ agree cy (content_y t cy) (content_y reset cy)
  | None =>
      zoomByFactor factor p = p /\ zoomToScale (literal 1 1) p = p
  end.
Proof.
  unfold zoomByFactor, zoomToScale.
  destruct (viewportRef p) as [vp|]; [|split; reflexivity].
  intros [Hcw Hch] Hsync Hs Hx Hy Hf. cbv zeta. rewrite Hsync.
  pose proof (half_client _ Hcw) as Hcx.
  pose proof (half_client _ Hch) as Hcy.
  pose proof (float_clamp_range _ (scaled_not_nan _ _ Hs Hf)) as Hs'.
  assert (H1 : float_in_range
                 (clamp (literal 1 1) MIN_SCALE MAX_SCALE) = true)
    by (vm_compute; reflexivity).
  unfold applyZoomAroundPoint, setTransform.
  cbn [transform scale x y mul div sub Float64].
  split; [reflexivity|]. split; [exact Hs'|].
  split; [apply (zoom_axis _ (x (transform p)) _ _ Hs Hs' Hcx Hx)|].
  split; [apply (zoom_axis _ (y (transform p)) _ _ Hs Hs' Hcy Hy)|].
  split; [reflexivity|].
  split; [apply (zoom_axis _ (x (transform p)) _ _ Hs H1 Hcx Hx)|].
  apply (zoom_axis _ (y (transform p)) _ _ Hs H1 Hcy Hy).
Qed.

(** The theorem at the panel fitted to its viewport, zoomed by 1.1. *)
Lemma zoom_buttons_keep_centre_witness :
  let p := syncTransformRef (fitToView mounted) in
  let t := transform p in
  let cx := PrimFloat.div (literal 848 1) (literal 2 1) in
  let cy := PrimFloat.div (literal 648 1) (literal 2 1) in
  let zoomed := transform (zoomByFactor (literal 11 10) p) in
  let reset := transform (zoomToScale (literal 1 1) p) in
  scale zoomed
  = clamp (PrimFloat.mul (scale t) (literal 11 10)) MIN_SCALE MAX_SCALE
  /\ float_in_range (scale zoomed) = true
  /\ agree cx (content_x t cx) (content_x zoomed cx)
  /\ agree cy (content_y t cy) (content_y zoomed cy)
  /\ scale reset = literal 1 1
  /\ agree cx (content_x t cx) (content_x reset cx)
  /\ agree cy (content_y t cy) (content_y reset cy).
Proof.
  assert (Hm : forall (k : Z) (v : PrimFloat.float),
             finite v = true ->
             Qle_bool (Qabs (value v)) (pow2 k) = true ->
             magnitude_le k v).
  { intros k v F H. split; [exact F | apply Qle_bool_iff; exact H]. }
  apply (zoom_buttons_keep_centre (syncTransformRef (fitToView mounted))
           (literal 11 10)); try reflexivity;
    try (apply Hm; vm_compute; reflexivity).
  split; apply Hm; vm_compute; reflexivity.
Defined.

End ViewportFacts.

(* ================================================================== *)
(** * The render scheduler *)
(* ================================================================== *)

Module SchedulerFacts.
Import Scheduler.

(** ** Stale results *)

Lemma finish_render_stale (request : Request) (o : outcome) (a : App) :
  requestId request <> requestIdRef a -> finish_render request o a = a.
Proof.
  intros H. unfold finish_render. apply Z.eqb_neq in H. rewrite H. reflexivity.
Qed.

Lemma finish_render_counter (request : Request) (o : outcome) (a : App) :
  requestIdRef (finish_render request o a) = requestIdRef a.
Proof.
  unfold finish_render. destruct (negb _); [reflexivity|].
  destruct o as [markup|e]; [destruct (request_style request)|]; reflexivity.
Qed.

Lemma finish_render_current (request : Request) (o : outcome) (a : App) :
  requestId request = requestIdRef a ->
  displayed (finish_render request o a) = shown request o.
Proof.
  intros H. unfold finish_render, shown. apply Z.eqb_eq in H. rewrite H.
  cbn [negb].
  destruct o as [markup|e]; [destruct (request_style request)|]; reflexivity.
Qed.

(** C2.  For two requests stamped n1 < n2, n2 being the value of the
    counter: the completion of the first changes nothing, before or after
    the completion of the second, so in both orders the state is the one
    the second request's completion gives, and the displayed result is
    the second request's; and a completion whose stamp is not the value
    of the counter never changes the state. *)
Theorem last_issued_wins (a : App) (r1 r2 : Request) (o1 o2 : outcome) :
  requestId r1 < requestId r2 ->
  requestIdRef a = requestId r2 ->
  finish_render r1 o1 a = a
  /\ finish_render r1 o1 (finish_render r2 o2 a) = finish_render r2 o2 a
  /\ finish_render r2 o2 (finish_render r1 o1 a) = finish_render r2 o2 a
  /\ displayed (finish_render r2 o2 a) = shown r2 o2
  /\ (forall (r : Request) (o : outcome) (b : App),
        requestId r <> requestIdRef b -> finish_render r o b = b).
Proof.
  intros Hlt Hcur.
  assert (H1 : finish_render r1 o1 a = a) by (apply finish_render_stale; lia).
  split; [exact H1|]. split; [|split; [|split]].
  - apply finish_render_stale. rewrite finish_render_counter. lia.
  - rewrite H1. reflexivity.
  - apply finish_render_current. lia.
  - intros r o b. apply finish_render_stale.
Qed.


(** ** Debounce *)

Local Open Scope nat_scope.

Lemma edit_when_quiet (a : App) (t : nat) (source : string) :
  quiet a -> now a <= t ->
  armed a t source (handleSourceInput source (advance_to t a)).
Proof.
  intros (Ht & Hr & Hn) Hnow. exists (next_timer_id a).
  unfold handleSourceInput, advance_to, clear_pending, set_timers.
  rewrite Ht, Hr. cbn.
  repeat split; try assumption. f_equal. f_equal. lia. lia.
Qed.

Lemma edit_when_armed (a0 a : App) (t t' : nat) (source source' : string) :
  armed a0 t source a -> t <= t' < t + DEBOUNCE ->
  armed a0 t' source' (handleSourceInput source' (advance_to t' a)).
Proof.
  intros (id & Hid & Ht & Hr & Hn & Hnow & Hi & Hc & Hs) Hgap.
  exists (S id).
  unfold handleSourceInput, advance_to, clear_pending, clearTimeout, set_timers.
  rewrite Ht, Hr. cbn [filter due timer_id].
  replace (Nat.leb (t + DEBOUNCE) t') with false
    by (symmetry; apply Nat.leb_gt; lia).
  cbn [negb fold_left timers sourceCommitTimeoutRef next_timer_id now
       issued requestIdRef renderStyle].
  destruct id as [|id]; [lia|]. cbn [Nat.eqb filter timer_id].
  rewrite Nat.eqb_refl. cbn [negb app].
  rewrite Hn, Hnow, Hs.
  repeat split; try assumption; try lia.
  f_equal. f_equal. lia.
Qed.

Lemma last_cons {A : Type} (l : list A) (x d : A) : last (x :: l) d = last l x.
Proof.
  revert x d. induction l as [|y l IH]; intros x d; [reflexivity|].
  change (last (x :: y :: l) d) with (last (y :: l) d).
  rewrite !IH. reflexivity.
Qed.

Lemma type_edits_armed (rest : list (nat * string)) :
  forall (a0 a : App) (t : nat) (source : string),
  armed a0 t source a -> within_debounce t rest ->
  armed a0 (fst (last_edit (t, source) rest))
           (snd (last_edit (t, source) rest)) (type_edits rest a).
Proof.
  induction rest as [|[t' s'] rest IH]; intros a0 a t source Ha Hw.
  - exact Ha.
  - cbn [within_debounce] in Hw. destruct Hw as [Hgap Hw].
    cbn [type_edits].
    replace (last_edit (t, source) ((t', s') :: rest))
      with (last_edit (t', s') rest).
    + apply IH; [|exact Hw]. eapply edit_when_armed; eassumption.
    + unfold last_edit. rewrite last_cons. reflexivity.
Qed.

Lemma armed_fires (a0 a : App) (t T : nat) (source : string) :
  armed a0 t source a -> t + DEBOUNCE <= T ->
  issued (advance_to T a)
  = issued a0 ++ [{| requestId := (requestIdRef a0 + 1)%Z;
                     request_source := source;
                     request_style := renderStyle a0 |}].
Proof.
  intros (id & Hid & Ht & Hr & Hn & Hnow & Hi & Hc & Hs) HT.
  unfold advance_to. rewrite Ht. cbn [filter due].
  replace (Nat.leb (t + DEBOUNCE) T) with true
    by (symmetry; apply Nat.leb_le; lia).
  cbn. rewrite Hi, Hc. reflexivity.
Qed.

Lemma armed_waits (a0 a : App) (t T : nat) (source : string) :
  armed a0 t source a -> T < t + DEBOUNCE ->
  issued (advance_to T a) = issued a0.
Proof.
  intros (id & Hid & Ht & Hr & Hn & Hnow & Hi & Hc & Hs) HT.
  unfold advance_to. rewrite Ht. cbn [filter due].
  replace (Nat.leb (t + DEBOUNCE) T) with false
    by (symmetry; apply Nat.leb_gt; lia).
  cbn. exact Hi.
Qed.

(** C7.  From an application with no timer pending, for edits that each
    come less than 120 ms after the one before: after the edits one timer
    is pending, due 120 ms after the last edit and carrying the last
    edit's text; before it is due no render has been issued, and once it
    is due exactly one has, for the last edit's source. *)
Theorem debounce_coalesces
  (a : App) (t1 : nat) (s1 : string) (rest : list (nat * string)) (T : nat) :
  quiet a -> now a <= t1 -> within_debounce t1 rest ->
  let edits := (t1, s1) :: rest in
  let '(tn, sn) := last_edit (t1, s1) rest in
  map (fun x => (due x, timer_source x)) (timers (type_edits edits a))
  = [(tn + DEBOUNCE, sn)]
  /\ (T < tn + DEBOUNCE ->
      issued (advance_to T (type_edits edits a)) = issued a)
  /\ (tn + DEBOUNCE <= T ->
      issued (advance_to T (type_edits edits a))
      = issued a ++ [{| requestId := (requestIdRef a + 1)%Z;
                        request_source := sn;
                        request_style := renderStyle a |}]).
Proof.
  intros Hq Hnow Hw edits. subst edits. cbn [type_edits].
  pose proof (edit_when_quiet a t1 s1 Hq Hnow) as Ha.
  pose proof (type_edits_armed rest _ _ _ _ Ha Hw) as Hl.
  destruct (last_edit (t1, s1) rest) as [tn sn]. cbn [fst snd] in Hl.
  split; [|split; intros HT].
  - destruct Hl as (id & _ & Ht & _). cbn [type_edits] in Ht. rewrite Ht.
    reflexivity.
  - eapply armed_waits; eassumption.
  - eapply armed_fires; eassumption.
Qed.

(** ** Concrete runs *)

(** The theorem at two requests issued one after the other. *)
Lemma last_issued_wins_witness :
  finish_render request1 (Rendered "<svg>1</svg>") app2 = app2
  /\ finish_render request1 (Rendered "<svg>1</svg>")
       (finish_render request2 (Rendered "<svg>2</svg>") app2)
     = finish_render request2 (Rendered "<svg>2</svg>") app2
  /\ finish_render request2 (Rendered "<svg>2</svg>")
       (finish_render request1 (Rendered "<svg>1</svg>") app2)
     = finish_render request2 (Rendered "<svg>2</svg>") app2
  /\ displayed (finish_render request2 (Rendered "<svg>2</svg>") app2)
     = shown request2 (Rendered "<svg>2</svg>").
Proof.
  destruct (last_issued_wins app2 request1 request2
              (Rendered "<svg>1</svg>") (Rendered "<svg>2</svg>"))
    as (H1 & H2 & H3 & H4 & _); [reflexivity | reflexivity |].
  split; [exact H1|]. split; [exact H2|]. split; [exact H3 | exact H4].
Defined.


(** The theorem at the edits a, ab, abc, typed at 0, 50 and 100 ms. *)
Lemma debounce_coalesces_witness :
  issued (advance_to 220
            (type_edits [(0, "a"); (50, "ab"); (100, "abc")]%string app0))
  = [{| requestId := 1%Z; request_source := "abc"; request_style := svg |}].
Proof.
  assert (Hq : quiet app0) by (repeat split; cbn; lia).
  assert (Hw : within_debounce 0 [(50, "ab"); (100, "abc")]%string)
    by (cbn; unfold DEBOUNCE; lia).
  pose proof (debounce_coalesces app0 0 "a" [(50, "ab"); (100, "abc")]%string
                220 Hq (le_n 0) Hw) as H.
  cbn [last_edit last] in H. apply (proj2 (proj2 H)). unfold DEBOUNCE. lia.
Defined.

Local Open Scope Z_scope.

(** ** Any run of the application *)

Lemma begin_render_as_stamps (first : Z) (style : RenderStyle)
  (source : string) (a : App) :
  stamps_count_up first a ->
  stamps_count_up first (snd (begin_render_as style source a)).
Proof.
  intros [Hc Hs]. unfold begin_render_as, stamps_count_up.
  cbn [snd requestIdRef issued requestId]. rewrite length_app. cbn [length].
  split; [lia|]. intros i request Hi.
  destruct (Nat.lt_ge_cases i (length (issued a))) as [Hlt|Hge].
  - rewrite nth_error_app1 in Hi by assumption. apply Hs. exact Hi.
  - rewrite nth_error_app2 in Hi by assumption.
    destruct (i - length (issued a))%nat as [|k] eqn:E.
    + cbn in Hi. injection Hi as <-. cbn [requestId]. lia.
    + destruct k; discriminate Hi.
Qed.

Lemma begin_render_stamps (first : Z) (source : string) (a : App) :
  stamps_count_up first a ->
  stamps_count_up first (snd (begin_render source a)).
Proof. apply begin_render_as_stamps. Qed.

Lemma stamps_same (first : Z) (a b : App) :
  requestIdRef b = requestIdRef a -> issued b = issued a ->
  stamps_count_up first a -> stamps_count_up first b.
Proof.
  intros Hr Hi. unfold stamps_count_up. rewrite Hr, Hi. tauto.
Qed.

Lemma finish_render_same (request : Request) (o : outcome) (a : App) :
  requestIdRef (finish_render request o a) = requestIdRef a
  /\ issued (finish_render request o a) = issued a.
Proof.
  unfold finish_render.
  destruct (negb (requestId request =? requestIdRef a)); [tauto|].
  destruct o as [markup|e]; [destruct (request_style request)|];
    split; reflexivity.
Qed.

Lemma fire_stamps (first : Z) (t : Timer) (a : App) :
  stamps_count_up first a -> stamps_count_up first (fire t a).
Proof.
  intros H. unfold fire.
  apply (stamps_same first
           (snd (begin_render_as (timer_style t) (timer_source t) a)));
    [reflexivity | reflexivity |].
  apply begin_render_as_stamps. exact H.
Qed.

Lemma fire_all_stamps (first : Z) (ts : list Timer) (a : App) :
  stamps_count_up first a ->
  stamps_count_up first (fold_left (fun a x => fire x a) ts a).
Proof.
  revert a. induction ts as [|t ts IH]; intros a H; [exact H|].
  cbn [fold_left]. apply IH. apply fire_stamps. exact H.
Qed.

Lemma advance_to_stamps (first : Z) (t : nat) (a : App) :
  stamps_count_up first a -> stamps_count_up first (advance_to t a).
Proof.
  intros H. unfold advance_to.
  match goal with
  | |- stamps_count_up _ {| issued := issued ?b |} =>
      apply (stamps_same first b); [reflexivity | reflexivity |]
  end.
  apply fire_all_stamps.
  apply (stamps_same first a); [reflexivity | reflexivity | exact H].
Qed.

Lemma handle_stamps (first : Z) (e : event) (a : App) :
  stamps_count_up first a -> stamps_count_up first (handle e a).
Proof.
  intros H. destruct e as [s | s | t | request o | style | s | markup];
    cbn [handle].
  - apply (stamps_same first a); [reflexivity | reflexivity | exact H].
  - unfold commitSourceNow. apply begin_render_stamps.
    apply (stamps_same first a); [reflexivity | reflexivity | exact H].
  - apply advance_to_stamps. exact H.
  - destruct (finish_render_same request o a) as [Hr Hi].
    apply (stamps_same first a); assumption.
  - unfold setRenderStyle. apply begin_render_stamps.
    apply (stamps_same first a); [reflexivity | reflexivity | exact H].
  - unfold hydrate. apply begin_render_stamps.
    apply (stamps_same first a); [reflexivity | reflexivity | exact H].
  - apply (stamps_same first a); [reflexivity | reflexivity | exact H].
Qed.

Lemma run_events_stamps (first : Z) (events : list event) (a : App) :
  stamps_count_up first a -> stamps_count_up first (run_events events a).
Proof.
  revert a. induction events as [|e events IH]; intros a H; [exact H|].
  cbn [run_events fold_left]. apply IH. apply handle_stamps. exact H.
Qed.

Lemma stamps_latest (first : Z) (a : App) (request : Request) :
  stamps_count_up first a -> In request (issued a) ->
  requestId request = requestIdRef a ->
  exists earlier, issued a = earlier ++ [request].
Proof.
  intros [Hc Hs] Hin Hid. apply In_nth_error in Hin. destruct Hin as [i Hi].
  pose proof (Hs i request Hi) as Hstamp.
  assert (Hlen : (i < length (issued a))%nat).
  { apply nth_error_Some. rewrite Hi. discriminate. }
  assert (Hlast : S i = length (issued a)) by lia.
  destruct (issued a) as [|x l] eqn:E using rev_ind; [cbn in Hlen; lia|].
  exists l. rewrite length_app in Hlast. cbn [length] in Hlast.
  rewrite nth_error_app2 in Hi by lia.
  replace (i - length l)%nat with 0%nat in Hi by lia.
  cbn in Hi. injection Hi as <-. reflexivity.
Qed.

Lemma stamps_distinct (first : Z) (a : App) :
  stamps_count_up first a -> NoDup (map requestId (issued a)).
Proof.
  intros [_ Hs]. apply (NoDup_nth_error (map requestId (issued a))).
  intros i j Hi E. rewrite length_map in Hi.
  rewrite !nth_error_map in E.
  destruct (nth_error (issued a) i) as [ri|] eqn:Ei.
  2:{ apply nth_error_None in Ei. lia. }
  destruct (nth_error (issued a) j) as [rj|] eqn:Ej; [|discriminate E].
  cbn [option_map] in E. injection E as E.
  apply Hs in Ei. apply Hs in Ej. lia.
Qed.

(** X15: only the latest request is applied.  After any events (edits,
    commits, timers firing, renderer calls returning or throwing in any
    order, style changes, the share link read, export snapshots), the
    requests issued so far have stamps that are all different, and a
    request whose completion changes anything is the one issued last:
    the completion of every earlier request leaves the application as
    it is, however many requests are in flight. *)
Theorem only_latest_request_applies (a0 : App) (events : list event) :
  issued a0 = [] ->
  let a := run_events events a0 in
  NoDup (map requestId (issued a))
  /\ forall request o,
       In request (issued a) ->
       finish_render request o a <> a ->
       exists earlier, issued a = earlier ++ [request].
Proof.
  intros H0 a.
  assert (Hs : stamps_count_up (requestIdRef a0) a).
  { apply run_events_stamps. unfold stamps_count_up. rewrite H0.
    cbn [length]. split; [lia|]. intros [|i] request Hi; discriminate Hi. }
  split.
  - apply (stamps_distinct _ a Hs).
  - intros request o Hin Hchange.
    apply (stamps_latest _ a request Hs Hin).
    destruct (Z.eqb_spec (requestId request) (requestIdRef a)) as [E|E];
      [exact E|].
    exfalso. apply Hchange. apply finish_render_stale. exact E.
Qed.

(** The theorem at a run with three requests, the first two completing
    late and in the wrong order. *)
Lemma only_latest_request_applies_witness :
  let a :=
    run_events
      [Commit "graph TD; A"; Edit "graph TD; A-->B"; Elapse 150;
       StyleChange ascii;
       Complete {| requestId := 2; request_source := "graph TD; A-->B";
                   request_style := svg |} (Rendered "<svg>2</svg>");
       Complete {| requestId := 1; request_source := "graph TD; A";
                   request_style := svg |} (Rendered "<svg>1</svg>")]%string
      app0 in
  NoDup (map requestId (issued a))
  /\ forall request o,
       In request (issued a) ->
       finish_render request o a <> a ->
       exists earlier, issued a = earlier ++ [request].
Proof.
  apply (only_latest_request_applies app0). reflexivity.
Defined.

(** A style change while an edit waits: the render of the style change
    comes first, with the new style, and the timer's render, made by the
    closure of the edit, comes second with the style of the edit. *)
Remark edit_keeps_its_style :
  issued (run_events [Edit "graph TD; A"; StyleChange ascii; Elapse 150]%string
            app0)
  = [{| requestId := 1; request_source := "graph TD; A";
        request_style := ascii |};
     {| requestId := 2; request_source := "graph TD; A";
        request_style := svg |}].
Proof. reflexivity. Qed.

(** ** Committing while an edit waits *)

Local Open Scope nat_scope.

Lemma armed_commit (a0 a : App) (t tc : nat) (source nextSource : string) :
  armed a0 t source a -> t <= tc < t + DEBOUNCE ->
  let '(request, a') := commitSourceNow nextSource (advance_to tc a) in
  timers a' = []
  /\ sourceCommitTimeoutRef a' = None
  /\ sourceRef a' = nextSource
  /\ request = {| requestId := (requestIdRef a0 + 1)%Z;
                  request_source := nextSource;
                  request_style := renderStyle a0 |}
  /\ issued a' = issued a0 ++ [request].
Proof.
  intros (id & Hid & Ht & Hr & Hn & Hnow & Hi & Hc & Hs) Hgap.
  unfold commitSourceNow, advance_to, clear_pending, clearTimeout,
    set_timers, begin_render.
  rewrite Ht, Hr. cbn [filter due timer_id].
  replace (Nat.leb (t + DEBOUNCE) tc) with false
    by (symmetry; apply Nat.leb_gt; lia).
  cbn [negb fold_left timers sourceCommitTimeoutRef next_timer_id now
       issued requestIdRef renderStyle sourceRef].
  destruct id as [|id]; [lia|]. cbn [Nat.eqb filter timer_id].
  rewrite Nat.eqb_refl. cbn [negb requestId]. rewrite Hi, Hc, Hs.
  repeat split.
Qed.

Lemma no_timer_no_render (T : nat) (a : App) :
  timers a = [] -> issued (advance_to T a) = issued a.
Proof.
  intros Ht. unfold advance_to. rewrite Ht. reflexivity.
Qed.

(** X16: a commit takes the place of the edit that waits.  From an
    application with no timer pending, after edits that each come less
    than 120 ms after the one before, [commitSourceNow] (the editor
    losing focus, or a preset applied) less than 120 ms after the last
    edit cancels the pending timer and issues the render itself: no
    timer is left, and whatever time passes, one render has been issued
    in all, for the committed source, not for the edits. *)
Theorem commit_supersedes_edits
  (a : App) (t1 : nat) (s1 : string) (rest : list (nat * string))
  (tc : nat) (nextSource : string) (T : nat) :
  quiet a -> now a <= t1 -> within_debounce t1 rest ->
  fst (last_edit (t1, s1) rest) <= tc
    < fst (last_edit (t1, s1) rest) + DEBOUNCE ->
  let '(request, a') :=
    commitSourceNow nextSource (advance_to tc (type_edits ((t1, s1) :: rest) a)) in
  timers a' = []
  /\ sourceRef a' = nextSource
  /\ request_source request = nextSource
  /\ issued (advance_to T a') = issued a ++ [request].
Proof.
  intros Hq Hnow Hw Hgap. cbn [type_edits].
  pose proof (edit_when_quiet a t1 s1 Hq Hnow) as Ha.
  pose proof (type_edits_armed rest _ _ _ _ Ha Hw) as Hl.
  pose proof (armed_commit _ _ _ tc _ nextSource Hl Hgap) as Hcommit.
  destruct (commitSourceNow nextSource _) as [request a'].
  destruct Hcommit as (Ht & _ & Hsrc & Hreq & Hi).
  split; [exact Ht|]. split; [exact Hsrc|]. split.
  - rewrite Hreq. reflexivity.
  - rewrite no_timer_no_render by assumption. exact Hi.
Qed.

(** The theorem at a preset applied: the source goes to
    [handleSourceInput] and to [commitSourceNow] in the same instant. *)
Lemma commit_supersedes_edits_witness :
  let '(request, a') :=
    commitSourceNow "graph TD; A-->B"
      (advance_to 0 (type_edits [(0, "graph TD; A-->B")]%string app0)) in
  timers a' = []
  /\ sourceRef a' = "graph TD; A-->B"%string
  /\ request_source request = "graph TD; A-->B"%string
  /\ issued (advance_to 1000 a') = issued app0 ++ [request].
Proof.
  apply (commit_supersedes_edits app0 0 "graph TD; A-->B" [] 0
           "graph TD; A-->B" 1000).
  - repeat split; cbn; lia.
  - cbn. lia.
  - exact I.
  - cbn. unfold DEBOUNCE. lia.
Defined.

End SchedulerFacts.

(* ================================================================== *)
(** * Presets, share URLs and escaping                                 *)
(* ================================================================== *)

Module StudioFacts.
Import Js Base64 Url ShareLink Studio.
Import JsFacts Base64Facts UrlFacts ShareLinkFacts.
Local Open Scope Z_scope.

(** ** Share URLs *)

Lemma Set_has_spec (set : list jsstring) (value : jsstring) :
  Set_has set value = true <-> In value set.
Proof.
  unfold Set_has. rewrite existsb_exists. split.
  - intros (x & Hin & E). apply jsstring_eqb_eq in E. subst x. exact Hin.
  - intros Hin. exists value. split; [exact Hin|]. apply jsstring_eqb_eq.
    reflexivity.
Qed.

Lemma share_token_wellformed (token : jsstring) :
  is_share_token token = true -> isWellFormed token = true.
Proof.
  intros H. apply ascii_wellformed. apply share_token_ascii. exact H.
Qed.

(** X17: the share URL of a source.  For a well-formed source that is
    not blank, is no preset and does not begin with U+FEFF,
    [buildShareUrlForSource] returns a URL from which
    [readDiagramTokenFromUrl] reads a token that [decodeDiagramToken]
    decodes to the source: the link opens the diagram it was made for. *)
Theorem share_url_roundtrip (P : Platform) (st : store) (url : ref)
  (source : jsstring) :
  self_inverse P -> never_empty P ->
  valid_record (objects st url) ->
  isWellFormed source = true -> hd 0 source <> 0xFEFF ->
  ~ blank source -> ~ is_preset source ->
  let '(built, st') := buildShareUrlForSource P source url st in
  exists nextUrl token,
    built = ret nextUrl
    /\ fst (readDiagramTokenFromUrl nextUrl st') = Some token
    /\ decodeDiagramToken P token = ret source.
Proof.
  intros Hinv Hne Hvalid Hwf Hbom Hblank Hpreset.
  unfold buildShareUrlForSource.
  replace (Nat.eqb (length (trim source)) 0) with false.
  2:{ symmetry. apply Nat.eqb_neq. intros E. apply Hblank.
      apply length_zero_iff_nil. exact E. }
  replace (Set_has PRESET_SOURCES source) with false.
  2:{ symmetry. apply not_true_is_false. intros E. apply Hpreset.
      apply Set_has_spec. exact E. }
  cbn [orb].
  destruct (decode_encode P source Hinv Hne) as (token & He & Hd).
  rewrite TextDecoder_TextEncoder in Hd by assumption.
  assert (Hform : is_share_token token = true).
  { rewrite encode_token_eq in He. injection He as <-.
    apply prefixed_share_token. apply bytes_values. }
  unfold ret in He. rewrite He. cbv beta iota. unfold m_bind, m_ret.
  pose proof (write_spec st url token) as Hw.
  destruct (writeDiagramTokenToUrl url token st) as [nextUrl st'].
  destruct Hw as (_ & _ & Hobj & _).
  exists nextUrl, token. split; [reflexivity|]. split; [|exact Hd].
  rewrite read_spec, Hobj.
  destruct (written_params token (objects st url) Hvalid
              (share_token_wellformed token Hform)) as [Hh _].
  rewrite Hh, params_get_set. reflexivity.
Qed.

Lemma share_url_roundtrip_witness :
  let '(built, st') :=
    buildShareUrlForSource (example_platform true) (lit "graph TD; A-->B")
      0%nat example_store in
  exists nextUrl token,
    built = ret nextUrl
    /\ fst (readDiagramTokenFromUrl nextUrl st') = Some token
    /\ decodeDiagramToken (example_platform true) token
       = ret (lit "graph TD; A-->B").
Proof.
  apply (share_url_roundtrip (example_platform true) example_store 0%nat
           (lit "graph TD; A-->B")).
  - apply example_self_inverse.
  - apply example_never_empty.
  - apply example_record_valid.
  - reflexivity.
  - discriminate.
  - discriminate.
  - intros [E|[E|[E|[E|[E|[]]]]]]; discriminate E.
Defined.

(** X18: sources that need no link.  For a blank source (empty, or white
    space and line terminators only) and for each of the five presets,
    [buildShareUrlForSource] returns a URL without a token, whatever
    token the URL it was given had: [readDiagramTokenFromUrl] gives null
    on it.  The encoder is not called, and the URL object passed in is
    as it was. *)
Theorem preset_needs_no_link (P : Platform) (st : store) (url : ref)
  (source : jsstring) :
  (url < next_ref st)%nat ->
  valid_record (objects st url) ->
  blank source \/ is_preset source ->
  let '(built, st') := buildShareUrlForSource P source url st in
  exists nextUrl,
    built = ret nextUrl
    /\ fst (readDiagramTokenFromUrl nextUrl st') = None
    /\ objects st' url = objects st url.
Proof.
  intros Hlive Hvalid Hsource. unfold buildShareUrlForSource.
  replace (Nat.eqb (length (trim source)) 0 || Set_has PRESET_SOURCES source)%bool
    with true.
  2:{ symmetry. apply orb_true_iff. destruct Hsource as [Hb|Hp].
      - left. unfold blank in Hb. rewrite Hb. reflexivity.
      - right. apply Set_has_spec. exact Hp. }
  unfold m_bind, m_ret. pose proof (clear_spec st url) as Hc.
  destruct (clearDiagramTokenFromUrl url st) as [nextUrl st'].
  destruct Hc as (Hn & _ & Hobj & Hother).
  exists nextUrl. split; [reflexivity|]. split.
  - rewrite read_spec, Hobj.
    destruct (cleared_params _ Hvalid) as [Hh Hq]. rewrite Hh, Hq.
    rewrite !params_get_delete. reflexivity.
  - apply Hother. lia.
Qed.

(** The theorem at a source of spaces and a line feed, and at the
    flowchart preset. *)
Lemma preset_needs_no_link_witness :
  (let '(built, st') :=
     buildShareUrlForSource (example_platform true) [0x20; 0x0A; 0x20]
       0%nat example_store in
   exists nextUrl,
     built = ret nextUrl
     /\ fst (readDiagramTokenFromUrl nextUrl st') = None
     /\ objects st' 0%nat = objects example_store 0%nat)
  /\ (let '(built, st') :=
        buildShareUrlForSource (example_platform true) Flowchart
          0%nat example_store in
      exists nextUrl,
        built = ret nextUrl
        /\ fst (readDiagramTokenFromUrl nextUrl st') = None
        /\ objects st' 0%nat = objects example_store 0%nat).
Proof.
  split.
  - apply (preset_needs_no_link (example_platform true) example_store 0%nat
             [0x20; 0x0A; 0x20]).
    + cbn. lia.
    + apply example_record_valid.
    + left. reflexivity.
  - apply (preset_needs_no_link (example_platform true) example_store 0%nat
             Flowchart).
    + cbn. lia.
    + apply example_record_valid.
    + right. left. reflexivity.
Defined.

(** ** Escaping *)

Lemma replaceAll_app (x : Z) (y a b : jsstring) :
  replaceAll x y (a ++ b) = replaceAll x y a ++ replaceAll x y b.
Proof. unfold replaceAll. apply flat_map_app. Qed.

Lemma replaceAll_cons (x : Z) (y : jsstring) (c : Z) (s : jsstring) :
  replaceAll x y (c :: s) = (if c =? x then y else [c]) ++ replaceAll x y s.
Proof. reflexivity. Qed.

(** The five passes amount to one pass that replaces each character on
    its own: the [&] of an entity written by a later pass is not escaped
    again, since [&] is replaced first. *)
Lemma escapeHtml_cons (c : Z) (s : jsstring) :
  escapeHtml (c :: s) = escaped c ++ escapeHtml s.
Proof.
  unfold escapeHtml, escaped. rewrite replaceAll_cons.
  destruct (Z.eqb_spec c AMP) as [E|E1]; [subst c|].
  - rewrite !replaceAll_app. reflexivity.
  - change ([c] ++ ?s) with (c :: s). rewrite replaceAll_cons.
    destruct (Z.eqb_spec c LESS) as [E|E2]; [subst c|].
    + rewrite !replaceAll_app. reflexivity.
    + change ([c] ++ ?s) with (c :: s). rewrite replaceAll_cons.
      destruct (Z.eqb_spec c GREATER) as [E|E3]; [subst c|].
      * rewrite !replaceAll_app. reflexivity.
      * change ([c] ++ ?s) with (c :: s). rewrite replaceAll_cons.
        destruct (Z.eqb_spec c QUOTE) as [E|E4]; [subst c|].
        -- rewrite !replaceAll_app. reflexivity.
        -- change ([c] ++ ?s) with (c :: s). rewrite replaceAll_cons.
           destruct (Z.eqb_spec c APOSTROPHE) as [E|E5]; reflexivity.
Qed.

Lemma escapeHtml_one_pass (s : jsstring) : escapeHtml s = flat_map escaped s.
Proof.
  induction s as [|c s IH]; [reflexivity|].
  rewrite escapeHtml_cons, IH. reflexivity.
Qed.

Lemma escaped_no_markup (c : Z) :
  forallb (fun d => negb (is_markup d)) (escaped c) = true.
Proof.
  unfold escaped.
  destruct (Z.eqb_spec c AMP); [reflexivity|].
  destruct (Z.eqb_spec c LESS); [reflexivity|].
  destruct (Z.eqb_spec c GREATER); [reflexivity|].
  destruct (Z.eqb_spec c QUOTE); [reflexivity|].
  destruct (Z.eqb_spec c APOSTROPHE); [reflexivity|].
  cbn [forallb]. unfold is_markup.
  repeat match goal with
         | H : c <> _ |- _ => apply Z.eqb_neq in H; rewrite H; clear H
         end.
  reflexivity.
Qed.

Lemma escaped_plain (c : Z) : is_special c = false -> escaped c = [c].
Proof.
  unfold is_special, escaped. intros H.
  rewrite !orb_false_iff in H. destruct H as ((((H1 & H2) & H3) & H4) & H5).
  rewrite H1, H2, H3, H4, H5. reflexivity.
Qed.

Lemma escaped_longer (c : Z) :
  is_special c = true -> (1 < length (escaped c))%nat.
Proof.
  unfold is_special, escaped. intros H.
  destruct (c =? AMP); [cbn; lia|].
  destruct (c =? LESS); [cbn; lia|].
  destruct (c =? GREATER); [cbn; lia|].
  destruct (c =? QUOTE); [cbn; lia|].
  destruct (c =? APOSTROPHE); [cbn; lia|]. discriminate H.
Qed.

Lemma escapeHtml_length (s : jsstring) :
  (length s <= length (escapeHtml s))%nat
  /\ (existsb is_special s = true -> (length s < length (escapeHtml s))%nat).
Proof.
  induction s as [|c s [IH1 IH2]]; [split; [apply Nat.le_refl | discriminate]|].
  rewrite escapeHtml_cons, length_app. cbn [length existsb].
  destruct (is_special c) eqn:E.
  - pose proof (escaped_longer c E). split; [lia|]. intros _. lia.
  - rewrite (escaped_plain c E). cbn [length orb]. split; [lia|].
    intros H. apply IH2 in H. lia.
Qed.

Lemma escapeHtml_no_markup (value : jsstring) :
  forallb (fun c => negb (is_markup c)) (escapeHtml value) = true.
Proof.
  rewrite escapeHtml_one_pass. induction value as [|c s IH]; [reflexivity|].
  cbn [flat_map]. rewrite forallb_app, IH, escaped_no_markup. reflexivity.
Qed.

(** X19: [escapeHtml] leaves no markup.  The result holds none of the
    characters that open or close a tag or an attribute value (the two
    angle brackets, the double quote and the apostrophe), whatever the
    text; it is the text itself when the text holds none of these and no
    [&], and it is longer than the text otherwise. *)
Theorem escapeHtml_leaves_no_markup (value : jsstring) :
  forallb (fun c => negb (is_markup c)) (escapeHtml value) = true
  /\ (if existsb is_special value
      then (length value < length (escapeHtml value))%nat
      else escapeHtml value = value).
Proof.
  split.
  - apply escapeHtml_no_markup.
  - destruct (existsb is_special value) eqn:E.
    + apply escapeHtml_length. exact E.
    + rewrite escapeHtml_one_pass. induction value as [|c s IH];
        [reflexivity|].
      cbn [existsb] in E. apply orb_false_iff in E. destruct E as [Ec Es].
      cbn [flat_map]. rewrite (escaped_plain c Ec), (IH Es). reflexivity.
Qed.

Lemma escaped_cases (c : Z) :
  (is_special c = false /\ escaped c = [c] /\ c <> AMP)
  \/ (c = AMP /\ escaped c = lit "&amp;")
  \/ (c = LESS /\ escaped c = lit "&lt;")
  \/ (c = GREATER /\ escaped c = lit "&gt;")
  \/ (c = QUOTE /\ escaped c = lit "&quot;")
  \/ (c = APOSTROPHE /\ escaped c = lit "&#39;").
Proof.
  unfold escaped, is_special.
  destruct (Z.eqb_spec c AMP) as [E|E1]; [tauto|].
  destruct (Z.eqb_spec c LESS) as [E|E2]; [tauto|].
  destruct (Z.eqb_spec c GREATER) as [E|E3]; [tauto|].
  destruct (Z.eqb_spec c QUOTE) as [E|E4]; [tauto|].
  destruct (Z.eqb_spec c APOSTROPHE) as [E|E5]; [tauto|].
  left. repeat split. exact E1.
Qed.

(** One escaped character before a text and another before another give
    the same string only when the characters and the texts are the
    same. *)
Lemma escaped_head (c d : Z) (a b : jsstring) :
  escaped c ++ a = escaped d ++ b -> c = d /\ a = b.
Proof.
  intros H.
  destruct (escaped_cases c) as [(_ & Ec & Hc)|[(-> & Ec)|[(-> & Ec)|
                                 [(-> & Ec)|[(-> & Ec)|(-> & Ec)]]]]];
  destruct (escaped_cases d) as [(_ & Ed & Hd)|[(-> & Ed)|[(-> & Ed)|
                                 [(-> & Ed)|[(-> & Ed)|(-> & Ed)]]]]];
    rewrite ?Ec, ?Ed in H; vm_compute in H;
    try discriminate H;
    injection H; intros; subst;
    first [ split; reflexivity
          | exfalso; apply Hc; reflexivity
          | exfalso; apply Hd; reflexivity ].
Qed.

(** X20: [escapeHtml] loses nothing.  Two texts with the same escaped
    form are the same text; and the escaped form of two texts put
    together is their escaped forms put together, so a text can be
    escaped piece by piece. *)
Theorem escapeHtml_injective (a b : jsstring) :
  (escapeHtml a = escapeHtml b -> a = b)
  /\ escapeHtml (a ++ b) = escapeHtml a ++ escapeHtml b.
Proof.
  split.
  - revert b. induction a as [|c a IH]; intros b H.
    + destruct b as [|d b]; [reflexivity|].
      rewrite escapeHtml_cons in H. exfalso.
      destruct (escaped_cases d) as [(_ & Ed & _)|[(_ & Ed)|[(_ & Ed)|
                                     [(_ & Ed)|[(_ & Ed)|(_ & Ed)]]]]];
        rewrite Ed in H; discriminate H.
    + destruct b as [|d b].
      * rewrite escapeHtml_cons in H. exfalso.
        destruct (escaped_cases c) as [(_ & Ec & _)|[(_ & Ec)|[(_ & Ec)|
                                       [(_ & Ec)|[(_ & Ec)|(_ & Ec)]]]]];
          rewrite Ec in H; discriminate H.
      * rewrite !escapeHtml_cons in H. apply escaped_head in H.
        destruct H as [-> H]. f_equal. apply IH. exact H.
  - rewrite !escapeHtml_one_pass. apply flat_map_app.
Qed.

(** The theorem at a text and what it becomes. *)
Lemma escapeHtml_injective_witness :
  lit "a<b" = lit "a<b"
  /\ escapeHtml (lit "a<b" ++ lit "&c") = lit "a&lt;b" ++ lit "&amp;c".
Proof.
  split.
  - apply (proj1 (escapeHtml_injective (lit "a<b") (lit "a<b"))).
    reflexivity.
  - apply (proj2 (escapeHtml_injective (lit "a<b") (lit "&c"))).
Defined.

(** *** The lines of tokens *)

Lemma occurrences_app (c : Z) (a b : jsstring) :
  occurrences c (a ++ b) = (occurrences c a + occurrences c b)%nat.
Proof. unfold occurrences. rewrite filter_app, length_app. reflexivity. Qed.

Lemma occurrences_none (c : Z) (s : jsstring) :
  forallb (fun d => negb (d =? c)) s = true -> occurrences c s = 0%nat.
Proof.
  unfold occurrences. induction s as [|d s IH]; [reflexivity|].
  cbn [forallb filter]. intros H. apply andb_true_iff in H.
  destruct H as [Hd Hs]. destruct (d =? c); [discriminate Hd|].
  apply IH. exact Hs.
Qed.

Lemma forallb_weaken (f g : Z -> bool) (s : jsstring) :
  (forall d, f d = true -> g d = true) ->
  forallb f s = true -> forallb g s = true.
Proof.
  intros Hfg H. rewrite forallb_forall in *. intros d Hd. apply Hfg.
  apply H. exact Hd.
Qed.

Lemma markup_cases (c : Z) :
  is_markup c = true ->
  c = LESS \/ c = GREATER \/ c = QUOTE \/ c = APOSTROPHE.
Proof.
  unfold is_markup. rewrite !orb_true_iff, !Z.eqb_eq. tauto.
Qed.

Lemma occurrences_escaped_markup (c : Z) (s : jsstring) :
  is_markup c = true -> occurrences c (escapeHtml s) = 0%nat.
Proof.
  intros Hc. apply occurrences_none.
  apply (forallb_weaken (fun d => negb (is_markup d))).
  - intros d Hd. destruct (Z.eqb_spec d c) as [->|]; [|reflexivity].
    rewrite Hc in Hd. discriminate Hd.
  - apply escapeHtml_no_markup.
Qed.

Lemma occurrences_escaped_line_feed (s : jsstring) :
  occurrences 0x0A (escapeHtml s) = occurrences 0x0A s.
Proof.
  induction s as [|c s IH]; [reflexivity|].
  rewrite escapeHtml_cons, occurrences_app, IH.
  change (c :: s) with ([c] ++ s). rewrite occurrences_app. f_equal.
  destruct (escaped_cases c) as [(_ & Ec & _)|[(-> & Ec)|[(-> & Ec)|
                                 [(-> & Ec)|[(-> & Ec)|(-> & Ec)]]]]];
    rewrite Ec; reflexivity.
Qed.

Lemma plain_colour_free (c : Z) (colour : jsstring) :
  plain_colour colour -> is_markup c = true \/ c = 0x0A ->
  occurrences c colour = 0%nat.
Proof.
  intros Hp Hc. apply occurrences_none. revert Hp. unfold plain_colour.
  apply forallb_weaken. intros d Hd. apply andb_true_iff in Hd.
  destruct Hd as [Hm Hn]. destruct (Z.eqb_spec d c) as [->|]; [|reflexivity].
  destruct Hc as [Hc | ->].
  - rewrite Hc in Hm. discriminate Hm.
  - discriminate Hn.
Qed.

(** The style attribute holds a markup character or a line feed as often
    as the colour does. *)
Lemma occurrences_styles (c : Z) (fallbackColor : jsstring) (token : Token) :
  c = LESS \/ c = GREATER \/ c = QUOTE \/ c = 0x0A ->
  occurrences c (join (lit ";") (styles_of fallbackColor token))
  = occurrences c match color token with
                  | Some colour => colour
                  | None => fallbackColor
                  end.
Proof.
  intros Hc. unfold styles_of.
  destruct (color token) as [colour|];
  destruct (has_style token 1), (has_style token 2), (has_style token 4);
    cbn [app join]; rewrite ?occurrences_app;
    destruct Hc as [-> | [-> | [-> | ->]]];
    repeat match goal with
           | |- context [occurrences ?k (lit ?l)] =>
               change (occurrences k (lit l)) with 0%nat
           end;
    lia.
Qed.

Lemma token_colour_plain (fallbackColor : jsstring) (token : Token) :
  plain_colour fallbackColor ->
  match color token with Some c => plain_colour c | None => True end ->
  plain_colour match color token with
               | Some colour => colour
               | None => fallbackColor
               end.
Proof. destruct (color token); tauto. Qed.

(** One token: the two tags, and the line feeds of its text. *)
Lemma occurrences_token (c : Z) (fallbackColor : jsstring) (token : Token) :
  plain_colour fallbackColor ->
  match color token with Some c => plain_colour c | None => True end ->
  c = LESS \/ c = GREATER \/ c = QUOTE \/ c = 0x0A ->
  occurrences c (render_token fallbackColor token)
  = if c =? 0x0A then occurrences 0x0A (content token) else 2%nat.
Proof.
  intros Hf Ht Hc. pose proof (token_colour_plain _ _ Hf Ht) as Hp.
  unfold render_token. rewrite !occurrences_app.
  rewrite (occurrences_styles c) by exact Hc.
  assert (Hfree : occurrences c match color token with
                                | Some colour => colour
                                | None => fallbackColor
                                end = 0%nat).
  { apply plain_colour_free; [exact Hp|].
    destruct Hc as [-> | [-> | [-> | ->]]]; auto. }
  rewrite Hfree.
  destruct Hc as [-> | [-> | [-> | ->]]];
    rewrite ?occurrences_escaped_line_feed;
    rewrite ?(occurrences_escaped_markup LESS),
      ?(occurrences_escaped_markup GREATER),
      ?(occurrences_escaped_markup QUOTE) by reflexivity;
    first [ reflexivity
          | change (occurrences 10 (lit "<span style=")) with 0%nat;
            change (occurrences 10 [QUOTE]) with 0%nat;
            change (occurrences 10 (lit ">")) with 0%nat;
            change (occurrences 10 (lit "</span>")) with 0%nat;
            change (10 =? 10) with true; lia ].
Qed.

Lemma occurrences_tokens (c : Z) (fallbackColor : jsstring)
  (line : list Token) :
  plain_colour fallbackColor ->
  Forall (fun token =>
            match color token with Some c => plain_colour c | None => True end)
    line ->
  c = LESS \/ c = GREATER \/ c = QUOTE ->
  occurrences c (join [] (map (render_token fallbackColor) line))
  = (2 * length line)%nat.
Proof.
  intros Hf Hl Hc. induction Hl as [|token line Ht Hl IH]; [reflexivity|].
  assert (Hjoin : join [] (map (render_token fallbackColor) (token :: line))
                  = render_token fallbackColor token
                      ++ join [] (map (render_token fallbackColor) line)).
  { cbn [map join]. destruct (map (render_token fallbackColor) line);
      [rewrite app_nil_r|]; reflexivity. }
  rewrite Hjoin, occurrences_app, IH.
  rewrite (occurrences_token c) by (assumption || tauto).
  replace (c =? 10) with false.
  - cbn [length]. lia.
  - symmetry. apply Z.eqb_neq. destruct Hc as [-> | [-> | ->]]; discriminate.
Qed.

Lemma line_feeds_tokens (fallbackColor : jsstring) (line : list Token) :
  plain_colour fallbackColor ->
  Forall (fun token =>
            match color token with Some c => plain_colour c | None => True end)
    line ->
  Forall (fun token => occurrences 0x0A (content token) = 0%nat) line ->
  occurrences 0x0A (join [] (map (render_token fallbackColor) line)) = 0%nat.
Proof.
  intros Hf Hl Ho. induction Hl as [|token line Ht Hl IH]; [reflexivity|].
  inversion_clear Ho as [|? ? Ho1 Ho2].
  assert (Hjoin : join [] (map (render_token fallbackColor) (token :: line))
                  = render_token fallbackColor token
                      ++ join [] (map (render_token fallbackColor) line)).
  { cbn [map join]. destruct (map (render_token fallbackColor) line);
      [rewrite app_nil_r|]; reflexivity. }
  rewrite Hjoin, occurrences_app, (IH Ho2).
  rewrite (occurrences_token 0x0A) by (assumption || tauto).
  rewrite Ho1. reflexivity.
Qed.

Lemma occurrences_line (c : Z) (fallbackColor : jsstring) (line : list Token) :
  plain_colour fallbackColor ->
  Forall (fun token =>
            match color token with Some c => plain_colour c | None => True end)
    line ->
  c = LESS \/ c = GREATER \/ c = QUOTE ->
  occurrences c (render_line fallbackColor line) = (2 * length line)%nat.
Proof.
  intros Hf Hl Hc. destruct line as [|token line].
  - destruct Hc as [-> | [-> | ->]]; reflexivity.
  - apply occurrences_tokens; assumption.
Qed.

(** X21: the highlighted lines.  When the colours hold no markup and no
    line feed, the HTML [renderShikiTokenLines] returns has two opening
    and two closing angle brackets and two double quotes for each token,
    those of its tags: the text of a token adds none, whatever it is.
    When no token holds a line feed, the line feeds of the result are
    those between the lines, one less than there are lines, so the
    result has the lines of the source, an empty line being a space. *)
Theorem token_lines_keep_structure (lines : list (list Token))
  (fallbackColor : jsstring) :
  plain_colours fallbackColor lines ->
  let html := renderShikiTokenLines lines fallbackColor in
  let tokens := length (concat lines) in
  occurrences LESS html = (2 * tokens)%nat
  /\ occurrences GREATER html = (2 * tokens)%nat
  /\ occurrences QUOTE html = (2 * tokens)%nat
  /\ (one_line lines ->
      occurrences 0x0A html = (length lines - 1)%nat).
Proof.
  intros [Hf Hl] html tokens. subst html tokens. unfold renderShikiTokenLines.
  assert (Hmark : forall c, c = LESS \/ c = GREATER \/ c = QUOTE ->
            occurrences c (join [0x0A] (map (render_line fallbackColor) lines))
            = (2 * length (concat lines))%nat).
  { intros c Hc. induction Hl as [|line lines Hline Hl IH]; [reflexivity|].
    assert (Hjoin :
      occurrences c (join [0x0A] (map (render_line fallbackColor)
                                    (line :: lines)))
      = Nat.add (occurrences c (render_line fallbackColor line))
          (occurrences c (join [0x0A] (map (render_line fallbackColor) lines)))).
    { cbn [map join]. destruct (map (render_line fallbackColor) lines).
      - cbn [join]. unfold occurrences at 3. cbn. lia.
      - rewrite !occurrences_app.
        replace (occurrences c [0x0A%Z]) with 0%nat; [lia|].
        destruct Hc as [-> | [-> | ->]]; reflexivity. }
    rewrite Hjoin, IH, (occurrences_line c) by assumption.
    cbn [concat]. rewrite length_app. lia. }
  split; [apply Hmark; tauto|]. split; [apply Hmark; tauto|].
  split; [apply Hmark; tauto|].
  intros Ho. clear Hmark. unfold one_line in Ho.
  induction Hl as [|line lines Hline Hl IH]; [reflexivity|].
  inversion_clear Ho as [|? ? Ho1 Ho2]. specialize (IH Ho2).
  assert (Hfeed : occurrences 0x0A (render_line fallbackColor line) = 0%nat).
  { destruct line as [|token line]; [reflexivity|].
    apply line_feeds_tokens; assumption. }
  cbn [map join length]. destruct lines as [|line' lines'].
  - cbn [map]. exact Hfeed.
  - cbn [map] in *. rewrite !occurrences_app, Hfeed, IH.
    cbn [length]. change (occurrences 10 [10]) with 1%nat. lia.
Qed.

(** The theorem at two lines, the first with a token whose text is a
    tag, the second empty. *)
Lemma token_lines_keep_structure_witness :
  let html :=
    renderShikiTokenLines
      [[{| content := lit "A --> B"; color := Some (lit "#e1e4e8");
           fontStyle := None |};
        {| content := lit "<b>"; color := None; fontStyle := Some 1 |}];
       []]
      (lit "#fff") in
  occurrences LESS html = 4%nat
  /\ occurrences GREATER html = 4%nat
  /\ occurrences QUOTE html = 4%nat
  /\ occurrences 0x0A html = 1%nat.
Proof.
  set (lines := [[{| content := lit "A --> B"; color := Some (lit "#e1e4e8");
                     fontStyle := None |};
                  {| content := lit "<b>"; color := None;
                     fontStyle := Some 1 |}];
                 []]).
  assert (Hp : plain_colours (lit "#fff") lines).
  { split; [reflexivity|]. repeat constructor. }
  assert (Ho : one_line lines) by (repeat constructor).
  destruct (token_lines_keep_structure lines (lit "#fff") Hp)
    as (H1 & H2 & H3 & H4).
  split; [exact H1|]. split; [exact H2|]. split; [exact H3|].
  apply H4. exact Ho.
Defined.

End StudioFacts.

(* ================================================================== *)
(** * The message of an action                                          *)
(* ================================================================== *)

Module ActionMessageFacts.
Import ActionMessage.

Local Open Scope nat_scope.

Lemma show_when_idle (t : Toast) (time : nat) (message : string)
  (isError : bool) :
  idle t -> clock t <= time ->
  showing message isError time
    (showActionMessage message isError (wait_until time t)).
Proof.
  intros [Hp Hn] Hc. exists (next_id t).
  unfold showActionMessage, wait_until, without_action_timer.
  rewrite Hp. cbn [filter fold_left pending clock next_id actionTimeoutRef
                   actionMessage actionError].
  replace (Nat.max (clock t) time) with time by lia.
  destruct (actionTimeoutRef t) as [id|]; [destruct (Nat.eqb id 0)|];
    cbn [filter app]; repeat split; assumption.
Qed.

Lemma show_when_showing (t : Toast) (time time' : nat)
  (message message' : string) (isError isError' : bool) :
  showing message isError time t -> time <= time' ->
  showing message' isError' time'
    (showActionMessage message' isError' (wait_until time' t)).
Proof.
  intros (id & Hid & Hp & Hr & Hn & Hc & _ & _) Hle. exists (S id).
  unfold showActionMessage, wait_until, without_action_timer.
  rewrite Hp. cbn [filter snd].
  destruct (Nat.leb (time + ACTION_MESSAGE_MS) time') eqn:E;
    cbn [negb fold_left expire pending clock next_id actionTimeoutRef
         actionMessage actionError];
    rewrite Hr; destruct id as [|id]; try lia;
    cbn [Nat.eqb filter fst]; rewrite ?Nat.eqb_refl; cbn [negb app];
    rewrite Hn, Hc; replace (Nat.max time time') with time' by lia;
    repeat split; lia.
Qed.

Lemma show_all_showing (rest : list (nat * (string * bool))) :
  forall (t : Toast) (time : nat) (message : string) (isError : bool),
  showing message isError time t -> in_order time rest ->
  let '(tn, (mn, en)) := last rest (time, (message, isError)) in
  showing mn en tn (show_all rest t).
Proof.
  induction rest as [|[time' [message' isError']] rest IH];
    intros t time message isError Ht Ho.
  - exact Ht.
  - cbn [in_order] in Ho. destruct Ho as [Hle Ho]. cbn [show_all].
    rewrite SchedulerFacts.last_cons.
    apply IH; [|exact Ho].
    eapply show_when_showing; eassumption.
Qed.

Lemma showing_until (t : Toast) (time T : nat) (message : string)
  (isError : bool) :
  showing message isError time t ->
  (T < time + ACTION_MESSAGE_MS ->
   actionMessage (wait_until T t) = message
   /\ actionError (wait_until T t) = isError)
  /\ (time + ACTION_MESSAGE_MS <= T ->
      actionMessage (wait_until T t) = ""%string
      /\ actionError (wait_until T t) = false).
Proof.
  intros (id & _ & Hp & _ & _ & _ & Hm & He).
  unfold wait_until. rewrite Hp. cbn [filter snd]. split; intros HT.
  - replace (Nat.leb (time + ACTION_MESSAGE_MS) T) with false
      by (symmetry; apply Nat.leb_gt; lia).
    cbn. split; assumption.
  - replace (Nat.leb (time + ACTION_MESSAGE_MS) T) with true
      by (symmetry; apply Nat.leb_le; lia).
    cbn. split; reflexivity.
Qed.

(** X22: the action message.  From a state with no timer pending, after
    calls of [showActionMessage] at times in order, the message shown
    is the one of the last call, with its error flag, until 3000 ms
    after that call, and the empty message without error from then on:
    the timer of an earlier call never takes a later message away. *)
Theorem action_message_lasts
  (t : Toast) (t1 : nat) (m1 : string) (e1 : bool)
  (rest : list (nat * (string * bool))) (T : nat) :
  idle t -> clock t <= t1 -> in_order t1 rest ->
  let '(tn, (mn, en)) := last rest (t1, (m1, e1)) in
  let shown := wait_until T (show_all ((t1, (m1, e1)) :: rest) t) in
  (T < tn + ACTION_MESSAGE_MS ->
   actionMessage shown = mn /\ actionError shown = en)
  /\ (tn + ACTION_MESSAGE_MS <= T ->
      actionMessage shown = ""%string /\ actionError shown = false).
Proof.
  intros Hidle Hc Ho. cbn [show_all].
  pose proof (show_when_idle t t1 m1 e1 Hidle Hc) as H1.
  pose proof (show_all_showing rest _ _ _ _ H1 Ho) as Hl.
  destruct (last rest (t1, (m1, e1))) as [tn [mn en]].
  cbv zeta. apply showing_until. exact Hl.
Qed.

(** The theorem at "SVG copied" shown at 0 ms and "Share link copied" at
    2000 ms: at 3500 ms the second message is still there, at 5000 ms it
    is gone. *)
Lemma action_message_lasts_witness :
  actionMessage
    (wait_until 3500
       (show_all [(0, ("SVG copied", false));
                  (2000, ("Share link copied", false))]%string toast0))
  = "Share link copied"%string
  /\ actionMessage
       (wait_until 5000
          (show_all [(0, ("SVG copied", false));
                     (2000, ("Share link copied", false))]%string toast0))
     = ""%string.
Proof.
  assert (Hidle : idle toast0) by (split; [reflexivity | cbn; lia]).
  assert (Ho : in_order 0 [(2000, ("Share link copied", false))]%string)
    by (cbn; lia).
  split.
  - apply (proj1 (action_message_lasts toast0 0 "SVG copied" false
                   [(2000, ("Share link copied", false))]%string 3500
                   Hidle (le_n 0) Ho)).
    unfold ACTION_MESSAGE_MS. lia.
  - apply (proj2 (action_message_lasts toast0 0 "SVG copied" false
                   [(2000, ("Share link copied", false))]%string 5000
                   Hidle (le_n 0) Ho)).
    unfold ACTION_MESSAGE_MS. lia.
Defined.

End ActionMessageFacts.

(* ================================================================== *)
(** * The colours of the text theme                                     *)
(* ================================================================== *)

Module ColourFacts.
Import Js Url Viewport Studio Colour JsFacts UrlFacts.
Import Binary64 Binary64Facts ViewportFacts.
Import Lqa.

Local Open Scope Z_scope.

(** *** [parseInt] and [parseHexColor] *)

Lemma hex_value_char (c h : Z) :
  hex_value c = Some h ->
  0 <= h <= 15 /\ (0x30 <= c <= 0x39 \/ 0x41 <= c <= 0x46 \/ 0x61 <= c <= 0x66).
Proof.
  intros H. split; [apply (hex_value_range c h H)|].
  unfold hex_value in H.
  destruct ((48 <=? c) && (c <=? 57)) eqn:E1.
  { apply andb_true_iff in E1. rewrite !Z.leb_le in E1. lia. }
  destruct ((65 <=? c) && (c <=? 70)) eqn:E2.
  { apply andb_true_iff in E2. rewrite !Z.leb_le in E2. lia. }
  destruct ((97 <=? c) && (c <=? 102)) eqn:E3; [|discriminate H].
  apply andb_true_iff in E3. rewrite !Z.leb_le in E3. lia.
Qed.

Lemma digit_not_space (c h : Z) :
  hex_value c = Some h -> is_white_space c = false.
Proof.
  intros H. apply hex_value_char in H. destruct H as [_ H].
  unfold is_white_space.
  repeat match goal with
         | |- context [?a =? ?b] =>
             replace (a =? b) with false by (symmetry; apply Z.eqb_neq; lia)
         end.
  replace (8192 <=? c) with false by (symmetry; apply Z.leb_gt; lia).
  reflexivity.
Qed.

(** Two digits are read as the number they write. *)
Lemma parseInt16_digits (c0 c1 h0 h1 : Z) :
  hex_value c0 = Some h0 -> hex_value c1 = Some h1 ->
  parseInt16 [c0; c1] = Some (16 * h0 + h1).
Proof.
  intros H0 H1. pose proof (digit_not_space c0 h0 H0) as Hs.
  pose proof (hex_value_char c0 h0 H0) as [_ Hc0].
  pose proof (hex_value_char c1 h1 H1) as [_ Hc1].
  unfold parseInt16. cbn [trim_start]. rewrite Hs.
  replace (c0 =? MINUS) with false
    by (symmetry; apply Z.eqb_neq; unfold MINUS; lia).
  replace (c0 =? PLUS) with false
    by (symmetry; apply Z.eqb_neq; unfold PLUS; lia).
  cbn [orb].
  replace ((c1 =? 120) || (c1 =? 88)) with false.
  2:{ symmetry. apply orb_false_iff. split; apply Z.eqb_neq; lia. }
  rewrite andb_false_r. cbn [hex_digits]. rewrite H0, H1.
  cbn [fold_left]. f_equal. lia.
Qed.

Lemma trim_kept (c : Z) (s : jsstring) (d : Z) :
  is_white_space c = false -> is_white_space d = false ->
  trim (c :: s ++ [d]) = c :: s ++ [d].
Proof.
  intros Hc Hd. unfold trim, trim_end. cbn [trim_start]. rewrite Hc.
  rewrite app_comm_cons. rewrite rev_unit. cbn [trim_start]. rewrite Hd.
  rewrite <- rev_unit. apply rev_involutive.
Qed.

Lemma hash_not_space : is_white_space HASH = false.
Proof. reflexivity. Qed.

Lemma digit_not_hash (c h : Z) : hex_value c = Some h -> (c =? HASH) = false.
Proof.
  intros H. apply hex_value_char in H. destruct H as [_ H].
  apply Z.eqb_neq. unfold HASH. lia.
Qed.

Lemma parse_hash_six (c0 c1 c2 c3 c4 c5 h0 h1 h2 h3 h4 h5 : Z) :
  hex_value c0 = Some h0 -> hex_value c1 = Some h1 ->
  hex_value c2 = Some h2 -> hex_value c3 = Some h3 ->
  hex_value c4 = Some h4 -> hex_value c5 = Some h5 ->
  parseHexColor [HASH; c0; c1; c2; c3; c4; c5]
  = Some {| r := 16 * h0 + h1; g := 16 * h2 + h3; b := 16 * h4 + h5 |}.
Proof.
  intros H0 H1 H2 H3 H4 H5. unfold parseHexColor.
  assert (T : trim [HASH; c0; c1; c2; c3; c4; c5]
              = [HASH; c0; c1; c2; c3; c4; c5]).
  { apply (trim_kept HASH [c0; c1; c2; c3; c4] c5 hash_not_space
             (digit_not_space _ _ H5)). }
  rewrite T. cbn [strip_hash]. change (HASH =? HASH) with true. cbv iota.
  rewrite (parseInt16_digits c0 c1 h0 h1), (parseInt16_digits c2 c3 h2 h3),
    (parseInt16_digits c4 c5 h4 h5) by assumption.
  reflexivity.
Qed.

(** X23: colours of six and of three digits.  [parseHexColor] reads a
    colour written with six hexadecimal digits, upper or lower case, with
    or without the [#], as its three channels, each between 0 and 255;
    a colour of three digits is read as the colour with every digit
    doubled. *)
Theorem parseHexColor_digits (c0 c1 c2 c3 c4 c5 h0 h1 h2 h3 h4 h5 : Z) :
  hex_value c0 = Some h0 -> hex_value c1 = Some h1 ->
  hex_value c2 = Some h2 -> hex_value c3 = Some h3 ->
  hex_value c4 = Some h4 -> hex_value c5 = Some h5 ->
  let six := {| r := 16 * h0 + h1; g := 16 * h2 + h3; b := 16 * h4 + h5 |} in
  parseHexColor [HASH; c0; c1; c2; c3; c4; c5] = Some six
  /\ parseHexColor [c0; c1; c2; c3; c4; c5] = Some six
  /\ is_channel (r six) /\ is_channel (g six) /\ is_channel (b six)
  /\ parseHexColor [HASH; c0; c1; c2]
     = parseHexColor [HASH; c0; c0; c1; c1; c2; c2]
  /\ parseHexColor [c0; c1; c2] = parseHexColor [c0; c0; c1; c1; c2; c2].
Proof.
  intros H0 H1 H2 H3 H4 H5 six.
  pose proof (digit_not_space _ _ H0) as S0.
  pose proof (digit_not_space _ _ H2) as S2.
  pose proof (digit_not_space _ _ H5) as S5.
  pose proof (digit_not_hash _ _ H0) as N0.
  assert (T6 : forall a b c d e f,
             is_white_space a = false -> is_white_space f = false ->
             trim [a; b; c; d; e; f] = [a; b; c; d; e; f]).
  { intros a b c d e f Ha Hf. apply (trim_kept a [b; c; d; e] f Ha Hf). }
  assert (T7 : forall b c d e f g',
             is_white_space g' = false ->
             trim [HASH; b; c; d; e; f; g'] = [HASH; b; c; d; e; f; g']).
  { intros b c d e f g' Hg.
    apply (trim_kept HASH [b; c; d; e; f] g' hash_not_space Hg). }
  assert (T3 : trim [c0; c1; c2] = [c0; c1; c2])
    by (apply (trim_kept c0 [c1] c2 S0 S2)).
  assert (T4 : trim [HASH; c0; c1; c2] = [HASH; c0; c1; c2])
    by (apply (trim_kept HASH [c0; c1] c2 hash_not_space S2)).
  unfold parseHexColor.
  rewrite T7 by assumption. rewrite !T6 by assumption.
  rewrite T7 by assumption. rewrite T3, T4.
  cbn [strip_hash]. change (HASH =? HASH) with true. rewrite N0.
  cbv iota.
  rewrite (parseInt16_digits c0 c1 h0 h1), (parseInt16_digits c2 c3 h2 h3),
    (parseInt16_digits c4 c5 h4 h5) by assumption.
  rewrite (parseInt16_digits c0 c0 h0 h0), (parseInt16_digits c1 c1 h1 h1),
    (parseInt16_digits c2 c2 h2 h2) by assumption.
  apply hex_value_range in H0, H1, H2, H3, H4, H5.
  unfold is_channel. cbn [channels r g b six].
  repeat split; lia.
Qed.

(** The theorem at the digits of #1a2B3c. *)
Lemma parseHexColor_digits_witness :
  parseHexColor (lit "#1a2B3c") = Some {| r := 26; g := 43; b := 60 |}
  /\ parseHexColor (lit "1a2B3c") = Some {| r := 26; g := 43; b := 60 |}
  /\ parseHexColor (lit "#1a2") = parseHexColor (lit "#11aa22").
Proof.
  destruct (parseHexColor_digits 0x31 0x61 0x32 0x42 0x33 0x63 1 10 2 11 3 12
              eq_refl eq_refl eq_refl eq_refl eq_refl eq_refl)
    as (H6 & H6' & _ & _ & _ & H3 & _).
  split; [exact H6|]. split; [exact H6' | exact H3].
Defined.

(** What [parseInt] makes of two characters: a sign takes the place of
    a digit, so the least value is -15. *)
Lemma parseInt16_pair (c0 c1 n : Z) :
  parseInt16 [c0; c1] = Some n -> -15 <= n <= 255.
Proof.
  intros H. unfold parseInt16 in H. cbn [trim_start] in H.
  repeat match type of H with
         | context [is_white_space ?c] =>
             destruct (is_white_space c) eqn:?;
             cbn [trim_start hex_digits orb andb fold_left] in H
         | context [?a =? ?b] =>
             destruct (a =? b) eqn:?;
             cbn [trim_start hex_digits orb andb fold_left] in H
         | context [hex_value ?c] =>
             destruct (hex_value c) eqn:?;
             cbn [trim_start hex_digits orb andb fold_left] in H
         end;
    try discriminate H; injection H as <-;
    repeat match goal with
           | E : hex_value _ = Some _ |- _ => apply hex_value_range in E
           end;
    repeat match goal with
           | |- context [match ?z with 0 => _ | Z.pos _ => _ | Z.neg _ => _ end] =>
               destruct z eqn:?
           end;
    lia.
Qed.

Lemma channels_some (x y z : option Z) (c : Rgb) :
  channels x y z = Some c -> x = Some (r c) /\ y = Some (g c) /\ z = Some (b c).
Proof.
  destruct x, y, z; cbn [channels]; intros H; try discriminate H.
  injection H as <-. repeat split.
Qed.

(** X24: what [parseHexColor] takes.  It gives null unless the text,
    trimmed and less one leading [#], has three or six characters.  The
    channels of the colour it gives are integers from -15 to 255: a
    channel below 0 comes from a sign where a digit should be, which
    [parseInt] accepts. *)
Theorem parseHexColor_checked (value : jsstring) :
  let normalized := strip_hash (trim value) in
  (length normalized <> 3%nat -> length normalized <> 6%nat ->
   parseHexColor value = None)
  /\ (forall c,
        parseHexColor value = Some c ->
        (length normalized = 3%nat \/ length normalized = 6%nat)
        /\ -15 <= r c <= 255 /\ -15 <= g c <= 255 /\ -15 <= b c <= 255).
Proof.
  intros normalized. unfold parseHexColor. fold normalized.
  destruct normalized as [|c0 [|c1 [|c2 [|c3 [|c4 [|c5 [|c6 rest]]]]]]];
    cbn [length]; (split; [intros H3 H6; try reflexivity; lia|]);
    intros c H; try discriminate H.
  - apply channels_some in H. destruct H as (Hr & Hg & Hb).
    apply parseInt16_pair in Hr, Hg, Hb. split; [left; reflexivity|].
    repeat split; lia.
  - apply channels_some in H. destruct H as (Hr & Hg & Hb).
    apply parseInt16_pair in Hr, Hg, Hb. split; [right; reflexivity|].
    repeat split; lia.
Qed.

(** The theorem at a colour with signs for digits and at a colour of
    four digits. *)
Lemma parseHexColor_checked_witness :
  parseHexColor (lit "#ffff") = None
  /\ (parseHexColor (lit "#-f-f-f") = Some {| r := -15; g := -15; b := -15 |}
      /\ -15 <= -15 <= 255).
Proof.
  split.
  - apply (proj1 (parseHexColor_checked (lit "#ffff"))); discriminate.
  - split; [reflexivity|].
    apply (proj2 (parseHexColor_checked (lit "#-f-f-f"))
             {| r := -15; g := -15; b := -15 |}).
    reflexivity.
Defined.

(** *** [mixHexColors] in binary64 *)

Local Open Scope Q_scope.

(** [floor] is the greatest integer that is not above. *)
Lemma floor_spec (q : Q) : inject_Z (floor q) <= q < inject_Z (floor q) + 1.
Proof.
  destruct q as [n d]. unfold floor, Qle, Qlt, inject_Z, Qplus.
  cbn [Qnum Qden].
  pose proof (Z.div_mod n (Zpos d) ltac:(lia)) as Hdm.
  pose proof (Z.mod_pos_bound n (Zpos d) ltac:(lia)) as Hm.
  split; nia.
Qed.

Lemma inject_Z_lt_succ (y z : Z) : inject_Z y < inject_Z z + 1 -> (y <= z)%Z.
Proof.
  intros H.
  assert (E : inject_Z z + 1 == inject_Z (z + 1))
    by (rewrite inject_Z_plus; reflexivity).
  rewrite E in H. rewrite <- Zlt_Qlt in H. lia.
Qed.

Lemma floor_unique (q : Q) (z : Z) :
  inject_Z z <= q -> q < inject_Z z + 1 -> floor q = z.
Proof.
  intros Hlo Hhi. pose proof (floor_spec q) as [Flo Fhi].
  assert (H1 : (z <= floor q)%Z) by (apply inject_Z_lt_succ; lra).
  assert (H2 : (floor q <= z)%Z) by (apply inject_Z_lt_succ; lra).
  lia.
Qed.

(** A number within a quarter of an integer is rounded to it. *)
Lemma round_near (v : Q) (n : Z) :
  Qabs (v - inject_Z n) <= 1 # 4 -> floor (v + (1 # 2)) = n.
Proof.
  intros H. apply Qabs_le_split in H. destruct H as [H1 H2].
  apply floor_unique; lra.
Qed.

(** A number within a quarter of a number between two integers is
    rounded to an integer between them. *)
Lemma round_between (v x : Q) (lo hi : Z) :
  Qabs (v - x) <= 1 # 4 -> inject_Z lo <= x -> x <= inject_Z hi ->
  (lo <= floor (v + (1 # 2)) <= hi)%Z.
Proof.
  intros H Hlo Hhi. apply Qabs_le_split in H. destruct H as [H1 H2].
  pose proof (floor_spec (v + (1 # 2))) as [Flo Fhi].
  split; apply inject_Z_lt_succ; lra.
Qed.

(** [Math.round] of a binary64 number that is finite. *)
Lemma float_round_finite (v : PrimFloat.float) :
  finite v = true -> float_round v = Integer (floor (value v + (1 # 2))).
Proof.
  unfold finite, value, float_round.
  destruct (FloatOps.Prim2SF v) as [s|s| |s m e]; cbn [SF_finite SF2Q];
    intros F; try discriminate F; [reflexivity|].
  f_equal. symmetry.
  set (n := if s then Z.neg m else Z.pos m).
  assert (Hn : sign_factor s * (inject_Z (Z.pos m) * pow2 e)
               == inject_Z n * pow2 e).
  { subst n. destruct s; unfold sign_factor.
    - change (inject_Z (Z.neg m)) with (- inject_Z (Z.pos m)). ring.
    - ring. }
  destruct (0 <=? e)%Z eqn:He.
  - apply Z.leb_le in He. rewrite Z.shiftl_mul_pow2 by exact He.
    assert (E : inject_Z n * pow2 e == inject_Z (n * 2 ^ e)).
    { rewrite inject_Z_mult, pow2_Z by exact He. reflexivity. }
    apply floor_unique; rewrite Hn, E; lra.
  - apply Z.leb_gt in He.
    rewrite !Z.shiftl_mul_pow2 by lia. rewrite Z.shiftr_div_pow2 by lia.
    set (k := (- e)%Z).
    assert (Hk : (0 < k)%Z) by (subst k; lia).
    replace (1 - e)%Z with (k + 1)%Z by (subst k; lia).
    assert (Hp : (0 < 2 ^ k)%Z) by (apply Z.pow_pos_nonneg; lia).
    rewrite Z.pow_add_r by lia. change (2 ^ 1)%Z with 2%Z.
    set (z := ((n * 2 + 1 * 2 ^ k) / (2 ^ k * 2))%Z).
    pose proof (Z.div_mod (n * 2 + 1 * 2 ^ k) (2 ^ k * 2) ltac:(lia)) as Hdm.
    pose proof (Z.mod_pos_bound (n * 2 + 1 * 2 ^ k) (2 ^ k * 2) ltac:(lia))
      as Hm.
    fold z in Hdm.
    set (rem := ((n * 2 + 1 * 2 ^ k) mod (2 ^ k * 2))%Z) in *.
    assert (E2 : pow2 e * inject_Z (2 ^ k) == 1).
    { rewrite <- pow2_Z by lia. rewrite <- pow2_add.
      replace (e + k)%Z with 0%Z by (subst k; lia). reflexivity. }
    assert (Hpe : 0 < pow2 e) by apply pow2_pos.
    assert (E1 : 2 * inject_Z n + inject_Z (2 ^ k)
                 == 2 * inject_Z (2 ^ k) * inject_Z z + inject_Z rem).
    { change 2 with (inject_Z 2).
      rewrite <- !inject_Z_mult, <- !inject_Z_plus.
      apply inject_Z_injective. lia. }
    assert (E4 : 2 * (inject_Z n * pow2 e) + 1
                 == 2 * inject_Z z + inject_Z rem * pow2 e).
    { setoid_replace (2 * (inject_Z n * pow2 e) + 1)
        with ((2 * inject_Z n + inject_Z (2 ^ k)) * pow2 e
              + (1 - pow2 e * inject_Z (2 ^ k))) by ring.
      rewrite E1.
      setoid_replace ((2 * inject_Z (2 ^ k) * inject_Z z + inject_Z rem)
                      * pow2 e)
        with (2 * inject_Z z * (pow2 e * inject_Z (2 ^ k))
              + inject_Z rem * pow2 e) by ring.
      rewrite E2. ring. }
    assert (R0 : 0 <= inject_Z rem * pow2 e).
    { apply Qmult_le_0_compat; [|lra].
      change 0 with (inject_Z 0). rewrite <- Zle_Qle. lia. }
    assert (R1 : inject_Z rem * pow2 e < 2).
    { assert (Hr : inject_Z rem < 2 * inject_Z (2 ^ k)).
      { change 2 with (inject_Z 2). rewrite <- inject_Z_mult.
        rewrite <- Zlt_Qlt. lia. }
      assert (Hr' : inject_Z rem * pow2 e < 2 * inject_Z (2 ^ k) * pow2 e)
        by (apply Qmult_lt_compat_r; assumption).
      setoid_replace (2 * inject_Z (2 ^ k) * pow2 e)
        with (2 * (pow2 e * inject_Z (2 ^ k))) in Hr' by ring.
      rewrite E2 in Hr'. lra. }
    apply floor_unique; rewrite Hn; lra.
Qed.

(** The channels, and 0, 1 and 100, as binary64 numbers. *)
Lemma literal_channel (n : Z) :
  (0 <= n <= 255)%Z ->
  finite (literal n 1) = true /\ value (literal n 1) == inject_Z n.
Proof.
  intros Hn.
  assert (Hall :
    forallb (fun k =>
               finite (literal (Z.of_nat k) 1)
               && Qeq_bool (value (literal (Z.of_nat k) 1))
                    (inject_Z (Z.of_nat k)))
      (seq 0 256) = true) by (vm_compute; reflexivity).
  rewrite forallb_forall in Hall. specialize (Hall (Z.to_nat n)).
  rewrite Z2Nat.id in Hall by lia.
  assert (Hin : In (Z.to_nat n) (seq 0 256)) by (apply in_seq; lia).
  specialize (Hall Hin). apply andb_true_iff in Hall.
  destruct Hall as [F V]. split; [exact F | apply Qeq_bool_iff; exact V].
Qed.

(** [clamp] at and above the upper bound, at and below the lower one. *)
Lemma float_clamp_above (lo hi v : PrimFloat.float) :
  finite lo = true -> finite hi = true ->
  PrimFloat.get_sign lo = false -> PrimFloat.get_sign hi = false ->
  value lo < value hi ->
  PrimFloat.is_nan v = false -> PrimFloat.leb hi v = true ->
  value (clamp v lo hi) == value hi.
Proof.
  intros Flo Fhi Hslo Hshi Hlt Hv Hle.
  pose proof (finite_not_nan _ Flo) as Hlo.
  pose proof (finite_not_nan _ Fhi) as Hhi.
  unfold clamp. cbn [Math_min Math_max Float64]. unfold float_max.
  rewrite Hlo, Hv, Hslo. cbn [orb].
  destruct (PrimFloat.ltb lo v) eqn:E1.
  - unfold float_min. rewrite Hhi, Hv, Hshi. cbn [orb].
    destruct (PrimFloat.ltb hi v) eqn:E2; [reflexivity|].
    pose proof (not_ltb_leb _ _ Hhi Hv E2) as Hle'.
    pose proof (finite_between _ _ _ Fhi Fhi Hle Hle') as Fv.
    pose proof (leb_value _ _ Fhi Fv Hle).
    pose proof (leb_value _ _ Fv Fhi Hle').
    destruct (PrimFloat.ltb v hi); lra.
  - exfalso.
    pose proof (not_ltb_leb _ _ Hlo Hv E1) as Hle'.
    pose proof (finite_between _ _ _ Fhi Flo Hle Hle') as Fv.
    pose proof (leb_value _ _ Fhi Fv Hle).
    pose proof (leb_value _ _ Fv Flo Hle'). lra.
Qed.

Lemma float_clamp_below (lo hi v : PrimFloat.float) :
  finite lo = true -> finite hi = true ->
  PrimFloat.get_sign lo = false -> PrimFloat.get_sign hi = false ->
  value lo < value hi ->
  PrimFloat.is_nan v = false -> PrimFloat.leb v lo = true ->
  value (clamp v lo hi) == value lo.
Proof.
  intros Flo Fhi Hslo Hshi Hlt Hv Hle.
  pose proof (finite_not_nan _ Flo) as Hlo.
  pose proof (finite_not_nan _ Fhi) as Hhi.
  unfold clamp. cbn [Math_min Math_max Float64]. unfold float_max.
  rewrite Hlo, Hv, Hslo. cbn [orb].
  destruct (PrimFloat.ltb lo v) eqn:E1.
  - exfalso.
    pose proof (ltb_leb _ _ E1) as Hle'.
    pose proof (finite_between _ _ _ Flo Flo Hle' Hle) as Fv.
    pose proof (ltb_value _ _ Flo Fv E1).
    pose proof (leb_value _ _ Fv Flo Hle). lra.
  - assert (Em : (if PrimFloat.ltb v lo then lo else lo) = lo)
      by (destruct (PrimFloat.ltb v lo); reflexivity).
    rewrite Em. unfold float_min. rewrite Hhi, Hlo, Hshi. cbn [orb].
    destruct (PrimFloat.ltb hi lo) eqn:E2.
    + pose proof (ltb_value _ _ Fhi Flo E2). lra.
    + destruct (PrimFloat.ltb lo hi); reflexivity.
Qed.

(** The weight is a number that is [W], between 0 and 1, up to one
    rounding; [W] is 1 from 100 percent on and 0 down from 0 percent. *)
Lemma weight_range (percent : PrimFloat.float) :
  PrimFloat.is_nan percent = false ->
  exists W,
    finite (weight_of percent) = true
    /\ rounds_to (value (weight_of percent)) W
    /\ 0 <= W /\ W <= 1
    /\ (PrimFloat.leb (literal 100 1) percent = true -> W == 1)
    /\ (PrimFloat.leb percent (literal 0 1) = true -> W == 0).
Proof.
  intros Hp. unfold weight_of.
  set (lo := literal 0 1 : PrimFloat.float).
  set (hi := literal 100 1 : PrimFloat.float).
  assert (Flo : finite lo = true) by reflexivity.
  assert (Fhi : finite hi = true) by reflexivity.
  assert (Vlo : value lo == 0) by reflexivity.
  assert (Vhi : value hi == 100) by reflexivity.
  assert (Hslo : PrimFloat.get_sign lo = false) by reflexivity.
  assert (Hshi : PrimFloat.get_sign hi = false) by reflexivity.
  assert (Hlt : value lo < value hi) by lra.
  pose proof (float_clamp_between lo hi percent
                (finite_not_nan _ Flo) (finite_not_nan _ Fhi) Hslo Hshi
                ltac:(reflexivity) ltac:(reflexivity) ltac:(reflexivity) Hp)
    as Hc.
  apply andb_true_iff in Hc. destruct Hc as [C1 C2].
  set (c := clamp percent lo hi) in *.
  pose proof (finite_between _ _ _ Flo Fhi C1 C2) as Fc.
  pose proof (leb_value _ _ Flo Fc C1) as V1.
  pose proof (leb_value _ _ Fc Fhi C2) as V2.
  assert (Hnz : ~ value hi == 0) by (intros E; lra).
  assert (Hq0 : 0 <= value c / value hi).
  { apply Qle_shift_div_l; lra. }
  assert (Hq1 : value c / value hi <= 1).
  { apply Qle_shift_div_r; lra. }
  destruct (div_model c hi Fc Fhi Hnz) as [Fw Rw].
  { apply Qle_lt_trans with 1; [|reflexivity].
    apply Qabs_le_join; lra. }
  exists (value c / value hi). cbn [div Float64].
  split; [exact Fw|]. split; [exact Rw|]. split; [exact Hq0|].
  split; [exact Hq1|]. split; intros H.
  - pose proof (float_clamp_above lo hi percent Flo Fhi Hslo Hshi Hlt Hp H)
      as E.
    fold c in E. rewrite E. field. exact Hnz.
  - pose proof (float_clamp_below lo hi percent Flo Fhi Hslo Hshi Hlt Hp H)
      as E.
    fold c in E. rewrite E, Vlo. field. exact Hnz.
Qed.

(** A channel times a number of at most [k]. *)
Lemma product_bound (A x k : Q) :
  0 <= A -> A <= 255 -> Qabs x <= k -> Qabs (A * x) <= 255 * k.
Proof.
  intros H0 H1 Hx. rewrite Qabs_Qmult. rewrite (Qabs_pos A) by exact H0.
  pose proof (Qabs_nonneg x). nra.
Qed.

Lemma small_lt_pow2 (x : Q) : Qabs x <= 4096 -> Qabs x < pow2 1023.
Proof.
  intros H. apply Qle_lt_trans with 4096; [exact H|]. reflexivity.
Qed.

(** A channel mixed in binary64, with a weight that is [W] up to one
    rounding: the five roundings of the mix move it by less than a
    quarter. *)
Lemma mixChannel_float (w : PrimFloat.float) (W : Q) (a b : Z) :
  finite w = true -> rounds_to (value w) W -> 0 <= W -> W <= 1 ->
  is_channel a -> is_channel b ->
  exists m,
    mixChannel w a b = Integer m
    /\ between a b m
    /\ (W == 1 -> m = a)
    /\ (W == 0 -> m = b).
Proof.
  intros Fw Rw HW0 HW1 Ha Hb.
  destruct (literal_channel a Ha) as [Fa Va].
  destruct (literal_channel b Hb) as [Fb Vb].
  destruct (literal_channel 1 ltac:(lia)) as [F1 V1].
  change (inject_Z 1) with 1 in V1.
  unfold mixChannel. cbn [Math_round Float64_round add sub mul Float64].
  set (fa := literal a 1 : PrimFloat.float) in *.
  set (fb := literal b 1 : PrimFloat.float) in *.
  set (one := literal 1 1 : PrimFloat.float) in *.
  assert (HA0 : 0 <= value fa /\ value fa <= 255).
  { rewrite Va. unfold is_channel in Ha. split.
    - change 0 with (inject_Z 0). rewrite <- Zle_Qle. lia.
    - change 255 with (inject_Z 255). rewrite <- Zle_Qle. lia. }
  assert (HB0 : 0 <= value fb /\ value fb <= 255).
  { rewrite Vb. unfold is_channel in Hb. split.
    - change 0 with (inject_Z 0). rewrite <- Zle_Qle. lia.
    - change 255 with (inject_Z 255). rewrite <- Zle_Qle. lia. }
  destruct HA0 as [HA0 HA1]. destruct HB0 as [HB0 HB1].
  assert (He : eps == 1 # 4503599627370496) by reflexivity.
  assert (Heta : eta <= 1 # 4503599627370496)
    by (rewrite <- He; apply pow2_le; lia).
  pose proof eta_pos as Heta0.
  (* the weight *)
  assert (KW : Qabs W <= 1) by (apply Qabs_le_join; lra).
  destruct (rounds_to_bound _ _ _ Rw KW) as [Dw Kw].
  assert (Kw' : Qabs (value w) <= 2) by (rewrite He in Kw; lra).
  (* a * weight *)
  pose proof (product_bound _ _ _ HA0 HA1 Kw') as P1.
  destruct (mul_model fa w Fa Fw) as [Ft1 Rt1].
  { apply small_lt_pow2. lra. }
  destruct (rounds_to_bound _ _ _ Rt1 P1) as [Dt1 Kt1].
  (* 1 - weight *)
  assert (P2 : Qabs (value one - value w) <= 3).
  { apply Qabs_le_split in Kw'. apply Qabs_le_join; lra. }
  destruct (sub_model one w F1 Fw) as [Fu Ru].
  { apply small_lt_pow2. lra. }
  destruct (rounds_to_bound _ _ _ Ru P2) as [Du Ku].
  assert (Ku' : Qabs (value (PrimFloat.sub one w)) <= 4)
    by (rewrite He in Ku; lra).
  (* b * (1 - weight) *)
  pose proof (product_bound _ _ _ HB0 HB1 Ku') as P3.
  destruct (mul_model fb _ Fb Fu) as [Ft2 Rt2].
  { apply small_lt_pow2. lra. }
  destruct (rounds_to_bound _ _ _ Rt2 P3) as [Dt2 Kt2].
  (* the sum *)
  set (t1 := PrimFloat.mul fa w) in *.
  set (u := PrimFloat.sub one w) in *.
  set (t2 := PrimFloat.mul fb u) in *.
  assert (P4 : Qabs (value t1 + value t2) <= 2048).
  { rewrite He in Kt1, Kt2. apply Qabs_le_split in Kt1, Kt2.
    apply Qabs_le_join; lra. }
  destruct (add_model t1 t2 Ft1 Ft2) as [Fv Rv].
  { apply small_lt_pow2. lra. }
  destruct (rounds_to_bound _ _ _ Rv P4) as [Dv _].
  set (v := PrimFloat.add t1 t2) in *.
  rewrite (float_round_finite v Fv).
  eexists. split; [reflexivity|].
  (* the distance to the exact mix *)
  set (X := value fa * W + value fb * (1 - W)).
  assert (DA : Qabs (value fa * (value w - W))
               <= 255 * (eps * 1 + eta))
    by (apply product_bound; assumption).
  assert (DU : Qabs (value u - (1 - W)) <= (eps * 3 + eta) + (eps * 1 + eta)).
  { apply Qabs_le_split in Du, Dw. apply Qabs_le_join; lra. }
  assert (DB : Qabs (value fb * (value u - (1 - W)))
               <= 255 * ((eps * 3 + eta) + (eps * 1 + eta)))
    by (apply product_bound; assumption).
  assert (Herr : Qabs (value v - X) <= 1 # 4).
  { subst X. rewrite He in *.
    apply Qabs_le_split in Dv, Dt1, Dt2, DA, DB.
    apply Qabs_le_join; lra. }
  assert (EX : X == inject_Z a * W + inject_Z b * (1 - W))
    by (subst X; rewrite Va, Vb; reflexivity).
  assert (Hmin : inject_Z (Z.min a b) <= X).
  { rewrite EX. destruct (Z.le_ge_cases a b) as [Hab|Hab].
    - rewrite Z.min_l by assumption. rewrite Zle_Qle in Hab. nra.
    - rewrite Z.min_r by lia.
      rewrite Zle_Qle in Hab. nra. }
  assert (Hmax : X <= inject_Z (Z.max a b)).
  { rewrite EX. destruct (Z.le_ge_cases a b) as [Hab|Hab].
    - rewrite Z.max_r by assumption. rewrite Zle_Qle in Hab. nra.
    - rewrite Z.max_l by lia.
      rewrite Zle_Qle in Hab. nra. }
  split; [|split].
  - exact (round_between _ _ _ _ Herr Hmin Hmax).
  - intros E. apply round_near.
    setoid_replace (inject_Z a) with X; [exact Herr|].
    rewrite EX, E. ring.
  - intros E. apply round_near.
    setoid_replace (inject_Z b) with X; [exact Herr|].
    rewrite EX, E. ring.
Qed.

Local Open Scope Z_scope.

(** A channel is written with the two digits it is read from. *)
Lemma format_channel (n : Z) :
  is_channel n ->
  exists d1 d2,
    padStart2 (toString16 (Integer n)) = [d1; d2]
    /\ hex_value d1 = Some (n / 16) /\ hex_value d2 = Some (n mod 16).
Proof.
  intros Hn.
  assert (Hall :
    forallb (fun k =>
               let n := Z.of_nat k in
               match padStart2 (toString16 (Integer n)) with
               | [d1; d2] =>
                   match hex_value d1, hex_value d2 with
                   | Some h1, Some h2 => (h1 =? n / 16) && (h2 =? n mod 16)
                   | _, _ => false
                   end
               | _ => false
               end) (seq 0 256) = true) by (vm_compute; reflexivity).
  rewrite forallb_forall in Hall. specialize (Hall (Z.to_nat n)).
  unfold is_channel in Hn. cbv zeta in Hall.
  rewrite Z2Nat.id in Hall by lia.
  assert (Hin : In (Z.to_nat n) (seq 0 256)) by (apply in_seq; lia).
  specialize (Hall Hin).
  destruct (padStart2 (toString16 (Integer n))) as [|d1 [|d2 [|d3 rest]]];
    try discriminate Hall.
  destruct (hex_value d1) as [h1|] eqn:H1; [|discriminate Hall].
  destruct (hex_value d2) as [h2|] eqn:H2; [|discriminate Hall].
  apply andb_true_iff in Hall. destruct Hall as [E1 E2].
  apply Z.eqb_eq in E1, E2. subst h1 h2.
  exists d1, d2. split; [reflexivity|]. split; assumption.
Qed.

Lemma between_channel (a b m : Z) :
  is_channel a -> is_channel b -> between a b m -> is_channel m.
Proof. unfold is_channel, between. lia. Qed.

Lemma rgb_eq (c d : Rgb) : r c = r d -> g c = g d -> b c = b d -> c = d.
Proof. destruct c, d. cbn. intros -> -> ->. reflexivity. Qed.

(** X25: mixing two colours.  In binary64, for a percent that is not
    NaN and two colours [parseHexColor] reads with channels from 0 to
    255, [mixHexColors] gives seven characters, [#] and six digits,
    that [parseHexColor] reads as a colour each channel of which lies
    between the channels of the two colours (bounds included); from 100
    percent on (the positive infinity included) it is the foreground
    colour and down from 0 percent the background colour.  When one of
    the two texts is not read as a colour the foreground text is
    returned as it is, whatever the percent. *)
Theorem mixHexColors_between (foreground background : jsstring)
  (percent : PrimFloat.float) :
  match parseHexColor foreground, parseHexColor background with
  | Some fg, Some bg =>
      PrimFloat.is_nan percent = false ->
      is_channel (r fg) -> is_channel (g fg) -> is_channel (b fg) ->
      is_channel (r bg) -> is_channel (g bg) -> is_channel (b bg) ->
      exists m,
        parseHexColor (mixHexColors foreground background percent) = Some m
        /\ length (mixHexColors foreground background percent) = 7%nat
        /\ between (r fg) (r bg) (r m)
        /\ between (g fg) (g bg) (g m)
        /\ between (b fg) (b bg) (b m)
        /\ (PrimFloat.leb (literal 100 1) percent = true -> m = fg)
        /\ (PrimFloat.leb percent (literal 0 1) = true -> m = bg)
  | _, _ => mixHexColors foreground background percent = foreground
  end.
Proof.
  unfold mixHexColors.
  destruct (parseHexColor foreground) as [fg|]; [|reflexivity].
  destruct (parseHexColor background) as [bg|]; [|reflexivity].
  intros Hp Hfr Hfg Hfb Hbr Hbg Hbb. cbv zeta.
  destruct (weight_range percent Hp) as (W & Fw & Rw & HW0 & HW1 & Hw1 & Hw0).
  destruct (mixChannel_float _ W (r fg) (r bg) Fw Rw HW0 HW1 Hfr Hbr)
    as (mr & Er & Br & Ar & Zr).
  destruct (mixChannel_float _ W (g fg) (g bg) Fw Rw HW0 HW1 Hfg Hbg)
    as (mg & Eg & Bg & Ag & Zg).
  destruct (mixChannel_float _ W (b fg) (b bg) Fw Rw HW0 HW1 Hfb Hbb)
    as (mb & Eb & Bb & Ab & Zb).
  rewrite Er, Eg, Eb.
  destruct (format_channel mr (between_channel _ _ _ Hfr Hbr Br))
    as (r1 & r2 & Fr & Hr1 & Hr2).
  destruct (format_channel mg (between_channel _ _ _ Hfg Hbg Bg))
    as (g1 & g2 & Fg & Hg1 & Hg2).
  destruct (format_channel mb (between_channel _ _ _ Hfb Hbb Bb))
    as (b1 & b2 & Fb & Hb1 & Hb2).
  rewrite Fr, Fg, Fb. cbn [app].
  exists {| r := mr; g := mg; b := mb |}. split.
  - rewrite (parse_hash_six r1 r2 g1 g2 b1 b2 _ _ _ _ _ _
               Hr1 Hr2 Hg1 Hg2 Hb1 Hb2).
    f_equal. apply rgb_eq; cbn [r g b]; symmetry; apply Z.div_mod;
      discriminate.
  - split; [reflexivity|]. cbn [r g b].
    split; [exact Br|]. split; [exact Bg|]. split; [exact Bb|]. split.
    + intros H. specialize (Hw1 H).
      apply rgb_eq; cbn [r g b]; [apply Ar | apply Ag | apply Ab]; exact Hw1.
    + intros H. specialize (Hw0 H).
      apply rgb_eq; cbn [r g b]; [apply Zr | apply Zg | apply Zb]; exact Hw0.
Qed.

(** The theorem at white over black, at 20 percent. *)
Lemma mixHexColors_between_witness :
  exists m,
    parseHexColor (mixHexColors (lit "#ffffff") (lit "#000")
                     (literal 20 1 : PrimFloat.float))
    = Some m
    /\ between 255 0 (r m) /\ between 255 0 (g m) /\ between 255 0 (b m).
Proof.
  pose proof (mixHexColors_between (lit "#ffffff") (lit "#000")
                (literal 20 1)) as H.
  change (parseHexColor (lit "#ffffff"))
    with (Some {| r := 255; g := 255; b := 255 |}) in H.
  change (parseHexColor (lit "#000"))
    with (Some {| r := 0; g := 0; b := 0 |}) in H.
  cbv beta iota in H. cbn [r g b] in H.
  destruct H as (m & Hm & _ & Hr & Hg & Hb & _);
    try (unfold is_channel; lia); [reflexivity|].
  exists m. split; [exact Hm|]. split; [exact Hr|]. split; [exact Hg | exact Hb].
Defined.

(** A mix that falls half way between two integers can come out the
    lower one: at 85 percent the channels 13 and 3 mix to 11 (the
    roundings leave the sum just under 11.5), so the colours #0d0d0d
    and #030303 give #0b0b0b.  With NaN for the percent the text is not
    a colour. *)
Remark mixChannel_tie :
  mixChannel (weight_of (literal 85 1 : PrimFloat.float)) 13 3 = Integer 11
  /\ mixHexColors (lit "#0d0d0d") (lit "#030303")
       (literal 85 1 : PrimFloat.float) = lit "#0b0b0b"
  /\ mixHexColors (lit "#ffffff") (lit "#000000") PrimFloat.nan
     = lit "#NaNNaNNaN".
Proof. repeat split; vm_compute; reflexivity. Qed.

End ColourFacts.
